(** * webmix: the audio engines, their scheduling arithmetic and the WAV encoder

    A shallow embedding of
      - [src/utils/audioEngine.ts]    (module [Utils]: play / stop /
        getCurrentTime / renderOffline / bufferToWav), and
      - [src/services/AudioEngine.ts] (module [Services]: schedulePlayback /
        stopAll / exportProject),
    followed by the properties of the engine specification, proved or refuted
    on these definitions; and of what is built on the engines:
      - renderMp3 of [src/utils/audioEngine.ts] (module [Mp3]) and
        serializeBuffers of [src/services/AudioEngine.ts] (module [Assets]),
      - the handlers of [src/App.tsx] (module [App]) and of
        [src/components/Timeline.tsx] (module [Timeline]), which drive
        [Services], and
      - the handlers of the component in [src/unnamed/part_001] (module
        [Studio]), which drive [Utils],
    with further properties of the code.

    Conventions of the embedding.
      - A JavaScript [number] that holds a time, a rate or a gain is a
        rational ([Q]): every finite binary64 number is one.  In the time
        arithmetic of the engines (scheduling, the clock, the frame count
        of an offline render) and of the components (the animation loop,
        the splits, the length of an export, [formatTime]) every operation
        gives the exact result rounded to the nearest binary64 number
        ([+!], [-!], [*!], [/!]); overflow to an infinity and NaN are left
        out.  The pixel geometry of the pointer handlers, the snapping of
        [onClipUpdate], the gains and the end of a volume ramp are
        computed with the exact operations; what is proved of them states
        the code's own expressions.  Comparisons are the boolean tests the source writes.
        Channel samples, where NaN and the infinities change the control
        flow of the encoder, are [float]s (a rational, NaN or a signed
        infinity); a sample is a binary32 number, whose products with
        32767 and 32768 are exact in binary64; sample rates are whole
        numbers of hertz.
      - The Web Audio platform is not part of the repository.  What the
        engines ask of it is recorded, in order, in a log of [call]s.  What
        it answers is a parameter, a [Platform]: whether [start] and [stop]
        of a source node raise, and the buffer that [startRendering] yields
        for an offline graph.  The clock of the live context is read once
        per call and passed to the method as [currentTime].
      - A source node is known by the number the context gave it when it
        was created; the JavaScript [Set] of active sources is the list of
        these numbers in insertion order.
      - Engine methods are computations in a small state-and-exception monad
        [Eff]: they thread the engine object and either complete or throw. *)

From Stdlib Require Import QArith Qround Qabs Qpower ZArith List Bool Lia Lqa.
From Stdlib Require PrimFloat FloatOps SpecFloat Uint63.
From stdpp Require Import gmap strings list fin_maps pretty.

Local Open Scope Q_scope.

(** ** Numbers *)

(** JavaScript's [x < y] on numbers. *)
Definition Qltb (x y : Q) : bool := negb (Qle_bool y x).

(** JavaScript's [x || 1.0] on a number: zero is falsy. *)
Definition or_default (x d : Q) : Q := if Qeq_bool x 0 then d else x.

(** *** binary64

    The nearest integer, ties to the even one. *)
Definition round_half_even (q : Q) : Z :=
  let f := Qfloor q in
  match Qcompare (q - inject_Z f) (1 # 2) with
  | Lt => f
  | Gt => (f + 1)%Z
  | Eq => if Z.even f then f else (f + 1)%Z
  end.

(** The integer part of the binary logarithm of a positive rational. *)
Definition Qlog2 (q : Q) : Z :=
  let k := (Z.log2 (Qnum q) - Z.log2 (Zpos (Qden q)))%Z in
  if Qle_bool (2 ^ k) q then k else (k - 1)%Z.

(** The exponent of the unit in the last place of [q]: 2^(e - 52) for
    2^e <= |q| < 2^(e + 1), and 2^-1074 below 2^-1022. *)
Definition ulp_exponent (q : Q) : Z := Z.max (Qlog2 (Qabs q) - 52) (-1074).

(** The multiple of 2^e nearest to [q], ties to the even multiple. *)
Definition round_to (e : Z) (q : Q) : Q :=
  inject_Z (round_half_even (q / 2 ^ e)) * 2 ^ e.

(** The binary64 number nearest to [q], ties to the even significand, as a
    fraction in lowest terms. *)
Definition binary64 (q : Q) : Q :=
  if Qeq_bool q 0 then 0 else Qred (round_to (ulp_exponent q) q).

(** The arithmetic of JavaScript numbers. *)
Definition add64 (x y : Q) : Q := binary64 (x + y).
Definition sub64 (x y : Q) : Q := binary64 (x - y).
Definition mul64 (x y : Q) : Q := binary64 (x * y).
Definition div64 (x y : Q) : Q := binary64 (x / y).
Infix "+!" := add64 (at level 50, left associativity) : Q_scope.
Infix "-!" := sub64 (at level 50, left associativity) : Q_scope.
Infix "*!" := mul64 (at level 40, left associativity) : Q_scope.
Infix "/!" := div64 (at level 40, left associativity) : Q_scope.

(** The value of one of the kernel's binary64 numbers, if it is finite,
    and the comparison of [binary64] with the kernel's arithmetic. *)
Definition SF2Q (x : SpecFloat.spec_float) : option Q :=
  match x with
  | SpecFloat.S754_zero _ => Some 0
  | SpecFloat.S754_finite s m e =>
    Some (inject_Z (if s then Z.neg m else Z.pos m) * 2 ^ e)
  | _ => None
  end.
Definition value_of (x : PrimFloat.float) : option Q := SF2Q (FloatOps.Prim2SF x).
Definition has_value (x : PrimFloat.float) (q : Q) : bool :=
  match value_of x with
  | Some v => Qeq_bool v q
  | None => false
  end.

(** The kernel's binary64 number nearest to [n / d]. *)
Definition float_of_ratio (n d : Z) : PrimFloat.float :=
  PrimFloat.div (PrimFloat.of_uint63 (Uint63.of_Z n)) (PrimFloat.of_uint63 (Uint63.of_Z d)).

(** ** Completion of a method: state and exceptions *)

Inductive completion (A : Type) : Type :=
| Normal (a : A)
| Throw (e : string).
Arguments Normal {A} a.
Arguments Throw {A} e.

Definition Eff (S A : Type) : Type := S -> completion A * S.

Definition ret {S A} (a : A) : Eff S A := fun s => (Normal a, s).

Definition bind {S A B} (m : Eff S A) (k : A -> Eff S B) : Eff S B :=
  fun s => match m s with
           | (Normal a, s') => k a s'
           | (Throw e, s') => (Throw e, s')
           end.

Definition throw {S A} (e : string) : Eff S A := fun s => (Throw e, s).

(** [try { m } catch (e) { h e }] *)
Definition try_catch {S A} (m : Eff S A) (h : string -> Eff S A) : Eff S A :=
  fun s => match m s with
           | (Normal a, s') => (Normal a, s')
           | (Throw e, s') => h e s'
           end.

Definition get {S} : Eff S S := fun s => (Normal s, s).
Definition modify {S} (f : S -> S) : Eff S unit := fun s => (Normal tt, f s).

Notation "x <- m ;; k" := (bind m (fun x => k))
  (at level 100, m at next level, right associativity).
Notation "m ;; k" := (bind m (fun _ => k))
  (at level 100, right associativity).

(** [xs.forEach(f)]: an exception raised by [f] leaves the loop. *)
Fixpoint forEach {S X} (f : X -> Eff S unit) (xs : list X) : Eff S unit :=
  match xs with
  | [] => ret tt
  | x :: xs' => f x ;; forEach f xs'
  end.

(** The state a computation leaves, whether it completes or throws. *)
Definition state_after {S A} (m : Eff S A) (s : S) : S := snd (m s).

(** ** The Web Audio platform, as far as the engines use it *)

(** Channel samples (Float32Array elements). *)
Inductive float : Type :=
| NaN
| PosInf
| NegInf
| Finite (q : Q).

Module AudioBuffer.
Record t := mk {
  numberOfChannels : nat;
  length : N;                         (* sample frames *)
  sampleRate : Z;                     (* Hz *)
  getChannelData : nat -> nat -> float  (* channel, frame *)
}.
(** The [duration] attribute: length / sampleRate, in seconds. *)
Definition duration (b : t) : Q :=
  inject_Z (Z.of_N (length b)) /! inject_Z (sampleRate b).
End AudioBuffer.

(** Where a source node is connected. *)
Inductive destination : Type :=
| ChainInput (trackId : string)   (* the input gain of a track's chain *)
| MasterGain.

(** The requests the engines make to the audio context, oldest first. *)
Inductive call : Type :=
| CreateBufferSource (node : nat) (buffer : AudioBuffer.t)
                     (playbackRate : Q) (dest : destination)
| Start (node : nat) (when offset duration : Q)
| Stop (node : nat).

(** How an AudioParam was last driven. *)
Inductive automation : Type :=
| SetValue (v : Q)                          (* param.value = v *)
| LinearRamp (v endTime : Q)                (* linearRampToValueAtTime *)
| SetTarget (v startTime timeConstant : Q). (* setTargetAtTime *)

Definition is_static (a : automation) : bool :=
  match a with SetValue _ => true | _ => false end.

(** The AudioParams of a track's chain of nodes (input, three filters,
    delay with feedback and wet gains, volume).  Both engines wire the nodes
    the same way when they build a chain; only the parameters vary. *)
Record TrackChain := {
  chain_eqLow : automation;
  chain_eqMid : automation;
  chain_eqHigh : automation;
  chain_delayNode : automation;      (* delayTime *)
  chain_delayFeedback : automation;
  chain_delayWet : automation;
  chain_volume : automation
}.

(** A source node of an offline context, connected to the input of the
    chain built [input]-th. *)
Record OfflineSource := {
  os_buffer : AudioBuffer.t;
  os_playbackRate : Q;
  os_input : nat;
  os_when : Q;
  os_offset : Q;
  os_duration : Q
}.

(** [new OfflineAudioContext(numberOfChannels, length, sampleRate)] and the
    graph built in it: the chains, each connected to one master gain that
    feeds the destination, and the started sources. *)
Record OfflineAudioContext := {
  oc_numberOfChannels : Z;
  oc_length : Z;
  oc_sampleRate : Z;
  oc_chains : list TrackChain;
  oc_sources : list OfflineSource
}.

Record Platform := {
  (** [source.start(when, offset, duration)] raises for these arguments *)
  start_throws : Q -> Q -> Q -> bool;
  (** [source.stop()] raises on this node (e.g. it is no longer playable) *)
  stop_throws : nat -> bool;
  (** [offlineCtx.startRendering()], resolved *)
  startRendering : OfflineAudioContext -> AudioBuffer.t
}.

(** A platform following the Web Audio rule for [start]: a RangeError for a
    negative argument; [stop] never raises; the offline render of this
    instance is a silent buffer of the requested shape. *)
Definition webAudio : Platform :=
  {| start_throws w o d := Qltb w 0 || Qltb o 0 || Qltb d 0;
     stop_throws _ := false;
     startRendering oc :=
       AudioBuffer.mk (Z.to_nat (oc_numberOfChannels oc))
                      (Z.to_N (oc_length oc)) (oc_sampleRate oc)
                      (fun _ _ => Finite 0) |}.

(** The start requests of a log, as (when, offset, duration). *)
Definition starts (l : list call) : list (Q * Q * Q) :=
  flat_map (fun c => match c with Start _ w o d => [(w, o, d)] | _ => [] end) l.

(** The nodes a log asks to stop. *)
Definition stops (l : list call) : list nat :=
  flat_map (fun c => match c with Stop n => [n] | _ => [] end) l.

(** The source nodes a log creates. *)
Definition created (l : list call) : list nat :=
  flat_map (fun c => match c with CreateBufferSource n _ _ _ => [n] | _ => [] end) l.

(** JavaScript [Set] of node references, in insertion order. *)
Definition set_add (n : nat) (s : list nat) : list nat :=
  if existsb (Nat.eqb n) s then s else s ++ [n].
Definition set_delete (n : nat) (s : list nat) : list nat :=
  List.filter (fun m => negb (Nat.eqb n m)) s.

(** * src/utils/audioEngine.ts *)

Module Utils.

(** ** src/types.ts (the fields the engine reads; name, color and soloed
    are presentation only) *)

Record AudioClip := {
  clip_id : string;
  clip_trackId : string;
  clip_buffer : AudioBuffer.t;
  clip_startTime : Q;
  clip_duration : Q;
  clip_offset : Q
}.

Record TrackEffects := {
  eq_low : Q; eq_mid : Q; eq_high : Q;
  echo_amount : Q; echo_feedback : Q; echo_time : Q
}.

Record Track := {
  track_id : string;
  track_volume : Q;
  track_muted : bool;
  track_playbackRate : Q;
  track_effects : TrackEffects
}.

(** The engine object.  [context] tells whether [this.context] (and with
    it [this.masterGain], assigned together in [init]) is non-null.  The
    last three fields are the platform's side: how many source nodes the
    context has handed out, which of them carry the engine's [onended]
    handler, and the log of requests. *)
Record AudioEngine := {
  context : bool;
  trackChains : gmap string TrackChain;
  activeSources : list nat;
  startTime : Q;
  pausedAt : Q;
  isPlaying : bool;
  nodes : nat;
  onended : list nat;
  calls : list call
}.

(** Assignments to one field of the engine object. *)
Definition with_context b e :=
  {| context := b; trackChains := trackChains e;
     activeSources := activeSources e; startTime := startTime e;
     pausedAt := pausedAt e; isPlaying := isPlaying e; nodes := nodes e;
     onended := onended e; calls := calls e |}.
Definition with_trackChains m e :=
  {| context := context e; trackChains := m;
     activeSources := activeSources e; startTime := startTime e;
     pausedAt := pausedAt e; isPlaying := isPlaying e; nodes := nodes e;
     onended := onended e; calls := calls e |}.
Definition with_activeSources s e :=
  {| context := context e; trackChains := trackChains e;
     activeSources := s; startTime := startTime e;
     pausedAt := pausedAt e; isPlaying := isPlaying e; nodes := nodes e;
     onended := onended e; calls := calls e |}.
Definition with_transport (playing : bool) (start paused : Q) e :=
  {| context := context e; trackChains := trackChains e;
     activeSources := activeSources e; startTime := start;
     pausedAt := paused; isPlaying := playing; nodes := nodes e;
     onended := onended e; calls := calls e |}.
Definition with_isPlaying (playing : bool) e :=
  with_transport playing (startTime e) (pausedAt e) e.
Definition with_nodes n e :=
  {| context := context e; trackChains := trackChains e;
     activeSources := activeSources e; startTime := startTime e;
     pausedAt := pausedAt e; isPlaying := isPlaying e; nodes := n;
     onended := onended e; calls := calls e |}.
Definition with_onended h e :=
  {| context := context e; trackChains := trackChains e;
     activeSources := activeSources e; startTime := startTime e;
     pausedAt := pausedAt e; isPlaying := isPlaying e; nodes := nodes e;
     onended := h; calls := calls e |}.
Definition with_calls l e :=
  {| context := context e; trackChains := trackChains e;
     activeSources := activeSources e; startTime := startTime e;
     pausedAt := pausedAt e; isPlaying := isPlaying e; nodes := nodes e;
     onended := onended e; calls := l |}.

(** [new AudioEngine()] *)
Definition new : AudioEngine :=
  {| context := false; trackChains := ∅; activeSources := [];
     startTime := 0; pausedAt := 0; isPlaying := false;
     nodes := O; onended := []; calls := [] |}.

Definition request (c : call) : Eff AudioEngine unit :=
  modify (fun e => with_calls (calls e ++ [c]) e).

(** ** Platform operations on source nodes *)

(** [context.createBufferSource()], then [source.buffer = ..],
    [source.playbackRate.value = ..] and [source.connect(..)]. *)
Definition createBufferSource (buffer : AudioBuffer.t) (rate : Q)
    (dest : destination) : Eff AudioEngine nat :=
  e <- get ;;
  let source := nodes e in
  modify (with_nodes (S source)) ;;
  request (CreateBufferSource source buffer rate dest) ;;
  ret source.

(** [source.start(when, offset, duration)] *)
Definition source_start (P : Platform) (source : nat) (when offset duration : Q)
    : Eff AudioEngine unit :=
  if start_throws P when offset duration then throw "RangeError"
  else request (Start source when offset duration).

(** [source.stop()] *)
Definition source_stop (P : Platform) (source : nat) : Eff AudioEngine unit :=
  if stop_throws P source then throw "InvalidStateError"
  else request (Stop source).

(** ** init *)

(** Creates the context and the master gain when they are missing; the
    [resume] of a suspended context touches none of the fields modelled. *)
Definition init : Eff AudioEngine unit :=
  modify (fun e => if context e then e else with_context true e).

(** ** Effects chain management *)

Definition createTrackChain (trackId : string) : Eff AudioEngine TrackChain :=
  e <- get ;;
  if negb (context e) then throw "AudioContext not initialized"
  else
    let chain :=
      {| chain_eqLow := SetValue 0; chain_eqMid := SetValue 0;
         chain_eqHigh := SetValue 0; chain_delayNode := SetValue 0;
         chain_delayFeedback := SetValue 1; chain_delayWet := SetValue 1;
         chain_volume := SetValue 1 |} in
    modify (fun e => with_trackChains (<[trackId := chain]> (trackChains e)) e) ;;
    ret chain.

Definition updateTrackParams (currentTime : Q) (track : Track)
    : Eff AudioEngine unit :=
  e <- get ;;
  if negb (context e) then ret tt
  else
    chain <- match trackChains e !! track_id track with
             | Some chain => ret chain
             | None => createTrackChain (track_id track)
             end ;;
    let targetVol := if track_muted track then 0 else track_volume track in
    let fx := track_effects track in
    (* the chain object held by the map is mutated in place *)
    let chain' :=
      {| chain_volume := LinearRamp targetVol (currentTime + (5 # 100));
         chain_eqLow := SetValue (eq_low fx);
         chain_eqMid := SetValue (eq_mid fx);
         chain_eqHigh := SetValue (eq_high fx);
         chain_delayNode := SetValue (echo_time fx);
         chain_delayFeedback := SetValue (echo_feedback fx);
         chain_delayWet := SetValue (echo_amount fx) |} in
    modify (fun e =>
      with_trackChains (<[track_id track := chain']> (trackChains e)) e).

(** ** Playback *)

Definition stop (P : Platform) : Eff AudioEngine unit :=
  e <- get ;;
  forEach (fun source => try_catch (source_stop P source) (fun _ => ret tt))
          (activeSources e) ;;
  modify (with_activeSources []) ;;
  modify (with_isPlaying false).

(** The [onended] handler installed by [play]. *)
Definition ended (source : nat) : Eff AudioEngine unit :=
  e <- get ;;
  if existsb (Nat.eqb source) (onended e)
  then modify (fun e => with_activeSources (set_delete source (activeSources e)) e)
  else ret tt.

(** The "calculation logic" of [play]: [whenToStart], [offsetInBuffer]
    and [durationOfBufferToPlay] of a clip. *)
Definition startArguments (currentTime startOffset playbackRate : Q)
    (clip : AudioClip) : Q * Q * Q :=
  let absoluteStartTime := clip_startTime clip in
  if Qle_bool startOffset absoluteStartTime
  then (currentTime +! (absoluteStartTime -! startOffset),
        clip_offset clip,
        clip_duration clip)
  else
    let timePassedOnTimeline := startOffset -! absoluteStartTime in
    let timePassedInBuffer := timePassedOnTimeline *! playbackRate in
    (currentTime,
     clip_offset clip +! timePassedInBuffer,
     clip_duration clip -! timePassedInBuffer).

(** The body of [clips.forEach(clip => ..)] in [play]; [currentTime] is
    [this.context.currentTime], which does not advance within the call. *)
Definition scheduleClip (P : Platform) (currentTime startOffset : Q)
    (tracks : list Track) (clip : AudioClip) : Eff AudioEngine unit :=
  match List.find (fun t => String.eqb (track_id t) (clip_trackId clip)) tracks with
  | None => ret tt
  | Some track =>
    if track_muted track then ret tt
    else
      let playbackRate := or_default (track_playbackRate track) 1 in
      let effectiveDuration := clip_duration clip /! playbackRate in
      let absoluteStartTime := clip_startTime clip in
      let absoluteEndTime := clip_startTime clip +! effectiveDuration in
      if Qltb absoluteEndTime startOffset then ret tt
      else
        e <- get ;;
        let dest := match trackChains e !! clip_trackId clip with
                    | Some _ => ChainInput (clip_trackId clip)
                    | None => MasterGain
                    end in
        source <- createBufferSource (clip_buffer clip) playbackRate dest ;;
        let '(whenToStart, offsetInBuffer, durationOfBufferToPlay) :=
          startArguments currentTime startOffset playbackRate clip in
        if Qltb 0 durationOfBufferToPlay
           && Qltb offsetInBuffer (AudioBuffer.duration (clip_buffer clip))
        then
          try_catch
            (source_start P source whenToStart offsetInBuffer durationOfBufferToPlay ;;
             modify (fun e => with_activeSources (set_add source (activeSources e)) e) ;;
             modify (fun e => with_onended (onended e ++ [source]) e))
            (fun _ => ret tt (* console.error *))
        else ret tt
  end.

Definition play (P : Platform) (currentTime : Q)
    (clips : list AudioClip) (tracks : list Track) (startOffset : Q)
    : Eff AudioEngine unit :=
  e <- get ;;
  (if isPlaying e then stop P else ret tt) ;;
  init ;;
  e <- get ;;
  if negb (context e) then ret tt
  else
    modify (with_transport true (currentTime -! startOffset) startOffset) ;;
    forEach (updateTrackParams currentTime) tracks ;;
    forEach (scheduleClip P currentTime startOffset tracks) clips.

Definition getCurrentTime (currentTime : Q) (e : AudioEngine) : Q :=
  if negb (isPlaying e) || negb (context e) then pausedAt e
  else currentTime -! startTime e.

(** ** Offline rendering (export) *)

(** What [renderOffline] holds while it builds the graph: the offline
    context and the local map [offlineTrackInputs], which sends a track id
    to the chain whose input it stored last (chains are numbered in the
    order they are built). *)
Record OfflineBuild := {
  offlineCtx : OfflineAudioContext;
  offlineTrackInputs : gmap string nat
}.

(** The body of [tracks.forEach(track => ..)] in [renderOffline]. *)
Definition offlineChain (track : Track) : TrackChain :=
  let fx := track_effects track in
  {| chain_eqLow := SetValue (eq_low fx);
     chain_eqMid := SetValue (eq_mid fx);
     chain_eqHigh := SetValue (eq_high fx);
     chain_delayNode := SetValue (echo_time fx);
     chain_delayFeedback := SetValue (echo_feedback fx);
     chain_delayWet := SetValue (echo_amount fx);
     chain_volume := SetValue (if track_muted track then 0 else track_volume track) |}.

Definition add_chain (c : TrackChain) (oc : OfflineAudioContext) :=
  {| oc_numberOfChannels := oc_numberOfChannels oc; oc_length := oc_length oc;
     oc_sampleRate := oc_sampleRate oc;
     oc_chains := oc_chains oc ++ [c]; oc_sources := oc_sources oc |}.
Definition add_source (s : OfflineSource) (oc : OfflineAudioContext) :=
  {| oc_numberOfChannels := oc_numberOfChannels oc; oc_length := oc_length oc;
     oc_sampleRate := oc_sampleRate oc;
     oc_chains := oc_chains oc; oc_sources := oc_sources oc ++ [s] |}.

Definition renderTrack (track : Track) : Eff OfflineBuild unit :=
  modify (fun b =>
    let input := List.length (oc_chains (offlineCtx b)) in
    {| offlineCtx := add_chain (offlineChain track) (offlineCtx b);
       offlineTrackInputs := <[track_id track := input]> (offlineTrackInputs b) |}).

(** The body of [clips.forEach(clip => ..)] in [renderOffline]. *)
Definition renderClip (P : Platform) (tracks : list Track) (clip : AudioClip)
    : Eff OfflineBuild unit :=
  match List.find (fun t => String.eqb (track_id t) (clip_trackId clip)) tracks with
  | None => ret tt
  | Some track =>
    if track_muted track then ret tt
    else
      b <- get ;;
      match offlineTrackInputs b !! clip_trackId clip with
      | None => ret tt
      | Some trackInput =>
        if start_throws P (clip_startTime clip) (clip_offset clip) (clip_duration clip)
        then throw "RangeError"
        else
          modify (fun b =>
            {| offlineCtx :=
                 add_source
                   {| os_buffer := clip_buffer clip;
                      os_playbackRate := or_default (track_playbackRate track) 1;
                      os_input := trackInput;
                      os_when := clip_startTime clip;
                      os_offset := clip_offset clip;
                      os_duration := clip_duration clip |}
                   (offlineCtx b);
               offlineTrackInputs := offlineTrackInputs b |})
      end
  end.

(** The graph [renderOffline] has built when it calls [startRendering]. *)
Definition offlineGraph (P : Platform) (clips : list AudioClip)
    (tracks : list Track) (totalDuration : Q) : completion OfflineAudioContext * OfflineBuild :=
  let sampleRate := 44100%Z in
  let lengthInSamples := Qceiling (totalDuration *! inject_Z sampleRate) in
  let offlineCtx :=
    {| oc_numberOfChannels := 2; oc_length := lengthInSamples;
       oc_sampleRate := sampleRate; oc_chains := []; oc_sources := [] |} in
  (forEach renderTrack tracks ;;
   forEach (renderClip P tracks) clips ;;
   b <- get ;; ret (Utils.offlineCtx b))
    {| Utils.offlineCtx := offlineCtx; offlineTrackInputs := ∅ |}.

(** The engine object and the live clock are parameters because the
    method is called on the engine while the context runs;
    the body does not read it. *)
Definition renderOffline (P : Platform) (currentTime : Q) (e : AudioEngine)
    (clips : list AudioClip) (tracks : list Track) (totalDuration : Q)
    : completion AudioBuffer.t :=
  match fst (offlineGraph P clips tracks totalDuration) with
  | Normal oc => Normal (startRendering P oc)
  | Throw err => Throw err
  end.

(** ** bufferToWav *)

(** [Math.min(a, x)] and [Math.max(a, x)] for a finite [a]. *)
Definition Math_min (a : Q) (x : float) : float :=
  match x with
  | NaN => NaN
  | PosInf => Finite a
  | NegInf => NegInf
  | Finite q => Finite (if Qltb q a then q else a)
  end.
Definition Math_max (a : Q) (x : float) : float :=
  match x with
  | NaN => NaN
  | PosInf => PosInf
  | NegInf => Finite a
  | Finite q => Finite (if Qltb a q then q else a)
  end.

(** [a + x], [x * a] for a finite positive [a], and [x < 0]. *)
Definition float_add (a : Q) (x : float) : float :=
  match x with Finite q => Finite (a + q) | _ => x end.
Definition float_mul (x : float) (a : Q) : float :=
  match x with Finite q => Finite (q * a) | _ => x end.
Definition float_neg (x : float) : bool :=
  match x with
  | NaN | PosInf => false
  | NegInf => true
  | Finite q => Qltb q 0
  end.

(** Rounding toward zero. *)
Definition Qtruncate (q : Q) : Z := if Qltb q 0 then Qceiling q else Qfloor q.

(** [x | 0]: ToInt32. *)
Definition ToInt32 (x : float) : Z :=
  match x with
  | Finite q => ((Qtruncate q + 2 ^ 31) mod 2 ^ 32 - 2 ^ 31)%Z
  | _ => 0%Z
  end.

(** The two assignments to [sample] in the inner loop. *)
Definition sampleToInt (x : float) : Z :=
  let sample := Math_max (-1) (Math_min 1 x) in
  ToInt32 (if float_neg (float_add (1 # 2) sample)
           then float_mul sample 32768
           else float_mul sample 32767).

(** The [n] little-endian bytes of [x] modulo [256 ^ n]. *)
Fixpoint le_bytes (n : nat) (x : Z) : list Z :=
  match n with
  | O => []
  | S n' => (x mod 256)%Z :: le_bytes n' (x / 256)%Z
  end.

(** Writing bytes into a DataView; [None] is the RangeError of a write
    that does not fit. *)
Definition store (at_ : nat) (bytes view : list Z) : option (list Z) :=
  if (at_ + List.length bytes <=? List.length view)%nat
  then Some (take at_ view ++ bytes ++ drop (at_ + List.length bytes) view)
  else None.

(** The variables [view], [pos] and [offset] that [bufferToWav] and its
    two local functions share. *)
Record WavWriter := { view : list Z; pos : nat; offset : nat }.

Definition view_set (at_ n : nat) (data : Z) : Eff WavWriter unit :=
  fun w => match store at_ (le_bytes n data) (view w) with
           | Some v => (Normal tt, {| view := v; pos := pos w; offset := offset w |})
           | None => (Throw "RangeError", w)
           end.
Definition advance_pos (k : nat) : Eff WavWriter unit :=
  modify (fun w => {| view := view w; pos := (pos w + k)%nat; offset := offset w |}).
Definition advance_offset (k : nat) : Eff WavWriter unit :=
  modify (fun w => {| view := view w; pos := pos w; offset := (offset w + k)%nat |}).

Definition setUint16 (data : Z) : Eff WavWriter unit :=
  w <- get ;; view_set (pos w) 2 data ;; advance_pos 2.
Definition setUint32 (data : Z) : Eff WavWriter unit :=
  w <- get ;; view_set (pos w) 4 data ;; advance_pos 4.

(** The [for] loop over the channels of one frame. *)
Definition writeFrame (abuffer : AudioBuffer.t) : Eff WavWriter unit :=
  forEach (fun i =>
             w <- get ;;
             let sample := sampleToInt (AudioBuffer.getChannelData abuffer i (pos w)) in
             view_set (44 + offset w) 2 sample ;;
             advance_offset 2)
          (seq 0 (AudioBuffer.numberOfChannels abuffer)).

(** [while (pos < abuffer.length) { ..; pos++ }].  Every turn advances
    [pos], so [abuffer.length] turns are enough; running out of turns with
    the test still true is reported as an exception. *)
Fixpoint writeFrames (turns : nat) (abuffer : AudioBuffer.t) : Eff WavWriter unit :=
  w <- get ;;
  if (pos w <? N.to_nat (AudioBuffer.length abuffer))%nat
  then match turns with
       | O => throw "out of turns"
       | S turns' =>
         writeFrame abuffer ;; advance_pos 1 ;; writeFrames turns' abuffer
       end
  else ret tt.

Definition bufferToWav (abuffer : AudioBuffer.t) : completion (list Z) :=
  let numOfChan := AudioBuffer.numberOfChannels abuffer in
  let length := (N.to_nat (AudioBuffer.length abuffer) * numOfChan * 2 + 44)%nat in
  let run :=
    setUint32 0x46464952 ;;                      (* "RIFF" *)
    setUint32 (Z.of_nat length - 8) ;;           (* file length - 8 *)
    setUint32 0x45564157 ;;                      (* "WAVE" *)
    setUint32 0x20746d66 ;;                      (* "fmt " chunk *)
    setUint32 16 ;;                              (* length = 16 *)
    setUint16 1 ;;                               (* PCM *)
    setUint16 (Z.of_nat numOfChan) ;;
    setUint32 (AudioBuffer.sampleRate abuffer) ;;
    setUint32 (AudioBuffer.sampleRate abuffer * 2 * Z.of_nat numOfChan) ;; (* avg. bytes/sec *)
    setUint16 (Z.of_nat numOfChan * 2) ;;        (* block-align *)
    setUint16 16 ;;                              (* 16-bit *)
    setUint32 0x61746164 ;;                      (* "data" - chunk *)
    (w <- get ;; setUint32 (Z.of_nat length - Z.of_nat (pos w) - 4)) ;; (* chunk length *)
    writeFrames (N.to_nat (AudioBuffer.length abuffer)) abuffer in
  match run {| view := replicate length 0%Z; pos := 0; offset := 0 |} with
  | (Normal _, w) => Normal (view w)
  | (Throw e, _) => Throw e
  end.

End Utils.

(** * src/services/AudioEngine.ts *)

Module Services.

(** ** The types this engine imports from its [types] module (the fields
    the engine reads) *)

Record EffectSettings := {
  eqLow : Q; eqMid : Q; eqHigh : Q;
  delayTime : Q; delayFeedback : Q; delayMix : Q
}.

Record AudioClip := {
  clip_id : string;
  clip_bufferId : string;
  clip_startTime : Q;
  clip_offset : Q;
  clip_duration : Q;
  clip_trackId : string
}.

Record Track := {
  track_id : string;
  track_volume : Q;
  track_isMuted : bool;
  track_effects : EffectSettings
}.

(** The engine object; [ctx] and [masterGain] are created by the
    constructor and never reassigned.  The last three fields are the
    platform's side, as in [Utils.AudioEngine]. *)
Record AudioEngine := {
  bufferMap : gmap string AudioBuffer.t;
  activeSources : list nat;
  trackNodes : gmap string TrackChain;
  nodes : nat;
  onended : list nat;
  calls : list call
}.

(** Assignments to one field of the engine object. *)
Definition with_bufferMap m e :=
  {| bufferMap := m; activeSources := activeSources e;
     trackNodes := trackNodes e; nodes := nodes e;
     onended := onended e; calls := calls e |}.
Definition with_activeSources s e :=
  {| bufferMap := bufferMap e; activeSources := s;
     trackNodes := trackNodes e; nodes := nodes e;
     onended := onended e; calls := calls e |}.
Definition with_trackNodes m e :=
  {| bufferMap := bufferMap e; activeSources := activeSources e;
     trackNodes := m; nodes := nodes e;
     onended := onended e; calls := calls e |}.
Definition with_nodes n e :=
  {| bufferMap := bufferMap e; activeSources := activeSources e;
     trackNodes := trackNodes e; nodes := n;
     onended := onended e; calls := calls e |}.
Definition with_onended h e :=
  {| bufferMap := bufferMap e; activeSources := activeSources e;
     trackNodes := trackNodes e; nodes := nodes e;
     onended := h; calls := calls e |}.
Definition with_calls l e :=
  {| bufferMap := bufferMap e; activeSources := activeSources e;
     trackNodes := trackNodes e; nodes := nodes e;
     onended := onended e; calls := l |}.

(** [new AudioEngine()] *)
Definition new : AudioEngine :=
  {| bufferMap := ∅; activeSources := []; trackNodes := ∅;
     nodes := O; onended := []; calls := [] |}.

Definition request (c : call) : Eff AudioEngine unit :=
  modify (fun e => with_calls (calls e ++ [c]) e).

Definition addBuffer (id : string) (buffer : AudioBuffer.t) : Eff AudioEngine unit :=
  modify (fun e => with_bufferMap (<[id := buffer]> (bufferMap e)) e).

Definition getBuffer (id : string) (e : AudioEngine) : option AudioBuffer.t :=
  bufferMap e !! id.

(** [Math.max(a, x)] on numbers. *)
Definition Math_max (a x : Q) : Q := if Qltb a x then x else a.

Definition updateTrackParams (currentTime : Q) (track : Track)
    : Eff AudioEngine unit :=
  e <- get ;;
  match trackNodes e !! track_id track with
  | None => ret tt
  | Some _ =>
    let vol := if track_isMuted track then 0 else track_volume track in
    let fx := track_effects track in
    let dTime := Math_max (1 # 100) (delayTime fx) in
    (* the nodes held by the map are driven in place *)
    let nodes' :=
      {| chain_volume := SetTarget vol currentTime (5 # 100);
         chain_eqLow := SetTarget (eqLow fx) currentTime (1 # 10);
         chain_eqMid := SetTarget (eqMid fx) currentTime (1 # 10);
         chain_eqHigh := SetTarget (eqHigh fx) currentTime (1 # 10);
         chain_delayNode := SetTarget dTime currentTime (1 # 10);
         chain_delayFeedback := SetTarget (delayFeedback fx) currentTime (1 # 10);
         chain_delayWet := SetTarget (delayMix fx) currentTime (1 # 10) |} in
    modify (fun e => with_trackNodes (<[track_id track := nodes']> (trackNodes e)) e)
  end.

Definition setupTrack (currentTime : Q) (track : Track) : Eff AudioEngine unit :=
  e <- get ;;
  match trackNodes e !! track_id track with
  | Some _ => updateTrackParams currentTime track
  | None =>
    let fresh :=
      {| chain_eqLow := SetValue 0; chain_eqMid := SetValue 0;
         chain_eqHigh := SetValue 0; chain_delayNode := SetValue 0;
         chain_delayFeedback := SetValue 1; chain_delayWet := SetValue 1;
         chain_volume := SetValue 1 |} in
    modify (fun e => with_trackNodes (<[track_id track := fresh]> (trackNodes e)) e) ;;
    updateTrackParams currentTime track
  end.

(** [s.stop()] *)
Definition source_stop (P : Platform) (source : nat) : Eff AudioEngine unit :=
  if stop_throws P source then throw "InvalidStateError"
  else request (Stop source).

Definition stopAll (P : Platform) : Eff AudioEngine unit :=
  e <- get ;;
  forEach (fun s => try_catch (source_stop P s) (fun _ => ret tt))
          (activeSources e) ;;
  modify (with_activeSources []).

(** The [onended] handler installed by [playSource]. *)
Definition ended (source : nat) : Eff AudioEngine unit :=
  e <- get ;;
  if existsb (Nat.eqb source) (onended e)
  then modify (fun e => with_activeSources (set_delete source (activeSources e)) e)
  else ret tt.

Definition playSource (P : Platform) (buffer : AudioBuffer.t)
    (destination_ : destination) (when offset duration : Q)
    : Eff AudioEngine unit :=
  e <- get ;;
  let source := nodes e in
  modify (with_nodes (S source)) ;;
  request (CreateBufferSource source buffer 1 destination_) ;;
  (if start_throws P when offset duration then throw "RangeError"
   else request (Start source when offset duration)) ;;
  modify (fun e => with_activeSources (set_add source (activeSources e)) e) ;;
  modify (fun e => with_onended (onended e ++ [source]) e).

(** The body of [clips.forEach(clip => ..)] in [schedulePlayback]. *)
Definition scheduleClip (P : Platform) (startTime startOffset : Q)
    (clip : AudioClip) : Eff AudioEngine unit :=
  e <- get ;;
  match bufferMap e !! clip_bufferId clip, trackNodes e !! clip_trackId clip with
  | Some buffer, Some _ =>
    let input := ChainInput (clip_trackId clip) in
    if Qle_bool startOffset (clip_startTime clip)
    then
      let whenToPlay := startTime +! (clip_startTime clip -! startOffset) in
      playSource P buffer input whenToPlay (clip_offset clip) (clip_duration clip)
    else if Qltb startOffset (clip_startTime clip +! clip_duration clip)
    then
      let timeAlreadyPassed := startOffset -! clip_startTime clip in
      let newOffset := clip_offset clip +! timeAlreadyPassed in
      let remainingDur := clip_duration clip -! timeAlreadyPassed in
      playSource P buffer input startTime newOffset remainingDur
    else ret tt
  | _, _ => ret tt
  end.

(** [currentTime] is [this.ctx.currentTime]; [resume] does not touch the
    fields modelled here. *)
Definition schedulePlayback (P : Platform) (currentTime : Q)
    (clips : list AudioClip) (startOffset : Q) (tracks : list Track)
    : Eff AudioEngine unit :=
  stopAll P ;;
  forEach (setupTrack currentTime) tracks ;;
  let startTime := currentTime in
  forEach (scheduleClip P startTime startOffset) clips.

(** ** exportProject *)

Record OfflineBuild := {
  offlineCtx : OfflineAudioContext;
  offlineTrackNodes : gmap string nat
}.

Definition offlineChain (track : Track) : TrackChain :=
  let fx := track_effects track in
  let vol := if track_isMuted track then 0 else track_volume track in
  let dTime := Math_max (1 # 100) (delayTime fx) in
  {| chain_volume := SetValue vol;
     chain_eqLow := SetValue (eqLow fx);
     chain_eqMid := SetValue (eqMid fx);
     chain_eqHigh := SetValue (eqHigh fx);
     chain_delayNode := SetValue dTime;
     chain_delayFeedback := SetValue (delayFeedback fx);
     chain_delayWet := SetValue (delayMix fx) |}.

Definition exportTrack (track : Track) : Eff OfflineBuild unit :=
  modify (fun b =>
    let input := List.length (oc_chains (offlineCtx b)) in
    {| offlineCtx := Utils.add_chain (offlineChain track) (offlineCtx b);
       offlineTrackNodes := <[track_id track := input]> (offlineTrackNodes b) |}).

(** The body of [clips.forEach(clip => ..)] in [exportProject]. *)
Definition exportClip (P : Platform) (e : AudioEngine) (clip : AudioClip)
    : Eff OfflineBuild unit :=
  b <- get ;;
  match bufferMap e !! clip_bufferId clip, offlineTrackNodes b !! clip_trackId clip with
  | Some buffer, Some dest =>
    if start_throws P (clip_startTime clip) (clip_offset clip) (clip_duration clip)
    then throw "RangeError"
    else
      modify (fun b =>
        {| offlineCtx :=
             Utils.add_source
               {| os_buffer := buffer; os_playbackRate := 1; os_input := dest;
                  os_when := clip_startTime clip;
                  os_offset := clip_offset clip;
                  os_duration := clip_duration clip |}
               (offlineCtx b);
           offlineTrackNodes := offlineTrackNodes b |})
  | _, _ => ret tt
  end.

(** The graph [exportProject] has built when it calls [startRendering]. *)
Definition offlineGraph (P : Platform) (e : AudioEngine)
    (clips : list AudioClip) (tracks : list Track) (totalDuration : Q)
    : completion OfflineAudioContext * OfflineBuild :=
  let offlineCtx :=
    {| oc_numberOfChannels := 2;
       oc_length := Qceiling (totalDuration *! 44100);
       oc_sampleRate := 44100; oc_chains := []; oc_sources := [] |} in
  (forEach exportTrack tracks ;;
   forEach (exportClip P e) clips ;;
   b <- get ;; ret (Services.offlineCtx b))
    {| Services.offlineCtx := offlineCtx; offlineTrackNodes := ∅ |}.

(** [audioBufferToWav] comes from the engine's [audioUtils] module, which
    is not among the sources: it is a parameter.  [currentTime] is the
    live context's clock at the call; the body never reads it. *)
Definition exportProject (audioBufferToWav : AudioBuffer.t -> list Z)
    (P : Platform) (currentTime : Q) (e : AudioEngine)
    (clips : list AudioClip) (tracks : list Track) (totalDuration : Q)
    : completion (list Z) :=
  match fst (offlineGraph P e clips tracks totalDuration) with
  | Normal oc =>
    let renderedBuffer := startRendering P oc in
    Normal (audioBufferToWav renderedBuffer)
  | Throw err => Throw err
  end.

End Services.

(** * Observations used by the properties *)

(** The start requests one clip adds to the log in [Utils.play]: those of
    its step of the loop, taken on an engine with an empty log. *)
Definition Utils_clipStarts (P : Platform) (currentTime startOffset : Q)
    (tracks : list Utils.Track) (clip : Utils.AudioClip) : list (Q * Q * Q) :=
  starts (Utils.calls
            (state_after (Utils.scheduleClip P currentTime startOffset tracks clip)
                         Utils.new)).

(** [tracks.find(t => t.id === clip.trackId)] *)
Definition Utils_trackOf (tracks : list Utils.Track) (clip : Utils.AudioClip)
    : option Utils.Track :=
  List.find (fun t => String.eqb (Utils.track_id t) (Utils.clip_trackId clip)) tracks.

Definition option_list {A} (o : option A) : list A :=
  match o with Some a => [a] | None => [] end.

(** ** The scheduling rule in the specification's words

    "If clip.startTime >= atTime: the voice starts at now + (clip.startTime -
    atTime), reading from clip.offset for clip.duration.  Else if
    clip.startTime + clip.duration / playbackRate > atTime: the voice starts
    at now, reading from clip.offset + elapsedBuffer for clip.duration -
    elapsedBuffer, where elapsedBuffer = (atTime - clip.startTime) *
    playbackRate.  Else: skip."  The operations are those of JavaScript
    numbers. *)
Definition spec_voice (now atTime playbackRate : Q) (clip : Utils.AudioClip)
    : option (Q * Q * Q) :=
  if Qle_bool atTime (Utils.clip_startTime clip)
  then Some (now +! (Utils.clip_startTime clip -! atTime),
             Utils.clip_offset clip,
             Utils.clip_duration clip)
  else if Qltb atTime (Utils.clip_startTime clip +! Utils.clip_duration clip /! playbackRate)
  then
    let elapsedTimeline := atTime -! Utils.clip_startTime clip in
    let elapsedBuffer := elapsedTimeline *! playbackRate in
    Some (now, Utils.clip_offset clip +! elapsedBuffer,
          Utils.clip_duration clip -! elapsedBuffer)
  else None.

(** The rule, applied to the clips whose track exists and is not muted. *)
Definition spec_voices (now atTime : Q) (tracks : list Utils.Track)
    (clip : Utils.AudioClip) : list (Q * Q * Q) :=
  match Utils_trackOf tracks clip with
  | Some track =>
    if Utils.track_muted track then []
    else option_list (spec_voice now atTime (Utils.track_playbackRate track) clip)
  | None => []
  end.

(** ** The rule that [play] follows

    A clip whose end on the timeline, [startTime + duration / rate], lies
    before the seek point has no voice.  Else a clip that starts at or after
    the seek point has the voice of the specification's rule for a future
    clip, and a clip that has begun the voice of its rule for a straddling
    clip.  [rate] is the playback rate of the clip's track, 1 for a rate of
    0. *)
Definition play_voice (now atTime rate : Q) (clip : Utils.AudioClip)
    : option (Q * Q * Q) :=
  if Qltb (Utils.clip_startTime clip +! Utils.clip_duration clip /! rate) atTime
  then None
  else if Qle_bool atTime (Utils.clip_startTime clip)
  then Some (now +! (Utils.clip_startTime clip -! atTime),
             Utils.clip_offset clip,
             Utils.clip_duration clip)
  else
    let elapsedBuffer := (atTime -! Utils.clip_startTime clip) *! rate in
    Some (now, Utils.clip_offset clip +! elapsedBuffer,
          Utils.clip_duration clip -! elapsedBuffer).

(** The guard of [play]: the voice is started when its duration is
    positive, its read offset lies inside the buffer and the platform
    accepts the request. *)
Definition passes_guard (P : Platform) (clip : Utils.AudioClip) (v : Q * Q * Q) : bool :=
  let '(when, offset, duration) := v in
  Qltb 0 duration
  && Qltb offset (AudioBuffer.duration (Utils.clip_buffer clip))
  && negb (start_throws P when offset duration).

(** The rule with the guard, applied to the clips whose track exists and
    is not muted. *)
Definition guarded_voices (P : Platform) (now atTime : Q)
    (tracks : list Utils.Track) (clip : Utils.AudioClip) : list (Q * Q * Q) :=
  match Utils_trackOf tracks clip with
  | Some track =>
    if Utils.track_muted track then []
    else
      match play_voice now atTime (or_default (Utils.track_playbackRate track) 1) clip with
      | Some v => if passes_guard P clip v then [v] else []
      | None => []
      end
  | None => []
  end.

(** ** The engines as state machines

    One step is one call of a public method, or one firing of the [onended]
    handler of a source, on the engine object. *)

Inductive Utils_step (P : Platform) : Utils.AudioEngine -> Utils.AudioEngine -> Prop :=
| Utils_step_init e :
    Utils_step P e (state_after Utils.init e)
| Utils_step_updateTrackParams now track e :
    Utils_step P e (state_after (Utils.updateTrackParams now track) e)
| Utils_step_play now clips tracks startOffset e :
    Utils_step P e (state_after (Utils.play P now clips tracks startOffset) e)
| Utils_step_stop e :
    Utils_step P e (state_after (Utils.stop P) e)
| Utils_step_ended source e :
    Utils_step P e (state_after (Utils.ended source) e).

Definition Utils_reachable (P : Platform) (e : Utils.AudioEngine) : Prop :=
  rtc (Utils_step P) Utils.new e.

Inductive Services_step (P : Platform)
  : Services.AudioEngine -> Services.AudioEngine -> Prop :=
| Services_step_addBuffer id buffer e :
    Services_step P e (state_after (Services.addBuffer id buffer) e)
| Services_step_setupTrack now track e :
    Services_step P e (state_after (Services.setupTrack now track) e)
| Services_step_updateTrackParams now track e :
    Services_step P e (state_after (Services.updateTrackParams now track) e)
| Services_step_schedulePlayback now clips startOffset tracks e :
    Services_step P e
      (state_after (Services.schedulePlayback P now clips startOffset tracks) e)
| Services_step_stopAll e :
    Services_step P e (state_after (Services.stopAll P) e)
| Services_step_ended source e :
    Services_step P e (state_after (Services.ended source) e).

Definition Services_reachable (P : Platform) (e : Services.AudioEngine) : Prop :=
  rtc (Services_step P) Services.new e.

(** The sources of a set on which [stop()] does not raise. *)
Definition live (P : Platform) (sources : list nat) : list nat :=
  List.filter (fun n => negb (stop_throws P n)) sources.

(** The engine as [play] prepares it before it writes the transport:
    stopped if it was playing, then initialised. *)
Definition Utils_prepared (P : Platform) (e : Utils.AudioEngine) : Utils.AudioEngine :=
  let e1 := if Utils.isPlaying e then state_after (Utils.stop P) e else e in
  state_after Utils.init e1.

(** ** Sample data for the closed instances *)

(** Two seconds of silence, mono, at 44100 Hz. *)
Definition silence2s : AudioBuffer.t :=
  AudioBuffer.mk 1 88200 44100 (fun _ _ => Finite 0).

Definition flat : Utils.TrackEffects :=
  {| Utils.eq_low := 0; Utils.eq_mid := 0; Utils.eq_high := 0;
     Utils.echo_amount := 0; Utils.echo_feedback := 0; Utils.echo_time := 0 |}.

Definition track1 : Utils.Track :=
  {| Utils.track_id := "t1"; Utils.track_volume := 1; Utils.track_muted := false;
     Utils.track_playbackRate := 1; Utils.track_effects := flat |}.

Definition track1_muted : Utils.Track :=
  {| Utils.track_id := "t1"; Utils.track_volume := 1; Utils.track_muted := true;
     Utils.track_playbackRate := 1; Utils.track_effects := flat |}.

(** A clip of the whole buffer placed at second 1. *)
Definition clip_at_1 : Utils.AudioClip :=
  {| Utils.clip_id := "a"; Utils.clip_trackId := "t1"; Utils.clip_buffer := silence2s;
     Utils.clip_startTime := 1; Utils.clip_duration := 2; Utils.clip_offset := 0 |}.

(** A clip of no length placed at second 1. *)
Definition empty_clip : Utils.AudioClip :=
  {| Utils.clip_id := "b"; Utils.clip_trackId := "t1"; Utils.clip_buffer := silence2s;
     Utils.clip_startTime := 1; Utils.clip_duration := 0; Utils.clip_offset := 0 |}.

(** A clip that reads from second 3 of the two-second buffer. *)
Definition clip_past_buffer : Utils.AudioClip :=
  {| Utils.clip_id := "c"; Utils.clip_trackId := "t1"; Utils.clip_buffer := silence2s;
     Utils.clip_startTime := 1; Utils.clip_duration := 1; Utils.clip_offset := 3 |}.

(** A track that plays backwards, a clip placed at second 3 and a clip that
    reads from before the start of its buffer. *)
Definition reversed_track : Utils.Track :=
  {| Utils.track_id := "t1"; Utils.track_volume := 1; Utils.track_muted := false;
     Utils.track_playbackRate := -1; Utils.track_effects := flat |}.

Definition clip_at_3 : Utils.AudioClip :=
  {| Utils.clip_id := "d"; Utils.clip_trackId := "t1"; Utils.clip_buffer := silence2s;
     Utils.clip_startTime := 3; Utils.clip_duration := 2; Utils.clip_offset := 0 |}.

Definition clip_before_buffer : Utils.AudioClip :=
  {| Utils.clip_id := "e"; Utils.clip_trackId := "t1"; Utils.clip_buffer := silence2s;
     Utils.clip_startTime := 1; Utils.clip_duration := 1; Utils.clip_offset := -1 |}.

(** ** The claims as worded, where the code departs from them *)

(** C1 as worded: the start requests of a call of [play] are those of the
    three-way rule, for the clips whose track exists and is not muted. *)
Definition C1_as_stated (P : Platform) (now : Q) (e : Utils.AudioEngine)
    (clips : list Utils.AudioClip) (tracks : list Utils.Track) (atTime : Q) : Prop :=
  starts (Utils.calls (state_after (Utils.play P now clips tracks atTime) e))
  = starts (Utils.calls e) ++ flat_map (spec_voices now atTime tracks) clips.

(** C2 as worded, for the live mix of [Services]: when every clip sits on a
    muted track, scheduling creates no source node and starts none. *)
Definition Services_trackOf (tracks : list Services.Track) (clip : Services.AudioClip)
    : option Services.Track :=
  List.find (fun t => String.eqb (Services.track_id t) (Services.clip_trackId clip)) tracks.

Definition Services_muted (tracks : list Services.Track) (clip : Services.AudioClip) : bool :=
  match Services_trackOf tracks clip with
  | Some t => Services.track_isMuted t
  | None => false
  end.

Definition Utils_muted (tracks : list Utils.Track) (clip : Utils.AudioClip) : bool :=
  match Utils_trackOf tracks clip with
  | Some t => Utils.track_muted t
  | None => false
  end.

Definition C2_as_stated_live (P : Platform) (now : Q) (e : Services.AudioEngine)
    (clips : list Services.AudioClip) (startOffset : Q) (tracks : list Services.Track)
    : Prop :=
  forallb (Services_muted tracks) clips = true ->
  let e' := state_after (Services.schedulePlayback P now clips startOffset tracks) e in
  created (Services.calls e') = created (Services.calls e)
  /\ starts (Services.calls e') = starts (Services.calls e).

(** C2 as worded, for the offline render of [Services]. *)
Definition C2_as_stated_offline (P : Platform) (e : Services.AudioEngine)
    (clips : list Services.AudioClip) (tracks : list Services.Track) (totalDuration : Q)
    : Prop :=
  forallb (Services_muted tracks) clips = true ->
  forall oc, fst (Services.offlineGraph P e clips tracks totalDuration) = Normal oc ->
             oc_sources oc = [].

(** Sample data for [Services]: a muted track, a clip on it, and an engine
    that holds the clip's buffer. *)
Definition no_effects : Services.EffectSettings :=
  {| Services.eqLow := 0; Services.eqMid := 0; Services.eqHigh := 0;
     Services.delayTime := 3 # 10; Services.delayFeedback := 0;
     Services.delayMix := 0 |}.

Definition muted_track : Services.Track :=
  {| Services.track_id := "t1"; Services.track_volume := 1;
     Services.track_isMuted := true; Services.track_effects := no_effects |}.

Definition open_track : Services.Track :=
  {| Services.track_id := "t1"; Services.track_volume := 1;
     Services.track_isMuted := false; Services.track_effects := no_effects |}.

Definition clip_on_t1 : Services.AudioClip :=
  {| Services.clip_id := "a"; Services.clip_bufferId := "b1";
     Services.clip_startTime := 0; Services.clip_offset := 0;
     Services.clip_duration := 2; Services.clip_trackId := "t1" |}.

Definition engine_with_b1 : Services.AudioEngine :=
  state_after (Services.addBuffer "b1" silence2s) Services.new.

(** A clip of no length, a clip that reads from second 3 of the two-second
    buffer and a clip of negative length, all placed at second 1. *)
Definition empty_clip_on_t1 : Services.AudioClip :=
  {| Services.clip_id := "b"; Services.clip_bufferId := "b1";
     Services.clip_startTime := 1; Services.clip_offset := 0;
     Services.clip_duration := 0; Services.clip_trackId := "t1" |}.

Definition clip_past_buffer_on_t1 : Services.AudioClip :=
  {| Services.clip_id := "c"; Services.clip_bufferId := "b1";
     Services.clip_startTime := 1; Services.clip_offset := 3;
     Services.clip_duration := 1; Services.clip_trackId := "t1" |}.

Definition negative_clip_on_t1 : Services.AudioClip :=
  {| Services.clip_id := "d"; Services.clip_bufferId := "b1";
     Services.clip_startTime := 1; Services.clip_offset := 0;
     Services.clip_duration := -1; Services.clip_trackId := "t1" |}.

(** ** Clips whose lookups succeed (C6) *)

Definition has_track (tracks : list Services.Track) (trackId : string) : bool :=
  existsb (fun t => String.eqb (Services.track_id t) trackId) tracks.

(** The clip's buffer is in the sample store, and its track has a chain:
    one registered before the call, or one of the call's [tracks]. *)
Definition Services_playable (e : Services.AudioEngine) (tracks : list Services.Track)
    (clip : Services.AudioClip) : bool :=
  match Services.bufferMap e !! Services.clip_bufferId clip with
  | Some _ =>
    match Services.trackNodes e !! Services.clip_trackId clip with
    | Some _ => true
    | None => has_track tracks (Services.clip_trackId clip)
    end
  | None => false
  end.

(** The clip's buffer is in the sample store and its track is one of the
    rendered [tracks]. *)
Definition Services_exportable (e : Services.AudioEngine) (tracks : list Services.Track)
    (clip : Services.AudioClip) : bool :=
  match Services.bufferMap e !! Services.clip_bufferId clip with
  | Some _ => has_track tracks (Services.clip_trackId clip)
  | None => false
  end.

(** ** The chain a track id is routed to in an offline graph

    Both offline renders store the input of each chain under the track's id
    as they build the chains, so an id used twice is routed to the chain
    built last.  [input_of base ids id acc] is the entry for [id] after the
    chains of [ids] were built, numbered from [base], on top of an entry
    [acc]. *)
Fixpoint input_of (base : nat) (ids : list string) (id : string) (acc : option nat)
    : option nat :=
  match ids with
  | [] => acc
  | x :: ids' => input_of (S base) ids' id (if String.eqb x id then Some base else acc)
  end.

(** The sources an offline render schedules for one clip, given the routing
    [inputs] of track ids to chains: one source at the clip's [startTime],
    reading [duration] seconds from [offset], for a clip whose lookups
    succeed (and, in [Utils], whose track is not muted); none otherwise. *)
Definition Utils_offline_sources (tracks : list Utils.Track)
    (inputs : string -> option nat) (clip : Utils.AudioClip) : list OfflineSource :=
  match Utils_trackOf tracks clip with
  | Some track =>
    if Utils.track_muted track then []
    else
      match inputs (Utils.clip_trackId clip) with
      | Some input =>
        [ {| os_buffer := Utils.clip_buffer clip;
             os_playbackRate := or_default (Utils.track_playbackRate track) 1;
             os_input := input;
             os_when := Utils.clip_startTime clip;
             os_offset := Utils.clip_offset clip;
             os_duration := Utils.clip_duration clip |} ]
      | None => []
      end
  | None => []
  end.

Definition Services_offline_sources (e : Services.AudioEngine)
    (inputs : string -> option nat) (clip : Services.AudioClip) : list OfflineSource :=
  match Services.bufferMap e !! Services.clip_bufferId clip,
        inputs (Services.clip_trackId clip) with
  | Some buffer, Some input =>
    [ {| os_buffer := buffer;
         os_playbackRate := 1;
         os_input := input;
         os_when := Services.clip_startTime clip;
         os_offset := Services.clip_offset clip;
         os_duration := Services.clip_duration clip |} ]
  | _, _ => []
  end.

(** The platform accepts the start request of every clip of the list. *)
Definition Services_starts_accepted (P : Platform) (clips : list Services.AudioClip) : Prop :=
  List.Forall (fun c => start_throws P (Services.clip_startTime c) (Services.clip_offset c)
                          (Services.clip_duration c) = false) clips.

(** The platform accepts the start request of every source of the list. *)
Definition sources_accepted (P : Platform) (sources : list OfflineSource) : Prop :=
  List.Forall (fun s => start_throws P (os_when s) (os_offset s) (os_duration s) = false)
              sources.

(** Every parameter of the chain was set as a plain value. *)
Definition chain_static (c : TrackChain) : bool :=
  is_static (chain_eqLow c) && is_static (chain_eqMid c) && is_static (chain_eqHigh c)
  && is_static (chain_delayNode c) && is_static (chain_delayFeedback c)
  && is_static (chain_delayWet c) && is_static (chain_volume c).

Definition Utils_inputs (tracks : list Utils.Track) (id : string) : option nat :=
  input_of 0 (map Utils.track_id tracks) id None.
Definition Services_inputs (tracks : list Services.Track) (id : string) : option nat :=
  input_of 0 (map Services.track_id tracks) id None.

(** (when, offset, duration) of the sources of an offline graph and of the
    clips of a timeline. *)
Definition source_window (s : OfflineSource) : Q * Q * Q :=
  (os_when s, os_offset s, os_duration s).
Definition Utils_clip_window (c : Utils.AudioClip) : Q * Q * Q :=
  (Utils.clip_startTime c, Utils.clip_offset c, Utils.clip_duration c).
Definition Services_clip_window (c : Services.AudioClip) : Q * Q * Q :=
  (Services.clip_startTime c, Services.clip_offset c, Services.clip_duration c).

(** C7 as worded: the offline graph has one source for every clip with a
    present buffer (in [Utils] a clip carries its buffer), at the clip's
    [startTime], [offset] and [duration]. *)
Definition C7_as_stated_utils (P : Platform) (clips : list Utils.AudioClip)
    (tracks : list Utils.Track) (totalDuration : Q) : Prop :=
  forall oc, fst (Utils.offlineGraph P clips tracks totalDuration) = Normal oc ->
             map source_window (oc_sources oc) = map Utils_clip_window clips.

Definition Services_has_buffer (e : Services.AudioEngine) (c : Services.AudioClip) : bool :=
  match Services.bufferMap e !! Services.clip_bufferId c with
  | Some _ => true
  | None => false
  end.

Definition C7_as_stated_services (P : Platform) (e : Services.AudioEngine)
    (clips : list Services.AudioClip) (tracks : list Services.Track)
    (totalDuration : Q) : Prop :=
  forall oc, fst (Services.offlineGraph P e clips tracks totalDuration) = Normal oc ->
             map source_window (oc_sources oc)
             = map Services_clip_window (List.filter (Services_has_buffer e) clips).

(** ** Reading a WAV file back (C8) *)

(** The unsigned value of little-endian bytes. *)
Fixpoint le_value (bytes : list Z) : Z :=
  match bytes with
  | [] => 0%Z
  | b :: bytes' => (b + 256 * le_value bytes')%Z
  end.

(** [view.getUint16(at, true)], [view.getUint32(at, true)] and
    [view.getInt16(at, true)]. *)
Definition getUint (n at_ : nat) (view : list Z) : Z :=
  le_value (take n (drop at_ view)).
Definition getInt16 (at_ : nat) (view : list Z) : Z :=
  let u := getUint 2 at_ view in
  if (u <? 32768)%Z then u else (u - 65536)%Z.

(** The clamped sample of the inner loop. *)
Definition clamped (x : float) : float := Utils.Math_max (-1) (Utils.Math_min 1 x).

(** The 44 bytes that the thirteen header writes of [bufferToWav] produce. *)
Definition wav_header (abuffer : AudioBuffer.t) : list Z :=
  let numOfChan := Z.of_nat (AudioBuffer.numberOfChannels abuffer) in
  let length :=
    (Z.of_nat (N.to_nat (AudioBuffer.length abuffer)
               * AudioBuffer.numberOfChannels abuffer * 2 + 44))%Z in
  Utils.le_bytes 4 0x46464952 ++ Utils.le_bytes 4 (length - 8)
  ++ Utils.le_bytes 4 0x45564157 ++ Utils.le_bytes 4 0x20746d66
  ++ Utils.le_bytes 4 16 ++ Utils.le_bytes 2 1 ++ Utils.le_bytes 2 numOfChan
  ++ Utils.le_bytes 4 (AudioBuffer.sampleRate abuffer)
  ++ Utils.le_bytes 4 (AudioBuffer.sampleRate abuffer * 2 * numOfChan)
  ++ Utils.le_bytes 2 (numOfChan * 2) ++ Utils.le_bytes 2 16
  ++ Utils.le_bytes 4 0x61746164 ++ Utils.le_bytes 4 (length - 40 - 4).

(** The samples of one frame, channel by channel, and the samples the
    frame loop of [bufferToWav] reads, in the order it reads them: the loop
    runs on the variable [pos], which the header writes have left at 44. *)
Definition frame_samples (abuffer : AudioBuffer.t) (frame : nat) : list float :=
  map (fun i => AudioBuffer.getChannelData abuffer i frame)
      (seq 0 (AudioBuffer.numberOfChannels abuffer)).
Definition wav_samples (abuffer : AudioBuffer.t) : list float :=
  flat_map (frame_samples abuffer)
           (seq 44 (N.to_nat (AudioBuffer.length abuffer) - 44)).

(** A short buffer for closed instances: two channels, 46 frames at 44100
    Hz; frame 44 holds 1 and -1, frame 45 holds -1/4 and NaN, the other
    frames 1/2. *)
Definition short_buffer : AudioBuffer.t :=
  AudioBuffer.mk 2 46 44100
    (fun channel frame =>
       match channel, frame with
       | 0%nat, 44%nat => Finite 1
       | 1%nat, 44%nat => Finite (-1)
       | 0%nat, 45%nat => Finite (-1 # 4)
       | _, 45%nat => NaN
       | _, _ => Finite (1 # 2)
       end).

(** ** The scheduling rule for [Services]

    The tracks of [Services] carry no playback rate: the rule of the
    specification at the natural rate, in which buffer time is timeline
    time, computed in the arithmetic of JavaScript numbers. *)
Definition spec_voice_unscaled (now atTime : Q) (clip : Services.AudioClip)
    : option (Q * Q * Q) :=
  if Qle_bool atTime (Services.clip_startTime clip)
  then Some (now +! (Services.clip_startTime clip -! atTime),
             Services.clip_offset clip,
             Services.clip_duration clip)
  else if Qltb atTime (Services.clip_startTime clip +! Services.clip_duration clip)
  then
    let elapsed := atTime -! Services.clip_startTime clip in
    Some (now, Services.clip_offset clip +! elapsed,
          Services.clip_duration clip -! elapsed)
  else None.

(** The rule, applied to the clips whose buffer and track chain are found. *)
Definition Services_voices (e : Services.AudioEngine) (tracks : list Services.Track)
    (now atTime : Q) (clip : Services.AudioClip) : list (Q * Q * Q) :=
  if Services_playable e tracks clip
  then option_list (spec_voice_unscaled now atTime clip)
  else [].

(** The platform accepts the start request of every voice of the rule. *)
Definition Services_accepts (P : Platform) (now atTime : Q)
    (clips : list Services.AudioClip) : bool :=
  forallb (fun c => match spec_voice_unscaled now atTime c with
                    | Some (w, o, d) => negb (start_throws P w o d)
                    | None => true
                    end) clips.

(** The platform accepts each of the start requests of the list. *)
Definition voices_accepted (P : Platform) (voices : list (Q * Q * Q)) : bool :=
  forallb (fun '(w, o, d) => negb (start_throws P w o d)) voices.

(** C3 as worded, for [schedulePlayback]: a clip whose buffer is found and
    whose computed duration to play is not positive, or whose computed read
    offset is not before the end of the buffer, is skipped; the call
    completes and starts nothing for it. *)
Definition C3_as_stated_services (P : Platform) (now : Q) (e : Services.AudioEngine)
    (c : Services.AudioClip) (s : Q) (tracks : list Services.Track) : Prop :=
  forall buffer w o d,
    Services.bufferMap e !! Services.clip_bufferId c = Some buffer ->
    spec_voice_unscaled now s c = Some (w, o, d) ->
    d <= 0 \/ AudioBuffer.duration buffer <= o ->
    fst (Services.schedulePlayback P now [c] s tracks e) = Normal tt
    /\ starts (Services.calls
                 (state_after (Services.schedulePlayback P now [c] s tracks) e))
       = starts (Services.calls e).

(** C5 as worded: while the engine plays, the reading is
    [wallClockNow - startWallTime + timelineOffsetAtStart], and at the
    instant of [play] it is [startOffset]. *)
Definition C5_as_stated_formula (P : Platform) (t0 : Q) (clips : list Utils.AudioClip)
    (tracks : list Utils.Track) (startOffset : Q) (e : Utils.AudioEngine) : Prop :=
  forall now,
    Utils.getCurrentTime now (state_after (Utils.play P t0 clips tracks startOffset) e)
    == (now -! t0) +! startOffset.

Definition C5_as_stated_at_start (P : Platform) (t0 : Q) (clips : list Utils.AudioClip)
    (tracks : list Utils.Track) (startOffset : Q) (e : Utils.AudioEngine) : Prop :=
  Utils.getCurrentTime t0 (state_after (Utils.play P t0 clips tracks startOffset) e)
  == startOffset.

(** C7 as worded, on the length: the rendered buffer covers
    [0, totalDuration], that is, its frames last [totalDuration] seconds at
    least. *)
Definition C7_as_stated_covers (P : Platform) (clips : list Utils.AudioClip)
    (tracks : list Utils.Track) (totalDuration : Q) : Prop :=
  forall oc, fst (Utils.offlineGraph P clips tracks totalDuration) = Normal oc ->
             totalDuration <= inject_Z (oc_length oc) / inject_Z (oc_sampleRate oc).

(** The 16-bit value of a sample in the words of the specification: the
    sample is clamped to [-1, 1], scaled (by 32768 below -1/2, by 32767
    otherwise) and cut to an integer; NaN gives 0. *)
Definition pcm16 (x : float) : Z :=
  match x with
  | NaN => 0%Z
  | PosInf => 32767%Z
  | NegInf => (-32768)%Z
  | Finite q =>
    let c := if Qltb q 1 then (if Qltb (-1) q then q else -1) else 1 in
    Utils.Qtruncate (if Qltb ((1 # 2) + c) 0 then c * 32768 else c * 32767)
  end.

(** ** Invariants and auxiliary states of the proofs *)

(** The transport fields, the context and the chain map's being there. *)
Definition transport_is (playing : bool) (start paused : Q) (e : Utils.AudioEngine) : Prop :=
  Utils.context e = true /\ Utils.isPlaying e = playing
  /\ Utils.startTime e = start /\ Utils.pausedAt e = paused.

(** Every active source carries the handler that removes it. *)
Definition Utils_handlers_cover (e : Utils.AudioEngine) : Prop :=
  incl (Utils.activeSources e) (Utils.onended e).

Definition Services_handlers_cover (e : Services.AudioEngine) : Prop :=
  incl (Services.activeSources e) (Services.onended e).

Definition unmuted_clips (tracks : list Utils.Track) (clips : list Utils.AudioClip)
    : list Utils.AudioClip :=
  List.filter (fun c => negb (Utils_muted tracks c)) clips.

(** Two offline contexts with the same shape and the same chains. *)
Definition same_shell (oc1 oc2 : OfflineAudioContext) : Prop :=
  oc_numberOfChannels oc1 = oc_numberOfChannels oc2
  /\ oc_length oc1 = oc_length oc2
  /\ oc_sampleRate oc1 = oc_sampleRate oc2
  /\ oc_chains oc1 = oc_chains oc2.

(** The writer while the header is written: [pos] is the number of bytes
    written so far. *)
Definition header_writer (done : list Z) (m : nat) : Utils.WavWriter :=
  {| Utils.view := done ++ replicate m 0%Z; Utils.pos := List.length done;
     Utils.offset := 0 |}.

(** The little-endian 16-bit words of converted samples. *)
Definition encode_samples (l : list float) : list Z :=
  flat_map (fun x => Utils.le_bytes 2 (Utils.sampleToInt x)) l.

(** The writer while the frames are written: the view holds the header, the
    words written so far and zeros; [offset] counts the bytes written after
    the header and [pos] the frames. *)
Definition frame_writer (hdr written : list Z) (m p : nat) : Utils.WavWriter :=
  {| Utils.view := (hdr ++ written) ++ replicate m 0%Z; Utils.pos := p;
     Utils.offset := List.length written |}.

(** * Observations for the properties beyond the specification *)

(** ** What a call of [play] asks of the platform *)

(** The chain [Utils.updateTrackParams] leaves for a track: the volume
    ramps to the track's volume (0 when muted) within 50 ms, the other
    parameters are set as values. *)
Definition Utils_liveChain (currentTime : Q) (track : Utils.Track) : TrackChain :=
  let fx := Utils.track_effects track in
  {| chain_volume :=
       LinearRamp (if Utils.track_muted track then 0 else Utils.track_volume track)
                  (currentTime + (5 # 100));
     chain_eqLow := SetValue (Utils.eq_low fx);
     chain_eqMid := SetValue (Utils.eq_mid fx);
     chain_eqHigh := SetValue (Utils.eq_high fx);
     chain_delayNode := SetValue (Utils.echo_time fx);
     chain_delayFeedback := SetValue (Utils.echo_feedback fx);
     chain_delayWet := SetValue (Utils.echo_amount fx) |}.

(** The chain map after [updateTrackParams] ran for each track in turn. *)
Definition Utils_liveChains (currentTime : Q) (tracks : list Utils.Track)
    (chains : gmap string TrackChain) : gmap string TrackChain :=
  foldl (fun m t => <[Utils.track_id t := Utils_liveChain currentTime t]> m) chains tracks.

(** The nodes a log starts. *)
Definition started (l : list call) : list nat :=
  flat_map (fun c => match c with Start n _ _ _ => [n] | _ => [] end) l.

(** The requests of one clip in [Utils.play], when the context hands out
    node [n] next and the clip's track has its chain: nothing for a clip that
    is skipped; else a source node on the chain of the clip's track and, if
    the guard holds and the platform accepts it, its start. *)
Definition Utils_clipRequests (P : Platform) (now s : Q) (tracks : list Utils.Track)
    (n : nat) (c : Utils.AudioClip) : list call :=
  match Utils_trackOf tracks c with
  | None => []
  | Some t =>
    if Utils.track_muted t then []
    else
      let r := or_default (Utils.track_playbackRate t) 1 in
      if Qltb (Utils.clip_startTime c +! Utils.clip_duration c /! r) s then []
      else
        let '(w, o, d) := Utils.startArguments now s r c in
        CreateBufferSource n (Utils.clip_buffer c) r (ChainInput (Utils.clip_trackId c))
        :: (if Qltb 0 d && Qltb o (AudioBuffer.duration (Utils.clip_buffer c))
               && negb (start_throws P w o d)
            then [Start n w o d] else [])
  end.

Fixpoint Utils_requests (P : Platform) (now s : Q) (tracks : list Utils.Track)
    (n : nat) (clips : list Utils.AudioClip) : list call :=
  match clips with
  | [] => []
  | c :: clips' =>
    let l := Utils_clipRequests P now s tracks n c in
    l ++ Utils_requests P now s tracks (n + List.length (created l)) clips'
  end.

(** The engine after the platform served the requests [l] of a clip loop:
    the nodes are handed out, the requests logged, the started nodes added to
    the active set and given their [onended] handler. *)
Definition Utils_served (l : list call) (e : Utils.AudioEngine) : Utils.AudioEngine :=
  {| Utils.context := Utils.context e;
     Utils.trackChains := Utils.trackChains e;
     Utils.activeSources :=
       foldl (fun a n => set_add n a) (Utils.activeSources e) (started l);
     Utils.startTime := Utils.startTime e;
     Utils.pausedAt := Utils.pausedAt e;
     Utils.isPlaying := Utils.isPlaying e;
     Utils.nodes := (Utils.nodes e + List.length (created l))%nat;
     Utils.onended := Utils.onended e ++ started l;
     Utils.calls := Utils.calls e ++ l |}.

(** The invariant of the engine object: the active set holds no node
    twice, and only nodes the context has handed out; an engine that is not
    playing has no active source. *)
Definition Utils_wellformed (e : Utils.AudioEngine) : Prop :=
  NoDup (Utils.activeSources e)
  /\ (forall n, List.In n (Utils.activeSources e) -> (n < Utils.nodes e)%nat)
  /\ (Utils.isPlaying e = false -> Utils.activeSources e = []).

(** The log and the active set agree: the log creates the nodes 0, 1, ..
    in this order, each once, and every active source was started. *)
Definition Utils_logged (e : Utils.AudioEngine) : Prop :=
  created (Utils.calls e) = seq 0 (Utils.nodes e)
  /\ forall n, List.In n (Utils.activeSources e) -> List.In n (started (Utils.calls e)).

(** ** What a call of [schedulePlayback] asks of the platform *)

(** The chain [Services.updateTrackParams] leaves for a track that has
    one: every parameter approaches its target from the call's clock time
    on; the delay time is at least 10 ms. *)
Definition Services_liveChain (currentTime : Q) (track : Services.Track) : TrackChain :=
  let fx := Services.track_effects track in
  {| chain_volume :=
       SetTarget (if Services.track_isMuted track then 0 else Services.track_volume track)
                 currentTime (5 # 100);
     chain_eqLow := SetTarget (Services.eqLow fx) currentTime (1 # 10);
     chain_eqMid := SetTarget (Services.eqMid fx) currentTime (1 # 10);
     chain_eqHigh := SetTarget (Services.eqHigh fx) currentTime (1 # 10);
     chain_delayNode :=
       SetTarget (Services.Math_max (1 # 100) (Services.delayTime fx)) currentTime (1 # 10);
     chain_delayFeedback := SetTarget (Services.delayFeedback fx) currentTime (1 # 10);
     chain_delayWet := SetTarget (Services.delayMix fx) currentTime (1 # 10) |}.

Definition Services_liveChains (currentTime : Q) (tracks : list Services.Track)
    (chains : gmap string TrackChain) : gmap string TrackChain :=
  foldl (fun m t => <[Services.track_id t := Services_liveChain currentTime t]> m)
        chains tracks.

(** The platform refuses the start request of the clip's voice. *)
Definition Services_refused (P : Platform) (now s : Q) (c : Services.AudioClip) : bool :=
  match spec_voice_unscaled now s c with
  | Some (w, o, d) => start_throws P w o d
  | None => false
  end.

(** The requests of one clip in [Services.schedulePlayback], when the
    context hands out node [n] next: for a clip whose buffer and chain are
    found and which has not ended, a source node on the chain of the clip's
    track, and its start unless the platform refuses it. *)
Definition Services_clipRequests (P : Platform) (now s : Q)
    (buffers : gmap string AudioBuffer.t) (chains : gmap string TrackChain)
    (n : nat) (c : Services.AudioClip) : list call :=
  match buffers !! Services.clip_bufferId c, chains !! Services.clip_trackId c with
  | Some buffer, Some _ =>
    match spec_voice_unscaled now s c with
    | Some (w, o, d) =>
      CreateBufferSource n buffer 1 (ChainInput (Services.clip_trackId c))
      :: (if start_throws P w o d then [] else [Start n w o d])
    | None => []
    end
  | _, _ => []
  end.

(** The clip's step raises: its lookups succeed and its start is refused. *)
Definition Services_raises (P : Platform) (now s : Q)
    (buffers : gmap string AudioBuffer.t) (chains : gmap string TrackChain)
    (c : Services.AudioClip) : bool :=
  match buffers !! Services.clip_bufferId c, chains !! Services.clip_trackId c with
  | Some _, Some _ => Services_refused P now s c
  | _, _ => false
  end.

(** The requests of the clip loop, which ends with the first step that
    raises. *)
Fixpoint Services_requests (P : Platform) (now s : Q)
    (buffers : gmap string AudioBuffer.t) (chains : gmap string TrackChain)
    (n : nat) (clips : list Services.AudioClip) : list call :=
  match clips with
  | [] => []
  | c :: clips' =>
    let l := Services_clipRequests P now s buffers chains n c in
    if Services_raises P now s buffers chains c then l
    else l ++ Services_requests P now s buffers chains (n + List.length (created l)) clips'
  end.

Definition Services_served (l : list call) (e : Services.AudioEngine)
    : Services.AudioEngine :=
  {| Services.bufferMap := Services.bufferMap e;
     Services.activeSources :=
       foldl (fun a n => set_add n a) (Services.activeSources e) (started l);
     Services.trackNodes := Services.trackNodes e;
     Services.nodes := (Services.nodes e + List.length (created l))%nat;
     Services.onended := Services.onended e ++ started l;
     Services.calls := Services.calls e ++ l |}.

(** The order of samples; NaN is comparable with nothing. *)
Definition float_le (x y : float) : Prop :=
  match x, y with
  | NaN, _ | _, NaN => False
  | NegInf, _ => True
  | _, PosInf => True
  | Finite p, Finite q => p <= q
  | _, _ => False
  end.

(** * src/utils/audioEngine.ts: renderMp3 *)

Module Mp3.

(** [new Blob(parts, { type })]: the bytes of the parts, in order, and the
    type. *)
Record Blob := { blob_bytes : list Z; blob_type : string }.

(** The lamejs library, which the page loads or not, is not among the
    sources.  Of an encoder [new lamejs.Mp3Encoder(channels, sampleRate,
    kbps)] the method uses one call of [encodeBuffer(left, right)] and then
    [flush()]; what the two return is a parameter. *)
Record Lamejs := {
  encodeBuffer : nat -> Z -> Z -> list Z -> list Z -> list Z;
  flush : nat -> Z -> Z -> list Z -> list Z -> list Z
}.

(** Storing a number into an [Int16Array]: ToInt16. *)
Definition ToInt16 (x : float) : Z :=
  match x with
  | Finite q => ((Utils.Qtruncate q + 2 ^ 15) mod 2 ^ 16 - 2 ^ 15)%Z
  | _ => 0%Z
  end.

(** [l = Math.max(-1, Math.min(1, x))] and the element stored,
    [(l < 0 ? l * 0x8000 : l * 0x7FFF)]. *)
Definition toInt16 (x : float) : Z :=
  let l := Utils.Math_max (-1) (Utils.Math_min 1 x) in
  ToInt16 (if Utils.float_neg l then Utils.float_mul l 32768
           else Utils.float_mul l 32767).

(** The [for] loop that fills [leftInt16] and [rightInt16]. *)
Definition convert (channel : nat -> float) (length : nat) : list Z :=
  map (fun i => toInt16 (channel i)) (seq 0 length).

Definition renderMp3 (lamejs : option Lamejs) (P : Platform) (currentTime : Q)
    (e : Utils.AudioEngine) (clips : list Utils.AudioClip) (tracks : list Utils.Track)
    (totalDuration : Q) : completion Blob :=
  match Utils.renderOffline P currentTime e clips tracks totalDuration with
  | Throw err => Throw err
  | Normal audioBuffer =>
    match lamejs with
    | None =>
      (* console.warn; return this.bufferToWav(audioBuffer) *)
      match Utils.bufferToWav audioBuffer with
      | Normal bytes => Normal {| blob_bytes := bytes; blob_type := "audio/wav" |}
      | Throw err => Throw err
      end
    | Some lame =>
      let channels := AudioBuffer.numberOfChannels audioBuffer in
      let sampleRate := AudioBuffer.sampleRate audioBuffer in
      if (channels =? 0)%nat then Throw "IndexSizeError" (* getChannelData(0) *)
      else
        let left := AudioBuffer.getChannelData audioBuffer 0 in
        let right := if (1 <? channels)%nat
                     then AudioBuffer.getChannelData audioBuffer 1 else left in
        let length := N.to_nat (AudioBuffer.length audioBuffer) in
        let leftInt16 := convert left length in
        let rightInt16 := convert right length in
        let mp3buf := encodeBuffer lame channels sampleRate 128 leftInt16 rightInt16 in
        let mp3Data := if (0 <? List.length mp3buf)%nat then [mp3buf] else [] in
        let mp3bufFlush := flush lame channels sampleRate 128 leftInt16 rightInt16 in
        let mp3Data := if (0 <? List.length mp3bufFlush)%nat
                       then mp3Data ++ [mp3bufFlush] else mp3Data in
        Normal {| blob_bytes := concat mp3Data; blob_type := "audio/mp3" |}
    end
  end.

End Mp3.

(** * src/services/AudioEngine.ts: serializeBuffers *)

Module Assets.

(** A JavaScript object literal used as a string-keyed record: its own
    properties in the order of their creation, which is the order of
    enumeration when no key is an array index.  [assign] is [o[k] = v] for a
    string [v]: the key [__proto__] is the accessor inherited from
    [Object.prototype], whose setter ignores a string and creates no
    property.  [property] is the own property [k] of [o]. *)
Definition object := list (string * string).

Definition assign (k v : string) (o : object) : object :=
  if String.eqb k "__proto__" then o
  else if existsb (fun kv => String.eqb (fst kv) k) o
  then map (fun kv => if String.eqb (fst kv) k then (k, v) else kv) o
  else o ++ [(k, v)].

Definition property (k : string) (o : object) : option string :=
  snd <$> List.find (fun kv => String.eqb (fst kv) k) o.

(** [Array.from(new Set(ids))]: the ids, each once, in the order of their
    first occurrence. *)
Definition uniqueIds (ids : list string) : list string :=
  foldl (fun acc id => if existsb (String.eqb id) acc then acc else acc ++ [id]) [] ids.

(** [audioBufferToWav] and [arrayBufferToBase64] come from the engine's
    [audioUtils] module, which is not among the sources: parameters. *)
Definition serializeBuffers (audioBufferToWav : AudioBuffer.t -> list Z)
    (arrayBufferToBase64 : list Z -> string)
    (activeClipBufferIds : list string) (e : Services.AudioEngine) : object :=
  foldl (fun assets id =>
           match Services.bufferMap e !! id with
           | Some buffer => assign id (arrayBufferToBase64 (audioBufferToWav buffer)) assets
           | None => assets
           end)
        [] (uniqueIds activeClipBufferIds).

End Assets.

(** * src/App.tsx

    The component's state variables and refs (those that only drive the
    layout are left out) and the engine object it imports, as one record.
    A handler runs on the state of the render that created it; the calls of
    the state setters it makes take effect together, the refs and the engine
    are changed at once.  [generateId], [audioBufferToWav],
    [arrayBufferToBase64] and [base64ToArrayBuffer] are not among the
    sources: fresh ids are arguments, the converters parameters. *)

Module App.

(** An entry of the undo and redo stacks: [{ tracks, clips }]. *)
Record Snapshot := {
  snap_tracks : list Services.Track;
  snap_clips : list Services.AudioClip
}.

Record State := {
  tracks : list Services.Track;
  clips : list Services.AudioClip;
  isPlaying : bool;
  currentTime : Q;
  zoom : Q;
  selectedClipId : option string;
  snapToGrid : bool;
  history : list Snapshot;
  future : list Snapshot;
  startTimeRef : Q;
  offsetTimeRef : Q;
  audioEngine : Services.AudioEngine
}.

(** The state of the first render, with the engine the module creates. *)
Definition initial : State :=
  {| tracks := []; clips := []; isPlaying := false; currentTime := 0; zoom := 50;
     selectedClipId := None; snapToGrid := false; history := []; future := [];
     startTimeRef := 0; offsetTimeRef := 0; audioEngine := Services.new |}.

Definition snapshot (a : State) : Snapshot :=
  {| snap_tracks := tracks a; snap_clips := clips a |}.

(** [audioEngine.method(..)] *)
Definition onEngine {A} (m : Eff Services.AudioEngine A) : Eff State A :=
  fun a =>
    (fst (m (audioEngine a)),
     {| tracks := tracks a; clips := clips a; isPlaying := isPlaying a;
        currentTime := currentTime a; zoom := zoom a; selectedClipId := selectedClipId a;
        snapToGrid := snapToGrid a; history := history a; future := future a;
        startTimeRef := startTimeRef a; offsetTimeRef := offsetTimeRef a;
        audioEngine := snd (m (audioEngine a)) |}).

(** ** History management *)

Definition pushHistory : Eff State unit :=
  modify (fun a =>
    {| tracks := tracks a; clips := clips a; isPlaying := isPlaying a;
       currentTime := currentTime a; zoom := zoom a; selectedClipId := selectedClipId a;
       snapToGrid := snapToGrid a; history := history a ++ [snapshot a]; future := [];
       startTimeRef := startTimeRef a; offsetTimeRef := offsetTimeRef a;
       audioEngine := audioEngine a |}).

Definition handleUndo (now : Q) : Eff State unit :=
  a <- get ;;
  match last (history a) with
  | None => ret tt
  | Some previous =>
    modify (fun _ =>
      {| tracks := snap_tracks previous; clips := snap_clips previous;
         isPlaying := isPlaying a; currentTime := currentTime a; zoom := zoom a;
         selectedClipId := selectedClipId a; snapToGrid := snapToGrid a;
         history := removelast (history a); future := snapshot a :: future a;
         startTimeRef := startTimeRef a; offsetTimeRef := offsetTimeRef a;
         audioEngine := audioEngine a |}) ;;
    onEngine (forEach (Services.updateTrackParams now) (snap_tracks previous))
  end.

Definition handleRedo (now : Q) : Eff State unit :=
  a <- get ;;
  match future a with
  | [] => ret tt
  | next :: rest =>
    modify (fun _ =>
      {| tracks := snap_tracks next; clips := snap_clips next; isPlaying := isPlaying a;
         currentTime := currentTime a; zoom := zoom a; selectedClipId := selectedClipId a;
         snapToGrid := snapToGrid a; history := history a ++ [snapshot a]; future := rest;
         startTimeRef := startTimeRef a; offsetTimeRef := offsetTimeRef a;
         audioEngine := audioEngine a |}) ;;
    onEngine (forEach (Services.updateTrackParams now) (snap_tracks next))
  end.

(** ** Actions *)

(** The track [addTrack] creates, as far as the engine reads it. *)
Definition newTrack (id : string) : Services.Track :=
  {| Services.track_id := id; Services.track_volume := 8 # 10;
     Services.track_isMuted := false;
     Services.track_effects :=
       {| Services.eqLow := 0; Services.eqMid := 0; Services.eqHigh := 0;
          Services.delayTime := 3 # 10; Services.delayFeedback := 3 # 10;
          Services.delayMix := 0 |} |}.

Definition addTrack (skipHistory : bool) (id : string) (now : Q) : Eff State unit :=
  (if skipHistory then ret tt else pushHistory) ;;
  modify (fun a =>
    {| tracks := tracks a ++ [newTrack id]; clips := clips a; isPlaying := isPlaying a;
       currentTime := currentTime a; zoom := zoom a; selectedClipId := selectedClipId a;
       snapToGrid := snapToGrid a; history := history a; future := future a;
       startTimeRef := startTimeRef a; offsetTimeRef := offsetTimeRef a;
       audioEngine := audioEngine a |}) ;;
  onEngine (Services.setupTrack now (newTrack id)).

Definition handleTrackUpdate (updatedTrack : Services.Track) (now : Q) : Eff State unit :=
  modify (fun a =>
    {| tracks := map (fun t => if String.eqb (Services.track_id t) (Services.track_id
         updatedTrack) then updatedTrack else t) (tracks a);
       clips := clips a; isPlaying := isPlaying a; currentTime := currentTime a;
       zoom := zoom a; selectedClipId := selectedClipId a; snapToGrid := snapToGrid a;
       history := history a; future := future a; startTimeRef := startTimeRef a;
       offsetTimeRef := offsetTimeRef a; audioEngine := audioEngine a |}) ;;
  onEngine (Services.updateTrackParams now updatedTrack).

(** [audioEngine.resume()] touches none of the fields modelled. *)
Definition play (P : Platform) (now : Q) : Eff State unit :=
  a <- get ;;
  modify (fun _ =>
    {| tracks := tracks a; clips := clips a; isPlaying := isPlaying a;
       currentTime := currentTime a; zoom := zoom a; selectedClipId := selectedClipId a;
       snapToGrid := snapToGrid a; history := history a; future := future a;
       startTimeRef := now; offsetTimeRef := currentTime a; audioEngine := audioEngine a |}) ;;
  onEngine (Services.schedulePlayback P now (clips a) (currentTime a) (tracks a)) ;;
  modify (fun a' =>
    {| tracks := tracks a'; clips := clips a'; isPlaying := true;
       currentTime := currentTime a'; zoom := zoom a';
       selectedClipId := selectedClipId a'; snapToGrid := snapToGrid a';
       history := history a'; future := future a'; startTimeRef := startTimeRef a';
       offsetTimeRef := offsetTimeRef a'; audioEngine := audioEngine a' |}).

Definition pause (P : Platform) : Eff State unit :=
  onEngine (Services.stopAll P) ;;
  modify (fun a =>
    {| tracks := tracks a; clips := clips a; isPlaying := false;
       currentTime := currentTime a; zoom := zoom a; selectedClipId := selectedClipId a;
       snapToGrid := snapToGrid a; history := history a; future := future a;
       startTimeRef := startTimeRef a; offsetTimeRef := offsetTimeRef a;
       audioEngine := audioEngine a |}).

Definition stop (P : Platform) : Eff State unit :=
  pause P ;;
  modify (fun a =>
    {| tracks := tracks a; clips := clips a; isPlaying := isPlaying a; currentTime := 0;
       zoom := zoom a; selectedClipId := selectedClipId a; snapToGrid := snapToGrid a;
       history := history a; future := future a; startTimeRef := startTimeRef a;
       offsetTimeRef := offsetTimeRef a; audioEngine := audioEngine a |}).

Definition togglePlay (P : Platform) (now : Q) : Eff State unit :=
  a <- get ;;
  if isPlaying a then pause P else play P now.

(** One turn of the animation loop, which runs while [isPlaying]. *)
Definition loop (now : Q) : Eff State unit :=
  a <- get ;;
  if isPlaying a
  then
    let diff := now -! startTimeRef a in
    let newTime := offsetTimeRef a +! diff in
    modify (fun _ =>
      {| tracks := tracks a; clips := clips a; isPlaying := isPlaying a;
         currentTime := newTime; zoom := zoom a; selectedClipId := selectedClipId a;
         snapToGrid := snapToGrid a; history := history a; future := future a;
         startTimeRef := startTimeRef a; offsetTimeRef := offsetTimeRef a;
         audioEngine := audioEngine a |})
  else ret tt.

(** The [onTimelineClick] callback given to the timeline. *)
Definition onTimelineClick (t : Q) (now : Q) : Eff State unit :=
  modify (fun a =>
    if isPlaying a
    then {| tracks := tracks a; clips := clips a; isPlaying := isPlaying a;
            currentTime := t; zoom := zoom a; selectedClipId := selectedClipId a;
            snapToGrid := snapToGrid a; history := history a; future := future a;
            startTimeRef := startTimeRef a; offsetTimeRef := offsetTimeRef a;
            audioEngine := audioEngine a |}
    else {| tracks := tracks a; clips := clips a; isPlaying := isPlaying a;
            currentTime := t; zoom := zoom a; selectedClipId := selectedClipId a;
            snapToGrid := snapToGrid a; history := history a; future := future a;
            startTimeRef := now; offsetTimeRef := t; audioEngine := audioEngine a |}).

(** [!selectedClipId]: null and the empty string are falsy. *)
Definition selected (a : State) : option string :=
  match selectedClipId a with
  | Some id => if String.eqb id EmptyString then None else Some id
  | None => None
  end.

Definition with_duration (d : Q) (c : Services.AudioClip) : Services.AudioClip :=
  {| Services.clip_id := Services.clip_id c;
     Services.clip_bufferId := Services.clip_bufferId c;
     Services.clip_startTime := Services.clip_startTime c;
     Services.clip_offset := Services.clip_offset c;
     Services.clip_duration := d;
     Services.clip_trackId := Services.clip_trackId c |}.

Definition with_startTime (t : Q) (c : Services.AudioClip) : Services.AudioClip :=
  {| Services.clip_id := Services.clip_id c;
     Services.clip_bufferId := Services.clip_bufferId c;
     Services.clip_startTime := t;
     Services.clip_offset := Services.clip_offset c;
     Services.clip_duration := Services.clip_duration c;
     Services.clip_trackId := Services.clip_trackId c |}.

Definition splitClip (newId : string) : Eff State unit :=
  a <- get ;;
  match selected a with
  | None => ret tt
  | Some sel =>
    match List.find (fun c => String.eqb (Services.clip_id c) sel) (clips a) with
    | None => ret tt
    | Some clip =>
      if Qltb (Services.clip_startTime clip) (currentTime a)
         && Qltb (currentTime a) (Services.clip_startTime clip +! Services.clip_duration clip)
      then
        pushHistory ;;
        let splitPoint := currentTime a -! Services.clip_startTime clip in
        let updatedFirstHalf := with_duration splitPoint clip in
        let secondHalf :=
          {| Services.clip_id := newId;
             Services.clip_bufferId := Services.clip_bufferId clip;
             Services.clip_startTime := currentTime a;
             Services.clip_offset := Services.clip_offset clip +! splitPoint;
             Services.clip_duration := Services.clip_duration clip -! splitPoint;
             Services.clip_trackId := Services.clip_trackId clip |} in
        modify (fun a' =>
          {| tracks := tracks a';
             clips := map (fun c => if String.eqb (Services.clip_id c) (Services.clip_id
               clip) then updatedFirstHalf else c) (clips a') ++ [secondHalf];
             isPlaying := isPlaying a'; currentTime := currentTime a'; zoom := zoom a';
             selectedClipId := None; snapToGrid := snapToGrid a'; history := history a';
             future := future a'; startTimeRef := startTimeRef a';
             offsetTimeRef := offsetTimeRef a'; audioEngine := audioEngine a' |})
      else ret tt
    end
  end.

Definition deleteClip : Eff State unit :=
  a <- get ;;
  match selected a with
  | Some sel =>
    pushHistory ;;
    modify (fun a' =>
      {| tracks := tracks a';
         clips := List.filter (fun c => negb (String.eqb (Services.clip_id c) sel)) (clips
           a');
         isPlaying := isPlaying a'; currentTime := currentTime a'; zoom := zoom a';
         selectedClipId := None; snapToGrid := snapToGrid a'; history := history a';
         future := future a'; startTimeRef := startTimeRef a';
         offsetTimeRef := offsetTimeRef a'; audioEngine := audioEngine a' |})
  | None => ret tt
  end.

(** [Math.max(...xs)] for a list that is not empty. *)
Definition Math_max_of (x : Q) (xs : list Q) : Q := foldl Services.Math_max x xs.

(** [exportProject]: the bytes of the file offered for download, if any. *)
Definition exportProject (audioBufferToWav : AudioBuffer.t -> list Z)
    (P : Platform) (now : Q) : Eff State (option (list Z)) :=
  a <- get ;;
  match map (fun c => Services.clip_startTime c +! Services.clip_duration c) (clips a) with
  | [] => ret None
  | x :: xs =>
    let duration := Math_max_of x xs +! 1 in
    match Services.exportProject audioBufferToWav P now (audioEngine a)
            (clips a) (tracks a) duration with
    | Normal blob => ret (Some blob)
    | Throw err => throw err
    end
  end.

(** [x % y] on numbers: the remainder has the sign of [x]; it is a binary64
    number when [x] and [y] are, so that nothing is rounded. *)
Definition Qrem (x y : Q) : Q := x - y * inject_Z (Utils.Qtruncate (x / y)).

(** [n.toString()] of an integer (below 10^21 in size) and
    [s.padStart(2, '0')]. *)
Definition toString (n : Z) : string := pretty n.
Definition padStart2 (s : string) : string :=
  match String.length s with
  | 0%nat => "00"
  | 1%nat => "0" +:+ s
  | _ => s
  end.

Definition formatTime (time : Q) : string :=
  let m := Qfloor (time /! 60) in
  let s := Qfloor (Qrem time 60) in
  let ms := Qfloor (Qrem time 1 *! 100) in
  padStart2 (toString m) +:+ ":" +:+ padStart2 (toString s)
  +:+ "." +:+ padStart2 (toString ms).

(** [Math.round]: to the nearest integer, halves upwards. *)
Definition Math_round (x : Q) : Q := inject_Z (Qfloor (x + (1 # 2))).

Definition onClipUpdate (updatedClip : Services.AudioClip) : Eff State unit :=
  modify (fun a =>
    let finalClip :=
      if snapToGrid a
      then
        let snapVal := 1 in
        let snappedStart := Math_round (Services.clip_startTime updatedClip / snapVal) * snapVal in
        with_startTime snappedStart updatedClip
      else updatedClip in
    {| tracks := tracks a;
       clips := map (fun c => if String.eqb (Services.clip_id c) (Services.clip_id
         finalClip) then finalClip else c) (clips a);
       isPlaying := isPlaying a; currentTime := currentTime a; zoom := zoom a;
       selectedClipId := selectedClipId a; snapToGrid := snapToGrid a;
       history := history a; future := future a; startTimeRef := startTimeRef a;
       offsetTimeRef := offsetTimeRef a; audioEngine := audioEngine a |}).

(** ** Saving and loading *)

(** [SavedProject] of the types module. *)
Record SavedProject := {
  sp_version : Z;
  sp_tracks : list Services.Track;
  sp_clips : list Services.AudioClip;
  sp_zoom : Q;
  sp_assets : Assets.object
}.

(** The project object that [handleSaveProject] serialises, if any. *)
Definition handleSaveProject (audioBufferToWav : AudioBuffer.t -> list Z)
    (arrayBufferToBase64 : list Z -> string) (a : State) : option SavedProject :=
  match tracks a with
  | [] => None
  | _ =>
    let bufferIds := map Services.clip_bufferId (clips a) in
    let assets := Assets.serializeBuffers audioBufferToWav arrayBufferToBase64
                    bufferIds (audioEngine a) in
    Some {| sp_version := 1; sp_tracks := tracks a; sp_clips := clips a;
            sp_zoom := zoom a; sp_assets := assets |}
  end.

(** The [onload] callback of [handleLoadProject], from the parsed project
    on.  [decode] is [base64ToArrayBuffer] followed by the platform's
    [decodeAudioData]; [None] is its failure. *)
Definition handleLoadProject (decode : string -> option AudioBuffer.t)
    (P : Platform) (now : Q) (project : SavedProject) : Eff State unit :=
  try_catch
    (if negb (sp_version project =? 1)%Z then ret tt
     else
       forEach (fun entry : string * string =>
                  match decode (snd entry) with
                  | Some audioBuf => onEngine (Services.addBuffer (fst entry) audioBuf)
                  | None => throw "EncodingError"
                  end)
               (sp_assets project) ;;
       modify (fun a =>
         {| tracks := sp_tracks project; clips := sp_clips project;
            isPlaying := isPlaying a; currentTime := currentTime a;
            zoom := or_default (sp_zoom project) 50; selectedClipId := selectedClipId a;
            snapToGrid := snapToGrid a; history := []; future := [];
            startTimeRef := startTimeRef a; offsetTimeRef := offsetTimeRef a;
            audioEngine := audioEngine a |}) ;;
       onEngine (Services.stopAll P) ;;
       onEngine (forEach (Services.setupTrack now) (sp_tracks project)))
    (fun _ => ret tt).

End App.

(** * src/components/Timeline.tsx *)

Module Timeline.

Definition HEADER_HEIGHT : Q := 32.
Definition TRACK_HEIGHT : Q := 120.

(** Time to pixels. *)
Definition t2p (zoom time : Q) : Q := time * zoom.

(** [tracks[i]?.id] for an integer [i]: [undefined] out of range. *)
Definition idAt (tracks : list Services.Track) (i : Z) : option string :=
  if (i <? 0)%Z then None else Services.track_id <$> tracks !! Z.to_nat i.

(** The last access, [tracks[trackIndex].id], is written without [?.] and
    throws on a missing track. *)
Definition getTrackIdFromY (tracks : list Services.Track) (y scrollY : Q)
    : completion (option string) :=
  let relativeY := y + scrollY - HEADER_HEIGHT in
  if Qltb relativeY 0 then Normal (idAt tracks 0)
  else
    let trackIndex := Qfloor (relativeY / TRACK_HEIGHT) in
    if (trackIndex <? 0)%Z then Normal (idAt tracks 0)
    else if (Z.of_nat (List.length tracks) <=? trackIndex)%Z
    then Normal (idAt tracks (Z.of_nat (List.length tracks) - 1))
    else
      match tracks !! Z.to_nat trackIndex with
      | Some t => Normal (Some (Services.track_id t))
      | None => Throw "TypeError"
      end.

Record DragState := {
  clipId : string;
  startX : Q;
  startTime : Q;
  startTrackId : string
}.

(** The object [handlePointerMove] passes to [onClipUpdate]: the clip with
    [startTime] and [trackId] replaced; [trackId] is [undefined] when the
    project has no track. *)
Record ClipUpdate := {
  upd_clip : Services.AudioClip;
  upd_startTime : Q;
  upd_trackId : option string
}.

Definition handlePointerDown (clip : Services.AudioClip) (clientX : Q) : DragState :=
  {| clipId := Services.clip_id clip; startX := clientX;
     startTime := Services.clip_startTime clip;
     startTrackId := Services.clip_trackId clip |}.

(** [container] is [containerRef.current], given by the top of its
    bounding rectangle and its [scrollTop].  The result is the argument of
    the call of [onClipUpdate], if the handler makes one. *)
Definition handlePointerMove (tracks : list Services.Track)
    (clips : list Services.AudioClip) (zoom : Q) (dragState : option DragState)
    (container : option (Q * Q)) (clientX clientY : Q)
    : completion (option ClipUpdate) :=
  match dragState, container with
  | Some dragState, Some (rect_top, scrollTop) =>
    match List.find (fun c => String.eqb (Services.clip_id c) (clipId dragState)) clips with
    | None => Normal None
    | Some clip =>
      let deltaX := clientX - startX dragState in
      let deltaTime := deltaX / zoom in
      let newTime := Services.Math_max 0 (startTime dragState + deltaTime) in
      let relativeY := clientY - rect_top in
      match getTrackIdFromY tracks relativeY scrollTop with
      | Throw err => Throw err
      | Normal newTrackId =>
        if negb (Qeq_bool newTime (Services.clip_startTime clip))
           || negb (bool_decide (newTrackId = Some (Services.clip_trackId clip)))
        then Normal (Some {| upd_clip := clip; upd_startTime := newTime;
                             upd_trackId := newTrackId |})
        else Normal None
      end
    end
  | _, _ => Normal None
  end.

(** The clip object of an update whose track id is defined. *)
Definition updatedClip (u : ClipUpdate) : option Services.AudioClip :=
  match upd_trackId u with
  | Some trackId =>
    Some {| Services.clip_id := Services.clip_id (upd_clip u);
            Services.clip_bufferId := Services.clip_bufferId (upd_clip u);
            Services.clip_startTime := upd_startTime u;
            Services.clip_offset := Services.clip_offset (upd_clip u);
            Services.clip_duration := Services.clip_duration (upd_clip u);
            Services.clip_trackId := trackId |}
  | None => None
  end.

End Timeline.

(** * src/unnamed/part_001: the App component written for
    src/utils/audioEngine.ts

    As for [App]: the state variables and the ref that the handlers below
    use, and the engine object, as one record; [Math.random] ids are
    arguments. *)

Module Studio.

Definition TRACK_HEIGHT : Q := 100.
Definition PIXELS_PER_SECOND : Q := 50.

Record DragStart := {
  startX : Q;
  startY : Q;
  originalStartTime : Q;
  originalTrackId : string
}.

Record State := {
  tracks : list Utils.Track;
  clips : list Utils.AudioClip;
  isPlaying : bool;
  currentTime : Q;
  totalDuration : Q;
  selectedTrackId : string;
  selectedClipId : option string;
  draggingClipId : option string;
  dragStartRef : option DragStart;
  audioEngine : Utils.AudioEngine
}.

(** [audioEngine.method(..)] *)
Definition onEngine {A} (m : Eff Utils.AudioEngine A) : Eff State A :=
  fun a =>
    (fst (m (audioEngine a)),
     {| tracks := tracks a; clips := clips a; isPlaying := isPlaying a;
        currentTime := currentTime a; totalDuration := totalDuration a;
        selectedTrackId := selectedTrackId a; selectedClipId := selectedClipId a;
        draggingClipId := draggingClipId a; dragStartRef := dragStartRef a;
        audioEngine := snd (m (audioEngine a)) |}).

(** [!id]: null and the empty string are falsy. *)
Definition truthy (id : option string) : option string :=
  match id with
  | Some id => if String.eqb id EmptyString then None else Some id
  | None => None
  end.

(** [track?.playbackRate || 1.0] for [track = tracks.find(t => t.id ===
    clip.trackId)]. *)
Definition rateOf (tracks : list Utils.Track) (clip : Utils.AudioClip) : Q :=
  match List.find (fun t => String.eqb (Utils.track_id t) (Utils.clip_trackId clip)) tracks with
  | Some track => or_default (Utils.track_playbackRate track) 1
  | None => 1
  end.

(** [projectEndTime], and [maxTime] of [handleExportMp3]. *)
Definition projectEndTime (tracks : list Utils.Track) (clips : list Utils.AudioClip) : Q :=
  foldl (fun max clip =>
           let rate := rateOf tracks clip in
           let end_ := Utils.clip_startTime clip +! Utils.clip_duration clip /! rate in
           Services.Math_max max end_)
        0 clips.

Definition formatTime (seconds : Q) : string :=
  let h := Qfloor (seconds /! 3600) in
  let m := Qfloor (App.Qrem seconds 3600 /! 60) in
  let s := Qfloor (App.Qrem seconds 60) in
  App.padStart2 (App.toString h) +:+ ":" +:+ App.padStart2 (App.toString m)
  +:+ ":" +:+ App.padStart2 (App.toString s).

(** The effect that follows a render in which [tracks] has changed. *)
Definition syncTracks (now : Q) : Eff State unit :=
  a <- get ;;
  onEngine (forEach (Utils.updateTrackParams now) (tracks a)).

(** One turn of the playback loop. *)
Definition updateTimeline (now : Q) : Eff State unit :=
  a <- get ;;
  if isPlaying a
  then
    let time := Utils.getCurrentTime now (audioEngine a) in
    modify (fun _ =>
      if Qltb (totalDuration a -! 2) time
      then {| tracks := tracks a; clips := clips a; isPlaying := isPlaying a;
              currentTime := time; totalDuration := totalDuration a +! 10;
              selectedTrackId := selectedTrackId a; selectedClipId := selectedClipId a;
              draggingClipId := draggingClipId a; dragStartRef := dragStartRef a;
              audioEngine := audioEngine a |}
      else {| tracks := tracks a; clips := clips a; isPlaying := isPlaying a;
              currentTime := time; totalDuration := totalDuration a;
              selectedTrackId := selectedTrackId a; selectedClipId := selectedClipId a;
              draggingClipId := draggingClipId a; dragStartRef := dragStartRef a;
              audioEngine := audioEngine a |})
  else ret tt.

Definition handlePlayPause (P : Platform) (now : Q) : Eff State unit :=
  a <- get ;;
  if isPlaying a
  then
    onEngine (Utils.stop P) ;;
    modify (fun a' =>
      {| tracks := tracks a'; clips := clips a'; isPlaying := false;
         currentTime := currentTime a'; totalDuration := totalDuration a';
         selectedTrackId := selectedTrackId a'; selectedClipId := selectedClipId a';
         draggingClipId := draggingClipId a'; dragStartRef := dragStartRef a';
         audioEngine := audioEngine a' |})
  else
    onEngine (Utils.play P now (clips a) (tracks a) (currentTime a)) ;;
    modify (fun a' =>
      {| tracks := tracks a'; clips := clips a'; isPlaying := true;
         currentTime := currentTime a'; totalDuration := totalDuration a';
         selectedTrackId := selectedTrackId a'; selectedClipId := selectedClipId a';
         draggingClipId := draggingClipId a'; dragStartRef := dragStartRef a';
         audioEngine := audioEngine a' |}).

Definition handleStop (P : Platform) : Eff State unit :=
  onEngine (Utils.stop P) ;;
  modify (fun a =>
    {| tracks := tracks a; clips := clips a; isPlaying := false; currentTime := 0;
       totalDuration := totalDuration a; selectedTrackId := selectedTrackId a;
       selectedClipId := selectedClipId a; draggingClipId := draggingClipId a;
       dragStartRef := dragStartRef a; audioEngine := audioEngine a |}).

(** [timeline] is [timelineRef.current], given by the left of its bounding
    rectangle and its [scrollLeft]. *)
Definition handleTimelineClick (P : Platform) (now : Q) (timeline : option (Q * Q))
    (clientX : Q) : Eff State unit :=
  a <- get ;;
  match truthy (draggingClipId a), timeline with
  | None, Some (rect_left, scrollLeft) =>
    let x := clientX - rect_left + scrollLeft in
    let time := Services.Math_max 0 (x / PIXELS_PER_SECOND) in
    if isPlaying a
    then
      onEngine (Utils.stop P) ;;
      modify (fun a' =>
        {| tracks := tracks a'; clips := clips a'; isPlaying := isPlaying a';
           currentTime := time; totalDuration := totalDuration a';
           selectedTrackId := selectedTrackId a'; selectedClipId := selectedClipId a';
           draggingClipId := draggingClipId a'; dragStartRef := dragStartRef a';
           audioEngine := audioEngine a' |}) ;;
      onEngine (Utils.play P now (clips a) (tracks a) time)
    else
      modify (fun a' =>
        {| tracks := tracks a'; clips := clips a'; isPlaying := isPlaying a';
           currentTime := time; totalDuration := totalDuration a';
           selectedTrackId := selectedTrackId a'; selectedClipId := selectedClipId a';
           draggingClipId := draggingClipId a'; dragStartRef := dragStartRef a';
           audioEngine := audioEngine a' |})
  | _, _ => ret tt
  end.

Definition addClipToTrack (id trackId : string) (buffer : AudioBuffer.t)
    : Eff State unit :=
  a <- get ;;
  match List.find (fun t => String.eqb (Utils.track_id t) trackId) (tracks a) with
  | None => ret tt
  | Some track =>
    let newClip :=
      {| Utils.clip_id := id; Utils.clip_trackId := trackId;
         Utils.clip_buffer := buffer; Utils.clip_startTime := currentTime a;
         Utils.clip_duration := AudioBuffer.duration buffer;
         Utils.clip_offset := 0 |} in
    modify (fun _ =>
      if Qltb (totalDuration a) (currentTime a +! AudioBuffer.duration buffer)
      then {| tracks := tracks a; clips := clips a ++ [newClip]; isPlaying := isPlaying a;
              currentTime := currentTime a;
              totalDuration := currentTime a +! AudioBuffer.duration buffer +! 5;
              selectedTrackId := selectedTrackId a; selectedClipId := selectedClipId a;
              draggingClipId := draggingClipId a; dragStartRef := dragStartRef a;
              audioEngine := audioEngine a |}
      else {| tracks := tracks a; clips := clips a ++ [newClip]; isPlaying := isPlaying a;
              currentTime := currentTime a; totalDuration := totalDuration a;
              selectedTrackId := selectedTrackId a; selectedClipId := selectedClipId a;
              draggingClipId := draggingClipId a; dragStartRef := dragStartRef a;
              audioEngine := audioEngine a |})
  end.

Definition with_duration (d : Q) (c : Utils.AudioClip) : Utils.AudioClip :=
  {| Utils.clip_id := Utils.clip_id c; Utils.clip_trackId := Utils.clip_trackId c;
     Utils.clip_buffer := Utils.clip_buffer c;
     Utils.clip_startTime := Utils.clip_startTime c;
     Utils.clip_duration := d; Utils.clip_offset := Utils.clip_offset c |}.

Definition handleSplitClip (newId : string) (P : Platform) (now : Q) : Eff State unit :=
  a <- get ;;
  match truthy (selectedClipId a) with
  | None => ret tt
  | Some sel =>
    match List.find (fun c => String.eqb (Utils.clip_id c) sel) (clips a) with
    | None => ret tt
    | Some clip =>
      let playbackRate := rateOf (tracks a) clip in
      let visualStart := Utils.clip_startTime clip in
      let visualDuration := Utils.clip_duration clip /! playbackRate in
      let visualEnd := visualStart +! visualDuration in
      if Qltb visualStart (currentTime a) && Qltb (currentTime a) visualEnd
      then
        let timeIntoClipVisual := currentTime a -! visualStart in
        let timeIntoClipRaw := timeIntoClipVisual *! playbackRate in
        let leftDuration := timeIntoClipRaw in
        let rightDuration := Utils.clip_duration clip -! leftDuration in
        let rightOffset := Utils.clip_offset clip +! leftDuration in
        let clipLeft := with_duration leftDuration clip in
        let clipRight :=
          {| Utils.clip_id := newId; Utils.clip_trackId := Utils.clip_trackId clip;
             Utils.clip_buffer := Utils.clip_buffer clip;
             Utils.clip_startTime := currentTime a;
             Utils.clip_duration := rightDuration; Utils.clip_offset := rightOffset |} in
        let newClips :=
          map (fun c => if String.eqb (Utils.clip_id c) (Utils.clip_id clip)
                        then clipLeft else c) (clips a) ++ [clipRight] in
        modify (fun _ =>
          {| tracks := tracks a; clips := newClips; isPlaying := isPlaying a;
             currentTime := currentTime a; totalDuration := totalDuration a;
             selectedTrackId := selectedTrackId a; selectedClipId := Some newId;
             draggingClipId := draggingClipId a; dragStartRef := dragStartRef a;
             audioEngine := audioEngine a |}) ;;
        if isPlaying a
        then
          let now_ := Utils.getCurrentTime now (audioEngine a) in
          onEngine (Utils.stop P) ;;
          onEngine (Utils.play P now newClips (tracks a) now_)
        else ret tt
      else ret tt
    end
  end.

Definition handleDeleteClip (P : Platform) (now : Q) : Eff State unit :=
  a <- get ;;
  match truthy (selectedClipId a) with
  | Some sel =>
    let newClips :=
      List.filter (fun c => negb (String.eqb (Utils.clip_id c) sel)) (clips a) in
    modify (fun _ =>
      {| tracks := tracks a; clips := newClips; isPlaying := isPlaying a;
         currentTime := currentTime a; totalDuration := totalDuration a;
         selectedTrackId := selectedTrackId a; selectedClipId := None;
         draggingClipId := draggingClipId a; dragStartRef := dragStartRef a;
         audioEngine := audioEngine a |}) ;;
    if isPlaying a
    then
      let now_ := Utils.getCurrentTime now (audioEngine a) in
      onEngine (Utils.stop P) ;;
      onEngine (Utils.play P now newClips (tracks a) now_)
    else ret tt
  | None => ret tt
  end.

(** [tracks[i]] for an integer [i]. *)
Definition trackAt (tracks : list Utils.Track) (i : Z) : option Utils.Track :=
  if (i <? 0)%Z then None else tracks !! Z.to_nat i.

(** [{ ...c, startTime: newStartTime, trackId: targetTrackId }] *)
Definition with_position (trackId : string) (t : Q) (c : Utils.AudioClip)
    : Utils.AudioClip :=
  {| Utils.clip_id := Utils.clip_id c; Utils.clip_trackId := trackId;
     Utils.clip_buffer := Utils.clip_buffer c; Utils.clip_startTime := t;
     Utils.clip_duration := Utils.clip_duration c;
     Utils.clip_offset := Utils.clip_offset c |}.

(** [container] is [trackContainerRef.current], given by the top of its
    bounding rectangle. *)
Definition handleMouseMove (container : option Q) (clientX clientY : Q)
    : Eff State unit :=
  a <- get ;;
  match truthy (draggingClipId a), dragStartRef a, container with
  | Some dragged, Some dragStart, Some rect_top =>
    let deltaPixels := clientX - startX dragStart in
    let deltaTime := deltaPixels / PIXELS_PER_SECOND in
    let newStartTime := originalStartTime dragStart + deltaTime in
    let newStartTime := if Qltb newStartTime 0 then 0 else newStartTime in
    let relativeY := clientY - rect_top in
    let trackIndex := Qfloor (relativeY / TRACK_HEIGHT) in
    let trackIndex := if (trackIndex <? 0)%Z then 0%Z else trackIndex in
    let trackIndex := if (Z.of_nat (List.length (tracks a)) <=? trackIndex)%Z
                      then (Z.of_nat (List.length (tracks a)) - 1)%Z else trackIndex in
    match trackAt (tracks a) trackIndex with
    | None => throw "TypeError"
    | Some target =>
      let targetTrackId := Utils.track_id target in
      modify (fun _ =>
        {| tracks := tracks a;
           clips := map (fun c => if String.eqb (Utils.clip_id c) dragged then
             with_position targetTrackId newStartTime c else c) (clips a);
           isPlaying := isPlaying a; currentTime := currentTime a;
           totalDuration := totalDuration a; selectedTrackId := targetTrackId;
           selectedClipId := selectedClipId a; draggingClipId := draggingClipId a;
           dragStartRef := dragStartRef a; audioEngine := audioEngine a |})
    end
  | _, _, _ => ret tt
  end.

Definition handleMouseUp (P : Platform) (now : Q) : Eff State unit :=
  a <- get ;;
  (match truthy (draggingClipId a) with
   | Some _ =>
     if isPlaying a
     then
       onEngine (Utils.stop P) ;;
       onEngine (Utils.play P now (clips a) (tracks a) (currentTime a))
     else ret tt
   | None => ret tt
   end) ;;
  modify (fun a' =>
    {| tracks := tracks a'; clips := clips a'; isPlaying := isPlaying a';
       currentTime := currentTime a'; totalDuration := totalDuration a';
       selectedTrackId := selectedTrackId a'; selectedClipId := selectedClipId a';
       draggingClipId := None; dragStartRef := None; audioEngine := audioEngine a' |}).

(** [handleExportMp3]: the file offered for download. *)
Definition handleExportMp3 (lamejs : option Mp3.Lamejs) (P : Platform) (now : Q)
    (a : State) : completion Mp3.Blob :=
  let maxTime := projectEndTime (tracks a) (clips a) in
  Mp3.renderMp3 lamejs P now (audioEngine a) (clips a) (tracks a) (maxTime +! 1).

End Studio.

(** * Observations on the components *)

(** The entry that [serializeBuffers] makes for one id. *)
Definition Assets_entry (toWav : AudioBuffer.t -> list Z) (toB64 : list Z -> string)
    (e : Services.AudioEngine) (id : string) : list (string * string) :=
  match Services.bufferMap e !! id with
  | Some buffer => if String.eqb id "__proto__" then [] else [(id, toB64 (toWav buffer))]
  | None => []
  end.

(** Two states of [App] that differ at most in the engine. *)
Definition App_same_view (a b : App.State) : Prop :=
  App.tracks a = App.tracks b /\ App.clips a = App.clips b
  /\ App.isPlaying a = App.isPlaying b /\ App.currentTime a = App.currentTime b
  /\ App.zoom a = App.zoom b /\ App.selectedClipId a = App.selectedClipId b
  /\ App.snapToGrid a = App.snapToGrid b
  /\ App.history a = App.history b /\ App.future a = App.future b
  /\ App.startTimeRef a = App.startTimeRef b
  /\ App.offsetTimeRef a = App.offsetTimeRef b.

(** Two engines that differ at most in the parameters of their chains. *)
Definition Services_same_sound (e e' : Services.AudioEngine) : Prop :=
  Services.bufferMap e = Services.bufferMap e'
  /\ Services.activeSources e = Services.activeSources e'
  /\ Services.nodes e = Services.nodes e'
  /\ Services.onended e = Services.onended e'
  /\ Services.calls e = Services.calls e'
  /\ forall id, is_Some (Services.trackNodes e !! id)
                <-> is_Some (Services.trackNodes e' !! id).

(** The playhead lies strictly inside the selected clip: [splitClip]
    applies, to [clip]. *)
Definition App_splits (a : App.State) (clip : Services.AudioClip) : Prop :=
  exists sel,
    App.selected a = Some sel
    /\ List.find (fun c => String.eqb (Services.clip_id c) sel) (App.clips a) = Some clip
    /\ Services.clip_startTime clip < App.currentTime a
    /\ App.currentTime a < Services.clip_startTime clip +! Services.clip_duration clip.

(** A project with one track, one clip of two seconds on it at second 0,
    selected, and the playhead at half a second. *)
Definition App_sample : App.State :=
  {| App.tracks := [open_track]; App.clips := [clip_on_t1]; App.isPlaying := false;
     App.currentTime := 1 # 2; App.zoom := 50; App.selectedClipId := Some "a";
     App.snapToGrid := false; App.history := []; App.future := [];
     App.startTimeRef := 0; App.offsetTimeRef := 0; App.audioEngine := engine_with_b1 |}.

(** The two decimal digits of a number from 0 to 99. *)
Definition decimal_digit (z : Z) : Ascii.ascii :=
  Ascii.ascii_of_nat (48 + Z.to_nat z).
Definition two_digits (z : Z) : string :=
  String (decimal_digit (z / 10)) (String (decimal_digit (z mod 10)) EmptyString).

(** The state [a] of [App] with the engine [e]. *)
Definition App_with_engine (e : Services.AudioEngine) (a : App.State) : App.State :=
  {| App.tracks := App.tracks a; App.clips := App.clips a;
     App.isPlaying := App.isPlaying a; App.currentTime := App.currentTime a;
     App.zoom := App.zoom a; App.selectedClipId := App.selectedClipId a;
     App.snapToGrid := App.snapToGrid a;
     App.history := App.history a; App.future := App.future a;
     App.startTimeRef := App.startTimeRef a;
     App.offsetTimeRef := App.offsetTimeRef a;
     App.audioEngine := e |}.

(** The sample store after the assets [entries] have been decoded and
    added, in order, as far as they decode. *)
Definition App_loaded (decode : string -> option AudioBuffer.t)
    (entries : list (string * string)) (m : gmap string AudioBuffer.t)
    : gmap string AudioBuffer.t :=
  foldl (fun m kv => match decode (snd kv) with
                     | Some b => <[fst kv := b]> m
                     | None => m
                     end) m entries.

(** The project that a file holds: the saved project, its assets in
    whatever order. *)
Definition App_read_back (saved : App.SavedProject) (assets : Assets.object)
    : App.SavedProject :=
  {| App.sp_version := App.sp_version saved; App.sp_tracks := App.sp_tracks saved;
     App.sp_clips := App.sp_clips saved; App.sp_zoom := App.sp_zoom saved;
     App.sp_assets := assets |}.

(** The playhead lies strictly inside the selected clip as the timeline
    shows it, [rate] times shorter than its part of the buffer:
    [handleSplitClip] applies, to [clip]. *)
Definition Studio_splits (a : Studio.State) (clip : Utils.AudioClip) (rate : Q) : Prop :=
  exists sel,
    Studio.truthy (Studio.selectedClipId a) = Some sel
    /\ List.find (fun c => String.eqb (Utils.clip_id c) sel) (Studio.clips a) = Some clip
    /\ rate = Studio.rateOf (Studio.tracks a) clip
    /\ Utils.clip_startTime clip < Studio.currentTime a
    /\ Studio.currentTime a < Utils.clip_startTime clip +! Utils.clip_duration clip /! rate.

(** The engine after [stop()] and then [play(clips, tracks, at)], called
    at context time [now]. *)
Definition Utils_restarted (P : Platform) (now : Q) (clips : list Utils.AudioClip)
    (tracks : list Utils.Track) (at_ : Q) (e : Utils.AudioEngine) : Utils.AudioEngine :=
  state_after (Utils.play P now clips tracks at_) (state_after (Utils.stop P) e).

(** The state [a] of [Studio] with the clips, the selection and the engine
    replaced. *)
Definition Studio_edited (clips : list Utils.AudioClip) (sel : option string)
    (e : Utils.AudioEngine) (a : Studio.State) : Studio.State :=
  {| Studio.tracks := Studio.tracks a; Studio.clips := clips;
     Studio.isPlaying := Studio.isPlaying a; Studio.currentTime := Studio.currentTime a;
     Studio.totalDuration := Studio.totalDuration a;
     Studio.selectedTrackId := Studio.selectedTrackId a;
     Studio.selectedClipId := sel;
     Studio.draggingClipId := Studio.draggingClipId a;
     Studio.dragStartRef := Studio.dragStartRef a;
     Studio.audioEngine := e |}.

(** The two halves that [handleSplitClip] makes of [clip] at the playhead
    [t], on a track of rate [rate]. *)
Definition Studio_left (t rate : Q) (clip : Utils.AudioClip) : Utils.AudioClip :=
  Studio.with_duration ((t -! Utils.clip_startTime clip) *! rate) clip.
Definition Studio_right (newId : string) (t rate : Q) (clip : Utils.AudioClip)
    : Utils.AudioClip :=
  {| Utils.clip_id := newId; Utils.clip_trackId := Utils.clip_trackId clip;
     Utils.clip_buffer := Utils.clip_buffer clip;
     Utils.clip_startTime := t;
     Utils.clip_duration :=
       Utils.clip_duration clip -! (t -! Utils.clip_startTime clip) *! rate;
     Utils.clip_offset :=
       Utils.clip_offset clip +! (t -! Utils.clip_startTime clip) *! rate |}.

(** A project of [Studio] with one track, one clip of two seconds on it at
    second 1, selected, and the playhead at second 2; and the same project
    after [handlePlayPause] at context time 10. *)
Definition Studio_sample : Studio.State :=
  {| Studio.tracks := [track1]; Studio.clips := [clip_at_1];
     Studio.isPlaying := false; Studio.currentTime := 2;
     Studio.totalDuration := 60; Studio.selectedTrackId := "t1";
     Studio.selectedClipId := Some "a"; Studio.draggingClipId := None;
     Studio.dragStartRef := None; Studio.audioEngine := Utils.new |}.
Definition Studio_playing : Studio.State :=
  state_after (Studio.handlePlayPause webAudio 10) Studio_sample.

(** * Properties *)

(** ** Comparisons *)

Lemma Qltb_lt (x y : Q) : Qltb x y = true <-> x < y.
Proof.
  unfold Qltb. rewrite negb_true_iff, <- not_true_iff_false, Qle_bool_iff.
  split; [apply Qnot_le_lt | apply Qlt_not_le].
Qed.

Lemma Qltb_ge (x y : Q) : Qltb x y = false <-> y <= x.
Proof. unfold Qltb. rewrite negb_false_iff. apply Qle_bool_iff. Qed.

Lemma Qle_bool_gt (x y : Q) : Qle_bool x y = false <-> y < x.
Proof.
  rewrite <- not_true_iff_false, Qle_bool_iff.
  split; [apply Qnot_le_lt | apply Qlt_not_le].
Qed.

(** ** Rounding *)

Lemma Qfloor_bounds (q : Q) : inject_Z (Qfloor q) <= q < inject_Z (Qfloor q) + 1.
Proof.
  split; [apply Qfloor_le |].
  pose proof (Qlt_floor q) as H. rewrite inject_Z_plus in H. exact H.
Qed.

Lemma Qfloor_unique (q : Q) (z : Z) :
  inject_Z z <= q -> q < inject_Z z + 1 -> Qfloor q = z.
Proof.
  intros H1 H2. destruct (Qfloor_bounds q) as [F1 F2].
  assert (A : (Qfloor q < z + 1)%Z).
  { rewrite Zlt_Qlt, inject_Z_plus. change (inject_Z 1) with 1. lra. }
  assert (B : (z < Qfloor q + 1)%Z).
  { rewrite Zlt_Qlt, inject_Z_plus. change (inject_Z 1) with 1. lra. }
  lia.
Qed.

Lemma round_half_even_cases (q : Q) :
  let f := Qfloor q in
  (q - inject_Z f < 1 # 2 /\ round_half_even q = f)
  \/ (q - inject_Z f == 1 # 2
      /\ round_half_even q = (if Z.even f then f else (f + 1)%Z))
  \/ (1 # 2 < q - inject_Z f /\ round_half_even q = (f + 1)%Z).
Proof.
  intros f. unfold round_half_even. fold f.
  destruct (Qcompare (q - inject_Z f) (1 # 2)) eqn:E.
  - right; left. split; [now apply Qeq_alt | reflexivity].
  - left. split; [now apply Qlt_alt | reflexivity].
  - right; right. split; [now apply Qgt_alt | reflexivity].
Qed.

Lemma round_half_even_monotone (x y : Q) :
  x <= y -> (round_half_even x <= round_half_even y)%Z.
Proof.
  intros Hxy.
  pose proof (Qfloor_resp_le _ _ Hxy) as Hf.
  destruct (Qfloor_bounds x) as [X1 X2]. destruct (Qfloor_bounds y) as [Y1 Y2].
  destruct (round_half_even_cases x) as [[Hx ->] | [[Hx ->] | [Hx ->]]];
    destruct (round_half_even_cases y) as [[Hy ->] | [[Hy ->] | [Hy ->]]];
    cbv zeta in *;
    (destruct (Z.eq_dec (Qfloor x) (Qfloor y)) as [E | E];
     [rewrite E in *
     | try (destruct (Z.even (Qfloor x))); try (destruct (Z.even (Qfloor y))); lia]);
    try (destruct (Z.even (Qfloor y))); try lia; lra.
Qed.

Lemma round_half_even_Z (z : Z) : round_half_even (inject_Z z) = z.
Proof.
  unfold round_half_even. rewrite Qfloor_Z.
  assert (E : Qcompare (inject_Z z - inject_Z z) (1 # 2) = Lt).
  { apply (proj1 (Qlt_alt _ _)). generalize (inject_Z z) as q. intros q. lra. }
  now rewrite E.
Qed.

Lemma round_half_even_opp (q : Q) : round_half_even (- q) = (- round_half_even q)%Z.
Proof.
  destruct (Qfloor_bounds q) as [F1 F2].
  destruct (Qeq_dec q (inject_Z (Qfloor q))) as [Hint | Hfrac].
  - (* an integer *)
    assert (E : - q == inject_Z (- Qfloor q)) by (rewrite inject_Z_opp; lra).
    assert (R1 : round_half_even (- q) = (- Qfloor q)%Z).
    { destruct (round_half_even_cases (- q)) as [[H ->] | [[H _] | [H _]]];
        cbv zeta in *; rewrite (Qfloor_comp _ _ E), Qfloor_Z in *;
        [reflexivity | |]; rewrite inject_Z_opp in H; lra. }
    assert (R2 : round_half_even q = Qfloor q).
    { destruct (round_half_even_cases q) as [[H ->] | [[H _] | [H _]]];
        cbv zeta in *; [reflexivity | |]; lra. }
    now rewrite R1, R2.
  - assert (Ff : Qfloor (- q) = (- Qfloor q - 1)%Z).
    { apply Qfloor_unique;
        (replace (- Qfloor q - 1)%Z with (- Qfloor q + - (1))%Z by lia);
        rewrite inject_Z_plus, !inject_Z_opp; change (inject_Z 1) with 1;
        (destruct (Qlt_le_dec (inject_Z (Qfloor q)) q); [lra |]);
        exfalso; apply Hfrac; lra. }
    assert (Ev : Z.even (- Qfloor q - 1) = negb (Z.even (Qfloor q))).
    { replace (- Qfloor q - 1)%Z with (- (Qfloor q + 1))%Z by lia.
      rewrite Z.even_opp. replace (Qfloor q + 1)%Z with (Z.succ (Qfloor q)) by lia.
      rewrite Z.even_succ. now rewrite <- Z.negb_even. }
    destruct (round_half_even_cases (- q)) as [[Hx ->] | [[Hx ->] | [Hx ->]]];
      destruct (round_half_even_cases q) as [[Hy ->] | [[Hy ->] | [Hy ->]]];
      cbv zeta in *; rewrite Ff in *; rewrite ?Ev;
      replace (- Qfloor q - 1)%Z with (- Qfloor q + - (1))%Z in * by lia;
      rewrite ?inject_Z_plus, ?inject_Z_opp in *;
      change (inject_Z 1) with 1 in *;
      try (destruct (Z.even (Qfloor q)); simpl);
      try lia; lra.
Qed.

Lemma round_half_even_comp (x y : Q) : x == y -> round_half_even x = round_half_even y.
Proof.
  intros H. apply Z.le_antisymm; apply round_half_even_monotone; lra.
Qed.

(** ** Powers of two *)

Lemma two_pow_pos (k : Z) : 0 < 2 ^ k.
Proof. now apply Qpower_0_lt. Qed.

Lemma two_pow_plus (n m : Z) : 2 ^ (n + m) == 2 ^ n * 2 ^ m.
Proof. apply Qpower_plus. discriminate. Qed.

Lemma two_pow_le (n m : Z) : (n <= m)%Z -> 2 ^ n <= 2 ^ m.
Proof. intros H. apply Qpower_le_compat_l; [exact H | discriminate]. Qed.

Lemma two_pow_lt_inv (n m : Z) : 2 ^ n < 2 ^ m -> (n < m)%Z.
Proof. intros H. apply (Qpower_lt_compat_l_inv 2); [exact H | reflexivity]. Qed.

Lemma two_pow_Z (n : Z) : (0 <= n)%Z -> 2 ^ n == inject_Z (2 ^ n).
Proof. intros H. now rewrite Zpower_Qpower. Qed.

(** [Qlog2 q] is the exponent of the binade of a positive [q]. *)
Lemma Qlog2_spec (q : Q) : 0 < q -> 2 ^ Qlog2 q <= q /\ q < 2 ^ (Qlog2 q + 1).
Proof.
  intros Hq. unfold Qlog2.
  destruct q as [n d]. cbn [Qnum Qden].
  assert (Hn : (0 < n)%Z).
  { unfold Qlt in Hq. simpl in Hq. lia. }
  set (a := Z.log2 n). set (b := Z.log2 (Z.pos d)).
  destruct (Z.log2_spec n Hn) as [A1 A2]. fold a in A1, A2.
  destruct (Z.log2_spec (Z.pos d) eq_refl) as [B1 B2]. fold b in B1, B2.
  assert (Ha : (0 <= a)%Z) by apply Z.log2_nonneg.
  assert (Hb : (0 <= b)%Z) by apply Z.log2_nonneg.
  assert (Qn : n # d == inject_Z n / inject_Z (Z.pos d)) by apply Qmake_Qdiv.
  assert (Dpos : 0 < inject_Z (Z.pos d)) by reflexivity.
  assert (PA1 : 2 ^ a <= inject_Z n).
  { rewrite two_pow_Z by exact Ha. now rewrite <- Zle_Qle. }
  assert (PA2 : inject_Z n < 2 ^ (a + 1)).
  { rewrite two_pow_Z by lia. rewrite <- Zlt_Qlt.
    replace (a + 1)%Z with (Z.succ a) by lia. exact A2. }
  assert (PB1 : 2 ^ b <= inject_Z (Z.pos d)).
  { rewrite two_pow_Z by exact Hb. now rewrite <- Zle_Qle. }
  assert (PB2 : inject_Z (Z.pos d) < 2 ^ (b + 1)).
  { rewrite two_pow_Z by lia. rewrite <- Zlt_Qlt.
    replace (b + 1)%Z with (Z.succ b) by lia. exact B2. }
  pose proof (two_pow_pos b) as Pb. pose proof (two_pow_pos (a - b)) as Pk.
  (* q < 2 ^ (a - b + 1) *)
  assert (U : n # d < 2 ^ (a - b + 1)).
  { rewrite Qn. apply Qlt_shift_div_r; [exact Dpos |].
    apply Qlt_le_trans with (2 ^ (a + 1)); [exact PA2 |].
    replace (a + 1)%Z with ((a - b + 1) + b)%Z by lia.
    rewrite two_pow_plus.
    apply Qmult_le_l; [apply two_pow_pos | exact PB1]. }
  (* 2 ^ (a - b - 1) <= q *)
  assert (L : 2 ^ (a - b - 1) <= n # d).
  { rewrite Qn. apply Qle_shift_div_l; [exact Dpos |].
    apply Qle_trans with (2 ^ a); [| exact PA1].
    replace a with ((a - b - 1) + (b + 1))%Z at 2 by lia.
    rewrite two_pow_plus.
    apply Qmult_le_l; [apply two_pow_pos | now apply Qlt_le_weak]. }
  destruct (Qle_bool (2 ^ (a - b)) (n # d)) eqn:E.
  - apply Qle_bool_iff in E. split; [exact E | exact U].
  - split; [exact L |].
    replace (a - b - 1 + 1)%Z with (a - b)%Z by lia.
    apply Qnot_le_lt. intros H. apply Qle_bool_iff in H. congruence.
Qed.

Lemma Qlog2_unique (q : Q) (k : Z) : 2 ^ k <= q -> q < 2 ^ (k + 1) -> Qlog2 q = k.
Proof.
  intros H1 H2.
  assert (Hq : 0 < q) by (pose proof (two_pow_pos k); lra).
  destruct (Qlog2_spec q Hq) as [L1 L2].
  assert (A : (k < Qlog2 q + 1)%Z) by (apply two_pow_lt_inv; lra).
  assert (B : (Qlog2 q < k + 1)%Z) by (apply two_pow_lt_inv; lra).
  lia.
Qed.

Lemma Qlog2_monotone (a b : Q) : 0 < a -> a <= b -> (Qlog2 a <= Qlog2 b)%Z.
Proof.
  intros Ha Hab.
  destruct (Qlog2_spec a Ha) as [A1 A2].
  destruct (Qlog2_spec b) as [B1 B2]; [lra |].
  assert (H : (Qlog2 a < Qlog2 b + 1)%Z) by (apply two_pow_lt_inv; lra).
  lia.
Qed.

(** ** binary64 *)

Lemma binary64_eq (q : Q) : ~ q == 0 -> binary64 q == round_to (ulp_exponent q) q.
Proof.
  intros H. unfold binary64.
  destruct (Qeq_bool q 0) eqn:E; [apply Qeq_bool_iff in E; contradiction |].
  apply Qred_correct.
Qed.

Lemma binary64_zero (q : Q) : q == 0 -> binary64 q = 0.
Proof. intros H. unfold binary64. apply Qeq_bool_iff in H. now rewrite H. Qed.

Lemma round_to_monotone (e : Z) (x y : Q) : x <= y -> round_to e x <= round_to e y.
Proof.
  intros H. unfold round_to. pose proof (two_pow_pos e) as He.
  apply Qmult_le_compat_r; [| lra].
  rewrite <- Zle_Qle. apply round_half_even_monotone.
  apply Qmult_le_compat_r; [exact H |].
  apply Qlt_le_weak, Qinv_lt_0_compat, He.
Qed.

(** A power of two that is a multiple of the unit is its own rounding. *)
Lemma round_to_pow (e m : Z) : (e <= m)%Z -> round_to e (2 ^ m) == 2 ^ m.
Proof.
  intros H. unfold round_to. pose proof (two_pow_pos e) as He.
  assert (E : 2 ^ m / 2 ^ e == inject_Z (2 ^ (m - e))).
  { rewrite <- two_pow_Z by lia. rewrite Qpower_minus by discriminate. reflexivity. }
  rewrite (round_half_even_comp _ _ E), round_half_even_Z.
  rewrite <- two_pow_Z by lia. rewrite <- two_pow_plus.
  now replace (m - e + e)%Z with m by lia.
Qed.

Lemma round_to_zero (e : Z) : round_to e 0 == 0.
Proof.
  unfold round_to.
  assert (E : 0 / 2 ^ e == inject_Z 0) by (unfold Qdiv; change (inject_Z 0) with 0; ring).
  rewrite (round_half_even_comp _ _ E), round_half_even_Z. change (inject_Z 0) with 0. ring.
Qed.

Lemma binary64_nonneg (q : Q) : 0 <= q -> 0 <= binary64 q.
Proof.
  intros H. destruct (Qeq_dec q 0) as [E | E].
  - rewrite (binary64_zero q E). apply Qle_refl.
  - rewrite (binary64_eq q E). rewrite <- (round_to_zero (ulp_exponent q)).
    now apply round_to_monotone.
Qed.

Lemma binary64_monotone_pos (a b : Q) : 0 < a -> a <= b -> binary64 a <= binary64 b.
Proof.
  intros Ha Hab.
  assert (Hb : 0 < b) by lra.
  rewrite (binary64_eq a), (binary64_eq b) by lra.
  assert (Aa : Qabs a == a) by (apply Qabs_pos; lra).
  assert (Ab : Qabs b == b) by (apply Qabs_pos; lra).
  assert (Pa : 0 < Qabs a) by lra. assert (Pb : 0 < Qabs b) by lra.
  assert (Hl : (Qlog2 (Qabs a) <= Qlog2 (Qabs b))%Z)
    by (apply Qlog2_monotone; lra).
  destruct (Qlog2_spec _ Pa) as [A1 A2]. destruct (Qlog2_spec _ Pb) as [B1 B2].
  unfold ulp_exponent.
  set (la := Qlog2 (Qabs a)) in *. set (lb := Qlog2 (Qabs b)) in *.
  destruct (Z.eq_dec (Z.max (la - 52) (-1074)) (Z.max (lb - 52) (-1074))) as [E | E].
  - rewrite E. now apply round_to_monotone.
  - (* a lies in a lower binade: the bottom of the binade of [b] is between
       the two roundings *)
    assert (Hlt : (la < lb)%Z) by lia.
    assert (Hlb : (Z.max (lb - 52) (-1074) <= lb)%Z) by lia.
    assert (Hla : (Z.max (la - 52) (-1074) <= lb)%Z) by lia.
    apply Qle_trans with (2 ^ lb).
    + rewrite <- (round_to_pow _ lb Hla). apply round_to_monotone.
      apply Qle_trans with (2 ^ (la + 1)); [lra | apply two_pow_le; lia].
    + rewrite <- (round_to_pow _ lb Hlb). apply round_to_monotone. lra.
Qed.

Lemma ulp_exponent_comp (x y : Q) : ~ x == 0 -> x == y -> ulp_exponent x = ulp_exponent y.
Proof.
  intros Hx Hxy. unfold ulp_exponent. f_equal. f_equal.
  assert (Px : 0 < Qabs x).
  { apply (Qabs_case x (fun a => 0 < a)); intros H.
    - apply Qle_lt_or_eq in H. destruct H as [H | H]; [exact H |].
      exfalso. apply Hx. now symmetry.
    - apply Qle_lt_or_eq in H. destruct H as [H | H]; [lra |].
      exfalso. now apply Hx. }
  assert (Hy : Qabs y == Qabs x) by now rewrite Hxy.
  destruct (Qlog2_spec _ Px) as [L1 L2].
  symmetry. apply Qlog2_unique; rewrite Hy; assumption.
Qed.

(** Equal numbers have the same rounding, as a fraction too. *)
Lemma binary64_comp (x y : Q) : x == y -> binary64 x = binary64 y.
Proof.
  intros Hxy. unfold binary64.
  assert (E : Qeq_bool x 0 = Qeq_bool y 0).
  { destruct (Qeq_bool y 0) eqn:Ey.
    - apply Qeq_bool_iff. apply Qeq_bool_iff in Ey. now rewrite Hxy.
    - apply not_true_iff_false. intros Ex. apply Qeq_bool_iff in Ex.
      apply not_true_iff_false in Ey. apply Ey. apply Qeq_bool_iff. now rewrite <- Hxy. }
  rewrite E. destruct (Qeq_bool y 0) eqn:Ey; [reflexivity |].
  apply Qred_complete.
  assert (Hx : ~ x == 0).
  { intros H. apply not_true_iff_false in Ey. apply Ey. apply Qeq_bool_iff.
    now rewrite <- Hxy. }
  rewrite (ulp_exponent_comp x y Hx Hxy). unfold round_to.
  assert (H : x / 2 ^ ulp_exponent y == y / 2 ^ ulp_exponent y) by now rewrite Hxy.
  now rewrite (round_half_even_comp _ _ H).
Qed.

Lemma Qabs_opp_eq (q : Q) : Qabs (- q) = Qabs q.
Proof. destruct q as [n d]. unfold Qabs, Qopp. simpl. f_equal. lia. Qed.

Lemma binary64_opp (q : Q) : binary64 (- q) == - binary64 q.
Proof.
  destruct (Qeq_dec q 0) as [E | E].
  - rewrite (binary64_zero q E), (binary64_zero (- q)) by lra. reflexivity.
  - rewrite (binary64_eq q E), (binary64_eq (- q)) by lra.
    unfold ulp_exponent. rewrite Qabs_opp_eq. unfold round_to.
    set (e := Z.max _ _).
    assert (H : - q / 2 ^ e == - (q / 2 ^ e)) by (unfold Qdiv; ring).
    rewrite (round_half_even_comp _ _ H), round_half_even_opp, inject_Z_opp. ring.
Qed.

(** Rounding keeps the order. *)
Lemma binary64_monotone (a b : Q) : a <= b -> binary64 a <= binary64 b.
Proof.
  intros Hab.
  destruct (Qlt_le_dec 0 a) as [Ha | Ha]; [now apply binary64_monotone_pos |].
  destruct (Qlt_le_dec b 0) as [Hb | Hb].
  - assert (H : binary64 (- b) <= binary64 (- a)) by (apply binary64_monotone_pos; lra).
    rewrite !binary64_opp in H. lra.
  - apply Qle_trans with 0; [| now apply binary64_nonneg].
    assert (H : 0 <= binary64 (- a)) by (apply binary64_nonneg; lra).
    rewrite binary64_opp in H. lra.
Qed.

Lemma binary64_nonpos (q : Q) : q <= 0 -> binary64 q <= 0.
Proof.
  intros H. apply (binary64_monotone q 0) in H.
  now rewrite (binary64_zero 0) in H.
Qed.

(** A rounded number is positive only if the number is. *)
Lemma binary64_pos_inv (q : Q) : 0 < binary64 q -> 0 < q.
Proof.
  intros H. apply Qnot_le_lt. intros Hq. apply binary64_nonpos in Hq. lra.
Qed.

(** [binary64] against the arithmetic of the kernel's binary64 numbers:
    [0.1], [1 / 3], [10.3 - (10.3 - 0.1)], [1.1 * 44100], [2.1 * 44100],
    [0.15 * 100], [0.6666666666666666 * 1.5] and [0.2 + (0.9 - 0.2)]. *)
Example binary64_as_in_the_kernel :
  let f := float_of_ratio in
  has_value (f 1%Z 10%Z) (binary64 (1 # 10))
  && has_value (f 1%Z 3%Z) (1 /! 3)
  && has_value (PrimFloat.sub (f 103%Z 10%Z) (PrimFloat.sub (f 103%Z 10%Z) (f 1%Z 10%Z)))
       (binary64 (103 # 10) -! (binary64 (103 # 10) -! binary64 (1 # 10)))
  && has_value (PrimFloat.mul (f 11%Z 10%Z) (f 44100%Z 1%Z)) (binary64 (11 # 10) *! 44100)
  && has_value (PrimFloat.mul (f 21%Z 10%Z) (f 44100%Z 1%Z)) (binary64 (21 # 10) *! 44100)
  && has_value (PrimFloat.mul (f 15%Z 100%Z) (f 100%Z 1%Z)) (binary64 (15 # 100) *! 100)
  && has_value (PrimFloat.mul (f 6666666666666666%Z 10000000000000000%Z) (f 15%Z 10%Z))
       (binary64 (6666666666666666 # 10000000000000000) *! binary64 (15 # 10))
  && has_value (PrimFloat.add (f 2%Z 10%Z) (PrimFloat.sub (f 9%Z 10%Z) (f 2%Z 10%Z)))
       (binary64 (2 # 10) +! (binary64 (9 # 10) -! binary64 (2 # 10)))
  = true.
Proof. vm_compute. reflexivity. Qed.

(** ** The monad *)

Ltac eff := unfold bind, ret, get, modify, throw, try_catch, state_after; simpl.

Lemma bind_get {S B} (k : S -> Eff S B) (s : S) : (x <- get ;; k x) s = k s s.
Proof. reflexivity. Qed.

Lemma bind_normal {S A B} (m : Eff S A) (k : A -> Eff S B) (s s' : S) (a : A) :
  m s = (Normal a, s') -> (x <- m ;; k x) s = k a s'.
Proof. intros H. unfold bind. now rewrite H. Qed.

Lemma forEach_app {S X} (f : X -> Eff S unit) (l1 l2 : list X) (s : S) :
  forEach f (l1 ++ l2) s = (forEach f l1 ;; forEach f l2) s.
Proof.
  revert s. induction l1 as [| x l1 IH]; intros s; simpl.
  - reflexivity.
  - unfold bind in *. destruct (f x s) as [[[] | err] s']; [apply IH | reflexivity].
Qed.

(** A loop whose body always completes and keeps [I] completes and keeps [I]. *)
Lemma forEach_invariant {S X} (I : S -> Prop) (f : X -> Eff S unit) (xs : list X) :
  (forall x s, I s -> fst (f x s) = Normal tt /\ I (snd (f x s))) ->
  forall s, I s -> fst (forEach f xs s) = Normal tt /\ I (snd (forEach f xs s)).
Proof.
  intros Hf. induction xs as [| x xs IH]; intros s Hs; simpl.
  - split; [reflexivity | exact Hs].
  - unfold bind. destruct (Hf x s Hs) as [Hn Hi].
    destruct (f x s) as [r s']; simpl in *. subst r. apply IH, Hi.
Qed.

(** A loop whose body appends [g x] to an observation [obs] of the state,
    whatever the state, appends them all in order. *)
Lemma forEach_appends {S X O} (I : S -> Prop) (obs : S -> list O) (g : X -> list O)
    (f : X -> Eff S unit) (xs : list X) :
  (forall x s, I s -> fst (f x s) = Normal tt /\ I (snd (f x s))
                      /\ obs (snd (f x s)) = obs s ++ g x) ->
  forall s, I s -> obs (snd (forEach f xs s)) = obs s ++ flat_map g xs.
Proof.
  intros Hf. induction xs as [| x xs IH]; intros s Hs; simpl.
  - symmetry. apply app_nil_r.
  - unfold bind. destruct (Hf x s Hs) as (Hn & Hi & Ho).
    destruct (f x s) as [r s']; simpl in *. subst r.
    rewrite (IH s' Hi), Ho. symmetry. apply app_assoc.
Qed.

(** Elements on which the body does nothing may be dropped from a loop. *)
Lemma forEach_filter {S X} (I : S -> Prop) (keep : X -> bool)
    (f : X -> Eff S unit) (xs : list X) :
  (forall x s, I s -> keep x = false -> f x s = (Normal tt, s)) ->
  (forall x s, I s -> I (snd (f x s))) ->
  forall s, I s -> forEach f (List.filter keep xs) s = forEach f xs s.
Proof.
  intros Hskip Hinv. induction xs as [| x xs IH]; intros s Hs; simpl.
  - reflexivity.
  - destruct (keep x) eqn:Hk; simpl; unfold bind.
    + pose proof (Hinv x s Hs) as Hi.
      destruct (f x s) as [[[] | err] s']; [apply IH, Hi | reflexivity].
    + rewrite (Hskip x s Hs Hk). apply IH, Hs.
Qed.

(** ** Utils: stop *)

Lemma Utils_stop_loop (P : Platform) (l : list nat) (e : Utils.AudioEngine) :
  forEach (fun source => try_catch (Utils.source_stop P source) (fun _ => ret tt)) l e
  = (Normal tt, Utils.with_calls (Utils.calls e ++ map Stop (live P l)) e).
Proof.
  revert e. induction l as [| n l IH]; intros e; simpl.
  - destruct e; unfold ret, Utils.with_calls; simpl. now rewrite app_nil_r.
  - unfold bind, try_catch, Utils.source_stop.
    destruct (stop_throws P n); simpl.
    + apply IH.
    + unfold Utils.request, modify. rewrite IH. unfold Utils.with_calls; simpl.
      now rewrite <- app_assoc.
Qed.

Lemma Utils_stop_eq (P : Platform) (e : Utils.AudioEngine) :
  Utils.stop P e
  = (Normal tt,
     Utils.with_isPlaying false
       (Utils.with_activeSources []
          (Utils.with_calls
             (Utils.calls e ++ map Stop (live P (Utils.activeSources e))) e))).
Proof.
  unfold Utils.stop, bind, get. rewrite Utils_stop_loop. reflexivity.
Qed.

Lemma starts_app (l1 l2 : list call) : starts (l1 ++ l2) = starts l1 ++ starts l2.
Proof. unfold starts. apply flat_map_app. Qed.

Lemma stops_app (l1 l2 : list call) : stops (l1 ++ l2) = stops l1 ++ stops l2.
Proof. unfold stops. apply flat_map_app. Qed.

Lemma created_app (l1 l2 : list call) : created (l1 ++ l2) = created l1 ++ created l2.
Proof. unfold created. apply flat_map_app. Qed.

Lemma starts_map_Stop (l : list nat) : starts (map Stop l) = [].
Proof. induction l; simpl; auto. Qed.

Lemma created_map_Stop (l : list nat) : created (map Stop l) = [].
Proof. induction l; simpl; auto. Qed.

Lemma stops_map_Stop (l : list nat) : stops (map Stop l) = l.
Proof. induction l; simpl; congruence. Qed.

(** ** Utils: what the loops of play keep *)

Lemma Utils_updateTrackParams_transport (now : Q) (t : Utils.Track)
    (playing : bool) (start paused : Q) (e : Utils.AudioEngine) :
  transport_is playing start paused e ->
  fst (Utils.updateTrackParams now t e) = Normal tt
  /\ transport_is playing start paused (snd (Utils.updateTrackParams now t e))
  /\ Utils.calls (snd (Utils.updateTrackParams now t e)) = Utils.calls e
  /\ Utils.activeSources (snd (Utils.updateTrackParams now t e)) = Utils.activeSources e
  /\ Utils.onended (snd (Utils.updateTrackParams now t e)) = Utils.onended e
  /\ Utils.nodes (snd (Utils.updateTrackParams now t e)) = Utils.nodes e.
Proof.
  intros (Hc & Hp & Hs & Hq).
  unfold Utils.updateTrackParams, Utils.createTrackChain, transport_is.
  eff. rewrite Hc; simpl.
  destruct (Utils.trackChains e !! Utils.track_id t); simpl; rewrite ?Hc; simpl; tauto.
Qed.

Lemma Utils_scheduleClip_effect (P : Platform) (now s : Q)
    (tracks : list Utils.Track) (c : Utils.AudioClip)
    (playing : bool) (start paused : Q) (e : Utils.AudioEngine) :
  transport_is playing start paused e ->
  fst (Utils.scheduleClip P now s tracks c e) = Normal tt
  /\ transport_is playing start paused (snd (Utils.scheduleClip P now s tracks c e))
  /\ starts (Utils.calls (snd (Utils.scheduleClip P now s tracks c e)))
     = starts (Utils.calls e) ++ Utils_clipStarts P now s tracks c.
Proof.
  intros Ht. unfold Utils_clipStarts, Utils.scheduleClip.
  destruct (List.find _ tracks) as [t |]; [| eff; rewrite app_nil_r; tauto].
  destruct (Utils.track_muted t); [eff; rewrite app_nil_r; tauto |].
  destruct (Qltb _ s); [eff; rewrite app_nil_r; tauto |].
  unfold Utils.createBufferSource. eff.
  destruct (Utils.startArguments _ _ _ _) as [[w o] d].
  destruct (Qltb 0 d && Qltb o _); simpl.
  - unfold Utils.source_start. destruct (start_throws P w o d); simpl.
    + rewrite starts_app; simpl. rewrite app_nil_r. tauto.
    + rewrite !starts_app; simpl. rewrite app_nil_r. tauto.
  - rewrite starts_app; simpl. rewrite app_nil_r. tauto.
Qed.

Lemma Utils_play_loops (P : Platform) (now : Q) (clips : list Utils.AudioClip)
    (tracks : list Utils.Track) (s : Q) (e0 : Utils.AudioEngine) :
  Utils.context e0 = true ->
  let r := (modify (Utils.with_transport true (now -! s) s) ;;
            forEach (Utils.updateTrackParams now) tracks ;;
            forEach (Utils.scheduleClip P now s tracks) clips) e0 in
  fst r = Normal tt
  /\ transport_is true (now -! s) s (snd r)
  /\ starts (Utils.calls (snd r))
     = starts (Utils.calls e0) ++ flat_map (Utils_clipStarts P now s tracks) clips.
Proof.
  intros Hc. cbv zeta. unfold bind, modify.
  set (e1 := Utils.with_transport true (now -! s) s e0).
  assert (H1 : transport_is true (now -! s) s e1 /\ Utils.calls e1 = Utils.calls e0)
    by (unfold transport_is; simpl; tauto).
  assert (Hupd : fst (forEach (Utils.updateTrackParams now) tracks e1) = Normal tt
                 /\ (transport_is true (now -! s) s
                       (snd (forEach (Utils.updateTrackParams now) tracks e1))
                     /\ Utils.calls (snd (forEach (Utils.updateTrackParams now) tracks e1))
                        = Utils.calls e0)).
  { apply (forEach_invariant
             (fun e => transport_is true (now -! s) s e
                       /\ Utils.calls e = Utils.calls e0)); [| exact H1].
    intros t e [Ht Hl].
    destruct (Utils_updateTrackParams_transport now t _ _ _ e Ht)
      as (? & ? & Hcalls & _).
    rewrite Hcalls. tauto. }
  destruct Hupd as (Hn & Ht2 & Hl2).
  destruct (forEach (Utils.updateTrackParams now) tracks e1) as [r1 e2].
  simpl in Hn, Ht2, Hl2. subst r1.
  assert (Hsch : fst (forEach (Utils.scheduleClip P now s tracks) clips e2) = Normal tt
                 /\ transport_is true (now -! s) s
                      (snd (forEach (Utils.scheduleClip P now s tracks) clips e2))).
  { apply (forEach_invariant (transport_is true (now -! s) s)); [| exact Ht2].
    intros c e Ht.
    destruct (Utils_scheduleClip_effect P now s tracks c _ _ _ e Ht); tauto. }
  destruct Hsch as (Hn3 & Ht3).
  split; [exact Hn3 |]. split; [exact Ht3 |].
  rewrite <- Hl2.
  apply (forEach_appends (transport_is true (now -! s) s)
           (fun e => starts (Utils.calls e))); [| exact Ht2].
  intros c e Ht. apply (Utils_scheduleClip_effect P now s tracks c _ _ _ e Ht).
Qed.

Lemma Utils_play_effect (P : Platform) (now : Q) (clips : list Utils.AudioClip)
    (tracks : list Utils.Track) (s : Q) (e : Utils.AudioEngine) :
  fst (Utils.play P now clips tracks s e) = Normal tt
  /\ transport_is true (now -! s) s (state_after (Utils.play P now clips tracks s) e)
  /\ starts (Utils.calls (state_after (Utils.play P now clips tracks s) e))
     = starts (Utils.calls e) ++ flat_map (Utils_clipStarts P now s tracks) clips.
Proof.
  unfold state_after, Utils.play. rewrite bind_get.
  assert (Hstop : exists e1,
             (if Utils.isPlaying e then Utils.stop P else ret tt) e = (Normal tt, e1)
             /\ starts (Utils.calls e1) = starts (Utils.calls e)).
  { destruct (Utils.isPlaying e).
    - rewrite Utils_stop_eq. eexists; split; [reflexivity |]. simpl.
      rewrite starts_app, starts_map_Stop. apply app_nil_r.
    - eexists; split; reflexivity. }
  destruct Hstop as (e1 & Hstop & Hs1).
  rewrite (bind_normal _ _ _ _ _ Hstop).
  set (e2 := if Utils.context e1 then e1 else Utils.with_context true e1).
  assert (Hinit : Utils.init e1 = (Normal tt, e2)) by reflexivity.
  rewrite (bind_normal _ _ _ _ _ Hinit), bind_get.
  assert (Hc2 : Utils.context e2 = true)
    by (subst e2; destruct (Utils.context e1) eqn:E; [exact E | reflexivity]).
  assert (Hs2 : Utils.calls e2 = Utils.calls e1)
    by (subst e2; destruct (Utils.context e1); reflexivity).
  rewrite Hc2. simpl negb. cbv iota.
  rewrite <- Hs1, <- Hs2.
  apply (Utils_play_loops P now clips tracks s e2 Hc2).
Qed.

(** ** The step of play and the rule *)

Lemma Utils_trackOf_In (tracks : list Utils.Track) (c : Utils.AudioClip) (t : Utils.Track) :
  Utils_trackOf tracks c = Some t ->
  List.In t tracks /\ Utils.track_id t = Utils.clip_trackId c.
Proof.
  intros H. apply find_some in H as [Hin Heq].
  split; [exact Hin | now apply String.eqb_eq].
Qed.

(** The arguments [play] computes for a clip it does not leave out are the
    voice of the rule. *)
Lemma play_voice_startArguments (now s r : Q) (c : Utils.AudioClip) :
  Qltb (Utils.clip_startTime c +! Utils.clip_duration c /! r) s = false ->
  play_voice now s r c = Some (Utils.startArguments now s r c).
Proof.
  intros E. unfold play_voice, Utils.startArguments. rewrite E.
  now destruct (Qle_bool s (Utils.clip_startTime c)).
Qed.

Lemma Utils_clipStarts_guarded (P : Platform) (now s : Q)
    (tracks : list Utils.Track) (c : Utils.AudioClip) :
  Utils_clipStarts P now s tracks c = guarded_voices P now s tracks c.
Proof.
  unfold Utils_clipStarts, guarded_voices, Utils.scheduleClip.
  fold (Utils_trackOf tracks c).
  destruct (Utils_trackOf tracks c) as [t |] eqn:Ht; [| reflexivity].
  destruct (Utils.track_muted t); [reflexivity |].
  set (r := or_default (Utils.track_playbackRate t) 1).
  destruct (Qltb (Utils.clip_startTime c +! Utils.clip_duration c /! r) s) eqn:Epast.
  - unfold play_voice. now rewrite Epast.
  - rewrite (play_voice_startArguments now s r c Epast).
    unfold Utils.createBufferSource. eff.
    destruct (Utils.startArguments now s r c) as [[w o] d].
    unfold passes_guard.
    destruct (Qltb 0 d && Qltb o _); simpl; [| reflexivity].
    unfold Utils.source_start. now destruct (start_throws P w o d).
Qed.

(** ** Utils: the guard of play *)

(** What the step of a clip that fails the guard does to the engine: at
    most a source node is created and connected; it is never started. *)
Lemma Utils_scheduleClip_guard_fails (P : Platform) (now s : Q)
    (tracks : list Utils.Track) (c : Utils.AudioClip) (t : Utils.Track)
    (w o d : Q) (e : Utils.AudioEngine) :
  Utils_trackOf tracks c = Some t ->
  Utils.startArguments now s (or_default (Utils.track_playbackRate t) 1) c = (w, o, d) ->
  d <= 0 \/ AudioBuffer.duration (Utils.clip_buffer c) <= o ->
  fst (Utils.scheduleClip P now s tracks c e) = Normal tt
  /\ starts (Utils.calls (snd (Utils.scheduleClip P now s tracks c e)))
     = starts (Utils.calls e)
  /\ Utils.activeSources (snd (Utils.scheduleClip P now s tracks c e))
     = Utils.activeSources e.
Proof.
  intros Ht Hargs Hguard. unfold Utils.scheduleClip.
  fold (Utils_trackOf tracks c). rewrite Ht.
  destruct (Utils.track_muted t); [eff; tauto |].
  destruct (Qltb _ s); [eff; tauto |].
  unfold Utils.createBufferSource. eff. rewrite Hargs.
  assert (Hg : Qltb 0 d && Qltb o (AudioBuffer.duration (Utils.clip_buffer c)) = false).
  { destruct Hguard as [Hd | Ho].
    - apply Qltb_ge in Hd. now rewrite Hd.
    - apply Qltb_ge in Ho. rewrite Ho. apply andb_false_r. }
  rewrite Hg. simpl. rewrite starts_app. simpl. rewrite app_nil_r. tauto.
Qed.

(** ** Utils: the reported position *)

Lemma Utils_getCurrentTime_transport (now : Q) (e1 e2 : Utils.AudioEngine) :
  Utils.context e1 = Utils.context e2 -> Utils.isPlaying e1 = Utils.isPlaying e2 ->
  Utils.startTime e1 = Utils.startTime e2 -> Utils.pausedAt e1 = Utils.pausedAt e2 ->
  Utils.getCurrentTime now e1 = Utils.getCurrentTime now e2.
Proof. unfold Utils.getCurrentTime. now intros -> -> -> ->. Qed.

Lemma Utils_ended_transport (n : nat) (now : Q) (e : Utils.AudioEngine) :
  Utils.getCurrentTime now (state_after (Utils.ended n) e) = Utils.getCurrentTime now e.
Proof.
  unfold Utils.ended. eff.
  destruct (existsb _ _); simpl; now apply Utils_getCurrentTime_transport.
Qed.

(** ** Sources that end by themselves *)

Lemma forEach_keeps {S X} (I : S -> Prop) (f : X -> Eff S unit) (xs : list X) :
  (forall x s, I s -> I (snd (f x s))) ->
  forall s, I s -> I (snd (forEach f xs s)).
Proof.
  intros Hf. induction xs as [| x xs IH]; intros s Hs; simpl.
  - exact Hs.
  - unfold bind. pose proof (Hf x s Hs) as Hi.
    destruct (f x s) as [[[] | err] s']; simpl in *; [apply IH, Hi | exact Hi].
Qed.

Lemma set_add_In (n m : nat) (s : list nat) :
  List.In m (set_add n s) -> List.In m s \/ m = n.
Proof.
  unfold set_add. destruct (existsb _ s); [tauto |].
  rewrite in_app_iff. simpl. intuition.
Qed.

Lemma set_delete_In (n m : nat) (s : list nat) :
  List.In m (set_delete n s) <-> List.In m s /\ m <> n.
Proof.
  unfold set_delete. rewrite filter_In, negb_true_iff, Nat.eqb_neq.
  intuition congruence.
Qed.

Lemma Utils_play_eq (P : Platform) (now : Q) (clips : list Utils.AudioClip)
    (tracks : list Utils.Track) (s : Q) (e : Utils.AudioEngine) :
  Utils.play P now clips tracks s e
  = (modify (Utils.with_transport true (now -! s) s) ;;
     forEach (Utils.updateTrackParams now) tracks ;;
     forEach (Utils.scheduleClip P now s tracks) clips) (Utils_prepared P e)
  /\ Utils.context (Utils_prepared P e) = true.
Proof.
  unfold Utils.play, Utils_prepared. rewrite bind_get.
  set (e1 := if Utils.isPlaying e then state_after (Utils.stop P) e else e).
  assert (Hstop : (if Utils.isPlaying e then Utils.stop P else ret tt) e = (Normal tt, e1)).
  { subst e1. unfold state_after. destruct (Utils.isPlaying e); [| reflexivity].
    now rewrite Utils_stop_eq. }
  rewrite (bind_normal _ _ _ _ _ Hstop).
  assert (Hinit : Utils.init e1 = (Normal tt, state_after Utils.init e1)) by reflexivity.
  rewrite (bind_normal _ _ _ _ _ Hinit), bind_get.
  assert (Hc : Utils.context (state_after Utils.init e1) = true).
  { unfold state_after, Utils.init, modify; simpl.
    destruct (Utils.context e1) eqn:E; [exact E | reflexivity]. }
  split; [| exact Hc]. rewrite Hc. reflexivity.
Qed.

Lemma Utils_scheduleClip_handlers (P : Platform) (now s : Q)
    (tracks : list Utils.Track) (c : Utils.AudioClip) (e : Utils.AudioEngine) :
  Utils_handlers_cover e ->
  Utils_handlers_cover (snd (Utils.scheduleClip P now s tracks c e)).
Proof.
  intros H. unfold Utils.scheduleClip.
  destruct (List.find _ tracks) as [t |]; [| exact H].
  destruct (Utils.track_muted t); [exact H |].
  destruct (Qltb _ s); [exact H |].
  unfold Utils.createBufferSource. eff.
  destruct (Utils.startArguments _ _ _ _) as [[w o] d].
  destruct (Qltb 0 d && Qltb o _); simpl; [| exact H].
  unfold Utils.source_start. destruct (start_throws P w o d); simpl; [exact H |].
  unfold Utils_handlers_cover; simpl. intros m Hm.
  apply set_add_In in Hm as [Hm | ->]; apply in_or_app; [left; now apply H | right; now left].
Qed.

Lemma Utils_updateTrackParams_handlers (now : Q) (t : Utils.Track) (e : Utils.AudioEngine) :
  Utils_handlers_cover e ->
  Utils_handlers_cover (snd (Utils.updateTrackParams now t e)).
Proof.
  intros H. unfold Utils.updateTrackParams, Utils.createTrackChain. eff.
  destruct (Utils.context e) eqn:Hc; simpl; [| exact H].
  destruct (Utils.trackChains e !! Utils.track_id t); simpl; rewrite ?Hc; simpl; exact H.
Qed.

Lemma Utils_step_handlers (P : Platform) (e e' : Utils.AudioEngine) :
  Utils_step P e e' -> Utils_handlers_cover e -> Utils_handlers_cover e'.
Proof.
  intros Hstep H. destruct Hstep.
  - unfold state_after, Utils.init, modify; simpl. now destruct (Utils.context e).
  - now apply Utils_updateTrackParams_handlers.
  - unfold state_after.
    destruct (Utils_play_eq P now clips tracks startOffset e) as [-> _].
    unfold bind at 1, modify.
    set (e1 := Utils.with_transport _ _ _ _).
    assert (H1 : Utils_handlers_cover e1).
    { subst e1. unfold Utils_prepared, Utils_handlers_cover, state_after.
      destruct (Utils.isPlaying e).
      - rewrite Utils_stop_eq. unfold Utils.init, modify; simpl.
        destruct (Utils.context e); simpl; intros m [].
      - unfold Utils.init, modify; simpl. destruct (Utils.context e); exact H. }
    unfold bind.
    pose proof (forEach_keeps Utils_handlers_cover (Utils.updateTrackParams now) tracks
                  (Utils_updateTrackParams_handlers now) e1 H1) as H2.
    destruct (forEach (Utils.updateTrackParams now) tracks e1) as [[[] | err] e2];
      simpl in H2; [| exact H2].
    apply forEach_keeps; [| exact H2].
    intros c e3. apply Utils_scheduleClip_handlers.
  - unfold state_after. rewrite Utils_stop_eq. simpl. intros m [].
  - unfold state_after, Utils.ended. eff.
    destruct (existsb _ _); simpl; [| exact H].
    intros m Hm. apply set_delete_In in Hm as [Hm _]. now apply H.
Qed.

Lemma Utils_reachable_handlers (P : Platform) (e : Utils.AudioEngine) :
  Utils_reachable P e -> Utils_handlers_cover e.
Proof.
  unfold Utils_reachable. intros H.
  assert (G : forall e0 e1, rtc (Utils_step P) e0 e1 ->
                Utils_handlers_cover e0 -> Utils_handlers_cover e1).
  { intros e0 e1 Hr. induction Hr as [| x y z Hstep _ IH]; [tauto |].
    intros Hx. apply IH. now apply (Utils_step_handlers P x y). }
  apply (G Utils.new e H). intros m [].
Qed.

Lemma Utils_ended_removes (P : Platform) (n : nat) (e : Utils.AudioEngine) :
  Utils_reachable P e -> List.In n (Utils.activeSources e) ->
  fst (Utils.ended n e) = Normal tt
  /\ ~ List.In n (Utils.activeSources (state_after (Utils.ended n) e))
  /\ (forall m, m <> n ->
        (List.In m (Utils.activeSources (state_after (Utils.ended n) e))
         <-> List.In m (Utils.activeSources e))).
Proof.
  intros Hr Hin. apply Utils_reachable_handlers in Hr.
  assert (Hh : existsb (Nat.eqb n) (Utils.onended e) = true).
  { apply existsb_exists. exists n. split; [now apply Hr | apply Nat.eqb_refl]. }
  unfold Utils.ended. eff. rewrite Hh. simpl.
  split; [reflexivity |]. split.
  - rewrite set_delete_In. tauto.
  - intros m Hm. rewrite set_delete_In. tauto.
Qed.

Lemma Services_stop_loop (P : Platform) (l : list nat) (e : Services.AudioEngine) :
  forEach (fun s => try_catch (Services.source_stop P s) (fun _ => ret tt)) l e
  = (Normal tt, Services.with_calls (Services.calls e ++ map Stop (live P l)) e).
Proof.
  revert e. induction l as [| n l IH]; intros e; simpl.
  - destruct e; unfold ret, Services.with_calls; simpl. now rewrite app_nil_r.
  - unfold bind, try_catch, Services.source_stop.
    destruct (stop_throws P n); simpl.
    + apply IH.
    + unfold Services.request, modify. rewrite IH. unfold Services.with_calls; simpl.
      now rewrite <- app_assoc.
Qed.

Lemma Services_stopAll_eq (P : Platform) (e : Services.AudioEngine) :
  Services.stopAll P e
  = (Normal tt,
     Services.with_activeSources []
       (Services.with_calls
          (Services.calls e ++ map Stop (live P (Services.activeSources e))) e)).
Proof.
  unfold Services.stopAll, bind, get. rewrite Services_stop_loop. reflexivity.
Qed.

Lemma Services_updateTrackParams_frame (now : Q) (t : Services.Track)
    (e : Services.AudioEngine) :
  fst (Services.updateTrackParams now t e) = Normal tt
  /\ Services.bufferMap (snd (Services.updateTrackParams now t e)) = Services.bufferMap e
  /\ Services.activeSources (snd (Services.updateTrackParams now t e))
     = Services.activeSources e
  /\ Services.onended (snd (Services.updateTrackParams now t e)) = Services.onended e
  /\ Services.calls (snd (Services.updateTrackParams now t e)) = Services.calls e
  /\ Services.nodes (snd (Services.updateTrackParams now t e)) = Services.nodes e
  /\ (forall id, is_Some (Services.trackNodes
                            (snd (Services.updateTrackParams now t e)) !! id)
                 <-> is_Some (Services.trackNodes e !! id)).
Proof.
  unfold Services.updateTrackParams. eff.
  destruct (Services.trackNodes e !! Services.track_id t) eqn:E; simpl;
    repeat (split; [reflexivity |]); [| tauto].
  intros id. destruct (decide (Services.track_id t = id)) as [<- | Hne].
  - rewrite lookup_insert_eq, E. split; eauto.
  - now rewrite lookup_insert_ne.
Qed.

Lemma Services_setupTrack_frame (now : Q) (t : Services.Track)
    (e : Services.AudioEngine) :
  fst (Services.setupTrack now t e) = Normal tt
  /\ Services.bufferMap (snd (Services.setupTrack now t e)) = Services.bufferMap e
  /\ Services.activeSources (snd (Services.setupTrack now t e))
     = Services.activeSources e
  /\ Services.onended (snd (Services.setupTrack now t e)) = Services.onended e
  /\ Services.calls (snd (Services.setupTrack now t e)) = Services.calls e
  /\ Services.nodes (snd (Services.setupTrack now t e)) = Services.nodes e
  /\ (forall id, is_Some (Services.trackNodes (snd (Services.setupTrack now t e)) !! id)
                 <-> is_Some (Services.trackNodes e !! id) \/ id = Services.track_id t).
Proof.
  unfold Services.setupTrack. rewrite bind_get.
  destruct (Services.trackNodes e !! Services.track_id t) eqn:E.
  - destruct (Services_updateTrackParams_frame now t e) as (H1 & H2 & H3 & H4 & H5 & H6 & H7).
    repeat (split; [assumption |]).
    intros id. rewrite H7. split; [tauto |]. intros [H | ->]; [exact H |].
    rewrite E. eauto.
  - match goal with |- context [bind (modify ?f) _ e] =>
      set (e1 := f e);
      assert (Hm : modify f e = (Normal tt, e1)) by reflexivity
    end.
    rewrite (bind_normal _ _ _ _ _ Hm).
    destruct (Services_updateTrackParams_frame now t e1) as (H1 & H2 & H3 & H4 & H5 & H6 & H7).
    repeat (split; [assumption |]).
    intros id. rewrite H7. subst e1; simpl.
    destruct (decide (Services.track_id t = id)) as [<- | Hne].
    + rewrite lookup_insert_eq. split; eauto.
    + rewrite lookup_insert_ne by exact Hne. split; [tauto |].
      intros [H | ->]; [exact H | congruence].
Qed.

(** What [playSource] leaves behind: a created node, and if the platform
    accepts the start request, a started, active node with its handler. *)
Lemma Services_playSource_eq (P : Platform) (buffer : AudioBuffer.t) (dest : destination)
    (w o d : Q) (e : Services.AudioEngine) :
  let n := Services.nodes e in
  let made := Services.with_calls
                (Services.calls e ++ [CreateBufferSource n buffer 1 dest])
                (Services.with_nodes (S n) e) in
  Services.playSource P buffer dest w o d e
  = if start_throws P w o d
    then (Throw "RangeError", made)
    else (Normal tt,
          Services.with_onended (Services.onended e ++ [n])
            (Services.with_activeSources (set_add n (Services.activeSources e))
               (Services.with_calls (Services.calls made ++ [Start n w o d]) made))).
Proof.
  unfold Services.playSource. eff. now destruct (start_throws P w o d).
Qed.

Lemma Services_scheduleClip_keeps (P : Platform) (now s : Q)
    (c : Services.AudioClip) (e : Services.AudioEngine) :
  Services.bufferMap (snd (Services.scheduleClip P now s c e)) = Services.bufferMap e
  /\ Services.trackNodes (snd (Services.scheduleClip P now s c e)) = Services.trackNodes e
  /\ (Services_handlers_cover e ->
      Services_handlers_cover (snd (Services.scheduleClip P now s c e))).
Proof.
  assert (Hplay : forall buffer dest w o d,
             Services.bufferMap (snd (Services.playSource P buffer dest w o d e))
             = Services.bufferMap e
             /\ Services.trackNodes (snd (Services.playSource P buffer dest w o d e))
                = Services.trackNodes e
             /\ (Services_handlers_cover e ->
                 Services_handlers_cover (snd (Services.playSource P buffer dest w o d e)))).
  { intros. rewrite Services_playSource_eq. cbv zeta.
    destruct (start_throws P w o d); simpl; (split; [reflexivity |]);
      (split; [reflexivity |]); unfold Services_handlers_cover; simpl; [tauto |].
    intros H m Hm.
    apply set_add_In in Hm as [Hm | ->]; apply in_or_app;
      [left; now apply H | right; now left]. }
  unfold Services.scheduleClip. rewrite bind_get.
  destruct (Services.bufferMap e !! _) as [buffer |]; [| simpl; tauto].
  destruct (Services.trackNodes e !! _); [| simpl; tauto].
  destruct (Qle_bool s _); [apply Hplay |].
  destruct (Qltb s _); [apply Hplay | simpl; tauto].
Qed.

Lemma Services_step_handlers (P : Platform) (e e' : Services.AudioEngine) :
  Services_step P e e' -> Services_handlers_cover e -> Services_handlers_cover e'.
Proof.
  intros Hstep H. destruct Hstep; unfold state_after.
  - exact H.
  - destruct (Services_setupTrack_frame now track e) as (_ & _ & Ha & Ho & _).
    unfold Services_handlers_cover. now rewrite Ha, Ho.
  - destruct (Services_updateTrackParams_frame now track e) as (_ & _ & Ha & Ho & _).
    unfold Services_handlers_cover. now rewrite Ha, Ho.
  - unfold Services.schedulePlayback, bind at 1. rewrite Services_stopAll_eq.
    set (e1 := Services.with_activeSources [] _).
    assert (H1 : Services_handlers_cover e1) by (intros m []).
    unfold bind.
    pose proof (forEach_keeps Services_handlers_cover (Services.setupTrack now) tracks) as Hk.
    specialize (Hk (fun t e2 H2 => ltac:(
      destruct (Services_setupTrack_frame now t e2) as (_ & _ & Ha & Ho & _);
      unfold Services_handlers_cover; rewrite Ha, Ho; exact H2)) e1 H1).
    destruct (forEach (Services.setupTrack now) tracks e1) as [[[] | err] e2];
      simpl in Hk; [| exact Hk].
    apply forEach_keeps; [| exact Hk].
    intros c e3. apply Services_scheduleClip_keeps.
  - rewrite Services_stopAll_eq. simpl. intros m [].
  - unfold Services.ended. eff.
    destruct (existsb _ _); simpl; [| exact H].
    intros m Hm. apply set_delete_In in Hm as [Hm _]. now apply H.
Qed.

Lemma Services_reachable_handlers (P : Platform) (e : Services.AudioEngine) :
  Services_reachable P e -> Services_handlers_cover e.
Proof.
  unfold Services_reachable. intros H.
  assert (G : forall e0 e1, rtc (Services_step P) e0 e1 ->
                Services_handlers_cover e0 -> Services_handlers_cover e1).
  { intros e0 e1 Hr. induction Hr as [| x y z Hstep _ IH]; [tauto |].
    intros Hx. apply IH. now apply (Services_step_handlers P x y). }
  apply (G Services.new e H). intros m [].
Qed.

Lemma Services_ended_removes (P : Platform) (n : nat) (e : Services.AudioEngine) :
  Services_reachable P e -> List.In n (Services.activeSources e) ->
  fst (Services.ended n e) = Normal tt
  /\ ~ List.In n (Services.activeSources (state_after (Services.ended n) e))
  /\ (forall m, m <> n ->
        (List.In m (Services.activeSources (state_after (Services.ended n) e))
         <-> List.In m (Services.activeSources e))).
Proof.
  intros Hr Hin. apply Services_reachable_handlers in Hr.
  assert (Hh : existsb (Nat.eqb n) (Services.onended e) = true).
  { apply existsb_exists. exists n. split; [now apply Hr | apply Nat.eqb_refl]. }
  unfold Services.ended. eff. rewrite Hh. simpl.
  split; [reflexivity |]. split.
  - rewrite set_delete_In. tauto.
  - intros m Hm. rewrite set_delete_In. tauto.
Qed.

(** ** Utils: muted tracks *)

Lemma Utils_scheduleClip_muted (P : Platform) (now s : Q) (tracks : list Utils.Track)
    (c : Utils.AudioClip) (e : Utils.AudioEngine) :
  Utils_muted tracks c = true ->
  Utils.scheduleClip P now s tracks c e = (Normal tt, e).
Proof.
  unfold Utils_muted, Utils.scheduleClip. fold (Utils_trackOf tracks c).
  destruct (Utils_trackOf tracks c) as [t |]; [| discriminate].
  now intros ->.
Qed.

Lemma Utils_renderClip_muted (P : Platform) (tracks : list Utils.Track)
    (c : Utils.AudioClip) (b : Utils.OfflineBuild) :
  Utils_muted tracks c = true ->
  Utils.renderClip P tracks c b = (Normal tt, b).
Proof.
  unfold Utils_muted, Utils.renderClip. fold (Utils_trackOf tracks c).
  destruct (Utils_trackOf tracks c) as [t |]; [| discriminate].
  now intros ->.
Qed.

Lemma bind_ext_l {S A B} (m : Eff S A) (k1 k2 : A -> Eff S B) (s : S) :
  (forall a s', k1 a s' = k2 a s') -> (x <- m ;; k1 x) s = (x <- m ;; k2 x) s.
Proof. intros H. unfold bind. destruct (m s) as [[a | err] s']; [apply H | reflexivity]. Qed.

Lemma bind_ext_r {S A B} (m1 m2 : Eff S A) (k : A -> Eff S B) (s : S) :
  m1 s = m2 s -> (x <- m1 ;; k x) s = (x <- m2 ;; k x) s.
Proof. intros H. unfold bind. now rewrite H. Qed.

Lemma Utils_play_unmuted (P : Platform) (now : Q) (clips : list Utils.AudioClip)
    (tracks : list Utils.Track) (s : Q) (e : Utils.AudioEngine) :
  Utils.play P now clips tracks s e
  = Utils.play P now (unmuted_clips tracks clips) tracks s e.
Proof.
  destruct (Utils_play_eq P now clips tracks s e) as [-> _].
  destruct (Utils_play_eq P now (unmuted_clips tracks clips) tracks s e) as [-> _].
  apply bind_ext_l. intros _ e1. apply bind_ext_l. intros _ e2.
  symmetry. apply (forEach_filter (fun _ => True)); [| trivial | trivial].
  intros c e3 _ Hc. apply Utils_scheduleClip_muted.
  now apply negb_false_iff in Hc.
Qed.

Lemma Utils_offlineGraph_unmuted (P : Platform) (clips : list Utils.AudioClip)
    (tracks : list Utils.Track) (d : Q) :
  Utils.offlineGraph P clips tracks d
  = Utils.offlineGraph P (unmuted_clips tracks clips) tracks d.
Proof.
  unfold Utils.offlineGraph.
  apply bind_ext_l. intros _ b1. apply bind_ext_r.
  symmetry. apply (forEach_filter (fun _ => True)); [| trivial | trivial].
  intros c b _ Hc. apply Utils_renderClip_muted.
  now apply negb_false_iff in Hc.
Qed.

(** ** Services: absent buffers and tracks *)

Lemma bind_ext_post {S A B} (m : Eff S A) (k1 k2 : A -> Eff S B) (s : S) :
  (forall a s', m s = (Normal a, s') -> k1 a s' = k2 a s') ->
  (x <- m ;; k1 x) s = (x <- m ;; k2 x) s.
Proof.
  intros H. unfold bind. destruct (m s) as [[a | err] s'] eqn:E; [now apply H | reflexivity].
Qed.

Lemma has_track_In (tracks : list Services.Track) (id : string) :
  has_track tracks id = true <-> List.In id (map Services.track_id tracks).
Proof.
  unfold has_track. rewrite existsb_exists, in_map_iff.
  split; intros (t & H1 & H2); exists t.
  - apply String.eqb_eq in H2. tauto.
  - split; [tauto |]. apply String.eqb_eq. tauto.
Qed.

Lemma Services_setup_loop (now : Q) (tracks : list Services.Track)
    (e : Services.AudioEngine) :
  let r := forEach (Services.setupTrack now) tracks e in
  fst r = Normal tt
  /\ Services.bufferMap (snd r) = Services.bufferMap e
  /\ Services.calls (snd r) = Services.calls e
  /\ Services.nodes (snd r) = Services.nodes e
  /\ (forall id, is_Some (Services.trackNodes (snd r) !! id)
                 <-> is_Some (Services.trackNodes e !! id)
                     \/ List.In id (map Services.track_id tracks)).
Proof.
  revert e. induction tracks as [| t tracks IH]; intros e; cbv zeta; simpl.
  - repeat split; try reflexivity; tauto.
  - destruct (Services_setupTrack_frame now t e) as (H1 & H2 & _ & _ & H5 & H6 & H7).
    unfold bind. destruct (Services.setupTrack now t e) as [r1 e1]. simpl in *. subst r1.
    destruct (IH e1) as (I1 & I2 & I3 & I4 & I5).
    split; [exact I1 |]. split; [congruence |]. split; [congruence |].
    split; [congruence |].
    intros id. rewrite I5, H7. intuition.
Qed.

Lemma Services_scheduleClip_absent (P : Platform) (now s : Q)
    (c : Services.AudioClip) (e : Services.AudioEngine) :
  Services.bufferMap e !! Services.clip_bufferId c = None
  \/ Services.trackNodes e !! Services.clip_trackId c = None ->
  Services.scheduleClip P now s c e = (Normal tt, e).
Proof.
  intros H. unfold Services.scheduleClip. rewrite bind_get.
  destruct H as [-> | ->]; [reflexivity |].
  now destruct (Services.bufferMap e !! _).
Qed.

Lemma Services_schedulePlayback_playable (P : Platform) (now : Q)
    (clips : list Services.AudioClip) (s : Q) (tracks : list Services.Track)
    (e : Services.AudioEngine) :
  Services.schedulePlayback P now clips s tracks e
  = Services.schedulePlayback P now (List.filter (Services_playable e tracks) clips)
      s tracks e.
Proof.
  unfold Services.schedulePlayback.
  apply bind_ext_post. intros [] e1 H1.
  rewrite Services_stopAll_eq in H1.
  assert (He1 : Services.bufferMap e1 = Services.bufferMap e
                /\ Services.trackNodes e1 = Services.trackNodes e)
    by (injection H1 as <-; split; reflexivity).
  clear H1. destruct He1 as [Hb1 Ht1].
  apply bind_ext_post. intros [] e2 H2.
  pose proof (Services_setup_loop now tracks e1) as Hl. cbv zeta in Hl.
  rewrite H2 in Hl. simpl in Hl. destruct Hl as (_ & Hb & _ & _ & Hdom).
  symmetry.
  apply (forEach_filter
           (fun e3 => Services.bufferMap e3 = Services.bufferMap e
                      /\ Services.trackNodes e3 = Services.trackNodes e2)).
  - intros c e3 [Hb3 Ht3] Hc. apply Services_scheduleClip_absent.
    rewrite Hb3, Ht3. unfold Services_playable in Hc.
    destruct (Services.bufferMap e !! Services.clip_bufferId c); [| now left].
    right. destruct (Services.trackNodes e !! Services.clip_trackId c) eqn:Et;
      [discriminate |].
    apply eq_None_not_Some. rewrite Hdom, Ht1, Et.
    intros [[x Hx] | Hin]; [discriminate |].
    apply has_track_In in Hin. congruence.
  - intros c e3 [Hb3 Ht3].
    destruct (Services_scheduleClip_keeps P now s c e3) as (-> & -> & _). tauto.
  - split; [| reflexivity]. now rewrite Hb.
Qed.

(** ** The offline graphs *)

Lemma forEach_appends_in {S X O} (I : S -> Prop) (obs : S -> list O) (g : X -> list O)
    (f : X -> Eff S unit) (xs : list X) :
  (forall x s, List.In x xs -> I s ->
               fst (f x s) = Normal tt /\ I (snd (f x s))
               /\ obs (snd (f x s)) = obs s ++ g x) ->
  forall s, I s ->
            fst (forEach f xs s) = Normal tt
            /\ I (snd (forEach f xs s))
            /\ obs (snd (forEach f xs s)) = obs s ++ flat_map g xs.
Proof.
  induction xs as [| x xs IH]; intros Hf s Hs; simpl.
  - rewrite app_nil_r. tauto.
  - unfold bind. destruct (Hf x s (or_introl eq_refl) Hs) as (Hn & Hi & Ho).
    destruct (f x s) as [r s']; simpl in *. subst r.
    destruct (IH (fun y t Hy => Hf y t (or_intror Hy)) s' Hi) as (Hn' & Hi' & Ho').
    split; [exact Hn' |]. split; [exact Hi' |].
    rewrite Ho', Ho. symmetry. apply app_assoc.
Qed.

Lemma input_of_acc (base : nat) (ids : list string) (id : string) (acc : option nat) :
  input_of base ids id acc
  = match input_of base ids id None with Some i => Some i | None => acc end.
Proof.
  revert base acc. induction ids as [| x ids IH]; intros base acc; simpl; [reflexivity |].
  destruct (String.eqb x id); [| apply IH].
  rewrite (IH (S base) (Some base)).
  now destruct (input_of (S base) ids id None).
Qed.

Lemma input_of_Some (base : nat) (ids : list string) (id : string) (i : nat) :
  input_of base ids id None = Some i ->
  exists j, i = (base + j)%nat /\ ids !! j = Some id.
Proof.
  revert base. induction ids as [| x ids IH]; intros base; simpl; [discriminate |].
  rewrite input_of_acc.
  destruct (input_of (S base) ids id None) as [i' |] eqn:E.
  - intros [= <-]. destruct (IH (S base) E) as (j & -> & Hj).
    exists (S j). split; [lia | exact Hj].
  - destruct (String.eqb x id) eqn:Ex; [| discriminate].
    intros [= <-]. apply String.eqb_eq in Ex. subst x.
    exists 0%nat. split; [lia | reflexivity].
Qed.

Lemma input_of_None (base : nat) (ids : list string) (id : string) :
  input_of base ids id None = None <-> ~ List.In id ids.
Proof.
  revert base. induction ids as [| x ids IH]; intros base; simpl; [tauto |].
  rewrite input_of_acc.
  destruct (input_of (S base) ids id None) as [i' |] eqn:E.
  - split; [discriminate |]. intros H. exfalso. apply H. right.
    destruct (input_of_Some _ _ _ _ E) as (j & _ & Hj).
    apply list_elem_of_In. now apply list_elem_of_lookup_2 in Hj.
  - apply IH in E. destruct (String.eqb x id) eqn:Ex.
    + apply String.eqb_eq in Ex. split; [discriminate | tauto].
    + apply String.eqb_neq in Ex. tauto.
Qed.

Lemma Services_export_tracks (tracks : list Services.Track) (b : Services.OfflineBuild) :
  let r := forEach Services.exportTrack tracks b in
  let oc := Services.offlineCtx b in
  let oc' := Services.offlineCtx (snd r) in
  fst r = Normal tt
  /\ oc_numberOfChannels oc' = oc_numberOfChannels oc
  /\ oc_length oc' = oc_length oc
  /\ oc_sampleRate oc' = oc_sampleRate oc
  /\ oc_chains oc' = oc_chains oc ++ map Services.offlineChain tracks
  /\ oc_sources oc' = oc_sources oc
  /\ (forall id, Services.offlineTrackNodes (snd r) !! id
                 = input_of (List.length (oc_chains oc)) (map Services.track_id tracks) id
                     (Services.offlineTrackNodes b !! id)).
Proof.
  revert b. induction tracks as [| t tracks IH]; intros b; cbv zeta; simpl.
  - rewrite app_nil_r. repeat split; reflexivity.
  - unfold bind, Services.exportTrack at 1, modify.
    match goal with |- context [forEach _ tracks ?b1] => set (b' := b1) end.
    destruct (IH b') as (H1 & H2 & H3 & H4 & H5 & H6 & H7). cbv zeta in *.
    split; [exact H1 |]. subst b'; simpl in *.
    split; [exact H2 |]. split; [exact H3 |]. split; [exact H4 |].
    split; [rewrite H5, <- app_assoc; reflexivity |]. split; [exact H6 |].
    intros id. rewrite H7, length_app. simpl. rewrite Nat.add_1_r.
    f_equal. destruct (String.eqb (Services.track_id t) id) eqn:E.
    + apply String.eqb_eq in E. subst id. apply lookup_insert_eq.
    + apply String.eqb_neq in E. now apply lookup_insert_ne.
Qed.

Lemma Utils_render_tracks (tracks : list Utils.Track) (b : Utils.OfflineBuild) :
  let r := forEach Utils.renderTrack tracks b in
  let oc := Utils.offlineCtx b in
  let oc' := Utils.offlineCtx (snd r) in
  fst r = Normal tt
  /\ oc_numberOfChannels oc' = oc_numberOfChannels oc
  /\ oc_length oc' = oc_length oc
  /\ oc_sampleRate oc' = oc_sampleRate oc
  /\ oc_chains oc' = oc_chains oc ++ map Utils.offlineChain tracks
  /\ oc_sources oc' = oc_sources oc
  /\ (forall id, Utils.offlineTrackInputs (snd r) !! id
                 = input_of (List.length (oc_chains oc)) (map Utils.track_id tracks) id
                     (Utils.offlineTrackInputs b !! id)).
Proof.
  revert b. induction tracks as [| t tracks IH]; intros b; cbv zeta; simpl.
  - rewrite app_nil_r. repeat split; reflexivity.
  - unfold bind, Utils.renderTrack at 1, modify.
    match goal with |- context [forEach _ tracks ?b1] => set (b' := b1) end.
    destruct (IH b') as (H1 & H2 & H3 & H4 & H5 & H6 & H7). cbv zeta in *.
    split; [exact H1 |]. subst b'; simpl in *.
    split; [exact H2 |]. split; [exact H3 |]. split; [exact H4 |].
    split; [rewrite H5, <- app_assoc; reflexivity |]. split; [exact H6 |].
    intros id. rewrite H7, length_app. simpl. rewrite Nat.add_1_r.
    f_equal. destruct (String.eqb (Utils.track_id t) id) eqn:E.
    + apply String.eqb_eq in E. subst id. apply lookup_insert_eq.
    + apply String.eqb_neq in E. now apply lookup_insert_ne.
Qed.

Lemma Services_exportClip_effect (P : Platform) (e : Services.AudioEngine)
    (c : Services.AudioClip) (b : Services.OfflineBuild) :
  sources_accepted P
    (Services_offline_sources e (fun id => Services.offlineTrackNodes b !! id) c) ->
  let r := Services.exportClip P e c b in
  fst r = Normal tt
  /\ Services.offlineTrackNodes (snd r) = Services.offlineTrackNodes b
  /\ same_shell (Services.offlineCtx (snd r)) (Services.offlineCtx b)
  /\ oc_sources (Services.offlineCtx (snd r))
     = oc_sources (Services.offlineCtx b)
       ++ Services_offline_sources e (fun id => Services.offlineTrackNodes b !! id) c.
Proof.
  intros Hok. cbv zeta.
  unfold Services.exportClip, Services_offline_sources, same_shell in *.
  rewrite bind_get.
  destruct (Services.bufferMap e !! _) as [buffer |];
    [| simpl; rewrite app_nil_r; tauto].
  destruct (Services.offlineTrackNodes b !! _) as [dest |];
    [| simpl; rewrite app_nil_r; tauto].
  apply Forall_inv in Hok. simpl in Hok. rewrite Hok. simpl. tauto.
Qed.

Lemma Utils_renderClip_effect (P : Platform) (tracks : list Utils.Track)
    (c : Utils.AudioClip) (b : Utils.OfflineBuild) :
  sources_accepted P
    (Utils_offline_sources tracks (fun id => Utils.offlineTrackInputs b !! id) c) ->
  let r := Utils.renderClip P tracks c b in
  fst r = Normal tt
  /\ Utils.offlineTrackInputs (snd r) = Utils.offlineTrackInputs b
  /\ same_shell (Utils.offlineCtx (snd r)) (Utils.offlineCtx b)
  /\ oc_sources (Utils.offlineCtx (snd r))
     = oc_sources (Utils.offlineCtx b)
       ++ Utils_offline_sources tracks (fun id => Utils.offlineTrackInputs b !! id) c.
Proof.
  intros Hok. cbv zeta. unfold Utils.renderClip, Utils_offline_sources, same_shell in *.
  fold (Utils_trackOf tracks c).
  destruct (Utils_trackOf tracks c) as [t |]; [| simpl; rewrite app_nil_r; tauto].
  destruct (Utils.track_muted t); [simpl; rewrite app_nil_r; tauto |].
  rewrite bind_get.
  destruct (Utils.offlineTrackInputs b !! _) as [dest |];
    [| simpl; rewrite app_nil_r; tauto].
  apply Forall_inv in Hok. simpl in Hok. rewrite Hok. simpl. tauto.
Qed.

Lemma sources_accepted_flat_map {X} (P : Platform) (g : X -> list OfflineSource)
    (xs : list X) (x : X) :
  sources_accepted P (flat_map g xs) -> List.In x xs -> sources_accepted P (g x).
Proof.
  unfold sources_accepted. rewrite !List.Forall_forall. intros H Hin s Hs.
  apply H. apply in_flat_map. eauto.
Qed.

Lemma Services_export_clips (P : Platform) (e : Services.AudioEngine)
    (clips : list Services.AudioClip) (b : Services.OfflineBuild) :
  sources_accepted P
    (flat_map (Services_offline_sources e
                 (fun id => Services.offlineTrackNodes b !! id)) clips) ->
  let r := forEach (Services.exportClip P e) clips b in
  fst r = Normal tt
  /\ same_shell (Services.offlineCtx (snd r)) (Services.offlineCtx b)
  /\ oc_sources (Services.offlineCtx (snd r))
     = oc_sources (Services.offlineCtx b)
       ++ flat_map (Services_offline_sources e
                      (fun id => Services.offlineTrackNodes b !! id)) clips.
Proof.
  intros Hok. cbv zeta.
  destruct (forEach_appends_in
              (fun b' => Services.offlineTrackNodes b' = Services.offlineTrackNodes b
                         /\ same_shell (Services.offlineCtx b') (Services.offlineCtx b))
              (fun b' => oc_sources (Services.offlineCtx b'))
              (Services_offline_sources e (fun id => Services.offlineTrackNodes b !! id))
              (Services.exportClip P e) clips) with (s := b) as (H1 & (_ & H2) & H3).
  - intros c b' Hin [Hm Hsh].
    pose proof (sources_accepted_flat_map P _ clips c Hok Hin) as Hc.
    rewrite <- Hm in Hc.
    destruct (Services_exportClip_effect P e c b' Hc) as (E1 & E2 & E3 & E4).
    split; [exact E1 |]. split.
    + split; [congruence |]. unfold same_shell in *. intuition congruence.
    + rewrite E4, Hm. reflexivity.
  - split; [reflexivity |]. unfold same_shell. tauto.
  - tauto.
Qed.

Lemma Utils_render_clips (P : Platform) (tracks : list Utils.Track)
    (clips : list Utils.AudioClip) (b : Utils.OfflineBuild) :
  sources_accepted P
    (flat_map (Utils_offline_sources tracks
                 (fun id => Utils.offlineTrackInputs b !! id)) clips) ->
  let r := forEach (Utils.renderClip P tracks) clips b in
  fst r = Normal tt
  /\ same_shell (Utils.offlineCtx (snd r)) (Utils.offlineCtx b)
  /\ oc_sources (Utils.offlineCtx (snd r))
     = oc_sources (Utils.offlineCtx b)
       ++ flat_map (Utils_offline_sources tracks
                      (fun id => Utils.offlineTrackInputs b !! id)) clips.
Proof.
  intros Hok. cbv zeta.
  destruct (forEach_appends_in
              (fun b' => Utils.offlineTrackInputs b' = Utils.offlineTrackInputs b
                         /\ same_shell (Utils.offlineCtx b') (Utils.offlineCtx b))
              (fun b' => oc_sources (Utils.offlineCtx b'))
              (Utils_offline_sources tracks (fun id => Utils.offlineTrackInputs b !! id))
              (Utils.renderClip P tracks) clips) with (s := b) as (H1 & (_ & H2) & H3).
  - intros c b' Hin [Hm Hsh].
    pose proof (sources_accepted_flat_map P _ clips c Hok Hin) as Hc.
    rewrite <- Hm in Hc.
    destruct (Utils_renderClip_effect P tracks c b' Hc) as (E1 & E2 & E3 & E4).
    split; [exact E1 |]. split.
    + split; [congruence |]. unfold same_shell in *. intuition congruence.
    + rewrite E4, Hm. reflexivity.
  - split; [reflexivity |]. unfold same_shell. tauto.
  - tauto.
Qed.

Lemma oc_eta (oc : OfflineAudioContext) (n l r : Z) (chains : list TrackChain)
    (sources : list OfflineSource) :
  oc_numberOfChannels oc = n -> oc_length oc = l -> oc_sampleRate oc = r ->
  oc_chains oc = chains -> oc_sources oc = sources ->
  oc = {| oc_numberOfChannels := n; oc_length := l; oc_sampleRate := r;
          oc_chains := chains; oc_sources := sources |}.
Proof. destruct oc; simpl; intros; subst; reflexivity. Qed.

(** The graph the offline render builds, when the platform accepts the
    start request of each of its sources. *)
Lemma Services_offlineGraph_accepted (P : Platform) (e : Services.AudioEngine)
    (clips : list Services.AudioClip) (tracks : list Services.Track) (d : Q) :
  sources_accepted P
    (flat_map (Services_offline_sources e (Services_inputs tracks)) clips) ->
  fst (Services.offlineGraph P e clips tracks d)
  = Normal {| oc_numberOfChannels := 2;
              oc_length := Qceiling (d *! 44100);
              oc_sampleRate := 44100;
              oc_chains := map Services.offlineChain tracks;
              oc_sources :=
                flat_map (Services_offline_sources e
                            (Services_inputs tracks)) clips |}.
Proof.
  intros Hok. unfold Services.offlineGraph.
  match goal with |- context [bind _ _ ?b] => set (b0 := b) end.
  pose proof (Services_export_tracks tracks b0) as Ht. cbv zeta in Ht.
  destruct Ht as (T1 & T2 & T3 & T4 & T5 & T6 & T7).
  unfold bind at 1.
  destruct (forEach Services.exportTrack tracks b0) as [r1 b1]. simpl in *. subst r1.
  assert (Hext : flat_map (Services_offline_sources e
                             (fun id => Services.offlineTrackNodes b1 !! id)) clips
                 = flat_map (Services_offline_sources e (Services_inputs tracks)) clips).
  { apply flat_map_ext. intros c.
    unfold Services_offline_sources, Services_inputs. now rewrite T7, lookup_empty. }
  rewrite <- Hext in Hok.
  pose proof (Services_export_clips P e clips b1 Hok) as Hc. cbv zeta in Hc.
  destruct Hc as (C1 & (C2 & C3 & C4 & C5) & C6).
  unfold bind at 1.
  destruct (forEach (Services.exportClip P e) clips b1) as [r2 b2]. simpl in *. subst r2.
  rewrite bind_get. unfold ret. simpl.
  f_equal.
  apply oc_eta; [congruence | rewrite C3, T3; reflexivity | congruence | congruence |].
  rewrite C6, T6. simpl. exact Hext.
Qed.

Lemma Utils_offlineGraph_accepted (P : Platform)
    (clips : list Utils.AudioClip) (tracks : list Utils.Track) (d : Q) :
  sources_accepted P
    (flat_map (Utils_offline_sources tracks (Utils_inputs tracks)) clips) ->
  fst (Utils.offlineGraph P clips tracks d)
  = Normal {| oc_numberOfChannels := 2;
              oc_length := Qceiling (d *! 44100);
              oc_sampleRate := 44100;
              oc_chains := map Utils.offlineChain tracks;
              oc_sources :=
                flat_map (Utils_offline_sources tracks
                            (Utils_inputs tracks)) clips |}.
Proof.
  intros Hok. unfold Utils.offlineGraph. cbv zeta.
  match goal with |- context [bind _ _ ?b] => set (b0 := b) end.
  pose proof (Utils_render_tracks tracks b0) as Ht. cbv zeta in Ht.
  destruct Ht as (T1 & T2 & T3 & T4 & T5 & T6 & T7).
  unfold bind at 1.
  destruct (forEach Utils.renderTrack tracks b0) as [r1 b1]. simpl in *. subst r1.
  assert (Hext : flat_map (Utils_offline_sources tracks
                             (fun id => Utils.offlineTrackInputs b1 !! id)) clips
                 = flat_map (Utils_offline_sources tracks (Utils_inputs tracks)) clips).
  { apply flat_map_ext. intros c.
    unfold Utils_offline_sources, Utils_inputs. now rewrite T7, lookup_empty. }
  rewrite <- Hext in Hok.
  pose proof (Utils_render_clips P tracks clips b1 Hok) as Hc. cbv zeta in Hc.
  destruct Hc as (C1 & (C2 & C3 & C4 & C5) & C6).
  unfold bind at 1.
  destruct (forEach (Utils.renderClip P tracks) clips b1) as [r2 b2]. simpl in *. subst r2.
  rewrite bind_get. unfold ret. simpl.
  f_equal.
  apply oc_eta; [congruence | rewrite C3, T3; reflexivity | congruence | congruence |].
  rewrite C6, T6. simpl. exact Hext.
Qed.

(** The sources of a graph carry the windows of their clips: a platform that
    accepts the request of every clip accepts those of the sources. *)
Lemma Services_starts_accepted_sources (P : Platform) (e : Services.AudioEngine)
    (inputs : string -> option nat) (clips : list Services.AudioClip) :
  Services_starts_accepted P clips ->
  sources_accepted P (flat_map (Services_offline_sources e inputs) clips).
Proof.
  unfold Services_starts_accepted, sources_accepted. rewrite !List.Forall_forall.
  intros H s Hs. apply in_flat_map in Hs as (c & Hc & Hin).
  specialize (H c Hc). unfold Services_offline_sources in Hin.
  destruct (Services.bufferMap e !! _); [| destruct Hin].
  destruct (inputs _); [| destruct Hin].
  destruct Hin as [<- | []]. exact H.
Qed.

Lemma Services_offlineGraph_eq (P : Platform) (e : Services.AudioEngine)
    (clips : list Services.AudioClip) (tracks : list Services.Track) (d : Q) :
  Services_starts_accepted P clips ->
  fst (Services.offlineGraph P e clips tracks d)
  = Normal {| oc_numberOfChannels := 2;
              oc_length := Qceiling (d *! 44100);
              oc_sampleRate := 44100;
              oc_chains := map Services.offlineChain tracks;
              oc_sources :=
                flat_map (Services_offline_sources e
                            (Services_inputs tracks)) clips |}.
Proof.
  intros Hok. now apply Services_offlineGraph_accepted, Services_starts_accepted_sources.
Qed.

Lemma Services_exportClip_keeps (P : Platform) (e : Services.AudioEngine)
    (c : Services.AudioClip) (b : Services.OfflineBuild) :
  Services.offlineTrackNodes (snd (Services.exportClip P e c b))
  = Services.offlineTrackNodes b.
Proof.
  unfold Services.exportClip. rewrite bind_get.
  destruct (Services.bufferMap e !! _); [| reflexivity].
  destruct (Services.offlineTrackNodes b !! _); [| reflexivity].
  now destruct (start_throws P _ _ _).
Qed.

Lemma Services_exportClip_absent (P : Platform) (e : Services.AudioEngine)
    (c : Services.AudioClip) (b : Services.OfflineBuild) :
  Services.bufferMap e !! Services.clip_bufferId c = None
  \/ Services.offlineTrackNodes b !! Services.clip_trackId c = None ->
  Services.exportClip P e c b = (Normal tt, b).
Proof.
  intros H. unfold Services.exportClip. rewrite bind_get.
  destruct H as [-> | ->]; [reflexivity |].
  now destruct (Services.bufferMap e !! _).
Qed.

Lemma Services_offlineGraph_exportable (P : Platform) (e : Services.AudioEngine)
    (clips : list Services.AudioClip) (tracks : list Services.Track) (d : Q) :
  Services.offlineGraph P e clips tracks d
  = Services.offlineGraph P e (List.filter (Services_exportable e tracks) clips) tracks d.
Proof.
  unfold Services.offlineGraph.
  match goal with |- context [bind _ _ ?b] => set (b0 := b) end.
  apply bind_ext_post. intros [] b1 H1.
  pose proof (Services_export_tracks tracks b0) as Ht. cbv zeta in Ht.
  rewrite H1 in Ht. simpl in Ht. destruct Ht as (_ & _ & _ & _ & _ & _ & T7).
  apply bind_ext_r. symmetry.
  apply (forEach_filter
           (fun b3 => Services.offlineTrackNodes b3 = Services.offlineTrackNodes b1)).
  - intros c b3 Hb3 Hc. apply Services_exportClip_absent.
    unfold Services_exportable in Hc.
    destruct (Services.bufferMap e !! Services.clip_bufferId c); [| now left].
    right. rewrite Hb3, T7, lookup_empty. apply input_of_None.
    intros Hin. apply has_track_In in Hin. congruence.
  - intros c b3 Hb3. now rewrite Services_exportClip_keeps.
  - reflexivity.
Qed.

(** ** Routing in the offline graphs *)

Lemma Utils_inputs_route (tracks : list Utils.Track) (id : string) (i : nat) :
  Utils_inputs tracks id = Some i ->
  exists t, tracks !! i = Some t /\ Utils.track_id t = id
            /\ map Utils.offlineChain tracks !! i = Some (Utils.offlineChain t).
Proof.
  unfold Utils_inputs. intros H.
  apply input_of_Some in H as (j & -> & Hj). simpl.
  change (map Utils.track_id tracks) with (Utils.track_id <$> tracks) in Hj.
  rewrite list_lookup_fmap in Hj.
  destruct (tracks !! j) as [t |] eqn:E; [| discriminate].
  injection Hj as Hid. exists t. repeat split; [exact Hid |].
  change (map Utils.offlineChain tracks) with (Utils.offlineChain <$> tracks).
  now rewrite list_lookup_fmap, E.
Qed.

Lemma Services_inputs_route (tracks : list Services.Track) (id : string) (i : nat) :
  Services_inputs tracks id = Some i ->
  exists t, tracks !! i = Some t /\ Services.track_id t = id
            /\ map Services.offlineChain tracks !! i = Some (Services.offlineChain t).
Proof.
  unfold Services_inputs. intros H.
  apply input_of_Some in H as (j & -> & Hj). simpl.
  change (map Services.track_id tracks) with (Services.track_id <$> tracks) in Hj.
  rewrite list_lookup_fmap in Hj.
  destruct (tracks !! j) as [t |] eqn:E; [| discriminate].
  injection Hj as Hid. exists t. repeat split; [exact Hid |].
  change (map Services.offlineChain tracks) with (Services.offlineChain <$> tracks).
  now rewrite list_lookup_fmap, E.
Qed.

Lemma Utils_offline_sources_one (tracks : list Utils.Track) (c : Utils.AudioClip)
    (t : Utils.Track) :
  Utils_trackOf tracks c = Some t -> Utils.track_muted t = false ->
  exists input,
    Utils_inputs tracks (Utils.clip_trackId c) = Some input
    /\ Utils_offline_sources tracks (Utils_inputs tracks) c
       = [ {| os_buffer := Utils.clip_buffer c;
              os_playbackRate := or_default (Utils.track_playbackRate t) 1;
              os_input := input;
              os_when := Utils.clip_startTime c;
              os_offset := Utils.clip_offset c;
              os_duration := Utils.clip_duration c |} ].
Proof.
  intros Ht Hm. unfold Utils_offline_sources. rewrite Ht, Hm.
  destruct (Utils_inputs tracks (Utils.clip_trackId c)) as [i |] eqn:E; [eauto |].
  exfalso. unfold Utils_inputs in E. apply input_of_None in E. apply E.
  apply Utils_trackOf_In in Ht as [Hin <-]. now apply in_map.
Qed.

Lemma Services_offline_sources_one (e : Services.AudioEngine)
    (tracks : list Services.Track) (c : Services.AudioClip) (buffer : AudioBuffer.t) :
  Services.bufferMap e !! Services.clip_bufferId c = Some buffer ->
  has_track tracks (Services.clip_trackId c) = true ->
  exists input,
    Services_inputs tracks (Services.clip_trackId c) = Some input
    /\ Services_offline_sources e (Services_inputs tracks) c
       = [ {| os_buffer := buffer;
              os_playbackRate := 1;
              os_input := input;
              os_when := Services.clip_startTime c;
              os_offset := Services.clip_offset c;
              os_duration := Services.clip_duration c |} ].
Proof.
  intros Hb Ht. unfold Services_offline_sources. rewrite Hb.
  destruct (Services_inputs tracks (Services.clip_trackId c)) as [i |] eqn:E; [eauto |].
  exfalso. unfold Services_inputs in E. apply input_of_None in E. apply E.
  now apply has_track_In.
Qed.

Lemma Qceiling_covers (x : Q) : inject_Z (Qceiling x) - 1 < x /\ x <= inject_Z (Qceiling x).
Proof.
  split; [| apply Qle_ceiling].
  pose proof (Qceiling_lt x) as H. unfold Qminus.
  change (- (1)) with (inject_Z (-1)). rewrite <- inject_Z_plus.
  replace (Qceiling x + -1)%Z with (Qceiling x - 1)%Z by lia. exact H.
Qed.

(** ** The WAV encoder *)

Lemma Qtruncate_bounds (a b : Z) (q : Q) :
  inject_Z a <= q -> q <= inject_Z b -> (a <= Utils.Qtruncate q <= b)%Z.
Proof.
  intros Ha Hb. unfold Utils.Qtruncate. destruct (Qltb q 0).
  - split.
    + rewrite <- (Qceiling_Z a). now apply Qceiling_resp_le.
    + rewrite <- (Qceiling_Z b). now apply Qceiling_resp_le.
  - split.
    + rewrite <- (Qfloor_Z a). now apply Qfloor_resp_le.
    + rewrite <- (Qfloor_Z b). now apply Qfloor_resp_le.
Qed.

Lemma ToInt32_small (q : Q) :
  (-32768 <= Utils.Qtruncate q <= 32767)%Z ->
  Utils.ToInt32 (Finite q) = Utils.Qtruncate q.
Proof.
  intros H. unfold Utils.ToInt32. rewrite Z.mod_small; lia.
Qed.

Lemma clamped_range (x : float) (q : Q) :
  clamped x = Finite q -> -1 <= q /\ q <= 1.
Proof.
  unfold clamped. destruct x as [| | | p]; simpl; try discriminate.
  - intros [= <-]. split; discriminate.
  - intros [= <-]. split; discriminate.
  - intros [= <-].
    destruct (Qltb p 1) eqn:E1.
    + apply Qltb_lt in E1. destruct (Qltb (-1) p) eqn:E2.
      * apply Qltb_lt in E2. lra.
      * lra.
    + destruct (Qltb (-1) 1) eqn:E2; [lra | discriminate E2].
Qed.

Lemma clamped_NaN (x : float) :
  clamped x = NaN \/ exists q, clamped x = Finite q.
Proof. destruct x; simpl; eauto. Qed.

Lemma sampleToInt_range (x : float) : (-32768 <= Utils.sampleToInt x <= 32767)%Z.
Proof.
  unfold Utils.sampleToInt. fold (clamped x).
  destruct (clamped_NaN x) as [-> | [q Hq]]; [simpl; lia |].
  rewrite Hq. apply clamped_range in Hq as [Hlo Hhi].
  cbn [Utils.float_add Utils.float_neg Utils.float_mul].
  destruct (Qltb ((1 # 2) + q) 0) eqn:E.
  - apply Qltb_lt in E.
    assert (Hb : (-32768 <= Utils.Qtruncate (q * 32768) <= 32767)%Z).
    { apply Qtruncate_bounds.
      - change (inject_Z (-32768)) with (-(32768)). lra.
      - change (inject_Z 32767) with 32767. lra. }
    now rewrite ToInt32_small.
  - apply Qltb_ge in E.
    assert (Hb : (-32768 <= Utils.Qtruncate (q * 32767) <= 32767)%Z).
    { apply Qtruncate_bounds.
      - change (inject_Z (-32768)) with (-(32768)). lra.
      - change (inject_Z 32767) with 32767. lra. }
    now rewrite ToInt32_small.
Qed.

Lemma le_bytes_length (n : nat) (x : Z) : List.length (Utils.le_bytes n x) = n.
Proof. revert x. induction n as [| n IH]; intros x; simpl; [reflexivity | now rewrite IH]. Qed.

Lemma le_value_le_bytes (n : nat) (x : Z) :
  le_value (Utils.le_bytes n x) = (x mod 256 ^ Z.of_nat n)%Z.
Proof.
  revert x. induction n as [| n IH]; intros x.
  - simpl. now rewrite Z.mod_1_r.
  - cbn [Utils.le_bytes le_value]. rewrite IH.
    rewrite Nat2Z.inj_succ, Z.pow_succ_r by lia.
    rewrite Z.rem_mul_r by lia. lia.
Qed.

(** The conversion of the inner loop is the clamp and the scaling of the
    specification. *)
Lemma sampleToInt_pcm16 (x : float) : Utils.sampleToInt x = pcm16 x.
Proof.
  destruct x as [| | | q]; try reflexivity.
  unfold Utils.sampleToInt, pcm16. cbv zeta.
  assert (Hc : Utils.Math_max (-1) (Utils.Math_min 1 (Finite q))
               = Finite (if Qltb q 1 then if Qltb (-1) q then q else -1 else 1)).
  { simpl. now destruct (Qltb q 1). }
  rewrite Hc.
  set (c := if Qltb q 1 then if Qltb (-1) q then q else -1 else 1).
  assert (Hr : -1 <= c /\ c <= 1).
  { subst c. destruct (Qltb q 1) eqn:E1; [| lra].
    apply Qltb_lt in E1. destruct (Qltb (-1) q) eqn:E2; [| lra].
    apply Qltb_lt in E2. lra. }
  destruct Hr as [Hlo Hhi].
  cbn [Utils.float_add Utils.float_neg Utils.float_mul].
  destruct (Qltb ((1 # 2) + c) 0) eqn:E; [apply Qltb_lt in E | apply Qltb_ge in E];
    apply ToInt32_small, Qtruncate_bounds;
    try (change (inject_Z (-32768)) with (-(32768)));
    try (change (inject_Z 32767) with 32767); lra.
Qed.

Lemma int16_roundtrip (z : Z) :
  (-32768 <= z <= 32767)%Z ->
  (let u := le_value (Utils.le_bytes 2 z) in
   if (u <? 32768)%Z then u else (u - 65536)%Z) = z.
Proof.
  intros H. cbv zeta. rewrite le_value_le_bytes.
  change (256 ^ Z.of_nat 2)%Z with 65536%Z.
  destruct (Z.ltb_spec 0 (z + 1)) as [Hpos | Hneg].
  - rewrite Z.mod_small by lia.
    destruct (Z.ltb_spec z 32768); lia.
  - replace (z mod 65536)%Z with (z + 65536)%Z.
    + destruct (Z.ltb_spec (z + 65536) 32768); lia.
    + symmetry. rewrite <- (Z.mod_add z 1 65536) by lia.
      apply Z.mod_small. lia.
Qed.

(** A write that fits into the zero-filled rest of the view. *)
Lemma store_append (done bytes : list Z) (m : nat) :
  (List.length bytes <= m)%nat ->
  Utils.store (List.length done) bytes (done ++ replicate m 0%Z)
  = Some ((done ++ bytes) ++ replicate (m - List.length bytes) 0%Z).
Proof.
  intros H. unfold Utils.store.
  rewrite length_app, length_replicate.
  destruct (Nat.leb_spec (List.length done + List.length bytes) (List.length done + m));
    [| lia].
  f_equal. rewrite take_app_length, <- app_assoc. do 2 f_equal.
  rewrite drop_app_add', drop_replicate by reflexivity. reflexivity.
Qed.

Lemma setUint_eq (n : nat) (data : Z) (done : list Z) (m : nat) :
  (n <= m)%nat ->
  (w <- get ;; Utils.view_set (Utils.pos w) n data ;; Utils.advance_pos n)
    (header_writer done m)
  = (Normal tt, header_writer (done ++ Utils.le_bytes n data) (m - n)).
Proof.
  intros H. rewrite bind_get. unfold bind, Utils.view_set, header_writer. simpl.
  rewrite store_append by (now rewrite le_bytes_length).
  unfold Utils.advance_pos, modify. simpl.
  rewrite length_app, !le_bytes_length. reflexivity.
Qed.

Lemma setUint32_eq (data : Z) (done : list Z) (m : nat) :
  (4 <= m)%nat ->
  Utils.setUint32 data (header_writer done m)
  = (Normal tt, header_writer (done ++ Utils.le_bytes 4 data) (m - 4)).
Proof. apply setUint_eq. Qed.

Lemma setUint16_eq (data : Z) (done : list Z) (m : nat) :
  (2 <= m)%nat ->
  Utils.setUint16 data (header_writer done m)
  = (Normal tt, header_writer (done ++ Utils.le_bytes 2 data) (m - 2)).
Proof. apply setUint_eq. Qed.

Lemma frame_writer_ext (hdr written written' : list Z) (m m' p : nat) :
  written = written' -> m = m' ->
  frame_writer hdr written m p = frame_writer hdr written' m' p.
Proof. now intros -> ->. Qed.

Lemma encode_samples_length (l : list float) :
  List.length (encode_samples l) = (2 * List.length l)%nat.
Proof.
  induction l as [| x l IH]; [reflexivity |].
  unfold encode_samples in *. cbn [flat_map]. rewrite length_app, IH, le_bytes_length.
  simpl. lia.
Qed.

Lemma writeChannels_eq (abuffer : AudioBuffer.t) (hdr : list Z) (channels : list nat)
    (written : list Z) (m p : nat) :
  List.length hdr = 44%nat -> (2 * List.length channels <= m)%nat ->
  forEach (fun i =>
             w <- get ;;
             let sample := Utils.sampleToInt
                             (AudioBuffer.getChannelData abuffer i (Utils.pos w)) in
             Utils.view_set (44 + Utils.offset w) 2 sample ;;
             Utils.advance_offset 2)
          channels (frame_writer hdr written m p)
  = (Normal tt,
     frame_writer hdr
       (written ++ encode_samples
                     (map (fun i => AudioBuffer.getChannelData abuffer i p) channels))
       (m - 2 * List.length channels) p).
Proof.
  intros Hh. revert written m.
  induction channels as [| i channels IH]; intros written m Hm.
  - simpl. unfold ret. rewrite app_nil_r, Nat.sub_0_r. reflexivity.
  - cbn [forEach]. 
    assert (Hstep :
      (w <- get ;;
       let sample := Utils.sampleToInt
                       (AudioBuffer.getChannelData abuffer i (Utils.pos w)) in
       Utils.view_set (44 + Utils.offset w) 2 sample ;;
       Utils.advance_offset 2) (frame_writer hdr written m p)
      = (Normal tt,
         frame_writer hdr
           (written ++ Utils.le_bytes 2
                         (Utils.sampleToInt (AudioBuffer.getChannelData abuffer i p)))
           (m - 2) p)).
    { rewrite bind_get. cbv zeta. unfold bind, Utils.view_set, frame_writer.
      cbn [Utils.view Utils.pos Utils.offset].
      replace (44 + List.length written)%nat with (List.length (hdr ++ written))
        by (rewrite length_app; lia).
      rewrite store_append. 2:{ rewrite le_bytes_length. simpl in Hm. lia. }
      unfold Utils.advance_offset, modify. cbn [Utils.view Utils.pos Utils.offset].
      rewrite !length_app, !le_bytes_length, <- !app_assoc. reflexivity. }
    rewrite (bind_normal _ _ _ _ _ Hstep).
    rewrite IH by (simpl in Hm |- *; lia).
    f_equal. apply frame_writer_ext.
    + unfold encode_samples. cbn [map flat_map]. now rewrite <- app_assoc.
    + simpl. lia.
Qed.

Lemma writeFrames_eq (abuffer : AudioBuffer.t) (hdr : list Z) :
  List.length hdr = 44%nat ->
  let n := N.to_nat (AudioBuffer.length abuffer) in
  let ch := AudioBuffer.numberOfChannels abuffer in
  forall turns written m p,
    (n - p <= turns)%nat -> (2 * ch * (n - p) <= m)%nat ->
    Utils.writeFrames turns abuffer (frame_writer hdr written m p)
    = (Normal tt,
       frame_writer hdr
         (written ++ encode_samples (flat_map (frame_samples abuffer) (seq p (n - p))))
         (m - 2 * ch * (n - p)) (Nat.max p n)).
Proof.
  intros Hh n ch. induction turns as [| turns IH]; intros written m p Ht Hm.
  - assert (Hp : (n - p = 0)%nat) by lia.
    cbn [Utils.writeFrames]. rewrite bind_get. cbn [Utils.pos frame_writer].
    fold n. destruct (Nat.ltb_spec p n) as [Hlt | Hge]; [lia |].
    rewrite Hp. simpl. unfold ret. rewrite app_nil_r, Nat.mul_0_r, Nat.sub_0_r.
    now rewrite Nat.max_l by lia.
  - cbn [Utils.writeFrames]. rewrite bind_get. cbn [Utils.pos frame_writer].
    fold n. destruct (Nat.ltb_spec p n) as [Hlt | Hge].
    + unfold Utils.writeFrame.
      erewrite bind_normal;
        [| apply (writeChannels_eq abuffer hdr _ written m p Hh);
           rewrite length_seq; fold ch; nia].
      cbv beta. unfold bind at 1, Utils.advance_pos, modify.
      cbn [Utils.view Utils.pos Utils.offset frame_writer].
      fold (frame_samples abuffer p).
      match goal with |- Utils.writeFrames _ _ ?w = _ =>
        change w with (frame_writer hdr (written ++ encode_samples (frame_samples abuffer p))
                         (m - 2 * List.length (seq 0 (AudioBuffer.numberOfChannels abuffer)))
                         (p + 1))
      end.
      rewrite length_seq. fold ch.
      rewrite IH by nia.
      replace (n - p)%nat with (S (n - (p + 1))) by lia.
      cbn [seq flat_map]. replace (S p) with (p + 1)%nat by lia.
      f_equal. rewrite Nat.max_r, (Nat.max_r p n) by lia. apply frame_writer_ext.
      * unfold encode_samples. now rewrite flat_map_app, <- app_assoc.
      * nia.
    + assert (Hp : (n - p = 0)%nat) by lia.
      rewrite Hp. simpl. unfold ret. rewrite app_nil_r, Nat.mul_0_r, Nat.sub_0_r.
      now rewrite Nat.max_l by lia.
Qed.

Ltac header_step :=
  first [ erewrite bind_normal by (apply setUint32_eq; lia)
        | erewrite bind_normal by (apply setUint16_eq; lia) ]; cbv beta.

Lemma header_written (abuffer : AudioBuffer.t) :
  let numOfChan := AudioBuffer.numberOfChannels abuffer in
  let frames := N.to_nat (AudioBuffer.length abuffer) in
  let length := (frames * numOfChan * 2 + 44)%nat in
     ( Utils.setUint32 0x46464952 ;;                      (* "RIFF" *)
      Utils.setUint32 (Z.of_nat length - 8) ;;           (* file length - 8 *)
      Utils.setUint32 0x45564157 ;;                      (* "WAVE" *)
      Utils.setUint32 0x20746d66 ;;                      (* "fmt " chunk *)
      Utils.setUint32 16 ;;                              (* length = 16 *)
      Utils.setUint16 1 ;;                               (* PCM *)
      Utils.setUint16 (Z.of_nat numOfChan) ;;
      Utils.setUint32 (AudioBuffer.sampleRate abuffer) ;;
      Utils.setUint32 (AudioBuffer.sampleRate abuffer * 2 * Z.of_nat numOfChan) ;; (* avg. bytes/sec *)
      Utils.setUint16 (Z.of_nat numOfChan * 2) ;;        (* block-align *)
      Utils.setUint16 16 ;;                              (* 16-bit *)
      Utils.setUint32 0x61746164 ;;                      (* "data" - chunk *)
      (w <- get ;; Utils.setUint32 (Z.of_nat length - Z.of_nat (Utils.pos w) - 4)) ;; (* chunk length *)
      Utils.writeFrames frames abuffer) (header_writer [] length)
   = Utils.writeFrames frames abuffer (header_writer (wav_header abuffer) (frames * numOfChan * 2)).
Proof.
  intros.
  do 12 header_step.
  erewrite bind_normal; [| rewrite bind_get; apply setUint32_eq; lia ].
  cbv beta.
  apply f_equal. apply f_equal2.
  - match goal with |- context [Z.of_nat (Utils.pos ?w)] =>
      change (Z.of_nat (Utils.pos w)) with 40%Z
    end.
    unfold wav_header. cbv zeta. rewrite <- !app_assoc. reflexivity.
  - lia.
Qed.

Lemma bufferToWav_eq (abuffer : AudioBuffer.t) :
  let n := N.to_nat (AudioBuffer.length abuffer) in
  let ch := AudioBuffer.numberOfChannels abuffer in
  Utils.bufferToWav abuffer
  = Normal (wav_header abuffer
            ++ encode_samples (wav_samples abuffer)
            ++ replicate (2 * ch * Nat.min 44 n) 0%Z).
Proof.
  intros n ch. unfold Utils.bufferToWav. cbv zeta. fold n. fold ch.
  change {| Utils.view := replicate (n * ch * 2 + 44) 0%Z; Utils.pos := 0;
            Utils.offset := 0 |}
    with (header_writer [] (n * ch * 2 + 44)).
  pose proof (header_written abuffer) as Hh. cbv zeta in Hh. fold n in Hh. fold ch in Hh.
  rewrite Hh. clear Hh.
  assert (Hw : header_writer (wav_header abuffer) (n * ch * 2)
               = frame_writer (wav_header abuffer) [] (n * ch * 2) 44).
  { unfold header_writer, frame_writer. now rewrite app_nil_r. }
  rewrite Hw.
  pose proof (writeFrames_eq abuffer (wav_header abuffer) eq_refl) as Hf.
  cbv zeta in Hf. fold n in Hf. fold ch in Hf.
  rewrite Hf by nia. unfold frame_writer. cbn [Utils.view].
  f_equal. rewrite <- app_assoc. cbn [app]. unfold wav_samples. fold n.
  do 3 f_equal. nia.
Qed.

Lemma frame_samples_length (abuffer : AudioBuffer.t) (p : nat) :
  List.length (frame_samples abuffer p) = AudioBuffer.numberOfChannels abuffer.
Proof. unfold frame_samples. now rewrite length_map, length_seq. Qed.

Lemma wav_samples_length (abuffer : AudioBuffer.t) :
  List.length (wav_samples abuffer)
  = (AudioBuffer.numberOfChannels abuffer
     * (N.to_nat (AudioBuffer.length abuffer) - 44))%nat.
Proof.
  unfold wav_samples.
  generalize (N.to_nat (AudioBuffer.length abuffer) - 44)%nat as k.
  generalize 44%nat as p.
  intros p k. revert p. induction k as [| k IH]; intros p; cbn [seq flat_map].
  - simpl. lia.
  - rewrite length_app, frame_samples_length, IH. lia.
Qed.

Lemma wav_header_length (abuffer : AudioBuffer.t) :
  List.length (wav_header abuffer) = 44%nat.
Proof. reflexivity. Qed.

Lemma encoded_word (l : list float) (rest : list Z) (j : nat) (x : float) :
  l !! j = Some x ->
  take 2 (drop (2 * j) (encode_samples l ++ rest))
  = Utils.le_bytes 2 (Utils.sampleToInt x).
Proof.
  revert j. induction l as [| y l IH]; intros j; [discriminate |].
  destruct j as [| j].
  - intros [= ->]. reflexivity.
  - intros H. replace (2 * S j)%nat with (2 + 2 * j)%nat by lia.
    unfold encode_samples. cbn [flat_map]. rewrite <- app_assoc.
    rewrite drop_app_add' by (symmetry; apply le_bytes_length).
    now apply IH.
Qed.

Lemma le_value_zeros (k : nat) : le_value (replicate k 0%Z) = 0%Z.
Proof. induction k as [| k IH]; simpl; [reflexivity | rewrite IH; reflexivity]. Qed.

Lemma unwritten_word (l : list float) (k j : nat) :
  (List.length l <= j)%nat ->
  le_value (take 2 (drop (2 * j) (encode_samples l ++ replicate k 0%Z))) = 0%Z.
Proof.
  intros H.
  rewrite drop_app_ge by (rewrite encode_samples_length; lia).
  rewrite drop_replicate, take_replicate. apply le_value_zeros.
Qed.

Lemma header_field (abuffer : AudioBuffer.t) (rest : list Z) :
  let ch := Z.of_nat (AudioBuffer.numberOfChannels abuffer) in
  let n := Z.of_N (AudioBuffer.length abuffer) in
  let bytes := wav_header abuffer ++ rest in
  getUint 2 20 bytes = 1%Z
  /\ getUint 2 34 bytes = 16%Z
  /\ getUint 2 22 bytes = (ch mod 2 ^ 16)%Z
  /\ getUint 4 24 bytes = (AudioBuffer.sampleRate abuffer mod 2 ^ 32)%Z
  /\ getUint 4 40 bytes = ((2 * ch * n) mod 2 ^ 32)%Z.
Proof.
  intros ch n bytes. subst bytes. unfold getUint.
  split; [reflexivity |]. split; [reflexivity |].
  split; [| split].
  - change (take 2 (drop 22 (wav_header abuffer ++ rest)))
      with (Utils.le_bytes 2 ch).
    apply le_value_le_bytes.
  - change (take 4 (drop 24 (wav_header abuffer ++ rest)))
      with (Utils.le_bytes 4 (AudioBuffer.sampleRate abuffer)).
    apply le_value_le_bytes.
  - change (take 4 (drop 40 (wav_header abuffer ++ rest)))
      with (Utils.le_bytes 4
              (Z.of_nat (N.to_nat (AudioBuffer.length abuffer)
                         * AudioBuffer.numberOfChannels abuffer * 2 + 44) - 40 - 4)).
    rewrite le_value_le_bytes. f_equal. subst ch n. lia.
Qed.

(** ** Services: the scheduling rule of schedulePlayback *)

Lemma voices_accepted_In (P : Platform) (voices : list (Q * Q * Q)) (w o d : Q) :
  voices_accepted P voices = true -> List.In (w, o, d) voices ->
  start_throws P w o d = false.
Proof.
  unfold voices_accepted. rewrite forallb_forall. intros H Hin.
  specialize (H _ Hin). simpl in H. now apply negb_true_iff in H.
Qed.

Lemma voices_accepted_flat_map {X} (P : Platform) (g : X -> list (Q * Q * Q))
    (xs : list X) (x : X) :
  voices_accepted P (flat_map g xs) = true -> List.In x xs ->
  voices_accepted P (g x) = true.
Proof.
  unfold voices_accepted. rewrite !forallb_forall. intros H Hin v Hv.
  apply H. apply in_flat_map. eauto.
Qed.

(** The step of a clip in [schedulePlayback], when the platform accepts the
    request of the step (if it makes one). *)
Lemma Services_scheduleClip_effect (P : Platform) (now s : Q)
    (c : Services.AudioClip) (e : Services.AudioEngine) :
  voices_accepted P
    match Services.bufferMap e !! Services.clip_bufferId c,
          Services.trackNodes e !! Services.clip_trackId c with
    | Some _, Some _ => option_list (spec_voice_unscaled now s c)
    | _, _ => []
    end = true ->
  fst (Services.scheduleClip P now s c e) = Normal tt
  /\ starts (Services.calls (snd (Services.scheduleClip P now s c e)))
     = starts (Services.calls e)
       ++ match Services.bufferMap e !! Services.clip_bufferId c,
                Services.trackNodes e !! Services.clip_trackId c with
          | Some _, Some _ => option_list (spec_voice_unscaled now s c)
          | _, _ => []
          end.
Proof.
  intros Hok. unfold Services.scheduleClip. rewrite bind_get.
  destruct (Services.bufferMap e !! _) as [buffer |];
    [| simpl; rewrite app_nil_r; tauto].
  destruct (Services.trackNodes e !! _) as [chain |];
    [| simpl; rewrite app_nil_r; tauto].
  unfold spec_voice_unscaled in *.
  destruct (Qle_bool s (Services.clip_startTime c)).
  - rewrite Services_playSource_eq. cbv zeta.
    rewrite (voices_accepted_In P _ _ _ _ Hok (or_introl eq_refl)). simpl.
    rewrite !starts_app. simpl. now rewrite app_nil_r.
  - destruct (Qltb s _).
    + rewrite Services_playSource_eq. cbv zeta in *.
      rewrite (voices_accepted_In P _ _ _ _ Hok (or_introl eq_refl)). simpl.
      rewrite !starts_app. simpl. now rewrite app_nil_r.
    + simpl. rewrite app_nil_r. tauto.
Qed.

(** The step of a clip whose request the platform refuses: the exception
    leaves [schedulePlayback], no start request is logged. *)
Lemma Services_scheduleClip_refused (P : Platform) (now s : Q)
    (c : Services.AudioClip) (e : Services.AudioEngine) (w o d : Q) :
  is_Some (Services.bufferMap e !! Services.clip_bufferId c) ->
  is_Some (Services.trackNodes e !! Services.clip_trackId c) ->
  spec_voice_unscaled now s c = Some (w, o, d) ->
  start_throws P w o d = true ->
  fst (Services.scheduleClip P now s c e) = Throw "RangeError"
  /\ starts (Services.calls (snd (Services.scheduleClip P now s c e)))
     = starts (Services.calls e).
Proof.
  intros [buffer Hb] [chain Ht] Hv Hthrow.
  unfold Services.scheduleClip. rewrite bind_get, Hb, Ht.
  unfold spec_voice_unscaled in Hv.
  destruct (Qle_bool s (Services.clip_startTime c)).
  - injection Hv as <- <- <-. rewrite Services_playSource_eq. cbv zeta.
    rewrite Hthrow. simpl. rewrite starts_app. simpl. now rewrite app_nil_r.
  - destruct (Qltb s _); [| discriminate].
    injection Hv as <- <- <-. rewrite Services_playSource_eq. cbv zeta.
    rewrite Hthrow. simpl. rewrite starts_app. simpl. now rewrite app_nil_r.
Qed.

(** [schedulePlayback], when the platform accepts the requests of the rule
    for the clips whose buffer and track chain are found. *)
Lemma Services_schedulePlayback_voices (P : Platform) (now : Q)
    (clips : list Services.AudioClip) (s : Q) (tracks : list Services.Track)
    (e : Services.AudioEngine) :
  voices_accepted P (flat_map (Services_voices e tracks now s) clips) = true ->
  fst (Services.schedulePlayback P now clips s tracks e) = Normal tt
  /\ starts (Services.calls
               (state_after (Services.schedulePlayback P now clips s tracks) e))
     = starts (Services.calls e) ++ flat_map (Services_voices e tracks now s) clips.
Proof.
  intros Hok. unfold state_after, Services.schedulePlayback.
  unfold bind at 1 3. rewrite Services_stopAll_eq.
  set (e1 := Services.with_activeSources [] _).
  assert (Hs1 : starts (Services.calls e1) = starts (Services.calls e)).
  { subst e1. simpl. rewrite starts_app, starts_map_Stop. apply app_nil_r. }
  pose proof (Services_setup_loop now tracks e1) as Hl. cbv zeta in Hl.
  destruct Hl as (Hn & Hb & Hc & _ & Hdom).
  unfold bind.
  destruct (forEach (Services.setupTrack now) tracks e1) as [r2 e2].
  cbn [fst snd] in Hn, Hb, Hc, Hdom. subst r2.
  destruct (forEach_appends_in
              (fun e3 => Services.bufferMap e3 = Services.bufferMap e
                         /\ Services.trackNodes e3 = Services.trackNodes e2)
              (fun e3 => starts (Services.calls e3))
              (Services_voices e tracks now s)
              (Services.scheduleClip P now s) clips) with (s := e2)
    as (H1 & _ & H3).
  - intros c e3 Hin [Hb3 Ht3].
    assert (Heq : match Services.bufferMap e3 !! Services.clip_bufferId c,
                        Services.trackNodes e3 !! Services.clip_trackId c with
                  | Some _, Some _ => option_list (spec_voice_unscaled now s c)
                  | _, _ => []
                  end = Services_voices e tracks now s c).
    { rewrite Hb3, Ht3. unfold Services_voices, Services_playable.
      destruct (Services.bufferMap e !! Services.clip_bufferId c); [| reflexivity].
      destruct (Services.trackNodes e2 !! Services.clip_trackId c) as [chain |] eqn:E.
      + assert (Hsome : is_Some (Services.trackNodes e2 !! Services.clip_trackId c))
          by (rewrite E; eauto).
        apply Hdom in Hsome. subst e1; simpl in Hsome.
        destruct (Services.trackNodes e !! Services.clip_trackId c) eqn:E0; [reflexivity |].
        destruct Hsome as [[x Hx] | Hin']; [discriminate |].
        apply has_track_In in Hin'. now rewrite Hin'.
      + assert (Hnone : ~ is_Some (Services.trackNodes e2 !! Services.clip_trackId c))
          by (rewrite E; intros [x Hx]; discriminate).
        rewrite Hdom in Hnone. subst e1; simpl in Hnone.
        destruct (Services.trackNodes e !! Services.clip_trackId c) eqn:E0.
        * exfalso. apply Hnone. left. eauto.
        * destruct (has_track tracks (Services.clip_trackId c)) eqn:Eh; [| reflexivity].
          exfalso. apply Hnone. right. now apply has_track_In. }
    pose proof (voices_accepted_flat_map P _ clips c Hok Hin) as Hokc.
    rewrite <- Heq in Hokc.
    destruct (Services_scheduleClip_effect P now s c e3 Hokc) as [E1 E2].
    destruct (Services_scheduleClip_keeps P now s c e3) as (K1 & K2 & _).
    split; [exact E1 |]. split; [split; congruence |].
    rewrite E2. f_equal. exact Heq.
  - split; [| reflexivity]. rewrite Hb. now subst e1.
  - split; [exact H1 |]. rewrite H3. now rewrite Hc, Hs1.
Qed.

Lemma Services_accepts_voices (P : Platform) (e : Services.AudioEngine)
    (tracks : list Services.Track) (now s : Q) (clips : list Services.AudioClip) :
  Services_accepts P now s clips = true ->
  voices_accepted P (flat_map (Services_voices e tracks now s) clips) = true.
Proof.
  unfold Services_accepts, voices_accepted. rewrite !forallb_forall.
  intros H [[w o] d] Hv. apply in_flat_map in Hv as (c & Hc & Hin).
  specialize (H c Hc). unfold Services_voices in Hin.
  destruct (Services_playable e tracks c); [| destruct Hin].
  destruct (spec_voice_unscaled now s c) as [[[w' o'] d'] |]; [| destruct Hin].
  destruct Hin as [[= <- <- <-] | []]. exact H.
Qed.

Lemma Services_schedulePlayback_effect (P : Platform) (now : Q)
    (clips : list Services.AudioClip) (s : Q) (tracks : list Services.Track)
    (e : Services.AudioEngine) :
  Services_accepts P now s clips = true ->
  fst (Services.schedulePlayback P now clips s tracks e) = Normal tt
  /\ starts (Services.calls
               (state_after (Services.schedulePlayback P now clips s tracks) e))
     = starts (Services.calls e) ++ flat_map (Services_voices e tracks now s) clips.
Proof.
  intros Hok. now apply Services_schedulePlayback_voices, Services_accepts_voices.
Qed.

(** A clip that began before the seek point and whose end is not after it
    is skipped by [schedulePlayback]. *)
Lemma Services_scheduleClip_spent (P : Platform) (now s : Q)
    (c : Services.AudioClip) (e : Services.AudioEngine) :
  Services.clip_startTime c < s ->
  Services.clip_startTime c +! Services.clip_duration c <= s ->
  Services.scheduleClip P now s c e = (Normal tt, e).
Proof.
  intros Hstart Hrem. unfold Services.scheduleClip. rewrite bind_get.
  destruct (Services.bufferMap e !! _); [| reflexivity].
  destruct (Services.trackNodes e !! _); [| reflexivity].
  assert (E1 : Qle_bool s (Services.clip_startTime c) = false)
    by (now apply Qle_bool_gt).
  assert (E2 : Qltb s (Services.clip_startTime c +! Services.clip_duration c) = false)
    by (now apply Qltb_ge).
  now rewrite E1, E2.
Qed.

(** * The claims of the specification *)

(** ** C1: the scheduling rule *)




(** ** C2: muted tracks *)

(** C2, as worded, fails on [src/services/AudioEngine.ts]: with one clip on
    a muted track, [schedulePlayback] creates and starts a source node, and
    [exportProject] puts a source into the offline graph; the track is
    silenced by the zero volume of its chain. *)
Lemma C2_counterexample :
  ~ C2_as_stated_live webAudio 0 engine_with_b1 [clip_on_t1] 0 [muted_track]
  /\ ~ C2_as_stated_offline webAudio engine_with_b1 [clip_on_t1] [muted_track] 3.
Proof.
  split.
  - intros H. specialize (H eq_refl). vm_compute in H. destruct H as [H _]. discriminate H.
  - intros H. specialize (H eq_refl).
    set (g := Services.offlineGraph webAudio engine_with_b1 [clip_on_t1] [muted_track] 3) in H.
    destruct (fst g) as [oc |] eqn:E; [| vm_compute in E; discriminate E].
    specialize (H oc eq_refl). vm_compute in E. inversion E; subst oc.
    discriminate H.
Qed.

(** C2, amended: in [play] and [renderOffline] of
    [src/utils/audioEngine.ts] a clip whose track is muted produces no voice:
    its step of the loop returns at once and leaves the engine (the offline
    graph) as it was, so no source node is created, connected or started,
    and the whole call is the call without the clips of muted tracks.
    [schedulePlayback] and [exportProject] of [src/services/AudioEngine.ts]
    do not test [isMuted] when they schedule: their voices are those of
    every clip whose buffer and track chain are found, whether the track is
    muted or not; there a muted track is silenced by its volume gain, which
    [exportProject] sets to 0 and [updateTrackParams] drives to 0. *)
Theorem C2_muted_tracks (P : Platform) :
  (forall now s tracks c e,
      Utils_muted tracks c = true ->
      Utils.scheduleClip P now s tracks c e = (Normal tt, e))
  /\ (forall now clips tracks s e,
      Utils.play P now clips tracks s e
      = Utils.play P now (unmuted_clips tracks clips) tracks s e)
  /\ (forall tracks c b,
      Utils_muted tracks c = true ->
      Utils.renderClip P tracks c b = (Normal tt, b))
  /\ (forall now e clips tracks d,
      Utils.offlineGraph P clips tracks d
      = Utils.offlineGraph P (unmuted_clips tracks clips) tracks d
      /\ Utils.renderOffline P now e clips tracks d
         = Utils.renderOffline P now e (unmuted_clips tracks clips) tracks d)
  /\ (forall now s e clips tracks,
      Services_accepts P now s clips = true ->
      starts (Services.calls
                (state_after (Services.schedulePlayback P now clips s tracks) e))
      = starts (Services.calls e) ++ flat_map (Services_voices e tracks now s) clips)
  /\ (forall e clips tracks d,
      Services_starts_accepted P clips ->
      exists oc,
        fst (Services.offlineGraph P e clips tracks d) = Normal oc
        /\ oc_sources oc
           = flat_map (Services_offline_sources e (Services_inputs tracks)) clips)
  /\ (forall t,
      Services.track_isMuted t = true ->
      chain_volume (Services.offlineChain t) = SetValue 0)
  /\ (forall now t e,
      Services.track_isMuted t = true ->
      is_Some (Services.trackNodes e !! Services.track_id t) ->
      chain_volume
        <$> Services.trackNodes (state_after (Services.updateTrackParams now t) e)
            !! Services.track_id t
      = Some (SetTarget 0 now (5 # 100))).
Proof.
  split; [intros; now apply Utils_scheduleClip_muted |].
  split; [intros; apply Utils_play_unmuted |].
  split; [intros; now apply Utils_renderClip_muted |].
  split.
  { intros now e clips tracks d. split; [apply Utils_offlineGraph_unmuted |].
    unfold Utils.renderOffline. now rewrite <- Utils_offlineGraph_unmuted. }
  split; [intros; now apply Services_schedulePlayback_effect |].
  split.
  { intros e clips tracks d Hok. eexists. split;
      [now apply Services_offlineGraph_eq | reflexivity]. }
  split.
  { intros t Hm. unfold Services.offlineChain. simpl. now rewrite Hm. }
  intros now t e Hm [c0 Hc0].
  unfold state_after, Services.updateTrackParams. rewrite bind_get, Hc0.
  unfold modify. simpl. rewrite lookup_insert_eq. simpl. now rewrite Hm.
Qed.


(** A clip on a muted track: its step of [play] leaves a new engine as it
    is, and the offline graph of [renderOffline] has no source. *)
Lemma C2_witness :
  Utils_muted [track1_muted] clip_at_1 = true
  /\ Utils.scheduleClip webAudio 0 0 [track1_muted] clip_at_1 Utils.new
     = (Normal tt, Utils.new)
  /\ Utils.offlineGraph webAudio [clip_at_1] [track1_muted] 4
     = Utils.offlineGraph webAudio (unmuted_clips [track1_muted] [clip_at_1])
         [track1_muted] 4.
Proof.
  assert (H : Utils_muted [track1_muted] clip_at_1 = true) by reflexivity.
  split; [exact H |]. split.
  - exact (proj1 (C2_muted_tracks webAudio) 0 0 [track1_muted] clip_at_1 Utils.new H).
  - exact (proj1 (proj1 (proj2 (proj2 (proj2 (C2_muted_tracks webAudio))))
                    0 Utils.new [clip_at_1] [track1_muted] 4)).
Defined.

(** ** C3: the guard of play *)




(** ** C4: stopping, and sources that end by themselves *)

(** C4: [stop] (and [stopAll]) never throws, empties the set of active
    sources, and asks the platform to stop every source of the set: the
    stop requests it adds to the log are the active sources, in order, less
    those on which [stop()] raised, whose exception the loop absorbs.  On
    every engine reachable from a new one, a source of the active set that
    ends by itself is removed by its [onended] handler, which touches no
    other source and does not throw. *)
Theorem C4_stop_halts_all_and_never_throws (P : Platform) :
  (forall e : Utils.AudioEngine,
      fst (Utils.stop P e) = Normal tt
      /\ Utils.activeSources (state_after (Utils.stop P) e) = []
      /\ stops (Utils.calls (state_after (Utils.stop P) e))
         = stops (Utils.calls e) ++ live P (Utils.activeSources e))
  /\ (forall e : Services.AudioEngine,
      fst (Services.stopAll P e) = Normal tt
      /\ Services.activeSources (state_after (Services.stopAll P) e) = []
      /\ stops (Services.calls (state_after (Services.stopAll P) e))
         = stops (Services.calls e) ++ live P (Services.activeSources e))
  /\ (forall (e : Utils.AudioEngine) (n : nat),
      Utils_reachable P e -> List.In n (Utils.activeSources e) ->
      fst (Utils.ended n e) = Normal tt
      /\ ~ List.In n (Utils.activeSources (state_after (Utils.ended n) e))
      /\ (forall m, m <> n ->
            (List.In m (Utils.activeSources (state_after (Utils.ended n) e))
             <-> List.In m (Utils.activeSources e))))
  /\ (forall (e : Services.AudioEngine) (n : nat),
      Services_reachable P e -> List.In n (Services.activeSources e) ->
      fst (Services.ended n e) = Normal tt
      /\ ~ List.In n (Services.activeSources (state_after (Services.ended n) e))
      /\ (forall m, m <> n ->
            (List.In m (Services.activeSources (state_after (Services.ended n) e))
             <-> List.In m (Services.activeSources e)))).
Proof.
  split; [| split; [| split]].
  - intros e. unfold state_after. rewrite Utils_stop_eq. simpl.
    repeat split. now rewrite stops_app, stops_map_Stop.
  - intros e. unfold state_after. rewrite Services_stopAll_eq. simpl.
    repeat split. now rewrite stops_app, stops_map_Stop.
  - intros e n. apply Utils_ended_removes.
  - intros e n. apply Services_ended_removes.
Qed.


(** The engine that plays [clip_at_1] from the start is reachable and has
    one active source, node 0; when that source ends, its handler removes
    it. *)
Lemma C4_witness :
  let e := state_after (Utils.play webAudio 0 [clip_at_1] [track1] 0) Utils.new in
  Utils_reachable webAudio e
  /\ List.In 0%nat (Utils.activeSources e)
  /\ ~ List.In 0%nat (Utils.activeSources (state_after (Utils.ended 0) e)).
Proof.
  intros e.
  assert (Hr : Utils_reachable webAudio e) by (apply rtc_once, Utils_step_play).
  assert (Hin : List.In 0%nat (Utils.activeSources e)) by (vm_compute; tauto).
  split; [exact Hr |]. split; [exact Hin |].
  exact (proj1 (proj2 (proj1 (proj2 (proj2 (C4_stop_halts_all_and_never_throws webAudio)))
                         e 0%nat Hr Hin))).
Defined.

(** ** C5: the reported position *)

(** C5, as worded, fails in the arithmetic of JavaScript numbers: [play]
    stores [startTime = t0 - startOffset] and [getCurrentTime] returns
    [now - startTime], two roundings that do not cancel.  After
    [play(clips, tracks, 0.1)] at context time 10.3, the reading at that
    very instant is 0.09999999999999964, neither [startOffset] nor
    [now - t0 + startOffset]. *)
Lemma C5_counterexample :
  ~ C5_as_stated_formula webAudio (binary64 (103 # 10)) [] [] (binary64 (1 # 10)) Utils.new
  /\ ~ C5_as_stated_at_start webAudio (binary64 (103 # 10)) [] []
        (binary64 (1 # 10)) Utils.new
  /\ Utils.getCurrentTime (binary64 (103 # 10))
       (state_after (Utils.play webAudio (binary64 (103 # 10)) [] [] (binary64 (1 # 10)))
                    Utils.new)
     = 56294995342131 # 562949953421312.
Proof.
  split; [| split].
  - intros H. specialize (H (binary64 (103 # 10))). vm_compute in H. discriminate H.
  - intros H. vm_compute in H. discriminate H.
  - vm_compute. reflexivity.
Qed.

(** C5, amended: on the engine as [play(clips, tracks, startOffset)], called
    at context time [t0], leaves it, [getCurrentTime] read at context time
    [now] is [now - (t0 - startOffset)], each subtraction rounded as
    JavaScript rounds it; the reading is monotone in [now].  The handlers
    that run while the engine plays, [onended] of a source and
    [updateTrackParams], do not change the reading.  On an engine that is
    not playing the reading is the stored [pausedAt], whatever the clock
    shows. *)
Theorem C5_getCurrentTime (P : Platform) (t0 : Q) (clips : list Utils.AudioClip)
    (tracks : list Utils.Track) (startOffset : Q) (e : Utils.AudioEngine) :
  let e' := state_after (Utils.play P t0 clips tracks startOffset) e in
  (forall now, Utils.getCurrentTime now e' = now -! (t0 -! startOffset))
  /\ (forall now1 now2, now1 <= now2 ->
        Utils.getCurrentTime now1 e' <= Utils.getCurrentTime now2 e')
  /\ (forall now n,
        Utils.getCurrentTime now (state_after (Utils.ended n) e')
        = Utils.getCurrentTime now e')
  /\ (forall now t track,
        Utils.getCurrentTime now (state_after (Utils.updateTrackParams t track) e')
        = Utils.getCurrentTime now e')
  /\ (forall (idle : Utils.AudioEngine) now1 now2,
        Utils.isPlaying idle = false ->
        Utils.getCurrentTime now1 idle = Utils.pausedAt idle
        /\ Utils.getCurrentTime now2 idle = Utils.getCurrentTime now1 idle).
Proof.
  intros e'.
  destruct (Utils_play_effect P t0 clips tracks startOffset e)
    as (_ & Ht & _).
  fold e' in Ht. pose proof Ht as (Hc & Hp & Hs & Hq).
  assert (Hget : forall now, Utils.getCurrentTime now e' = now -! (t0 -! startOffset)).
  { intros now. unfold Utils.getCurrentTime. now rewrite Hc, Hp, Hs. }
  split; [exact Hget |].
  split.
  { intros now1 now2 Hle. rewrite !Hget. unfold sub64 at 1 3.
    apply binary64_monotone. lra. }
  split; [intros now n; apply Utils_ended_transport |].
  split.
  - intros now t track.
    destruct (Utils_updateTrackParams_transport t track _ _ _ e' Ht)
      as (_ & (Hc' & Hp' & Hs' & Hq') & _).
    apply Utils_getCurrentTime_transport; unfold state_after; congruence.
  - intros idle now1 now2 Hidle. unfold Utils.getCurrentTime. now rewrite Hidle.
Qed.


(** Playback of [clip_at_1] started at context time 10 from position 3:
    read at 11 and at 12 the position does not go back; a new engine,
    which does not play, reports its stored position. *)
Lemma C5_witness :
  let e' := state_after (Utils.play webAudio 10 [clip_at_1] [track1] 3) Utils.new in
  11 <= 12
  /\ Utils.getCurrentTime 11 e' <= Utils.getCurrentTime 12 e'
  /\ Utils.isPlaying Utils.new = false
  /\ Utils.getCurrentTime 11 Utils.new = Utils.pausedAt Utils.new.
Proof.
  intros e'.
  assert (H1 : 11 <= 12) by discriminate.
  assert (H2 : Utils.isPlaying Utils.new = false) by reflexivity.
  split; [exact H1 |]. split.
  - exact (proj1 (proj2 (C5_getCurrentTime webAudio 10 [clip_at_1] [track1] 3 Utils.new))
             11 12 H1).
  - split; [exact H2 |].
    exact (proj1 (proj2 (proj2 (proj2 (proj2
             (C5_getCurrentTime webAudio 10 [clip_at_1] [track1] 3 Utils.new))))
             Utils.new 11 12 H2)).
Defined.

(** ** C6: absent buffers and tracks *)

(** C6: in [schedulePlayback] and [exportProject], the step of a clip whose
    [bufferId] is not in the sample store, or whose [trackId] has no chain,
    returns at once: it completes without an exception and leaves the engine
    (the offline graph) as it was, so no voice is created for the clip.  The
    whole call, its result and its exceptions included, is the call without
    the clips whose lookups fail, so these clips never keep another clip
    from being processed. *)
Theorem C6_absent_lookups_are_skipped (P : Platform) :
  (forall now s c e,
      Services.bufferMap e !! Services.clip_bufferId c = None
      \/ Services.trackNodes e !! Services.clip_trackId c = None ->
      Services.scheduleClip P now s c e = (Normal tt, e))
  /\ (forall now clips s tracks e,
      Services.schedulePlayback P now clips s tracks e
      = Services.schedulePlayback P now
          (List.filter (Services_playable e tracks) clips) s tracks e)
  /\ (forall e c b,
      Services.bufferMap e !! Services.clip_bufferId c = None
      \/ Services.offlineTrackNodes b !! Services.clip_trackId c = None ->
      Services.exportClip P e c b = (Normal tt, b))
  /\ (forall toWav now e clips tracks d,
      Services.offlineGraph P e clips tracks d
      = Services.offlineGraph P e
          (List.filter (Services_exportable e tracks) clips) tracks d
      /\ Services.exportProject toWav P now e clips tracks d
         = Services.exportProject toWav P now e
             (List.filter (Services_exportable e tracks) clips) tracks d).
Proof.
  split; [intros; now apply Services_scheduleClip_absent |].
  split; [intros; apply Services_schedulePlayback_playable |].
  split; [intros; now apply Services_exportClip_absent |].
  intros toWav now e clips tracks d.
  split; [apply Services_offlineGraph_exportable |].
  unfold Services.exportProject. now rewrite <- Services_offlineGraph_exportable.
Qed.


(** A clip whose buffer was never added: its step of [schedulePlayback]
    leaves a new engine, with the clip's track set up, as it is. *)
Lemma C6_witness :
  let e := state_after (Services.setupTrack 0 open_track) Services.new in
  (Services.bufferMap e !! Services.clip_bufferId clip_on_t1 = None
   \/ Services.trackNodes e !! Services.clip_trackId clip_on_t1 = None)
  /\ Services.scheduleClip webAudio 0 0 clip_on_t1 e = (Normal tt, e).
Proof.
  intros e.
  assert (H : Services.bufferMap e !! Services.clip_bufferId clip_on_t1 = None
              \/ Services.trackNodes e !! Services.clip_trackId clip_on_t1 = None)
    by (left; reflexivity).
  split; [exact H |].
  exact (proj1 (C6_absent_lookups_are_skipped webAudio) 0 0 clip_on_t1 e H).
Defined.

(** ** C7: the offline render *)

(** C7, as worded, fails: [renderOffline] schedules no source for a clip
    whose track is muted or is not among the rendered tracks, and
    [exportProject] none for a clip whose buffer is present but whose track
    is not among the rendered tracks.  And the frames need not cover
    [0, totalDuration]: for a total duration of 2.1 the product
    [totalDuration * 44100] rounds to 92610, and 92610 frames end before the
    binary64 number 2.1. *)
Lemma C7_counterexample :
  ~ C7_as_stated_utils webAudio [clip_at_1] [track1_muted] 4
  /\ ~ C7_as_stated_utils webAudio [clip_at_1] [] 4
  /\ ~ C7_as_stated_services webAudio engine_with_b1 [clip_on_t1] [] 3
  /\ ~ C7_as_stated_covers webAudio [] [] (binary64 (21 # 10)).
Proof.
  split; [| split; [| split]]; intros H.
  - specialize (H _ eq_refl). vm_compute in H. discriminate H.
  - specialize (H _ eq_refl). vm_compute in H. discriminate H.
  - specialize (H _ eq_refl). vm_compute in H. discriminate H.
  - specialize (H _ eq_refl). vm_compute in H. apply H. reflexivity.
Qed.

(** C7, amended: provided the platform accepts the start request of every
    source scheduled (it raises a RangeError for a negative start time,
    offset or duration, and the render does not catch it), the offline
    render ([renderOffline], [exportProject]) builds a 2-channel context at
    44100 Hz of [ceil(totalDuration * 44100)] frames, the product rounded as
    JavaScript rounds it, the least whole number not below that product; it
    builds one chain replica per track, every parameter of which (EQ gains,
    delay time, feedback, wet gain, volume) is set once as a plain value;
    and its sources are, in the order of the clips, exactly one source for
    every clip whose track is among the rendered tracks and (in
    [renderOffline]) is not muted, and whose buffer is present (in
    [exportProject], where the buffer is looked up): a source that starts at
    [clip.startTime] and reads [clip.duration] seconds from [clip.offset],
    connected to the input of a chain replica built for a track with the
    clip's track id.  The other clips get no source. *)
Theorem C7_offline_render (P : Platform) :
  (forall clips tracks d,
      sources_accepted P
        (flat_map (Utils_offline_sources tracks (Utils_inputs tracks)) clips) ->
      fst (Utils.offlineGraph P clips tracks d)
      = Normal {| oc_numberOfChannels := 2;
                  oc_length := Qceiling (d *! 44100);
                  oc_sampleRate := 44100;
                  oc_chains := map Utils.offlineChain tracks;
                  oc_sources :=
                    flat_map (Utils_offline_sources tracks (Utils_inputs tracks)) clips |})
  /\ (forall e clips tracks d,
      sources_accepted P
        (flat_map (Services_offline_sources e (Services_inputs tracks)) clips) ->
      fst (Services.offlineGraph P e clips tracks d)
      = Normal {| oc_numberOfChannels := 2;
                  oc_length := Qceiling (d *! 44100);
                  oc_sampleRate := 44100;
                  oc_chains := map Services.offlineChain tracks;
                  oc_sources :=
                    flat_map (Services_offline_sources e (Services_inputs tracks)) clips |})
  /\ (forall toWav now (u : Utils.AudioEngine) (e : Services.AudioEngine)
             uclips utracks clips tracks d,
      sources_accepted P
        (flat_map (Utils_offline_sources utracks (Utils_inputs utracks)) uclips) ->
      sources_accepted P
        (flat_map (Services_offline_sources e (Services_inputs tracks)) clips) ->
      Utils.renderOffline P now u uclips utracks d
      = Normal (startRendering P
                  {| oc_numberOfChannels := 2;
                     oc_length := Qceiling (d *! 44100);
                     oc_sampleRate := 44100;
                     oc_chains := map Utils.offlineChain utracks;
                     oc_sources :=
                       flat_map (Utils_offline_sources utracks (Utils_inputs utracks))
                                uclips |})
      /\ Services.exportProject toWav P now e clips tracks d
         = Normal (toWav (startRendering P
                     {| oc_numberOfChannels := 2;
                        oc_length := Qceiling (d *! 44100);
                        oc_sampleRate := 44100;
                        oc_chains := map Services.offlineChain tracks;
                        oc_sources :=
                          flat_map (Services_offline_sources e (Services_inputs tracks))
                                   clips |})))
  /\ (forall d : Q,
      inject_Z (Qceiling (d *! 44100)) - 1 < d *! 44100
      /\ d *! 44100 <= inject_Z (Qceiling (d *! 44100)))
  /\ (forall t, chain_static (Utils.offlineChain t) = true)
  /\ (forall t, chain_static (Services.offlineChain t) = true)
  /\ (forall tracks c t,
      Utils_trackOf tracks c = Some t -> Utils.track_muted t = false ->
      exists input t',
        Utils_offline_sources tracks (Utils_inputs tracks) c
        = [ {| os_buffer := Utils.clip_buffer c;
               os_playbackRate := or_default (Utils.track_playbackRate t) 1;
               os_input := input;
               os_when := Utils.clip_startTime c;
               os_offset := Utils.clip_offset c;
               os_duration := Utils.clip_duration c |} ]
        /\ tracks !! input = Some t'
        /\ Utils.track_id t' = Utils.clip_trackId c
        /\ map Utils.offlineChain tracks !! input = Some (Utils.offlineChain t'))
  /\ (forall tracks c,
      Utils_trackOf tracks c = None \/ Utils_muted tracks c = true ->
      Utils_offline_sources tracks (Utils_inputs tracks) c = [])
  /\ (forall e tracks c buffer,
      Services.bufferMap e !! Services.clip_bufferId c = Some buffer ->
      has_track tracks (Services.clip_trackId c) = true ->
      exists input t',
        Services_offline_sources e (Services_inputs tracks) c
        = [ {| os_buffer := buffer;
               os_playbackRate := 1;
               os_input := input;
               os_when := Services.clip_startTime c;
               os_offset := Services.clip_offset c;
               os_duration := Services.clip_duration c |} ]
        /\ tracks !! input = Some t'
        /\ Services.track_id t' = Services.clip_trackId c
        /\ map Services.offlineChain tracks !! input = Some (Services.offlineChain t'))
  /\ (forall e tracks c,
      Services_exportable e tracks c = false ->
      Services_offline_sources e (Services_inputs tracks) c = []).
Proof.
  split; [intros; now apply Utils_offlineGraph_accepted |].
  split; [intros; now apply Services_offlineGraph_accepted |].
  split.
  { intros toWav now u e uclips utracks clips tracks d Hu Hs.
    unfold Utils.renderOffline, Services.exportProject.
    now rewrite Utils_offlineGraph_accepted, Services_offlineGraph_accepted. }
  split; [intros; apply Qceiling_covers |].
  split; [reflexivity |]. split; [reflexivity |].
  split.
  { intros tracks c t Ht Hm.
    destruct (Utils_offline_sources_one tracks c t Ht Hm) as (i & Hi & Hs).
    destruct (Utils_inputs_route tracks _ i Hi) as (t' & H1 & H2 & H3).
    exists i, t'. tauto. }
  split.
  { intros tracks c H. unfold Utils_offline_sources, Utils_muted in *.
    destruct (Utils_trackOf tracks c) as [t |]; [| reflexivity].
    destruct H as [H | ->]; [discriminate | reflexivity]. }
  split.
  { intros e tracks c buffer Hb Ht.
    destruct (Services_offline_sources_one e tracks c buffer Hb Ht) as (i & Hi & Hs).
    destruct (Services_inputs_route tracks _ i Hi) as (t' & H1 & H2 & H3).
    exists i, t'. tauto. }
  intros e tracks c H. unfold Services_offline_sources, Services_exportable in *.
  destruct (Services.bufferMap e !! Services.clip_bufferId c); [| reflexivity].
  destruct (Services_inputs tracks (Services.clip_trackId c)) as [i |] eqn:E; [| reflexivity].
  exfalso. destruct (Services_inputs_route tracks _ i E) as (t' & H1 & H2 & _).
  assert (Hin : has_track tracks (Services.clip_trackId c) = true).
  { apply has_track_In. rewrite <- H2. apply in_map.
    apply list_elem_of_In. now apply list_elem_of_lookup_2 in H1. }
  congruence.
Qed.


(** The render of [clip_at_1] on [track1] over four seconds: 176400 frames,
    one chain, one source at second 1 on chain 0. *)
Lemma C7_witness :
  sources_accepted webAudio
    (flat_map (Utils_offline_sources [track1] (Utils_inputs [track1])) [clip_at_1])
  /\ Utils_trackOf [track1] clip_at_1 = Some track1
  /\ Utils.track_muted track1 = false
  /\ fst (Utils.offlineGraph webAudio [clip_at_1] [track1] 4)
     = Normal {| oc_numberOfChannels := 2;
                 oc_length := 176400;
                 oc_sampleRate := 44100;
                 oc_chains := map Utils.offlineChain [track1];
                 oc_sources :=
                   flat_map (Utils_offline_sources [track1] (Utils_inputs [track1]))
                            [clip_at_1] |}
  /\ (exists input t',
        Utils_offline_sources [track1] (Utils_inputs [track1]) clip_at_1
        = [ {| os_buffer := Utils.clip_buffer clip_at_1;
               os_playbackRate := or_default (Utils.track_playbackRate track1) 1;
               os_input := input;
               os_when := Utils.clip_startTime clip_at_1;
               os_offset := Utils.clip_offset clip_at_1;
               os_duration := Utils.clip_duration clip_at_1 |} ]
        /\ [track1] !! input = Some t'
        /\ Utils.track_id t' = Utils.clip_trackId clip_at_1
        /\ map Utils.offlineChain [track1] !! input = Some (Utils.offlineChain t')).
Proof.
  assert (H1 : sources_accepted webAudio
                 (flat_map (Utils_offline_sources [track1] (Utils_inputs [track1]))
                           [clip_at_1]))
    by (repeat constructor).
  assert (H2 : Utils_trackOf [track1] clip_at_1 = Some track1) by reflexivity.
  assert (H3 : Utils.track_muted track1 = false) by reflexivity.
  split; [exact H1 |]. split; [exact H2 |]. split; [exact H3 |]. split.
  - exact (proj1 (C7_offline_render webAudio) [clip_at_1] [track1] 4 H1).
  - exact (proj1 (proj2 (proj2 (proj2 (proj2 (proj2 (proj2 (C7_offline_render webAudio)))))))
             [track1] clip_at_1 track1 H2 H3).
Defined.

(** ** C8: the WAV encoder *)

(** C8: for every audio buffer (of [ch] channels and [n] frames at an
    integral sample rate [r]), [bufferToWav] completes and returns
    [44 + 2 * ch * n] bytes.  Read back little-endian, the header holds the
    PCM format tag 1 and 16 bits per sample, the channel count (for
    [ch < 2^16], the width of the field), the sample rate (for
    [0 <= r < 2^32]) and a data-chunk length of exactly [2 * ch * n], the
    size of the payload (for [2 * ch * n < 2^32]).  Every sample is clamped
    to [-1, 1] before it is converted (NaN stays NaN and converts to 0), so
    every converted value lies in [-32768, 32767] and is stored as it is:
    reading the 16-bit word of a written sample back gives the converted
    value, and the words the loop does not write are 0.  The converted
    value is that of the clamped sample: for a sample [q] in [-1, 1] it is
    [q * 32768] (if [0.5 + q < 0]) or [q * 32767], cut to an integer; it is
    32767 for every sample from 1 upwards and for positive infinity, -32768
    for every sample from -1 downwards and for negative infinity, and 0 for
    NaN. *)
Theorem C8_bufferToWav (abuffer : AudioBuffer.t) :
  let ch := Z.of_nat (AudioBuffer.numberOfChannels abuffer) in
  let n := Z.of_N (AudioBuffer.length abuffer) in
  let r := AudioBuffer.sampleRate abuffer in
  exists bytes,
    Utils.bufferToWav abuffer = Normal bytes
    /\ Z.of_nat (List.length bytes) = (44 + 2 * ch * n)%Z
    /\ getUint 2 20 bytes = 1%Z
    /\ getUint 2 34 bytes = 16%Z
    /\ ((ch < 2 ^ 16)%Z -> getUint 2 22 bytes = ch)
    /\ ((0 <= r < 2 ^ 32)%Z -> getUint 4 24 bytes = r)
    /\ ((2 * ch * n < 2 ^ 32)%Z -> getUint 4 40 bytes = (2 * ch * n)%Z)
    /\ (forall x q, clamped x = Finite q -> -1 <= q /\ q <= 1)
    /\ (forall x, (-32768 <= Utils.sampleToInt x <= 32767)%Z)
    /\ (forall j x, wav_samples abuffer !! j = Some x ->
                    getInt16 (44 + 2 * j) bytes = Utils.sampleToInt x)
    /\ (forall j, (List.length (wav_samples abuffer) <= j)%nat ->
                  getInt16 (44 + 2 * j) bytes = 0%Z)
    /\ (forall j x, wav_samples abuffer !! j = Some x ->
                    getInt16 (44 + 2 * j) bytes = pcm16 x)
    /\ (forall q, -1 <= q -> q <= 1 ->
                  Utils.sampleToInt (Finite q)
                  = Utils.Qtruncate (if Qltb ((1 # 2) + q) 0
                                     then q * 32768 else q * 32767))
    /\ (forall q, 1 <= q -> Utils.sampleToInt (Finite q) = 32767%Z)
    /\ (forall q, q <= -1 -> Utils.sampleToInt (Finite q) = (-32768)%Z)
    /\ Utils.sampleToInt PosInf = 32767%Z
    /\ Utils.sampleToInt NegInf = (-32768)%Z
    /\ Utils.sampleToInt NaN = 0%Z.
Proof.
  intros ch n r.
  pose proof (bufferToWav_eq abuffer) as Heq. cbv zeta in Heq.
  eexists. split; [exact Heq |].
  destruct (header_field abuffer
              (encode_samples (wav_samples abuffer)
               ++ replicate (2 * AudioBuffer.numberOfChannels abuffer
                             * Nat.min 44 (N.to_nat (AudioBuffer.length abuffer))) 0%Z))
    as (F1 & F2 & F3 & F4 & F5).
  cbv zeta in F3, F4, F5. fold ch in F3, F5. fold n in F5.
  split.
  { rewrite !length_app, wav_header_length, encode_samples_length, wav_samples_length,
      length_replicate.
    subst ch n. lia. }
  split; [exact F1 |]. split; [exact F2 |].
  split; [intros H; rewrite F3; apply Z.mod_small; subst ch; lia |].
  split; [intros H; fold r in F4; rewrite F4; now apply Z.mod_small |].
  split; [intros H; rewrite F5; apply Z.mod_small; subst ch n; lia |].
  split; [apply clamped_range |].
  split; [apply sampleToInt_range |].
  assert (Hword : forall j x, wav_samples abuffer !! j = Some x ->
            getInt16 (44 + 2 * j)
              (wav_header abuffer
               ++ encode_samples (wav_samples abuffer)
               ++ replicate (2 * AudioBuffer.numberOfChannels abuffer
                             * Nat.min 44 (N.to_nat (AudioBuffer.length abuffer))) 0%Z)
            = Utils.sampleToInt x).
  { intros j x Hj. unfold getInt16, getUint.
    rewrite drop_app_add' by reflexivity.
    rewrite (encoded_word _ _ j x Hj).
    apply int16_roundtrip, sampleToInt_range. }
  split; [exact Hword |].
  split.
  { intros j Hj. unfold getInt16, getUint.
    rewrite drop_app_add' by reflexivity.
    now rewrite unwritten_word. }
  split; [intros j x Hj; rewrite (Hword j x Hj); apply sampleToInt_pcm16 |].
  split.
  { intros q Hlo Hhi. rewrite sampleToInt_pcm16. unfold pcm16. cbv zeta.
    destruct (Qltb q 1) eqn:E1.
    - destruct (Qltb (-1) q) eqn:E2; [reflexivity |].
      apply Qltb_ge in E2. assert (Hq : q == -1) by lra.
      assert (T1 : Qltb ((1 # 2) + q) 0 = true) by (apply Qltb_lt; lra).
      rewrite T1. assert (Hm : q * 32768 == -1 * 32768) by (rewrite Hq; reflexivity).
      unfold Utils.Qtruncate.
      assert (T2 : Qltb (q * 32768) 0 = true) by (apply Qltb_lt; lra).
      rewrite T2. now rewrite (Qceiling_comp _ _ Hm).
    - apply Qltb_ge in E1. assert (Hq : q == 1) by lra.
      assert (T1 : Qltb ((1 # 2) + q) 0 = false) by (apply Qltb_ge; lra).
      rewrite T1. assert (Hm : q * 32767 == 1 * 32767) by (rewrite Hq; reflexivity).
      unfold Utils.Qtruncate.
      assert (T2 : Qltb (q * 32767) 0 = false) by (apply Qltb_ge; lra).
      rewrite T2. now rewrite (Qfloor_comp _ _ Hm). }
  split.
  { intros q Hq. rewrite sampleToInt_pcm16. unfold pcm16.
    assert (E1 : Qltb q 1 = true -> False).
    { intros E. apply Qltb_lt in E. lra. }
    destruct (Qltb q 1); [now exfalso | reflexivity]. }
  split.
  { intros q Hq. rewrite sampleToInt_pcm16. unfold pcm16.
    assert (E1 : Qltb q 1 = true) by (apply Qltb_lt; lra).
    assert (E2 : Qltb (-1) q = false) by (apply Qltb_ge; lra).
    rewrite E1, E2. reflexivity. }
  repeat split; reflexivity.
Qed.


(** The encoder on [short_buffer]: 228 bytes for 2 channels of 46 frames;
    the header holds 2 channels, 44100 Hz and 184 bytes of data. *)
Lemma C8_witness :
  (2 < 2 ^ 16)%Z /\ (0 <= 44100 < 2 ^ 32)%Z /\ (2 * 2 * 46 < 2 ^ 32)%Z
  /\ exists bytes,
       Utils.bufferToWav short_buffer = Normal bytes
       /\ Z.of_nat (List.length bytes) = 228%Z
       /\ getUint 2 22 bytes = 2%Z
       /\ getUint 4 24 bytes = 44100%Z
       /\ getUint 4 40 bytes = 184%Z.
Proof.
  assert (H1 : (2 < 2 ^ 16)%Z) by reflexivity.
  assert (H2 : (0 <= 44100 < 2 ^ 32)%Z) by (split; [discriminate | reflexivity]).
  assert (H3 : (2 * 2 * 46 < 2 ^ 32)%Z) by reflexivity.
  split; [exact H1 |]. split; [exact H2 |]. split; [exact H3 |].
  destruct (C8_bufferToWav short_buffer)
    as (bytes & Hb & Hlen & _ & _ & Hch & Hrate & Hdata & _).
  exists bytes. split; [exact Hb |]. split; [exact Hlen |].
  split; [exact (Hch H1) |]. split; [exact (Hrate H2) | exact (Hdata H3)].
Defined.

(** The bytes themselves: the first words of the data chunk are the samples
    of frames 44 and 45 of [short_buffer] (1, -1, -1/4, NaN); the rest of
    the chunk is zero. *)
Example bufferToWav_short_buffer :
  exists bytes,
    Utils.bufferToWav short_buffer = Normal bytes
    /\ map (fun j => getInt16 (44 + 2 * j) bytes) [0; 1; 2; 3; 4]%nat
       = [32767; -32768; -8191; 0; 0]%Z.
Proof. eexists. split; [vm_compute; reflexivity | reflexivity]. Qed.

(** ** C10: stop keeps the paused position of the last play *)

(** C10: [stop] completes and writes only [activeSources] (emptied) and
    [isPlaying] (false), besides asking the platform to stop the sources;
    [pausedAt], [startTime], the context, the chains, the node supply and
    the handlers are as before.  Hence after [play(clips, tracks, s)] and a
    later [stop], [getCurrentTime] returns [s] at every reading of the
    clock: the position of the last start of playback, not the position
    reached when playback was stopped. *)
Theorem C10_stop_keeps_pausedAt (P : Platform) (t0 : Q) (clips : list Utils.AudioClip)
    (tracks : list Utils.Track) (s : Q) (e : Utils.AudioEngine) :
  let playing := state_after (Utils.play P t0 clips tracks s) e in
  let stopped := state_after (Utils.stop P) playing in
  (forall e0 : Utils.AudioEngine,
      Utils.stop P e0
      = (Normal tt,
         Utils.with_isPlaying false
           (Utils.with_activeSources []
              (Utils.with_calls
                 (Utils.calls e0 ++ map Stop (live P (Utils.activeSources e0))) e0))))
  /\ Utils.pausedAt stopped = s
  /\ Utils.startTime stopped = Utils.startTime playing
  /\ Utils.isPlaying stopped = false
  /\ Utils.activeSources stopped = []
  /\ (forall now, Utils.getCurrentTime now stopped = s).
Proof.
  intros playing stopped.
  destruct (Utils_play_effect P t0 clips tracks s e) as (_ & (_ & _ & _ & Hq) & _).
  fold playing in Hq.
  assert (Hstopped : stopped
                     = Utils.with_isPlaying false
                         (Utils.with_activeSources []
                            (Utils.with_calls
                               (Utils.calls playing
                                ++ map Stop (live P (Utils.activeSources playing)))
                               playing))).
  { unfold stopped, state_after. now rewrite Utils_stop_eq. }
  split; [apply Utils_stop_eq |].
  rewrite Hstopped. simpl.
  repeat split; try assumption.
  intros now. unfold Utils.getCurrentTime. simpl. exact Hq.
Qed.


(** * Further properties of the code *)

(** ** Utils: the whole effect of play *)

Lemma started_app (l1 l2 : list call) : started (l1 ++ l2) = started l1 ++ started l2.
Proof. unfold started. now rewrite flat_map_app. Qed.

Lemma Utils_updateTrackParams_eq (now : Q) (t : Utils.Track) (e : Utils.AudioEngine) :
  Utils.context e = true ->
  Utils.updateTrackParams now t e
  = (Normal tt,
     Utils.with_trackChains
       (<[Utils.track_id t := Utils_liveChain now t]> (Utils.trackChains e)) e).
Proof.
  intros Hc. unfold Utils.updateTrackParams. rewrite bind_get, Hc. simpl.
  destruct (Utils.trackChains e !! Utils.track_id t) as [ch |] eqn:E.
  - unfold bind, ret, modify. simpl. reflexivity.
  - unfold Utils.createTrackChain. eff. rewrite Hc. simpl.
    unfold Utils.with_trackChains. simpl. now rewrite insert_insert_eq.
Qed.

Lemma Utils_update_loop_eq (now : Q) (tracks : list Utils.Track) :
  forall e, Utils.context e = true ->
    forEach (Utils.updateTrackParams now) tracks e
    = (Normal tt,
       Utils.with_trackChains (Utils_liveChains now tracks (Utils.trackChains e)) e).
Proof.
  induction tracks as [| t tracks IH]; intros e Hc; simpl.
  - unfold ret. f_equal. now destruct e.
  - unfold bind. rewrite (Utils_updateTrackParams_eq now t e Hc).
    rewrite IH by exact Hc. reflexivity.
Qed.

Lemma Utils_served_nil (e : Utils.AudioEngine) : Utils_served [] e = e.
Proof.
  destruct e. unfold Utils_served. simpl. now rewrite !app_nil_r, Nat.add_0_r.
Qed.

Lemma Utils_served_app (l1 l2 : list call) (e : Utils.AudioEngine) :
  Utils_served l2 (Utils_served l1 e) = Utils_served (l1 ++ l2) e.
Proof.
  destruct e. unfold Utils_served. simpl.
  rewrite started_app, created_app, foldl_app, length_app.
  rewrite <- !(app_assoc _ _ _), Nat.add_assoc.
  reflexivity.
Qed.

Lemma Utils_trackOf_id (tracks : list Utils.Track) (c : Utils.AudioClip) (t : Utils.Track) :
  Utils_trackOf tracks c = Some t ->
  List.In t tracks /\ Utils.track_id t = Utils.clip_trackId c.
Proof.
  unfold Utils_trackOf. intros H. apply find_some in H as [Hin Heq].
  split; [exact Hin |]. now apply String.eqb_eq.
Qed.

(** One step of the clip loop of [play], on an engine that holds a chain for
    every track of the call. *)
Lemma Utils_scheduleClip_eq (P : Platform) (now s : Q) (tracks : list Utils.Track)
    (c : Utils.AudioClip) (e : Utils.AudioEngine) :
  (forall t, List.In t tracks -> is_Some (Utils.trackChains e !! Utils.track_id t)) ->
  Utils.scheduleClip P now s tracks c e
  = (Normal tt, Utils_served (Utils_clipRequests P now s tracks (Utils.nodes e) c) e).
Proof.
  intros Hch. unfold Utils.scheduleClip, Utils_clipRequests.
  fold (Utils_trackOf tracks c).
  destruct (Utils_trackOf tracks c) as [t |] eqn:Ht;
    [| now rewrite Utils_served_nil].
  destruct (Utils.track_muted t); [now rewrite Utils_served_nil |].
  destruct (Qltb _ s); [now rewrite Utils_served_nil |].
  apply Utils_trackOf_id in Ht as [Hin Hid].
  destruct (Hch t Hin) as [ch Hsome]. rewrite Hid in Hsome.
  rewrite bind_get, Hsome.
  unfold Utils.createBufferSource. eff.
  destruct (Utils.startArguments _ _ _ _) as [[w o] d].
  destruct (Qltb 0 d && Qltb o _); simpl.
  - unfold Utils.source_start. destruct (start_throws P w o d); simpl.
    + destruct e. unfold Utils_served. simpl. now rewrite app_nil_r, Nat.add_1_r.
    + destruct e. unfold Utils_served. simpl. now rewrite <- app_assoc, Nat.add_1_r.
  - destruct e. unfold Utils_served. simpl. now rewrite app_nil_r, Nat.add_1_r.
Qed.

Lemma Utils_clip_loop_eq (P : Platform) (now s : Q) (tracks : list Utils.Track)
    (clips : list Utils.AudioClip) :
  forall e,
    (forall t, List.In t tracks -> is_Some (Utils.trackChains e !! Utils.track_id t)) ->
    forEach (Utils.scheduleClip P now s tracks) clips e
    = (Normal tt, Utils_served (Utils_requests P now s tracks (Utils.nodes e) clips) e).
Proof.
  induction clips as [| c clips IH]; intros e Hch; simpl.
  - now rewrite Utils_served_nil.
  - unfold bind. rewrite (Utils_scheduleClip_eq P now s tracks c e Hch).
    rewrite IH by exact Hch. now rewrite Utils_served_app.
Qed.

Lemma Utils_liveChains_lookup (now : Q) (tracks : list Utils.Track) :
  forall (chains : gmap string TrackChain) (id : string),
    Utils_liveChains now tracks chains !! id
    = match List.find (fun t => String.eqb (Utils.track_id t) id) (rev tracks) with
      | Some t => Some (Utils_liveChain now t)
      | None => chains !! id
      end.
Proof.
  unfold Utils_liveChains.
  induction tracks as [| t tracks IH] using rev_ind; intros chains id; [reflexivity |].
  rewrite foldl_app, rev_app_distr. simpl.
  destruct (String.eqb (Utils.track_id t) id) eqn:E.
  - apply String.eqb_eq in E. subst id. now rewrite lookup_insert_eq.
  - apply String.eqb_neq in E. rewrite lookup_insert_ne by exact E. apply IH.
Qed.

(** The whole effect of [play]: the engine is stopped if it was playing and
    initialised, the transport is written, every track gets its chain, and
    the platform serves the requests of the clips. *)
Lemma Utils_play_full (P : Platform) (now : Q) (clips : list Utils.AudioClip)
    (tracks : list Utils.Track) (s : Q) (e : Utils.AudioEngine) :
  let e0 := Utils_prepared P e in
  Utils.play P now clips tracks s e
  = (Normal tt,
     Utils_served (Utils_requests P now s tracks (Utils.nodes e0) clips)
       (Utils.with_trackChains (Utils_liveChains now tracks (Utils.trackChains e0))
          (Utils.with_transport true (now -! s) s e0))).
Proof.
  intros e0. destruct (Utils_play_eq P now clips tracks s e) as [-> Hc]. fold e0 in Hc |- *.
  unfold bind at 1, modify.
  set (e1 := Utils.with_transport true (now -! s) s e0).
  assert (Hc1 : Utils.context e1 = true) by exact Hc.
  unfold bind. rewrite (Utils_update_loop_eq now tracks e1 Hc1).
  rewrite Utils_clip_loop_eq; [reflexivity |].
  intros t Hin. simpl. rewrite Utils_liveChains_lookup.
  destruct (List.find _ (rev tracks)) eqn:E; [eauto |].
  exfalso. apply in_rev in Hin. pose proof (find_none _ _ E t Hin) as Hn.
  simpl in Hn. now rewrite String.eqb_refl in Hn.
Qed.

(** ** Nodes of a log *)

Lemma set_add_fresh (n : nat) (a : list nat) : ~ List.In n a -> set_add n a = a ++ [n].
Proof.
  intros Hn. unfold set_add.
  destruct (existsb (Nat.eqb n) a) eqn:E; [| reflexivity].
  exfalso. apply existsb_exists in E as (m & Hm & Heq).
  apply Nat.eqb_eq in Heq. now subst m.
Qed.

Lemma foldl_set_add_fresh (l : list nat) :
  forall a, NoDup (a ++ l) -> foldl (fun a n => set_add n a) a l = a ++ l.
Proof.
  induction l as [| n l IH]; intros a Hnd; simpl; [now rewrite app_nil_r |].
  assert (Hn : ~ List.In n a).
  { intros Hin. apply NoDup_ListNoDup, NoDup_remove_2 in Hnd.
    apply Hnd, in_or_app. now left. }
  rewrite (set_add_fresh n a Hn), IH; [now rewrite <- app_assoc |].
  now rewrite <- app_assoc.
Qed.

Lemma Utils_clipRequests_nodes (P : Platform) (now s : Q) (tracks : list Utils.Track)
    (n : nat) (c : Utils.AudioClip) :
  let l := Utils_clipRequests P now s tracks n c in
  (created l = [] \/ created l = [n])
  /\ (started l = [] \/ started l = [n] /\ created l = [n])
  /\ stops l = [].
Proof.
  unfold Utils_clipRequests.
  destruct (Utils_trackOf tracks c) as [t |]; [| simpl; tauto].
  destruct (Utils.track_muted t); [simpl; tauto |].
  destruct (Qltb _ s); [simpl; tauto |].
  destruct (Utils.startArguments _ _ _ _) as [[w o] d].
  destruct (_ && _); simpl; tauto.
Qed.

Lemma Utils_requests_nodes (P : Platform) (now s : Q) (tracks : list Utils.Track)
    (clips : list Utils.AudioClip) :
  forall n,
    let l := Utils_requests P now s tracks n clips in
    created l = seq n (List.length (created l))
    /\ sublist (started l) (created l)
    /\ stops l = [].
Proof.
  induction clips as [| c clips IH]; intros n; simpl.
  - repeat split. constructor.
  - destruct (Utils_clipRequests_nodes P now s tracks n c) as (Hc & Hs & Hst).
    cbv zeta in Hc, Hs, Hst.
    set (l := Utils_clipRequests P now s tracks n c) in *.
    destruct (IH (n + List.length (created l))%nat) as (IHc & IHs & IHst).
    cbv zeta in IHc, IHs, IHst.
    set (l' := Utils_requests P now s tracks (n + List.length (created l)) clips) in *.
    rewrite created_app, started_app, stops_app, Hst, IHst, length_app.
    split; [| split; [| reflexivity]].
    + rewrite seq_app. f_equal; [| exact IHc].
      destruct Hc as [-> | ->]; reflexivity.
    + apply sublist_app; [| exact IHs].
      destruct Hs as [-> | [-> ->]]; [apply sublist_nil_l | reflexivity].
Qed.

Lemma started_NoDup (P : Platform) (now s : Q) (tracks : list Utils.Track)
    (clips : list Utils.AudioClip) (n : nat) :
  let l := Utils_requests P now s tracks n clips in
  NoDup (started l)
  /\ forall m, List.In m (started l) -> (n <= m < n + List.length (created l))%nat.
Proof.
  cbv zeta. destruct (Utils_requests_nodes P now s tracks clips n) as (Hc & Hs & _).
  cbv zeta in Hc, Hs. split.
  - apply (sublist_NoDup _ (created (Utils_requests P now s tracks n clips)));
      [| exact Hs].
    rewrite Hc. apply NoDup_ListNoDup, seq_NoDup.
  - intros m Hm. apply list_elem_of_In in Hm.
    apply (elem_of_sublist _ _ _ Hm) in Hs.
    rewrite Hc in Hs. apply list_elem_of_In, in_seq in Hs. lia.
Qed.

Lemma Utils_prepared_eq (P : Platform) (e : Utils.AudioEngine) :
  Utils.context (Utils_prepared P e) = true
  /\ Utils.trackChains (Utils_prepared P e) = Utils.trackChains e
  /\ Utils.nodes (Utils_prepared P e) = Utils.nodes e
  /\ Utils.onended (Utils_prepared P e) = Utils.onended e
  /\ Utils.activeSources (Utils_prepared P e)
     = (if Utils.isPlaying e then [] else Utils.activeSources e)
  /\ Utils.calls (Utils_prepared P e)
     = Utils.calls e
       ++ (if Utils.isPlaying e then map Stop (live P (Utils.activeSources e)) else []).
Proof.
  unfold Utils_prepared, state_after. destruct (Utils.isPlaying e).
  - rewrite Utils_stop_eq. unfold Utils.init, modify. simpl.
    destruct (Utils.context e) eqn:E; simpl; rewrite ?E; repeat split; reflexivity.
  - unfold Utils.init, modify. simpl. rewrite app_nil_r.
    destruct (Utils.context e) eqn:E; simpl; rewrite ?E; repeat split; reflexivity.
Qed.

Lemma Utils_clipRequests_In (P : Platform) (now s : Q) (tracks : list Utils.Track)
    (n : nat) (c : Utils.AudioClip) (x : call) :
  List.In x (Utils_clipRequests P now s tracks n c) ->
  exists t, Utils_trackOf tracks c = Some t /\ Utils.track_muted t = false
    /\ let r := or_default (Utils.track_playbackRate t) 1 in
       let create := CreateBufferSource n (Utils.clip_buffer c) r
                       (ChainInput (Utils.clip_trackId c)) in
       x = create
       \/ exists w o d,
            x = Start n w o d
            /\ Utils.startArguments now s r c = (w, o, d)
            /\ Qltb (Utils.clip_startTime c +! Utils.clip_duration c /! r) s = false
            /\ 0 < d /\ o < AudioBuffer.duration (Utils.clip_buffer c)
            /\ start_throws P w o d = false.
Proof.
  unfold Utils_clipRequests.
  destruct (Utils_trackOf tracks c) as [t |]; [| intros []].
  destruct (Utils.track_muted t) eqn:Em; [intros [] |].
  destruct (Qltb _ s) eqn:Epast; [intros [] |].
  destruct (Utils.startArguments _ _ _ _) as [[w o] d] eqn:Ea.
  intros [<- | Hin]; [exists t; cbv zeta; tauto |].
  destruct (Qltb 0 d && Qltb o _ && negb _) eqn:Eg; [| destruct Hin].
  destruct Hin as [<- | []].
  apply andb_true_iff in Eg as [Eg Eth]. apply andb_true_iff in Eg as [Ed Eo].
  apply Qltb_lt in Ed, Eo. apply negb_true_iff in Eth.
  exists t. cbv zeta. split; [reflexivity |]. split; [exact Em |].
  right. exists w, o, d. tauto.
Qed.

Lemma Utils_requests_In (P : Platform) (now s : Q) (tracks : list Utils.Track)
    (clips : list Utils.AudioClip) (x : call) :
  forall n, List.In x (Utils_requests P now s tracks n clips) ->
            exists c m, List.In c clips
                        /\ List.In x (Utils_clipRequests P now s tracks m c)
                        /\ incl (Utils_clipRequests P now s tracks m c)
                                (Utils_requests P now s tracks n clips).
Proof.
  induction clips as [| c clips IH]; intros n; simpl; [intros [] |].
  intros Hin. apply in_app_or in Hin as [Hin | Hin].
  - exists c, n. split; [tauto |]. split; [exact Hin |]. now apply incl_appl.
  - destruct (IH _ Hin) as (c' & m & Hc' & Hx & Hincl). exists c', m.
    split; [tauto |]. split; [exact Hx |]. now apply incl_appr.
Qed.

(** ** Utils: the invariant of the engine object *)

Lemma Utils_play_wellformed (P : Platform) (now : Q) (clips : list Utils.AudioClip)
    (tracks : list Utils.Track) (s : Q) (e : Utils.AudioEngine) :
  Utils_wellformed e ->
  let e' := state_after (Utils.play P now clips tracks s) e in
  let added := Utils_requests P now s tracks (Utils.nodes e) clips in
  Utils_wellformed e'
  /\ Utils.activeSources e' = started added
  /\ Utils.nodes e' = (Utils.nodes e + List.length (created added))%nat
  /\ Utils.onended e' = Utils.onended e ++ started added
  /\ Utils.calls e' = Utils.calls e ++ map Stop (live P (Utils.activeSources e)) ++ added.
Proof.
  intros (Hnd & Hlt & Hidle). cbv zeta. unfold state_after.
  rewrite Utils_play_full. cbv zeta.
  destruct (Utils_prepared_eq P e) as (_ & _ & Hn & Ho & Ha & Hc).
  rewrite Hn. unfold Utils_served, Utils_wellformed. simpl. rewrite Hn, Ho, Ha, Hc.
  destruct (started_NoDup P now s tracks clips (Utils.nodes e)) as [Hsnd Hsb].
  cbv zeta in Hsnd, Hsb.
  assert (Hact : foldl (fun a n => set_add n a)
                   (if Utils.isPlaying e then [] else Utils.activeSources e)
                   (started (Utils_requests P now s tracks (Utils.nodes e) clips))
                 = started (Utils_requests P now s tracks (Utils.nodes e) clips)).
  { assert (E : (if Utils.isPlaying e then [] else Utils.activeSources e) = []).
    { destruct (Utils.isPlaying e); [reflexivity | now apply Hidle]. }
    rewrite E. now rewrite foldl_set_add_fresh. }
  rewrite Hact.
  assert (Hstops : (if Utils.isPlaying e then map Stop (live P (Utils.activeSources e)) else [])
                   = map Stop (live P (Utils.activeSources e))).
  { destruct (Utils.isPlaying e) eqn:E; [reflexivity |]. now rewrite Hidle. }
  rewrite Hstops, <- app_assoc.
  repeat split; try assumption.
  - intros n Hin. apply Hsb in Hin. lia.
  - intros Hf. discriminate Hf.
Qed.

Lemma set_delete_NoDup (n : nat) (l : list nat) : NoDup l -> NoDup (set_delete n l).
Proof.
  intros H. unfold set_delete.
  apply NoDup_ListNoDup, List.NoDup_filter. now apply NoDup_ListNoDup.
Qed.

Lemma Utils_step_wellformed (P : Platform) (e e' : Utils.AudioEngine) :
  Utils_step P e e' -> Utils_wellformed e -> Utils_wellformed e'.
Proof.
  intros Hstep H. destruct Hstep.
  - unfold state_after, Utils.init, modify; simpl. now destruct (Utils.context e).
  - destruct H as (Hnd & Hlt & Hidle).
    unfold state_after, Utils.updateTrackParams. rewrite bind_get.
    destruct (Utils.context e) eqn:Ec; simpl; [| repeat split; assumption].
    pose proof (Utils_updateTrackParams_eq now track e Ec) as E.
    unfold Utils.updateTrackParams in E. rewrite bind_get, Ec in E. simpl in E.
    rewrite E. simpl. repeat split; assumption.
  - now apply Utils_play_wellformed.
  - unfold state_after. rewrite Utils_stop_eq. simpl.
    repeat split; [constructor | intros n []].
  - destruct H as (Hnd & Hlt & Hidle).
    unfold state_after, Utils.ended. eff.
    destruct (existsb _ _); simpl; [| repeat split; assumption].
    repeat split.
    + now apply set_delete_NoDup.
    + intros n Hn. apply set_delete_In in Hn as [Hn _]. now apply Hlt.
    + intros Hp. now rewrite (Hidle Hp).
Qed.

(** ** Utils.play: chains, routing and voices *)

(** X1: after [play], every track of the call has its chain in the
    engine, with the parameters of the last track of the list that carries
    this id, and the chains of other tracks are as before.  The requests the
    call adds to the log, after the stop requests of an engine that was
    playing, contain no stop request, and every source node they create is
    the node of a clip of the call whose track is found and not muted: it
    holds the clip's buffer, runs at the track's playback rate (1 when that
    is 0) and is connected to the input of the chain of the clip's track,
    which exists.  The fall-back connection to the master gain is never
    made. *)
Theorem Utils_play_connects_sources_to_chains (P : Platform) (now : Q)
    (clips : list Utils.AudioClip) (tracks : list Utils.Track) (s : Q)
    (e : Utils.AudioEngine) :
  let e' := state_after (Utils.play P now clips tracks s) e in
  (forall id,
      Utils.trackChains e' !! id
      = match List.find (fun t => String.eqb (Utils.track_id t) id) (rev tracks) with
        | Some t => Some (Utils_liveChain now t)
        | None => Utils.trackChains e !! id
        end)
  /\ (forall t, List.In t tracks -> is_Some (Utils.trackChains e' !! Utils.track_id t))
  /\ exists added,
       Utils.calls e'
       = Utils.calls e
         ++ (if Utils.isPlaying e then map Stop (live P (Utils.activeSources e)) else [])
         ++ added
       /\ stops added = []
       /\ forall n buffer rate dest,
            List.In (CreateBufferSource n buffer rate dest) added ->
            exists c t,
              List.In c clips
              /\ Utils_trackOf tracks c = Some t
              /\ Utils.track_muted t = false
              /\ buffer = Utils.clip_buffer c
              /\ rate = or_default (Utils.track_playbackRate t) 1
              /\ dest = ChainInput (Utils.clip_trackId c)
              /\ is_Some (Utils.trackChains e' !! Utils.clip_trackId c).
Proof.
  cbv zeta. unfold state_after. rewrite Utils_play_full. cbv zeta.
  destruct (Utils_prepared_eq P e) as (_ & Hch & Hn & _ & _ & Hc).
  unfold Utils_served. simpl. rewrite Hch, Hn, Hc.
  assert (Hsome : forall t, List.In t tracks ->
            is_Some (Utils_liveChains now tracks (Utils.trackChains e) !! Utils.track_id t)).
  { intros t Hin. rewrite Utils_liveChains_lookup.
    destruct (List.find _ (rev tracks)) eqn:E; [eauto |].
    exfalso. apply in_rev in Hin. pose proof (find_none _ _ E t Hin) as Hneq.
    simpl in Hneq. now rewrite String.eqb_refl in Hneq. }
  split; [intros id; apply Utils_liveChains_lookup |].
  split; [exact Hsome |].
  exists (Utils_requests P now s tracks (Utils.nodes e) clips).
  split; [now rewrite <- app_assoc |].
  split; [apply (Utils_requests_nodes P now s tracks clips (Utils.nodes e)) |].
  intros n buffer rate dest Hin.
  apply Utils_requests_In in Hin as (c & m & Hc' & Hin & _).
  apply Utils_clipRequests_In in Hin as (t & Ht & Hm & Hx). cbv zeta in Hx.
  exists c, t.
  destruct Hx as [Hx | (w & o & d & Hx & _)]; [| discriminate Hx].
  injection Hx as -> -> -> ->.
  repeat split; try assumption.
  apply Utils_trackOf_id in Ht as [Hin <-]. now apply Hsome.
Qed.

(** X2: every start request that [play] adds to the log belongs to a
    clip of the call whose track is found and not muted, and carries the
    arguments that [play] computes for that clip, which passed the guard.
    For a clip that starts at or after the seek position the request is
    [now + delay], [offset], [duration], with a [delay = startTime - seek]
    that is not negative; for a clip that has begun it is [now],
    [offset + elapsed], [duration - elapsed], where
    [elapsed = (seek - startTime) * rate] is less than the clip's duration
    (every operation rounded as JavaScript rounds it).  The duration to
    play is positive, the read offset lies before the end of the buffer,
    and the source node was created by the same call, on the clip's
    buffer, at the track's rate and on the track's chain. *)
Theorem Utils_play_voices_stay_in_clip_window (P : Platform) (now : Q)
    (clips : list Utils.AudioClip) (tracks : list Utils.Track) (s : Q)
    (e : Utils.AudioEngine) :
  let e' := state_after (Utils.play P now clips tracks s) e in
  exists added,
    Utils.calls e'
    = Utils.calls e
      ++ (if Utils.isPlaying e then map Stop (live P (Utils.activeSources e)) else [])
      ++ added
    /\ forall n w o d,
         List.In (Start n w o d) added ->
         exists c t,
           List.In c clips
           /\ Utils_trackOf tracks c = Some t
           /\ Utils.track_muted t = false
           /\ let r := or_default (Utils.track_playbackRate t) 1 in
              let elapsed := (s -! Utils.clip_startTime c) *! r in
              (w, o, d) = Utils.startArguments now s r c
              /\ (if Qle_bool s (Utils.clip_startTime c)
                  then w = now +! (Utils.clip_startTime c -! s)
                       /\ 0 <= Utils.clip_startTime c -! s
                       /\ o = Utils.clip_offset c
                       /\ d = Utils.clip_duration c
                  else w = now
                       /\ o = Utils.clip_offset c +! elapsed
                       /\ d = Utils.clip_duration c -! elapsed
                       /\ elapsed < Utils.clip_duration c)
              /\ 0 < d
              /\ o < AudioBuffer.duration (Utils.clip_buffer c)
              /\ List.In (CreateBufferSource n (Utils.clip_buffer c) r
                            (ChainInput (Utils.clip_trackId c))) added.
Proof.
  cbv zeta.
  unfold state_after. rewrite Utils_play_full. cbv zeta.
  destruct (Utils_prepared_eq P e) as (_ & _ & Hn & _ & _ & Hc).
  unfold Utils_served. simpl. rewrite Hn, Hc.
  exists (Utils_requests P now s tracks (Utils.nodes e) clips).
  split; [now rewrite <- app_assoc |].
  intros n w o d Hin.
  apply Utils_requests_In in Hin as (c & m & Hc' & Hin & Hincl).
  pose proof Hin as Hclip.
  apply Utils_clipRequests_In in Hin as (t & Ht & Hm & Hx). cbv zeta in Hx.
  exists c, t.
  destruct Hx as [Hx | (w' & o' & d' & Hx & Hargs & _ & Hd & Ho & _)]; [discriminate Hx |].
  injection Hx as -> -> -> ->.
  split; [exact Hc' |]. split; [exact Ht |]. split; [exact Hm |].
  assert (Hcreate : List.In (CreateBufferSource m (Utils.clip_buffer c)
                               (or_default (Utils.track_playbackRate t) 1)
                               (ChainInput (Utils.clip_trackId c)))
                            (Utils_requests P now s tracks (Utils.nodes e) clips)).
  { apply Hincl. clear - Hclip Ht Hm.
    unfold Utils_clipRequests in *. rewrite Ht, Hm in *.
    destruct (Qltb _ s); [destruct Hclip |].
    destruct (Utils.startArguments _ _ _ _) as [[w1 o1] d1]. now left. }
  split; [now symmetry |].
  split; [| repeat split; assumption].
  unfold Utils.startArguments in Hargs.
  destruct (Qle_bool s (Utils.clip_startTime c)) eqn:Efut.
  - apply Qle_bool_iff in Efut. injection Hargs as <- <- <-.
    repeat split. apply binary64_nonneg. lra.
  - injection Hargs as <- <- <-. repeat split.
    unfold sub64 at 1 in Hd. apply binary64_pos_inv in Hd. lra.
Qed.

Lemma started_map_Stop (l : list nat) : started (map Stop l) = [].
Proof. induction l; [reflexivity | exact IHl]. Qed.

Lemma Utils_step_logged (P : Platform) (e e' : Utils.AudioEngine) :
  Utils_step P e e' -> Utils_wellformed e -> Utils_logged e -> Utils_logged e'.
Proof.
  intros Hstep Hwf [Hcr Hst]. unfold Utils_logged. destruct Hstep.
  - unfold state_after, Utils.init, modify; simpl.
    destruct (Utils.context e); split; assumption.
  - unfold state_after, Utils.updateTrackParams. rewrite bind_get.
    destruct (Utils.context e) eqn:Ec; simpl; [| split; assumption].
    pose proof (Utils_updateTrackParams_eq now track e Ec) as E.
    unfold Utils.updateTrackParams in E. rewrite bind_get, Ec in E. simpl in E.
    rewrite E. simpl. split; assumption.
  - destruct (Utils_play_wellformed P now clips tracks startOffset e Hwf)
      as (_ & Ha & Hn & _ & Hc).
    cbv zeta in Ha, Hn, Hc. rewrite Ha, Hn, Hc.
    destruct (Utils_requests_nodes P now startOffset tracks clips (Utils.nodes e))
      as (Hseq & _ & _). cbv zeta in Hseq.
    rewrite !created_app, !started_app, created_map_Stop, started_map_Stop, Hcr. simpl.
    split.
    + rewrite seq_app. simpl. now rewrite <- Hseq.
    + intros n Hn'. apply in_or_app. now right.
  - unfold state_after. rewrite Utils_stop_eq. simpl.
    rewrite created_app, created_map_Stop, app_nil_r. split; [exact Hcr | intros n []].
  - unfold state_after, Utils.ended. eff.
    destruct (existsb _ _); simpl; [| split; assumption].
    split; [exact Hcr |].
    intros n Hn. apply set_delete_In in Hn as [Hn _]. now apply Hst.
Qed.

Lemma Utils_reachable_logged (P : Platform) (e : Utils.AudioEngine) :
  Utils_reachable P e -> Utils_wellformed e /\ Utils_logged e.
Proof.
  unfold Utils_reachable. intros H.
  assert (G : forall e0 e1, rtc (Utils_step P) e0 e1 ->
                Utils_wellformed e0 /\ Utils_logged e0 ->
                Utils_wellformed e1 /\ Utils_logged e1).
  { intros e0 e1 Hr. induction Hr as [| x y z Hstep _ IH]; [tauto |].
    intros [Hw Hl]. apply IH. split.
    - now apply (Utils_step_wellformed P x y).
    - now apply (Utils_step_logged P x y). }
  apply (G Utils.new e H). split.
  - repeat split; [constructor | intros n []].
  - split; [reflexivity | intros n []].
Qed.

(** X3: on every engine reachable from a new one by calls of
    [init], [updateTrackParams], [play] and [stop] and by sources that end,
    the active set holds no source twice; every active source is a node the
    context has created, was started, and carries the [onended] handler
    that removes it; an engine that is not playing has no active source;
    and the log creates the nodes 0, 1, 2, .. in this order, each once. *)
Theorem Utils_engine_invariant (P : Platform) (e : Utils.AudioEngine) :
  Utils_reachable P e ->
  NoDup (Utils.activeSources e)
  /\ (forall n, List.In n (Utils.activeSources e) ->
                (n < Utils.nodes e)%nat
                /\ List.In n (created (Utils.calls e))
                /\ List.In n (started (Utils.calls e))
                /\ List.In n (Utils.onended e))
  /\ (Utils.isPlaying e = false -> Utils.activeSources e = [])
  /\ created (Utils.calls e) = seq 0 (Utils.nodes e).
Proof.
  intros Hr.
  destruct (Utils_reachable_logged P e Hr) as [(Hnd & Hlt & Hidle) (Hcr & Hst)].
  pose proof (Utils_reachable_handlers P e Hr) as Hh.
  split; [exact Hnd |]. split; [| split; [exact Hidle | exact Hcr]].
  intros n Hn. split; [now apply Hlt |]. split; [| split; [now apply Hst | now apply Hh]].
  rewrite Hcr. apply in_seq. specialize (Hlt n Hn). lia.
Qed.

(** After [play] from second 0, the engine that plays [clip_at_1] is
    reachable: its one active source, node 0, was created and started. *)
Lemma Utils_engine_invariant_witness :
  let e := state_after (Utils.play webAudio 0 [clip_at_1] [track1] 0) Utils.new in
  Utils_reachable webAudio e
  /\ Utils.activeSources e = [0%nat]
  /\ created (Utils.calls e) = seq 0 (Utils.nodes e).
Proof.
  intros e.
  assert (Hr : Utils_reachable webAudio e) by (apply rtc_once, Utils_step_play).
  split; [exact Hr |]. split; [reflexivity |].
  exact (proj2 (proj2 (proj2 (Utils_engine_invariant webAudio e Hr)))).
Defined.

(** X4: on a reachable engine, [play] replaces the voices.  It asks
    the platform to stop every source that was active (those on which
    [stop()] raises apart), and the active set it leaves holds exactly the
    sources that this call started, each once: they are nodes created by
    this call, none of them was active before, and each carries its
    [onended] handler. *)
Theorem Utils_play_replaces_the_voices (P : Platform) (now : Q)
    (clips : list Utils.AudioClip) (tracks : list Utils.Track) (s : Q)
    (e : Utils.AudioEngine) :
  Utils_reachable P e ->
  let e' := state_after (Utils.play P now clips tracks s) e in
  exists added,
    Utils.calls e' = Utils.calls e ++ map Stop (live P (Utils.activeSources e)) ++ added
    /\ stops added = []
    /\ Utils.activeSources e' = started added
    /\ NoDup (Utils.activeSources e')
    /\ forall n, List.In n (Utils.activeSources e') ->
                 (Utils.nodes e <= n < Utils.nodes e')%nat
                 /\ ~ List.In n (Utils.activeSources e)
                 /\ List.In n (Utils.onended e').
Proof.
  intros Hr. cbv zeta.
  destruct (Utils_reachable_logged P e Hr) as [Hwf _].
  destruct (Utils_play_wellformed P now clips tracks s e Hwf)
    as ((Hnd' & _) & Ha & Hn & Ho & Hc).
  cbv zeta in Hnd', Ha, Hn, Ho, Hc.
  exists (Utils_requests P now s tracks (Utils.nodes e) clips).
  split; [exact Hc |].
  split; [apply (Utils_requests_nodes P now s tracks clips (Utils.nodes e)) |].
  split; [exact Ha |]. split; [exact Hnd' |].
  intros n Hin. rewrite Ha in Hin.
  destruct (started_NoDup P now s tracks clips (Utils.nodes e)) as [_ Hsb].
  cbv zeta in Hsb. specialize (Hsb n Hin).
  split; [rewrite Hn; lia |]. split.
  - intros Hold. destruct Hwf as (_ & Hlt & _). specialize (Hlt n Hold). lia.
  - rewrite Ho. apply in_or_app. now right.
Qed.

(** While [clip_at_1] plays (node 0 is active), [play] of [clip_at_3] from
    second 2 stops node 0 and leaves node 1, the new source, active. *)
Lemma Utils_play_replaces_the_voices_witness :
  let e := state_after (Utils.play webAudio 0 [clip_at_1] [track1] 0) Utils.new in
  let e' := state_after (Utils.play webAudio 5 [clip_at_3] [track1] 2) e in
  Utils_reachable webAudio e
  /\ Utils.activeSources e = [0%nat]
  /\ Utils.activeSources e' = [1%nat]
  /\ exists added,
       Utils.calls e' = Utils.calls e ++ map Stop (live webAudio (Utils.activeSources e)) ++ added
       /\ Utils.activeSources e' = started added.
Proof.
  intros e e'.
  assert (Hr : Utils_reachable webAudio e) by (apply rtc_once, Utils_step_play).
  split; [exact Hr |]. split; [reflexivity |]. split; [reflexivity |].
  destruct (Utils_play_replaces_the_voices webAudio 5 [clip_at_3] [track1] 2 e Hr)
    as (added & Hc & _ & Ha & _).
  exists added. split; [exact Hc | exact Ha].
Defined.

(** ** Services: the whole effect of schedulePlayback *)

Lemma Services_updateTrackParams_eq (now : Q) (t : Services.Track)
    (e : Services.AudioEngine) :
  Services.updateTrackParams now t e
  = (Normal tt,
     match Services.trackNodes e !! Services.track_id t with
     | Some _ =>
       Services.with_trackNodes
         (<[Services.track_id t := Services_liveChain now t]> (Services.trackNodes e)) e
     | None => e
     end).
Proof.
  unfold Services.updateTrackParams. rewrite bind_get.
  now destruct (Services.trackNodes e !! Services.track_id t).
Qed.

Lemma Services_setupTrack_eq (now : Q) (t : Services.Track) (e : Services.AudioEngine) :
  Services.setupTrack now t e
  = (Normal tt,
     Services.with_trackNodes
       (<[Services.track_id t := Services_liveChain now t]> (Services.trackNodes e)) e).
Proof.
  unfold Services.setupTrack. rewrite bind_get.
  destruct (Services.trackNodes e !! Services.track_id t) as [ch |] eqn:E.
  - now rewrite Services_updateTrackParams_eq, E.
  - unfold bind at 1, modify. rewrite Services_updateTrackParams_eq. simpl.
    rewrite lookup_insert_eq. unfold Services.with_trackNodes. simpl.
    now rewrite insert_insert_eq.
Qed.

Lemma Services_setup_loop_eq (now : Q) (tracks : list Services.Track) :
  forall e,
    forEach (Services.setupTrack now) tracks e
    = (Normal tt,
       Services.with_trackNodes
         (Services_liveChains now tracks (Services.trackNodes e)) e).
Proof.
  induction tracks as [| t tracks IH]; intros e; simpl.
  - unfold ret. f_equal. now destruct e.
  - unfold bind. rewrite Services_setupTrack_eq, IH. reflexivity.
Qed.

Lemma Services_liveChains_lookup (now : Q) (tracks : list Services.Track) :
  forall (chains : gmap string TrackChain) (id : string),
    Services_liveChains now tracks chains !! id
    = match List.find (fun t => String.eqb (Services.track_id t) id) (rev tracks) with
      | Some t => Some (Services_liveChain now t)
      | None => chains !! id
      end.
Proof.
  unfold Services_liveChains.
  induction tracks as [| t tracks IH] using rev_ind; intros chains id; [reflexivity |].
  rewrite foldl_app, rev_app_distr. simpl.
  destruct (String.eqb (Services.track_id t) id) eqn:E.
  - apply String.eqb_eq in E. subst id. now rewrite lookup_insert_eq.
  - apply String.eqb_neq in E. rewrite lookup_insert_ne by exact E. apply IH.
Qed.

Lemma Services_served_nil (e : Services.AudioEngine) : Services_served [] e = e.
Proof.
  destruct e. unfold Services_served. simpl. now rewrite !app_nil_r, Nat.add_0_r.
Qed.

Lemma Services_served_app (l1 l2 : list call) (e : Services.AudioEngine) :
  Services_served l2 (Services_served l1 e) = Services_served (l1 ++ l2) e.
Proof.
  destruct e. unfold Services_served. simpl.
  rewrite started_app, created_app, foldl_app, length_app.
  rewrite <- !(app_assoc _ _ _), Nat.add_assoc.
  reflexivity.
Qed.

Lemma Services_served_fields (l : list call) (e : Services.AudioEngine) :
  Services.bufferMap (Services_served l e) = Services.bufferMap e
  /\ Services.trackNodes (Services_served l e) = Services.trackNodes e
  /\ Services.nodes (Services_served l e)
     = (Services.nodes e + List.length (created l))%nat.
Proof. repeat split. Qed.

Lemma Services_scheduleClip_eq (P : Platform) (now s : Q) (c : Services.AudioClip)
    (e : Services.AudioEngine) :
  Services.scheduleClip P now s c e
  = (if Services_raises P now s (Services.bufferMap e) (Services.trackNodes e) c
     then Throw "RangeError" else Normal tt,
     Services_served
       (Services_clipRequests P now s (Services.bufferMap e) (Services.trackNodes e)
          (Services.nodes e) c) e).
Proof.
  unfold Services.scheduleClip, Services_raises, Services_clipRequests, Services_refused,
    spec_voice_unscaled.
  rewrite bind_get.
  destruct (Services.bufferMap e !! Services.clip_bufferId c) as [buffer |];
    [| now rewrite Services_served_nil].
  destruct (Services.trackNodes e !! Services.clip_trackId c) as [ch |];
    [| now rewrite Services_served_nil].
  destruct (Qle_bool s (Services.clip_startTime c)).
  - rewrite Services_playSource_eq. cbv zeta.
    destruct (start_throws P _ _ _); f_equal;
      destruct e; unfold Services_served; simpl;
      now rewrite ?app_nil_r, <- ?app_assoc, Nat.add_1_r.
  - destruct (Qltb s _); [| now rewrite Services_served_nil].
    rewrite Services_playSource_eq. cbv zeta.
    destruct (start_throws P _ _ _); f_equal;
      destruct e; unfold Services_served; simpl;
      now rewrite ?app_nil_r, <- ?app_assoc, Nat.add_1_r.
Qed.

Lemma Services_clip_loop_eq (P : Platform) (now s : Q) (clips : list Services.AudioClip) :
  forall e,
    forEach (Services.scheduleClip P now s) clips e
    = (if existsb (Services_raises P now s (Services.bufferMap e) (Services.trackNodes e))
                  clips
       then Throw "RangeError" else Normal tt,
       Services_served
         (Services_requests P now s (Services.bufferMap e) (Services.trackNodes e)
            (Services.nodes e) clips) e).
Proof.
  induction clips as [| c clips IH]; intros e; simpl.
  - now rewrite Services_served_nil.
  - unfold bind. rewrite Services_scheduleClip_eq.
    destruct (Services_raises P now s _ _ c); simpl; [reflexivity |].
    rewrite IH.
    destruct (Services_served_fields
                (Services_clipRequests P now s (Services.bufferMap e)
                   (Services.trackNodes e) (Services.nodes e) c) e) as (-> & -> & ->).
    now rewrite Services_served_app.
Qed.

(** The whole effect of [schedulePlayback]: the active sources are stopped,
    every track gets its chain, and the platform serves the requests of the
    clips up to the first start it refuses. *)
Lemma Services_schedulePlayback_full (P : Platform) (now : Q)
    (clips : list Services.AudioClip) (s : Q) (tracks : list Services.Track)
    (e : Services.AudioEngine) :
  let chains := Services_liveChains now tracks (Services.trackNodes e) in
  let e1 :=
    Services.with_trackNodes chains
      (Services.with_activeSources []
         (Services.with_calls
            (Services.calls e ++ map Stop (live P (Services.activeSources e))) e)) in
  Services.schedulePlayback P now clips s tracks e
  = (if existsb (Services_raises P now s (Services.bufferMap e) chains) clips
     then Throw "RangeError" else Normal tt,
     Services_served
       (Services_requests P now s (Services.bufferMap e) chains (Services.nodes e) clips)
       e1).
Proof.
  cbv zeta. unfold Services.schedulePlayback.
  unfold bind at 1. rewrite Services_stopAll_eq.
  unfold bind. rewrite Services_setup_loop_eq, Services_clip_loop_eq. reflexivity.
Qed.

Lemma Services_chains_playable (now : Q) (tracks : list Services.Track)
    (e : Services.AudioEngine) (c : Services.AudioClip) :
  Services_playable e tracks c
  = match Services.bufferMap e !! Services.clip_bufferId c,
          Services_liveChains now tracks (Services.trackNodes e) !! Services.clip_trackId c
    with
    | Some _, Some _ => true
    | _, _ => false
    end.
Proof.
  unfold Services_playable. rewrite Services_liveChains_lookup.
  destruct (Services.bufferMap e !! Services.clip_bufferId c) as [buffer |];
    [| reflexivity].
  destruct (List.find _ (rev tracks)) as [t |] eqn:E.
  - apply find_some in E as [Hin Heq]. apply String.eqb_eq in Heq.
    assert (Hh : has_track tracks (Services.clip_trackId c) = true).
    { apply has_track_In. rewrite <- Heq. apply in_map. now apply in_rev. }
    rewrite Hh. now destruct (Services.trackNodes e !! Services.clip_trackId c).
  - destruct (Services.trackNodes e !! Services.clip_trackId c); [reflexivity |].
    destruct (has_track tracks (Services.clip_trackId c)) eqn:Hh; [| reflexivity].
    exfalso. apply has_track_In, in_map_iff in Hh as (t' & Hid & Hin).
    apply in_rev in Hin. pose proof (find_none _ _ E t' Hin) as Hn. simpl in Hn.
    rewrite Hid, String.eqb_refl in Hn. discriminate Hn.
Qed.

(** The requests of a clip whose start the platform accepts. *)
Lemma Services_clipRequests_accepted (P : Platform) (now s : Q)
    (tracks : list Services.Track) (e : Services.AudioEngine) (n : nat)
    (c : Services.AudioClip) :
  Services_refused P now s c = false ->
  let chains := Services_liveChains now tracks (Services.trackNodes e) in
  let l := Services_clipRequests P now s (Services.bufferMap e) chains n c in
  Services_raises P now s (Services.bufferMap e) chains c = false
  /\ starts l = Services_voices e tracks now s c
  /\ started l = created l
  /\ (created l = [] \/ created l = [n])
  /\ stops l = [].
Proof.
  intros Hacc. cbv zeta.
  unfold Services_raises, Services_clipRequests, Services_voices.
  rewrite (Services_chains_playable now tracks e c).
  destruct (Services.bufferMap e !! Services.clip_bufferId c); [| simpl; tauto].
  destruct (Services_liveChains _ _ _ !! _); [| simpl; tauto].
  split; [exact Hacc |]. unfold Services_refused in Hacc.
  destruct (spec_voice_unscaled now s c) as [[[w o] d] |]; [| simpl; tauto].
  rewrite Hacc. simpl. tauto.
Qed.

Lemma Services_accepts_refused (P : Platform) (now s : Q)
    (clips : list Services.AudioClip) :
  Services_accepts P now s clips = true <->
  forall c, List.In c clips -> Services_refused P now s c = false.
Proof.
  unfold Services_accepts, Services_refused. rewrite forallb_forall.
  split; intros H c Hin; specialize (H c Hin);
    destruct (spec_voice_unscaled now s c) as [[[w o] d] |]; try reflexivity.
  - now apply negb_true_iff in H.
  - now apply negb_true_iff.
Qed.

Lemma Services_requests_accepted (P : Platform) (now s : Q)
    (tracks : list Services.Track) (e : Services.AudioEngine)
    (clips rest : list Services.AudioClip) :
  Services_accepts P now s clips = true ->
  let chains := Services_liveChains now tracks (Services.trackNodes e) in
  forall n,
    let l := Services_requests P now s (Services.bufferMap e) chains n clips in
    existsb (Services_raises P now s (Services.bufferMap e) chains) clips = false
    /\ starts l = flat_map (Services_voices e tracks now s) clips
    /\ started l = created l
    /\ created l = seq n (List.length (created l))
    /\ stops l = []
    /\ Services_requests P now s (Services.bufferMap e) chains n (clips ++ rest)
       = l ++ Services_requests P now s (Services.bufferMap e) chains
                (n + List.length (created l)) rest.
Proof.
  intros Hacc. cbv zeta. rewrite Services_accepts_refused in Hacc.
  induction clips as [| c clips IH]; intros n; simpl.
  - rewrite Nat.add_0_r. tauto.
  - destruct (Services_clipRequests_accepted P now s tracks e n c) as (Hr & Hs & Hsc & Hc & Hst);
      [apply Hacc; now left |].
    cbv zeta in Hr, Hs, Hsc, Hc, Hst. rewrite Hr. simpl.
    destruct (IH (fun c' Hin => Hacc c' (or_intror Hin))
                 (n + List.length (created (Services_clipRequests P now s
                        (Services.bufferMap e)
                        (Services_liveChains now tracks (Services.trackNodes e)) n c)))%nat)
      as (IHr & IHs & IHsc & IHc & IHst & IHapp).
    rewrite starts_app, started_app, created_app, stops_app, length_app.
    rewrite Hs, IHs, Hsc, IHsc, Hst, IHst, IHapp.
    split; [exact IHr |]. split; [reflexivity |]. split; [reflexivity |].
    split; [| split; [reflexivity |]].
    + rewrite seq_app. f_equal; [| exact IHc]. destruct Hc as [-> | ->]; reflexivity.
    + now rewrite <- app_assoc, Nat.add_assoc.
Qed.

Lemma Services_requests_cut (P : Platform) (now s : Q)
    (buffers : gmap string AudioBuffer.t) (chains : gmap string TrackChain)
    (pre post : list Services.AudioClip) (c : Services.AudioClip) :
  Services_raises P now s buffers chains c = true ->
  forall n,
    Services_requests P now s buffers chains n (pre ++ c :: post)
    = Services_requests P now s buffers chains n (pre ++ [c]).
Proof.
  intros Hr. induction pre as [| x pre IH]; intros n; simpl.
  - now rewrite Hr.
  - destruct (Services_raises P now s buffers chains x); [reflexivity |].
    now rewrite IH.
Qed.

(** ** Refused start requests *)

(** X5: [schedulePlayback] has no handler around [source.start]: when
    the platform refuses the start request of a clip whose buffer and chain
    are found, the call throws the platform's RangeError and the clips after
    it are not looked at: the engine is left as by the call on the clips up
    to and including the refused one.  If the requests of the clips before
    it are accepted, the start requests of the call are exactly the voices
    of those clips: neither the refused clip nor any later clip sounds, and
    the sources of the earlier clips, which were active before the
    exception, are the active set. *)
Theorem Services_schedulePlayback_aborts_at_refused_start (P : Platform) (now s : Q)
    (tracks : list Services.Track) (e : Services.AudioEngine)
    (pre post : list Services.AudioClip) (c : Services.AudioClip) :
  Services_playable e tracks c = true ->
  Services_refused P now s c = true ->
  let r := Services.schedulePlayback P now (pre ++ c :: post) s tracks e in
  fst r = Throw "RangeError"
  /\ snd r = state_after (Services.schedulePlayback P now (pre ++ [c]) s tracks) e
  /\ (Services_accepts P now s pre = true ->
      starts (Services.calls (snd r))
      = starts (Services.calls e) ++ flat_map (Services_voices e tracks now s) pre
      /\ Services.activeSources (snd r)
         = seq (Services.nodes e)
               (List.length (flat_map (Services_voices e tracks now s) pre))).
Proof.
  intros Hplay Href. cbv zeta. unfold state_after.
  rewrite !Services_schedulePlayback_full. cbv zeta. simpl.
  set (chains := Services_liveChains now tracks (Services.trackNodes e)).
  assert (Hr : Services_raises P now s (Services.bufferMap e) chains c = true).
  { unfold Services_raises. rewrite (Services_chains_playable now tracks e c) in Hplay.
    fold chains in Hplay.
    destruct (Services.bufferMap e !! Services.clip_bufferId c); [| discriminate Hplay].
    destruct (chains !! Services.clip_trackId c); [exact Href | discriminate Hplay]. }
  split; [| split].
  - rewrite existsb_app. simpl. rewrite Hr. now rewrite orb_true_r.
  - now rewrite (Services_requests_cut P now s _ _ pre post c Hr).
  - intros Hacc.
    rewrite (Services_requests_cut P now s _ _ pre post c Hr).
    destruct (Services_requests_accepted P now s tracks e pre [c] Hacc (Services.nodes e))
      as (_ & Hs & Hsc & Hc & _ & Happ).
    fold chains in Hs, Hsc, Hc, Happ. rewrite Happ. simpl. rewrite Hr.
    assert (Hlast : starts (Services_clipRequests P now s (Services.bufferMap e) chains
                      (Services.nodes e + List.length (created
                         (Services_requests P now s (Services.bufferMap e) chains
                            (Services.nodes e) pre))) c) = []
                    /\ started (Services_clipRequests P now s (Services.bufferMap e) chains
                      (Services.nodes e + List.length (created
                         (Services_requests P now s (Services.bufferMap e) chains
                            (Services.nodes e) pre))) c) = []).
    { unfold Services_clipRequests. unfold Services_refused in Href.
      destruct (Services.bufferMap e !! _); [| split; reflexivity].
      destruct (chains !! _); [| split; reflexivity].
      destruct (spec_voice_unscaled now s c) as [[[w o] d] |]; [| discriminate Href].
      rewrite Href. split; reflexivity. }
    destruct Hlast as [Hl1 Hl2].
    rewrite !starts_app, starts_map_Stop, Hs, Hl1, !app_nil_r.
    split; [reflexivity |].
    rewrite started_app, Hl2, app_nil_r, Hsc.
    rewrite foldl_set_add_fresh.
    + simpl. rewrite Hc at 1. f_equal. rewrite <- Hsc, <- Hs. clear.
      generalize (Services_requests P now s (Services.bufferMap e) chains
                    (Services.nodes e) pre).
      intros l. induction l as [| [] l IH]; simpl; congruence.
    + simpl. rewrite Hc. apply NoDup_ListNoDup, seq_NoDup.
Qed.

(** On [webAudio], which refuses a negative read offset: a clip that reads
    from second -1 of its buffer, between two playable clips.  The call
    throws; the first clip sounds, the third does not. *)
Lemma Services_schedulePlayback_aborts_witness :
  let bad := {| Services.clip_id := "x"; Services.clip_bufferId := "b1";
                Services.clip_startTime := 0; Services.clip_offset := -1;
                Services.clip_duration := 2; Services.clip_trackId := "t1" |} in
  Services_playable engine_with_b1 [open_track] bad = true
  /\ Services_refused webAudio 0 0 bad = true
  /\ Services_accepts webAudio 0 0 [clip_on_t1] = true
  /\ fst (Services.schedulePlayback webAudio 0 ([clip_on_t1] ++ bad :: [clip_on_t1]) 0
            [open_track] engine_with_b1) = Throw "RangeError"
  /\ starts (Services.calls (snd (Services.schedulePlayback webAudio 0
                                    ([clip_on_t1] ++ bad :: [clip_on_t1]) 0
                                    [open_track] engine_with_b1)))
     = starts (Services.calls engine_with_b1)
       ++ flat_map (Services_voices engine_with_b1 [open_track] 0 0) [clip_on_t1].
Proof.
  intros bad.
  assert (H1 : Services_playable engine_with_b1 [open_track] bad = true) by reflexivity.
  assert (H2 : Services_refused webAudio 0 0 bad = true) by reflexivity.
  assert (H3 : Services_accepts webAudio 0 0 [clip_on_t1] = true) by reflexivity.
  split; [exact H1 |]. split; [exact H2 |]. split; [exact H3 |].
  pose proof (Services_schedulePlayback_aborts_at_refused_start webAudio 0 0
                [open_track] engine_with_b1 [clip_on_t1] [clip_on_t1] bad H1 H2) as H.
  cbv zeta in H. destruct H as (Hthrow & _ & Hrest).
  split; [exact Hthrow |]. exact (proj1 (Hrest H3)).
Defined.


(** X6: [play] wraps [source.start] in a handler: when the platform
    refuses the start request of a clip, the call still completes, the clip
    gets no voice, and the start requests of the call are those of the call
    without that clip, so every other clip is scheduled as if the refused
    one were not there. *)
Theorem Utils_play_absorbs_refused_start (P : Platform) (now s : Q)
    (tracks : list Utils.Track) (pre post : list Utils.AudioClip)
    (c : Utils.AudioClip) (t : Utils.Track) (w o d : Q) (e : Utils.AudioEngine) :
  Utils_trackOf tracks c = Some t ->
  Utils.startArguments now s (or_default (Utils.track_playbackRate t) 1) c = (w, o, d) ->
  start_throws P w o d = true ->
  fst (Utils.play P now (pre ++ c :: post) tracks s e) = Normal tt
  /\ Utils_clipStarts P now s tracks c = []
  /\ starts (Utils.calls (state_after (Utils.play P now (pre ++ c :: post) tracks s) e))
     = starts (Utils.calls (state_after (Utils.play P now (pre ++ post) tracks s) e)).
Proof.
  intros Ht Hargs Hthrow.
  destruct (Utils_play_effect P now (pre ++ c :: post) tracks s e) as (Hn & _ & Hs).
  destruct (Utils_play_effect P now (pre ++ post) tracks s e) as (_ & _ & Hs').
  assert (Hc : Utils_clipStarts P now s tracks c = []).
  { unfold Utils_clipStarts, state_after, Utils.scheduleClip.
    fold (Utils_trackOf tracks c). rewrite Ht.
    destruct (Utils.track_muted t); [reflexivity |].
    destruct (Qltb _ s); [reflexivity |].
    unfold Utils.createBufferSource. eff. rewrite Hargs.
    destruct (Qltb 0 d && Qltb o _); simpl; [| reflexivity].
    unfold Utils.source_start. rewrite Hthrow. reflexivity. }
  split; [exact Hn |]. split; [exact Hc |].
  rewrite Hs, Hs', !flat_map_app. simpl. now rewrite Hc.
Qed.

(** On [webAudio], [clip_before_buffer] asks to read from second -1 and is
    refused, between two playable clips. *)
Lemma Utils_play_absorbs_refused_start_witness :
  Utils_trackOf [track1] clip_before_buffer = Some track1
  /\ Utils.startArguments 0 0 (or_default (Utils.track_playbackRate track1) 1)
       clip_before_buffer = (0 + (1 - 0), -1, 1)
  /\ start_throws webAudio (0 + (1 - 0)) (-1) 1 = true
  /\ fst (Utils.play webAudio 0 ([clip_at_1] ++ clip_before_buffer :: [clip_at_3])
            [track1] 0 Utils.new) = Normal tt
  /\ starts (Utils.calls (state_after
               (Utils.play webAudio 0 ([clip_at_1] ++ clip_before_buffer :: [clip_at_3])
                  [track1] 0) Utils.new))
     = starts (Utils.calls (state_after
                 (Utils.play webAudio 0 ([clip_at_1] ++ [clip_at_3]) [track1] 0)
                 Utils.new)).
Proof.
  assert (H1 : Utils_trackOf [track1] clip_before_buffer = Some track1) by reflexivity.
  assert (H2 : Utils.startArguments 0 0 (or_default (Utils.track_playbackRate track1) 1)
                 clip_before_buffer = (0 + (1 - 0), -1, 1)) by reflexivity.
  assert (H3 : start_throws webAudio (0 + (1 - 0)) (-1) 1 = true) by reflexivity.
  split; [exact H1 |]. split; [exact H2 |]. split; [exact H3 |].
  destruct (Utils_play_absorbs_refused_start webAudio 0 0 [track1] [clip_at_1] [clip_at_3]
              clip_before_buffer track1 _ _ _ Utils.new H1 H2 H3) as (Hn & _ & Hs).
  split; [exact Hn | exact Hs].
Defined.

(** ** The offline renders and refused start requests *)

Lemma Utils_renderClip_cases (P : Platform) (tracks : list Utils.Track)
    (c : Utils.AudioClip) (b : Utils.OfflineBuild) :
  (fst (Utils.renderClip P tracks c b) = Normal tt
   /\ Utils.offlineTrackInputs (snd (Utils.renderClip P tracks c b))
      = Utils.offlineTrackInputs b)
  \/ fst (Utils.renderClip P tracks c b) = Throw "RangeError".
Proof.
  unfold Utils.renderClip.
  destruct (List.find _ tracks) as [t |]; [| left; split; reflexivity].
  destruct (Utils.track_muted t); [left; split; reflexivity |].
  rewrite bind_get.
  destruct (Utils.offlineTrackInputs b !! Utils.clip_trackId c);
    [| left; split; reflexivity].
  destruct (start_throws P _ _ _); [right; reflexivity | left; split; reflexivity].
Qed.

Lemma Utils_render_clips_refused (P : Platform) (tracks : list Utils.Track)
    (pre post : list Utils.AudioClip) (c : Utils.AudioClip) (t : Utils.Track) :
  Utils_trackOf tracks c = Some t -> Utils.track_muted t = false ->
  start_throws P (Utils.clip_startTime c) (Utils.clip_offset c) (Utils.clip_duration c)
  = true ->
  forall b, is_Some (Utils.offlineTrackInputs b !! Utils.clip_trackId c) ->
            fst (forEach (Utils.renderClip P tracks) (pre ++ c :: post) b)
            = Throw "RangeError".
Proof.
  intros Ht Hm Hthrow. induction pre as [| x pre IH]; intros b [i Hi]; simpl.
  - assert (E : Utils.renderClip P tracks c b = (Throw "RangeError", b)).
    { unfold Utils.renderClip. fold (Utils_trackOf tracks c).
      now rewrite Ht, Hm, bind_get, Hi, Hthrow. }
    unfold bind. now rewrite E.
  - unfold bind.
    destruct (Utils_renderClip_cases P tracks x b) as [[Hn Hk] | Hf];
      destruct (Utils.renderClip P tracks x b) as [[[] | err] b']; simpl in *;
      try discriminate.
    + apply IH. rewrite Hk. eauto.
    + exact Hf.
Qed.

Lemma Services_exportClip_cases (P : Platform) (e : Services.AudioEngine)
    (c : Services.AudioClip) (b : Services.OfflineBuild) :
  (fst (Services.exportClip P e c b) = Normal tt
   /\ Services.offlineTrackNodes (snd (Services.exportClip P e c b))
      = Services.offlineTrackNodes b)
  \/ fst (Services.exportClip P e c b) = Throw "RangeError".
Proof.
  unfold Services.exportClip. rewrite bind_get.
  destruct (Services.bufferMap e !! Services.clip_bufferId c);
    [| left; split; reflexivity].
  destruct (Services.offlineTrackNodes b !! Services.clip_trackId c);
    [| left; split; reflexivity].
  destruct (start_throws P _ _ _); [right; reflexivity | left; split; reflexivity].
Qed.

Lemma Services_export_clips_refused (P : Platform) (e : Services.AudioEngine)
    (pre post : list Services.AudioClip) (c : Services.AudioClip) :
  is_Some (Services.bufferMap e !! Services.clip_bufferId c) ->
  start_throws P (Services.clip_startTime c) (Services.clip_offset c)
    (Services.clip_duration c) = true ->
  forall b, is_Some (Services.offlineTrackNodes b !! Services.clip_trackId c) ->
            fst (forEach (Services.exportClip P e) (pre ++ c :: post) b)
            = Throw "RangeError".
Proof.
  intros [buffer Hb] Hthrow. induction pre as [| x pre IH]; intros b [i Hi]; simpl.
  - assert (E : Services.exportClip P e c b = (Throw "RangeError", b)).
    { unfold Services.exportClip. now rewrite bind_get, Hb, Hi, Hthrow. }
    unfold bind. now rewrite E.
  - unfold bind.
    destruct (Services_exportClip_cases P e x b) as [[Hn Hk] | Hf];
      destruct (Services.exportClip P e x b) as [[[] | err] b']; simpl in *;
      try discriminate.
    + apply IH. rewrite Hk. eauto.
    + exact Hf.
Qed.

(** X7: the offline renders have no handler around
    [source.start] either.  As soon as the platform refuses the start request
    of one clip that would get a source (in [renderOffline]: its track is
    among the rendered tracks and not muted; in [exportProject]: its buffer
    is in the sample store and its track among the rendered tracks), the
    call throws the RangeError, wherever the clip stands in the list:
    nothing is rendered and no file is produced. *)
Theorem offline_render_fails_on_refused_start (P : Platform) :
  (forall now (u : Utils.AudioEngine) pre c post tracks d t,
      Utils_trackOf tracks c = Some t ->
      Utils.track_muted t = false ->
      start_throws P (Utils.clip_startTime c) (Utils.clip_offset c)
        (Utils.clip_duration c) = true ->
      Utils.renderOffline P now u (pre ++ c :: post) tracks d = Throw "RangeError")
  /\ (forall toWav now (e : Services.AudioEngine) pre c post tracks d,
      Services_exportable e tracks c = true ->
      start_throws P (Services.clip_startTime c) (Services.clip_offset c)
        (Services.clip_duration c) = true ->
      Services.exportProject toWav P now e (pre ++ c :: post) tracks d
      = Throw "RangeError").
Proof.
  split.
  - intros now u pre c post tracks d t Ht Hm Hthrow.
    unfold Utils.renderOffline, Utils.offlineGraph. unfold bind at 1.
    pose proof (Utils_render_tracks tracks
                  {| Utils.offlineCtx :=
                       {| oc_numberOfChannels := 2;
                          oc_length := Qceiling (d *! inject_Z 44100);
                          oc_sampleRate := 44100; oc_chains := []; oc_sources := [] |};
                     Utils.offlineTrackInputs := ∅ |}) as Hl.
    cbv zeta in Hl. destruct Hl as (Hn & _ & _ & _ & _ & _ & Hin).
    destruct (forEach Utils.renderTrack tracks _) as [r1 b1]. simpl in Hn, Hin. subst r1.
    unfold bind at 1.
    assert (Hsome : is_Some (Utils.offlineTrackInputs b1 !! Utils.clip_trackId c)).
    { rewrite Hin. simpl. rewrite lookup_empty.
      destruct (input_of 0 (map Utils.track_id tracks) (Utils.clip_trackId c) None)
        as [i |] eqn:E; [eauto |].
      exfalso. apply input_of_None in E. apply E.
      apply Utils_trackOf_id in Ht as [Hin' <-]. now apply in_map. }
    pose proof (Utils_render_clips_refused P tracks pre post c t Ht Hm Hthrow b1 Hsome) as Hf.
    destruct (forEach (Utils.renderClip P tracks) (pre ++ c :: post) b1) as [r2 b2].
    simpl in Hf. subst r2. reflexivity.
  - intros toWav now e pre c post tracks d Hexp Hthrow.
    unfold Services_exportable in Hexp.
    destruct (Services.bufferMap e !! Services.clip_bufferId c) as [buffer |] eqn:Hb;
      [| discriminate Hexp].
    unfold Services.exportProject, Services.offlineGraph. unfold bind at 1.
    pose proof (Services_export_tracks tracks
                  {| Services.offlineCtx :=
                       {| oc_numberOfChannels := 2;
                          oc_length := Qceiling (d *! 44100);
                          oc_sampleRate := 44100; oc_chains := []; oc_sources := [] |};
                     Services.offlineTrackNodes := ∅ |}) as Hl.
    cbv zeta in Hl. destruct Hl as (Hn & _ & _ & _ & _ & _ & Hin).
    destruct (forEach Services.exportTrack tracks _) as [r1 b1]. simpl in Hn, Hin. subst r1.
    unfold bind at 1.
    assert (Hsome : is_Some (Services.offlineTrackNodes b1 !! Services.clip_trackId c)).
    { rewrite Hin. simpl. rewrite lookup_empty.
      destruct (input_of 0 (map Services.track_id tracks) (Services.clip_trackId c) None)
        as [i |] eqn:E; [eauto |].
      exfalso. apply input_of_None in E. apply E.
      now apply has_track_In. }
    assert (Hb' : is_Some (Services.bufferMap e !! Services.clip_bufferId c))
      by (rewrite Hb; eauto).
    pose proof (Services_export_clips_refused P e pre post c Hb' Hthrow b1 Hsome) as Hf.
    destruct (forEach (Services.exportClip P e) (pre ++ c :: post) b1) as [r2 b2].
    simpl in Hf. subst r2. reflexivity.
Qed.

(** On [webAudio]: [clip_before_buffer], which reads from second -1, after
    a playable clip; the render of the two throws. *)
Lemma offline_render_fails_on_refused_start_witness :
  Utils_trackOf [track1] clip_before_buffer = Some track1
  /\ Utils.track_muted track1 = false
  /\ start_throws webAudio (Utils.clip_startTime clip_before_buffer)
       (Utils.clip_offset clip_before_buffer) (Utils.clip_duration clip_before_buffer)
     = true
  /\ Utils.renderOffline webAudio 0 Utils.new ([clip_at_1] ++ clip_before_buffer :: [])
       [track1] 4 = Throw "RangeError".
Proof.
  assert (H1 : Utils_trackOf [track1] clip_before_buffer = Some track1) by reflexivity.
  assert (H2 : Utils.track_muted track1 = false) by reflexivity.
  assert (H3 : start_throws webAudio (Utils.clip_startTime clip_before_buffer)
                 (Utils.clip_offset clip_before_buffer)
                 (Utils.clip_duration clip_before_buffer) = true) by reflexivity.
  split; [exact H1 |]. split; [exact H2 |]. split; [exact H3 |].
  exact (proj1 (offline_render_fails_on_refused_start webAudio) 0 Utils.new
           [clip_at_1] clip_before_buffer [] [track1] 4 track1 H1 H2 H3).
Defined.

(** ** Services.schedulePlayback: chains, routing and voices *)

Lemma Services_clipRequests_In (P : Platform) (now s : Q)
    (buffers : gmap string AudioBuffer.t) (chains : gmap string TrackChain)
    (n : nat) (c : Services.AudioClip) (k : nat) (buffer : AudioBuffer.t)
    (rate : Q) (dest : destination) :
  List.In (CreateBufferSource k buffer rate dest)
          (Services_clipRequests P now s buffers chains n c) ->
  buffers !! Services.clip_bufferId c = Some buffer
  /\ is_Some (chains !! Services.clip_trackId c)
  /\ rate = 1 /\ dest = ChainInput (Services.clip_trackId c).
Proof.
  unfold Services_clipRequests.
  destruct (buffers !! Services.clip_bufferId c) as [b |]; [| intros []].
  destruct (chains !! Services.clip_trackId c) as [ch |]; [| intros []].
  destruct (spec_voice_unscaled now s c) as [[[w o] d] |]; [| intros []].
  intros [H | H].
  - injection H as <- <- <- <-. eauto.
  - destruct (start_throws P w o d); [destruct H |]. destruct H as [H | []]. discriminate H.
Qed.

Lemma Services_requests_In (P : Platform) (now s : Q)
    (buffers : gmap string AudioBuffer.t) (chains : gmap string TrackChain)
    (clips : list Services.AudioClip) (x : call) :
  forall n, List.In x (Services_requests P now s buffers chains n clips) ->
            exists c m, List.In c clips
                        /\ List.In x (Services_clipRequests P now s buffers chains m c).
Proof.
  induction clips as [| c clips IH]; intros n; simpl; [intros [] |].
  destruct (Services_raises P now s buffers chains c).
  - intros Hin. exists c, n. tauto.
  - intros Hin. apply in_app_or in Hin as [Hin | Hin].
    + exists c, n. tauto.
    + destruct (IH _ Hin) as (c' & m & Hc' & Hx). exists c', m. tauto.
Qed.

(** X8: [schedulePlayback] replaces the voices, on any
    engine.  It asks the platform to stop every active source (those on
    which [stop()] raises apart) and gives every track of the call its
    chain, with the parameters of the last track of the list that carries
    this id.  When the platform accepts the start requests, the requests the
    call adds after the stop requests create one source node per voice of
    the scheduling rule, numbered in the order of the clips, on the buffer
    the sample store holds for the clip, at the natural rate, connected to
    the input of the chain of the clip's track; every node created is
    started; and the active set the call leaves is exactly these nodes, each
    with its [onended] handler. *)
Theorem Services_schedulePlayback_replaces_the_voices (P : Platform) (now : Q)
    (clips : list Services.AudioClip) (s : Q) (tracks : list Services.Track)
    (e : Services.AudioEngine) :
  Services_accepts P now s clips = true ->
  let e' := state_after (Services.schedulePlayback P now clips s tracks) e in
  (forall id,
      Services.trackNodes e' !! id
      = match List.find (fun t => String.eqb (Services.track_id t) id) (rev tracks) with
        | Some t => Some (Services_liveChain now t)
        | None => Services.trackNodes e !! id
        end)
  /\ exists added,
       Services.calls e'
       = Services.calls e ++ map Stop (live P (Services.activeSources e)) ++ added
       /\ stops added = []
       /\ created added
          = seq (Services.nodes e)
                (List.length (flat_map (Services_voices e tracks now s) clips))
       /\ started added = created added
       /\ Services.activeSources e' = created added
       /\ incl (Services.activeSources e') (Services.onended e')
       /\ forall n buffer rate dest,
            List.In (CreateBufferSource n buffer rate dest) added ->
            exists c,
              List.In c clips
              /\ Services.bufferMap e !! Services.clip_bufferId c = Some buffer
              /\ rate = 1
              /\ dest = ChainInput (Services.clip_trackId c)
              /\ is_Some (Services.trackNodes e' !! Services.clip_trackId c).
Proof.
  intros Hacc. cbv zeta. unfold state_after.
  rewrite Services_schedulePlayback_full. cbv zeta. unfold Services_served. simpl.
  set (chains := Services_liveChains now tracks (Services.trackNodes e)).
  destruct (Services_requests_accepted P now s tracks e clips [] Hacc (Services.nodes e))
    as (_ & Hs & Hsc & Hc & Hst & _).
  fold chains in Hs, Hsc, Hc, Hst.
  set (added := Services_requests P now s (Services.bufferMap e) chains
                  (Services.nodes e) clips) in *.
  split; [intros id; apply Services_liveChains_lookup |].
  exists added.
  assert (Hlen : List.length (created added)
                 = List.length (flat_map (Services_voices e tracks now s) clips)).
  { rewrite <- Hs, <- Hsc. clear. induction added as [| [] l IH]; simpl; congruence. }
  assert (Hact : foldl (fun a n => set_add n a) [] (started added) = created added).
  { rewrite foldl_set_add_fresh; [exact Hsc |].
    simpl. rewrite Hsc, Hc. apply NoDup_ListNoDup, seq_NoDup. }
  rewrite Hact.
  split; [now rewrite <- app_assoc |]. split; [exact Hst |].
  split; [now rewrite <- Hlen |]. split; [exact Hsc |]. split; [reflexivity |].
  split; [rewrite Hsc; now apply incl_appr |].
  intros n buffer rate dest Hin.
  apply Services_requests_In in Hin as (c & m & Hc' & Hin).
  apply Services_clipRequests_In in Hin as (Hb & Hch & -> & ->).
  exists c. tauto.
Qed.

(** The engine that holds buffer "b1", asked to play [clip_on_t1] on
    [open_track] from second 0: node 0 is created, started and active. *)
Lemma Services_schedulePlayback_replaces_witness :
  Services_accepts webAudio 0 0 [clip_on_t1] = true
  /\ Services.activeSources
       (state_after (Services.schedulePlayback webAudio 0 [clip_on_t1] 0 [open_track])
          engine_with_b1) = [0%nat]
  /\ exists added,
       Services.calls
         (state_after (Services.schedulePlayback webAudio 0 [clip_on_t1] 0 [open_track])
            engine_with_b1)
       = Services.calls engine_with_b1
         ++ map Stop (live webAudio (Services.activeSources engine_with_b1)) ++ added
       /\ started added = created added.
Proof.
  assert (H : Services_accepts webAudio 0 0 [clip_on_t1] = true) by reflexivity.
  split; [exact H |]. split; [reflexivity |].
  destruct (Services_schedulePlayback_replaces_the_voices webAudio 0 [clip_on_t1] 0
              [open_track] engine_with_b1 H) as (_ & added & Hc & _ & _ & Hs & _).
  exists added. split; [exact Hc | exact Hs].
Defined.

(** ** The chain of a track *)

(** X9: [setupTrack] always completes and leaves the track a
    chain whose parameters approach the track's values from the call's clock
    time on: the volume goes to 0 for a muted track, the delay time to at
    least 10 ms, and to the track's delay time when that is at least 10 ms.
    It touches no other chain and no other field of the engine, and makes no
    request to the platform.  Run again with the same track at the same
    time it changes nothing.  [updateTrackParams] does the same for a track
    that has a chain, and nothing at all for a track that has none. *)
Theorem Services_setupTrack_installs_the_chain (now : Q) (t : Services.Track)
    (e : Services.AudioEngine) :
  let e1 := Services.with_trackNodes
              (<[Services.track_id t := Services_liveChain now t]> (Services.trackNodes e))
              e in
  Services.setupTrack now t e = (Normal tt, e1)
  /\ Services.setupTrack now t e1 = (Normal tt, e1)
  /\ Services.updateTrackParams now t e
     = (Normal tt,
        match Services.trackNodes e !! Services.track_id t with
        | Some _ => e1
        | None => e
        end)
  /\ (forall id, id <> Services.track_id t ->
                 Services.trackNodes e1 !! id = Services.trackNodes e !! id)
  /\ exists vol dTime,
       chain_volume (Services_liveChain now t) = SetTarget vol now (5 # 100)
       /\ (Services.track_isMuted t = true -> vol = 0)
       /\ (Services.track_isMuted t = false -> vol = Services.track_volume t)
       /\ chain_delayNode (Services_liveChain now t) = SetTarget dTime now (1 # 10)
       /\ (1 # 100) <= dTime
       /\ ((1 # 100) <= Services.delayTime (Services.track_effects t) ->
           dTime == Services.delayTime (Services.track_effects t)).
Proof.
  cbv zeta. split; [apply Services_setupTrack_eq |].
  split.
  { rewrite Services_setupTrack_eq. f_equal. unfold Services.with_trackNodes. simpl.
    now rewrite insert_insert_eq. }
  split; [apply Services_updateTrackParams_eq |].
  split; [intros id Hid; simpl; now rewrite lookup_insert_ne |].
  eexists _, _. split; [reflexivity |].
  split; [intros ->; reflexivity |]. split; [intros ->; reflexivity |].
  split; [reflexivity |].
  unfold Services.Math_max.
  destruct (Qltb (1 # 100) (Services.delayTime (Services.track_effects t))) eqn:E.
  - apply Qltb_lt in E. split; [lra | reflexivity].
  - apply Qltb_ge in E. split; [lra | intros H; lra].
Qed.



(** ** bufferToWav: which frames are written *)

Lemma flat_map_lookup_uniform {A B} (f : A -> list B) (m : nat) (l : list A) :
  (forall x, List.length (f x) = m) ->
  forall k c x, l !! k = Some x -> (c < m)%nat ->
                flat_map f l !! (k * m + c)%nat = f x !! c.
Proof.
  intros Hlen. induction l as [| y l IH]; intros k c x Hk Hc; [discriminate |].
  cbn [flat_map]. destruct k as [| k].
  - injection Hk as ->. simpl. apply lookup_app_l. now rewrite Hlen.
  - simpl in Hk. rewrite lookup_app_r by (rewrite Hlen; lia).
    rewrite Hlen. replace (S k * m + c - m)%nat with (k * m + c)%nat by lia.
    now apply IH.
Qed.

Lemma wav_samples_lookup (abuffer : AudioBuffer.t) (k c : nat) :
  (44 + k < N.to_nat (AudioBuffer.length abuffer))%nat ->
  (c < AudioBuffer.numberOfChannels abuffer)%nat ->
  wav_samples abuffer !! (k * AudioBuffer.numberOfChannels abuffer + c)%nat
  = Some (AudioBuffer.getChannelData abuffer c (44 + k)).
Proof.
  intros Hk Hc. unfold wav_samples.
  rewrite (flat_map_lookup_uniform _ (AudioBuffer.numberOfChannels abuffer) _
             (frame_samples_length abuffer) k c (44 + k)%nat).
  - unfold frame_samples.
    change (map ?f ?l) with (f <$> l). rewrite list_lookup_fmap.
    rewrite lookup_seq_lt by exact Hc. reflexivity.
  - rewrite lookup_seq_lt by lia. reflexivity.
  - exact Hc.
Qed.

Lemma flat_map_ext_in {A B} (f g : A -> list B) (l : list A) :
  (forall x, List.In x l -> f x = g x) -> flat_map f l = flat_map g l.
Proof.
  induction l as [| x l IH]; intros H; [reflexivity |].
  cbn [flat_map]. rewrite (H x) by now left.
  rewrite IH; [reflexivity |]. intros y Hy. apply H. now right.
Qed.

(** X11: the frame loop of [bufferToWav] runs on the variable
    [pos] that the header writes have left at 44, so the encoder never
    reads the first 44 frames of the buffer.  The payload starts with frame
    44: its 16-bit word number [k * channels + c] holds the converted
    sample of channel [c] of frame [44 + k]; the words after the last frame
    written, the room of 44 frames (of all frames, for a shorter buffer),
    stay 0; and any buffer of the same shape that agrees from frame 44 on
    encodes to the same bytes. *)
Theorem Utils_bufferToWav_skips_the_first_44_frames (abuffer : AudioBuffer.t) :
  let ch := AudioBuffer.numberOfChannels abuffer in
  let n := N.to_nat (AudioBuffer.length abuffer) in
  exists bytes,
    Utils.bufferToWav abuffer = Normal bytes
    /\ (forall k c, (44 + k < n)%nat -> (c < ch)%nat ->
                    getInt16 (44 + 2 * (k * ch + c)) bytes
                    = Utils.sampleToInt (AudioBuffer.getChannelData abuffer c (44 + k)))
    /\ (forall j, (ch * (n - 44) <= j)%nat -> getInt16 (44 + 2 * j) bytes = 0%Z)
    /\ (forall other,
          AudioBuffer.numberOfChannels other = ch ->
          AudioBuffer.length other = AudioBuffer.length abuffer ->
          AudioBuffer.sampleRate other = AudioBuffer.sampleRate abuffer ->
          (forall c f, (44 <= f)%nat ->
                       AudioBuffer.getChannelData other c f
                       = AudioBuffer.getChannelData abuffer c f) ->
          Utils.bufferToWav other = Normal bytes).
Proof.
  intros ch n.
  pose proof (bufferToWav_eq abuffer) as Heq. cbv zeta in Heq. fold ch n in Heq.
  eexists. split; [exact Heq |]. split; [| split].
  - intros k c Hk Hc. unfold getInt16, getUint.
    rewrite drop_app_add' by reflexivity.
    rewrite (encoded_word _ _ _ _ (wav_samples_lookup abuffer k c Hk Hc)).
    apply int16_roundtrip, sampleToInt_range.
  - intros j Hj. unfold getInt16, getUint.
    rewrite drop_app_add' by reflexivity.
    rewrite unwritten_word; [reflexivity |]. now rewrite wav_samples_length.
  - intros other Hch Hlen Hrate Hdata.
    pose proof (bufferToWav_eq other) as Ho. cbv zeta in Ho.
    rewrite Ho, Hch, Hlen. fold ch n. f_equal. f_equal; [| f_equal].
    + unfold wav_header. now rewrite Hch, Hlen, Hrate.
    + assert (Hs : wav_samples other = wav_samples abuffer); [| now rewrite Hs].
      unfold wav_samples. rewrite Hlen. apply flat_map_ext_in.
      intros f Hf. apply in_seq in Hf. unfold frame_samples. rewrite Hch.
      apply map_ext. intros c. apply Hdata. lia.
Qed.

(** [short_buffer] with its first 44 frames set to NaN encodes to the same
    bytes as [short_buffer]. *)
Lemma Utils_bufferToWav_skips_witness :
  let other := AudioBuffer.mk 2 46 44100
                 (fun channel frame =>
                    if (frame <? 44)%nat then NaN
                    else AudioBuffer.getChannelData short_buffer channel frame) in
  (forall c f, (44 <= f)%nat ->
               AudioBuffer.getChannelData other c f
               = AudioBuffer.getChannelData short_buffer c f)
  /\ Utils.bufferToWav other = Utils.bufferToWav short_buffer.
Proof.
  intros other.
  assert (H : forall c f, (44 <= f)%nat ->
                AudioBuffer.getChannelData other c f
                = AudioBuffer.getChannelData short_buffer c f).
  { intros c f Hf. unfold other. cbn [AudioBuffer.getChannelData].
    destruct (f <? 44)%nat eqn:E; [| reflexivity].
    apply Nat.ltb_lt in E. lia. }
  split; [exact H |].
  destruct (Utils_bufferToWav_skips_the_first_44_frames short_buffer)
    as (bytes & Hb & _ & _ & Hsame).
  rewrite Hb. apply (Hsame other); [reflexivity | reflexivity | reflexivity | exact H].
Defined.

(** ** bufferToWav: the header *)

(** X12: the 44 bytes that [bufferToWav] puts before the samples
    are a RIFF/WAVE header: the chunk tags "RIFF", "WAVE", "fmt " and "data"
    at bytes 0, 8, 12 and 36; at byte 4 the length of the file less 8; a
    format chunk of 16 bytes; at byte 28 the byte rate, the sample rate times
    the block size, and at byte 32 the block size, two bytes per channel
    (each modulo the width of its field). *)
Theorem Utils_bufferToWav_writes_a_riff_header (abuffer : AudioBuffer.t) :
  let ch := Z.of_nat (AudioBuffer.numberOfChannels abuffer) in
  let r := AudioBuffer.sampleRate abuffer in
  exists bytes,
    Utils.bufferToWav abuffer = Normal bytes
    /\ take 4 bytes = [82; 73; 70; 70]%Z
    /\ take 4 (drop 8 bytes) = [87; 65; 86; 69]%Z
    /\ take 4 (drop 12 bytes) = [102; 109; 116; 32]%Z
    /\ take 4 (drop 36 bytes) = [100; 97; 116; 97]%Z
    /\ getUint 4 4 bytes = ((Z.of_nat (List.length bytes) - 8) mod 2 ^ 32)%Z
    /\ getUint 4 16 bytes = 16%Z
    /\ getUint 4 28 bytes = ((r * (2 * ch)) mod 2 ^ 32)%Z
    /\ getUint 2 32 bytes = ((2 * ch) mod 2 ^ 16)%Z.
Proof.
  intros ch r.
  pose proof (bufferToWav_eq abuffer) as Heq. cbv zeta in Heq.
  eexists. split; [exact Heq |].
  set (rest := encode_samples (wav_samples abuffer) ++ _).
  split; [reflexivity |]. split; [reflexivity |]. split; [reflexivity |].
  split; [reflexivity |].
  unfold getUint. split; [| split; [reflexivity | split]].
  - change (take 4 (drop 4 (wav_header abuffer ++ rest)))
      with (Utils.le_bytes 4
              (Z.of_nat (N.to_nat (AudioBuffer.length abuffer)
                         * AudioBuffer.numberOfChannels abuffer * 2 + 44) - 8)).
    rewrite le_value_le_bytes. f_equal.
    subst rest. rewrite !length_app, wav_header_length, encode_samples_length,
      wav_samples_length, length_replicate. lia.
  - change (take 4 (drop 28 (wav_header abuffer ++ rest)))
      with (Utils.le_bytes 4 (AudioBuffer.sampleRate abuffer * 2 * ch)).
    rewrite le_value_le_bytes. f_equal. subst r. lia.
  - change (take 2 (drop 32 (wav_header abuffer ++ rest)))
      with (Utils.le_bytes 2 (ch * 2)).
    rewrite le_value_le_bytes. f_equal. lia.
Qed.

(** ** The conversion of samples to 16-bit integers *)

Lemma Qtruncate_le (p q : Q) : p <= q -> (Utils.Qtruncate p <= Utils.Qtruncate q)%Z.
Proof.
  intros H. unfold Utils.Qtruncate.
  destruct (Qltb p 0) eqn:Ep; destruct (Qltb q 0) eqn:Eq.
  - now apply Qceiling_resp_le.
  - apply Qltb_lt in Ep. apply Qltb_ge in Eq.
    transitivity 0%Z.
    + rewrite <- (Qceiling_Z 0). apply Qceiling_resp_le.
      change (inject_Z 0) with 0. lra.
    + rewrite <- (Qfloor_Z 0). apply Qfloor_resp_le. exact Eq.
  - apply Qltb_ge in Ep. apply Qltb_lt in Eq. lra.
  - now apply Qfloor_resp_le.
Qed.

Lemma clamped_Finite (q : Q) :
  exists c, clamped (Finite q) = Finite c /\ -1 <= c <= 1
            /\ (q <= -1 -> c == -1) /\ (1 <= q -> c == 1)
            /\ (-1 <= q <= 1 -> c == q).
Proof.
  unfold clamped. simpl.
  destruct (Qltb q 1) eqn:E1.
  - apply Qltb_lt in E1. destruct (Qltb (-1) q) eqn:E2.
    + apply Qltb_lt in E2. exists q. repeat split; try lra.
    + apply Qltb_ge in E2. exists (-1). repeat split; try lra.
  - apply Qltb_ge in E1. exists 1. simpl. repeat split; try lra.
Qed.

(** The number that the WAV loop converts for a clamped sample [c], and the
    one the MP3 loop converts. *)
Lemma sampleToInt_Finite (q : Q) :
  exists c, clamped (Finite q) = Finite c /\ -1 <= c <= 1
            /\ (q <= -1 -> c == -1) /\ (1 <= q -> c == 1)
            /\ (-1 <= q <= 1 -> c == q)
            /\ Utils.sampleToInt (Finite q)
               = Utils.Qtruncate (if Qltb ((1 # 2) + c) 0 then c * 32768 else c * 32767)
            /\ Mp3.toInt16 (Finite q)
               = Utils.Qtruncate (if Qltb c 0 then c * 32768 else c * 32767).
Proof.
  destruct (clamped_Finite q) as (c & Hc & Hr & H1 & H2 & H3).
  exists c. split; [exact Hc |]. split; [exact Hr |].
  split; [exact H1 |]. split; [exact H2 |]. split; [exact H3 |].
  unfold Utils.sampleToInt, Mp3.toInt16. fold (clamped (Finite q)). rewrite Hc.
  cbn [Utils.float_add Utils.float_neg Utils.float_mul].
  split.
  - destruct (Qltb ((1 # 2) + c) 0) eqn:E; [apply Qltb_lt in E | apply Qltb_ge in E];
      apply ToInt32_small; apply Qtruncate_bounds;
      try (change (inject_Z (-32768)) with (-(32768)));
      try (change (inject_Z 32767) with 32767); lra.
  - unfold Mp3.ToInt16.
    assert (Hb : (-32768 <= Utils.Qtruncate (if Qltb c 0 then c * 32768 else c * 32767)
                  <= 32767)%Z).
    { destruct (Qltb c 0) eqn:E; [apply Qltb_lt in E | apply Qltb_ge in E];
        apply Qtruncate_bounds;
        try (change (inject_Z (-32768)) with (-(32768)));
        try (change (inject_Z 32767) with 32767); lra. }
    destruct (Qltb c 0); rewrite Z.mod_small; lia.
Qed.
Lemma inject_Z_pred (z : Z) : inject_Z (z - 1) == inject_Z z - 1.
Proof.
  replace (z - 1)%Z with (z + -1)%Z by lia. rewrite inject_Z_plus. reflexivity.
Qed.

Lemma inject_Z_succ (z : Z) : inject_Z (z + 1) == inject_Z z + 1.
Proof. rewrite inject_Z_plus. reflexivity. Qed.

Lemma Qtruncate_pred (a : Q) : (Utils.Qtruncate a - 1 <= Utils.Qtruncate (a - 1))%Z.
Proof.
  unfold Utils.Qtruncate.
  destruct (Qltb a 0) eqn:Ea; destruct (Qltb (a - 1) 0) eqn:Eb.
  - assert (H : (Qceiling a <= Qceiling (a - 1) + 1)%Z); [| lia].
    rewrite <- (Qceiling_Z (Qceiling (a - 1) + 1)). apply Qceiling_resp_le.
    rewrite inject_Z_succ. pose proof (Qle_ceiling (a - 1)). lra.
  - apply Qltb_lt in Ea. apply Qltb_ge in Eb. lra.
  - apply Qltb_ge in Ea. apply Qltb_lt in Eb.
    assert (H1 : (Qfloor a < 1)%Z).
    { rewrite Zlt_Qlt. pose proof (Qfloor_le a). change (inject_Z 1) with 1. lra. }
    assert (H2 : (-1 <= Qceiling (a - 1))%Z).
    { rewrite <- (Qceiling_Z (-1)). apply Qceiling_resp_le.
      change (inject_Z (-1)) with (-(1)). lra. }
    lia.
  - rewrite <- (Qfloor_Z (Qfloor a - 1)). apply Qfloor_resp_le.
    rewrite inject_Z_pred. pose proof (Qfloor_le a). lra.
Qed.

Lemma Qtruncate_close (a b : Q) :
  a - 1 <= b -> b <= a ->
  (Utils.Qtruncate a - 1 <= Utils.Qtruncate b <= Utils.Qtruncate a)%Z.
Proof.
  intros H1 H2. split; [| now apply Qtruncate_le].
  transitivity (Utils.Qtruncate (a - 1)); [apply Qtruncate_pred | now apply Qtruncate_le].
Qed.



Lemma sampleToInt_infinite :
  Utils.sampleToInt PosInf = 32767%Z /\ Utils.sampleToInt NegInf = (-32768)%Z
  /\ Mp3.toInt16 PosInf = 32767%Z /\ Mp3.toInt16 NegInf = (-32768)%Z
  /\ Utils.sampleToInt NaN = 0%Z /\ Mp3.toInt16 NaN = 0%Z.
Proof. repeat split; vm_compute; reflexivity. Qed.

Lemma toInt16_range (x : float) : (-32768 <= Mp3.toInt16 x <= 32767)%Z.
Proof.
  destruct x as [| | | q]; try (vm_compute; split; discriminate).
  destruct (sampleToInt_Finite q) as (c & _ & Hr & _ & _ & _ & _ & ->).
  destruct (Qltb c 0) eqn:E; [apply Qltb_lt in E | apply Qltb_ge in E];
    apply Qtruncate_bounds;
    try (change (inject_Z (-32768)) with (-(32768)));
    try (change (inject_Z 32767) with 32767); lra.
Qed.

(** X13: both encoders convert a sample by clamping it to [-1, 1],
    scaling and truncating; [bufferToWav] scales by 32768 below -1/2 and by
    32767 from -1/2 on, the MP3 path of [renderMp3] by 32768 below 0 and by
    32767 from 0 on.  Both conversions are monotone (a larger sample never
    gets a smaller integer), saturate at 32767 from 1 on and at -32768 up to
    -1, infinities included, send NaN to 0 and stay within 16 bits; they
    agree except on samples in [-1/2, 0), where the MP3 value is the WAV
    value or one less. *)
Theorem sample_conversions_are_monotone_and_saturate :
  (forall x y, float_le x y ->
               (Utils.sampleToInt x <= Utils.sampleToInt y)%Z
               /\ (Mp3.toInt16 x <= Mp3.toInt16 y)%Z)
  /\ (forall x, float_le (Finite 1) x ->
                Utils.sampleToInt x = 32767%Z /\ Mp3.toInt16 x = 32767%Z)
  /\ (forall x, float_le x (Finite (-1)) ->
                Utils.sampleToInt x = (-32768)%Z /\ Mp3.toInt16 x = (-32768)%Z)
  /\ Utils.sampleToInt NaN = 0%Z /\ Mp3.toInt16 NaN = 0%Z
  /\ (forall x, (-32768 <= Mp3.toInt16 x <= 32767)%Z
                /\ (Utils.sampleToInt x - 1 <= Mp3.toInt16 x <= Utils.sampleToInt x)%Z)
  /\ (forall q, q < -(1 # 2) \/ 0 <= q ->
                Mp3.toInt16 (Finite q) = Utils.sampleToInt (Finite q)).
Proof.
  destruct sampleToInt_infinite as (Wp & Wn & Mp & Mn & Wnan & Mnan).
  assert (Hsat1 : forall q, 1 <= q -> Utils.sampleToInt (Finite q) = 32767%Z
                                     /\ Mp3.toInt16 (Finite q) = 32767%Z).
  { intros q Hq.
    destruct (sampleToInt_Finite q) as (c & _ & Hr & _ & H2 & _ & -> & ->).
    specialize (H2 Hq).
    assert (E1 : Qltb ((1 # 2) + c) 0 = false) by (apply Qltb_ge; lra).
    assert (E2 : Qltb c 0 = false) by (apply Qltb_ge; lra).
    rewrite E1, E2.
    pose proof (Qtruncate_bounds 32767 32767 (c * 32767)) as Hb.
    change (inject_Z 32767) with 32767 in Hb.
    assert (Hb' : (32767 <= Utils.Qtruncate (c * 32767) <= 32767)%Z) by (apply Hb; lra).
    split; lia. }
  assert (Hsat2 : forall q, q <= -1 -> Utils.sampleToInt (Finite q) = (-32768)%Z
                                      /\ Mp3.toInt16 (Finite q) = (-32768)%Z).
  { intros q Hq.
    destruct (sampleToInt_Finite q) as (c & _ & Hr & H1 & _ & _ & -> & ->).
    specialize (H1 Hq).
    assert (E1 : Qltb ((1 # 2) + c) 0 = true) by (apply Qltb_lt; lra).
    assert (E2 : Qltb c 0 = true) by (apply Qltb_lt; lra).
    rewrite E1, E2.
    pose proof (Qtruncate_bounds (-32768) (-32768) (c * 32768)) as Hb.
    change (inject_Z (-32768)) with (-(32768)) in Hb.
    assert (Hb' : (-32768 <= Utils.Qtruncate (c * 32768) <= -32768)%Z) by (apply Hb; lra).
    split; lia. }
  assert (Hmono : forall p q, p <= q ->
            (Utils.sampleToInt (Finite p) <= Utils.sampleToInt (Finite q))%Z
            /\ (Mp3.toInt16 (Finite p) <= Mp3.toInt16 (Finite q))%Z).
  { intros p q Hpq.
    destruct (sampleToInt_Finite p) as (c & _ & Hr & H1 & H2 & H3 & -> & ->).
    destruct (sampleToInt_Finite q) as (c' & _ & Hr' & H1' & H2' & H3' & -> & ->).
    assert (Hcc : c <= c').
    { destruct (Qlt_le_dec p (-1)) as [Hp | Hp]; [specialize (H1 (Qlt_le_weak _ _ Hp)); lra |].
      destruct (Qlt_le_dec 1 p) as [Hp' | Hp'].
      - specialize (H2 (Qlt_le_weak _ _ Hp')).
        assert (Hq : 1 <= q) by lra. specialize (H2' Hq). lra.
      - specialize (H3 (conj Hp Hp')).
        destruct (Qlt_le_dec 1 q) as [Hq | Hq];
          [specialize (H2' (Qlt_le_weak _ _ Hq)); lra |].
        assert (Hq' : -1 <= q <= 1) by lra. specialize (H3' Hq'). lra. }
    split; apply Qtruncate_le.
    - destruct (Qltb ((1 # 2) + c) 0) eqn:E; [apply Qltb_lt in E | apply Qltb_ge in E];
        (destruct (Qltb ((1 # 2) + c') 0) eqn:E';
         [apply Qltb_lt in E' | apply Qltb_ge in E']); lra.
    - destruct (Qltb c 0) eqn:E; [apply Qltb_lt in E | apply Qltb_ge in E];
        (destruct (Qltb c' 0) eqn:E'; [apply Qltb_lt in E' | apply Qltb_ge in E']); lra. }
  assert (Hclose : forall x,
            (Utils.sampleToInt x - 1 <= Mp3.toInt16 x <= Utils.sampleToInt x)%Z).
  { intros [| | | q]; rewrite ?Wp, ?Wn, ?Mp, ?Mn, ?Wnan, ?Mnan; try lia.
    destruct (sampleToInt_Finite q) as (c & _ & Hr & _ & _ & _ & -> & ->).
    destruct (Qltb ((1 # 2) + c) 0) eqn:E; [apply Qltb_lt in E | apply Qltb_ge in E];
      (destruct (Qltb c 0) eqn:E'; [apply Qltb_lt in E' | apply Qltb_ge in E']);
      try lia; try lra.
    apply Qtruncate_close; lra. }
  split.
  { intros [| | | p] [| | | q] H; simpl in H; try contradiction;
      rewrite ?Wp, ?Wn, ?Mp, ?Mn; try (split; lia).
    - pose proof (sampleToInt_range (Finite q)). pose proof (toInt16_range (Finite q)). lia.
    - pose proof (sampleToInt_range (Finite p)). pose proof (toInt16_range (Finite p)). lia.
    - now apply Hmono. }
  split.
  { intros [| | | q] H; simpl in H; try contradiction; [tauto | now apply Hsat1]. }
  split.
  { intros [| | | q] H; simpl in H; try contradiction; [tauto | now apply Hsat2]. }
  split; [exact Wnan |]. split; [exact Mnan |].
  split; [intros x; split; [apply toInt16_range | apply Hclose] |].
  intros q Hq.
  destruct (sampleToInt_Finite q) as (c & _ & Hr & H1 & H2 & H3 & -> & ->).
  assert (Hc : c < -(1 # 2) \/ 0 <= c).
  { destruct (Qlt_le_dec q (-1)) as [Hp | Hp]; [specialize (H1 (Qlt_le_weak _ _ Hp)); lra |].
    destruct (Qlt_le_dec 1 q) as [Hp' | Hp']; [specialize (H2 (Qlt_le_weak _ _ Hp')); lra |].
    specialize (H3 (conj Hp Hp')). destruct Hq; [left | right]; lra. }
  destruct Hc as [Hc | Hc].
  - assert (E1 : Qltb ((1 # 2) + c) 0 = true) by (apply Qltb_lt; lra).
    assert (E2 : Qltb c 0 = true) by (apply Qltb_lt; lra).
    now rewrite E1, E2.
  - assert (E1 : Qltb ((1 # 2) + c) 0 = false) by (apply Qltb_ge; lra).
    assert (E2 : Qltb c 0 = false) by (apply Qltb_ge; lra).
    now rewrite E1, E2.
Qed.

(** The samples -1/4 and 1/2: the WAV value of -1/4 is -8191, the MP3 value
    -8192; both are below the values of 1/2. *)
Lemma sample_conversions_witness :
  float_le (Finite (-1 # 4)) (Finite (1 # 2))
  /\ (Utils.sampleToInt (Finite (-1 # 4)) <= Utils.sampleToInt (Finite (1 # 2)))%Z
  /\ Utils.sampleToInt (Finite (-1 # 4)) = (-8191)%Z
  /\ Mp3.toInt16 (Finite (-1 # 4)) = (-8192)%Z.
Proof.
  assert (H : float_le (Finite (-1 # 4)) (Finite (1 # 2))) by (simpl; lra).
  split; [exact H |]. split.
  - exact (proj1 (proj1 sample_conversions_are_monotone_and_saturate _ _ H)).
  - split; reflexivity.
Defined.

(** ** renderMp3 *)

Lemma convert_lookup (channel : nat -> float) (length i : nat) :
  (i < length)%nat -> Mp3.convert channel length !! i = Some (Mp3.toInt16 (channel i)).
Proof.
  intros Hi. unfold Mp3.convert.
  change (map ?f ?l) with (f <$> l). rewrite list_lookup_fmap.
  now rewrite lookup_seq_lt by exact Hi.
Qed.

(** X14: [renderMp3] renders offline and, when the lamejs library is
    loaded, hands the encoder two arrays of 16-bit integers as long as the
    rendered buffer: element [i] of the left array is the converted sample
    of frame [i] of channel 0, from frame 0 on (unlike [bufferToWav], no
    frame is left out), and the right array is made from channel 1, or from
    channel 0 again for a mono buffer.  The file is the encoder's output
    followed by what its [flush] returns, typed "audio/mp3": leaving out
    empty chunks loses no byte.  Without lamejs the method falls back to
    [bufferToWav] and the file is typed "audio/wav".  An exception of the
    offline render is passed on. *)
Theorem Mp3_renderMp3_encodes_every_frame (P : Platform) (now : Q)
    (e : Utils.AudioEngine) (clips : list Utils.AudioClip) (tracks : list Utils.Track)
    (d : Q) :
  (forall lamejs err,
      Utils.renderOffline P now e clips tracks d = Throw err ->
      Mp3.renderMp3 lamejs P now e clips tracks d = Throw err)
  /\ (forall audioBuffer,
      Utils.renderOffline P now e clips tracks d = Normal audioBuffer ->
      exists bytes,
        Utils.bufferToWav audioBuffer = Normal bytes
        /\ Mp3.renderMp3 None P now e clips tracks d
           = Normal {| Mp3.blob_bytes := bytes; Mp3.blob_type := "audio/wav" |})
  /\ (forall lame audioBuffer,
      Utils.renderOffline P now e clips tracks d = Normal audioBuffer ->
      (0 < AudioBuffer.numberOfChannels audioBuffer)%nat ->
      let ch := AudioBuffer.numberOfChannels audioBuffer in
      let r := AudioBuffer.sampleRate audioBuffer in
      let n := N.to_nat (AudioBuffer.length audioBuffer) in
      exists left right,
        Mp3.renderMp3 (Some lame) P now e clips tracks d
        = Normal {| Mp3.blob_bytes := Mp3.encodeBuffer lame ch r 128 left right
                                      ++ Mp3.flush lame ch r 128 left right;
                    Mp3.blob_type := "audio/mp3" |}
        /\ List.length left = n /\ List.length right = n
        /\ (forall i, (i < n)%nat ->
              left !! i = Some (Mp3.toInt16 (AudioBuffer.getChannelData audioBuffer 0 i))
              /\ right !! i
                 = Some (Mp3.toInt16
                           (AudioBuffer.getChannelData audioBuffer
                              (if (ch =? 1)%nat then 0 else 1) i)))
        /\ (ch = 1%nat -> right = left)).
Proof.
  split; [| split].
  - intros lamejs err H. unfold Mp3.renderMp3. now rewrite H.
  - intros audioBuffer H. unfold Mp3.renderMp3. rewrite H.
    pose proof (bufferToWav_eq audioBuffer) as E. cbv zeta in E.
    eexists. split; [exact E |]. now rewrite E.
  - intros lame audioBuffer H Hch ch r n.
    unfold Mp3.renderMp3. rewrite H. fold ch r n.
    assert (E0 : (ch =? 0)%nat = false) by (apply Nat.eqb_neq; subst ch; lia).
    rewrite E0.
    set (left := Mp3.convert (AudioBuffer.getChannelData audioBuffer 0) n).
    set (right := Mp3.convert (if (1 <? ch)%nat
                               then AudioBuffer.getChannelData audioBuffer 1
                               else AudioBuffer.getChannelData audioBuffer 0) n).
    exists left, right.
    split.
    { f_equal. f_equal.
      destruct (Mp3.encodeBuffer lame ch r 128 left right) as [| b bs];
        destruct (Mp3.flush lame ch r 128 left right) as [| f fs]; simpl;
        now rewrite ?app_nil_r. }
    split; [subst left; unfold Mp3.convert; now rewrite length_map, length_seq |].
    split; [subst right; unfold Mp3.convert; now rewrite length_map, length_seq |].
    split.
    + intros i Hi. split; [now apply convert_lookup |].
      subst right. rewrite convert_lookup by exact Hi.
      destruct (Nat.ltb_spec 1 ch) as [H1 | H1].
      * assert (E1 : (ch =? 1)%nat = false) by (apply Nat.eqb_neq; lia). now rewrite E1.
      * assert (E1 : (ch =? 1)%nat = true) by (apply Nat.eqb_eq; subst ch; lia).
        now rewrite E1.
    + intros H1. subst right left. now rewrite H1.
Qed.

(** On [webAudio], whose render of [clip_at_1] over four seconds has two
    channels: with no encoder loaded the file is a WAV file. *)
Lemma Mp3_renderMp3_witness :
  exists audioBuffer,
    Utils.renderOffline webAudio 0 Utils.new [clip_at_1] [track1] 4 = Normal audioBuffer
    /\ (0 < AudioBuffer.numberOfChannels audioBuffer)%nat
    /\ exists bytes,
         Mp3.renderMp3 None webAudio 0 Utils.new [clip_at_1] [track1] 4
         = Normal {| Mp3.blob_bytes := bytes; Mp3.blob_type := "audio/wav" |}.
Proof.
  eexists. split; [reflexivity |]. split; [simpl; lia |].
  destruct (proj1 (proj2 (Mp3_renderMp3_encodes_every_frame webAudio 0 Utils.new
                            [clip_at_1] [track1] 4)) _ eq_refl) as (bytes & _ & Hb).
  exists bytes. exact Hb.
Defined.

(** ** serializeBuffers *)

Lemma uniqueIds_spec (ids : list string) :
  List.NoDup (Assets.uniqueIds ids)
  /\ forall id, List.In id (Assets.uniqueIds ids) <-> List.In id ids.
Proof.
  unfold Assets.uniqueIds.
  assert (G : forall acc, List.NoDup acc ->
            List.NoDup (foldl (fun acc id => if existsb (String.eqb id) acc
                                             then acc else acc ++ [id]) acc ids)
            /\ forall id, List.In id (foldl (fun acc id => if existsb (String.eqb id) acc
                                                          then acc else acc ++ [id]) acc ids)
                          <-> List.In id acc \/ List.In id ids).
  { induction ids as [| x ids IH]; intros acc Hnd; simpl; [split; [exact Hnd | tauto] |].
    destruct (existsb (String.eqb x) acc) eqn:E.
    - destruct (IH acc Hnd) as [H1 H2]. split; [exact H1 |].
      intros id. rewrite H2. apply existsb_exists in E as (y & Hy & Heq).
      apply String.eqb_eq in Heq. subst y. split; [tauto |].
      intros [H | [<- | H]]; tauto.
    - assert (Hx : ~ List.In x acc).
      { intros Hin. assert (Et : existsb (String.eqb x) acc = true).
        { apply existsb_exists. exists x. split; [exact Hin | apply String.eqb_refl]. }
        congruence. }
      assert (Hnd' : List.NoDup (acc ++ [x])).
      { apply NoDup_ListNoDup. apply NoDup_app. split; [now apply NoDup_ListNoDup |].
        split; [| apply NoDup_singleton].
        intros y Hy Hy'. apply list_elem_of_In in Hy.
        apply list_elem_of_singleton in Hy'. now subst y. }
      destruct (IH (acc ++ [x]) Hnd') as [H1 H2]. split; [exact H1 |].
      intros id. rewrite H2, in_app_iff. simpl. tauto. }
  destruct (G [] (List.NoDup_nil _)) as [H1 H2]. split; [exact H1 |].
  intros id. rewrite H2. simpl. tauto.
Qed.


Lemma Assets_property_app (k : string) (o1 o2 : Assets.object) :
  Assets.property k (o1 ++ o2)
  = match Assets.property k o1 with
    | Some v => Some v
    | None => Assets.property k o2
    end.
Proof.
  unfold Assets.property. induction o1 as [| [k' v'] o1 IH]; simpl; [reflexivity |].
  destruct (String.eqb k' k); [reflexivity | exact IH].
Qed.

Lemma Assets_serializeBuffers_eq (toWav : AudioBuffer.t -> list Z)
    (toB64 : list Z -> string) (ids : list string) (e : Services.AudioEngine) :
  Assets.serializeBuffers toWav toB64 ids e
  = flat_map (Assets_entry toWav toB64 e) (Assets.uniqueIds ids).
Proof.
  unfold Assets.serializeBuffers.
  destruct (uniqueIds_spec ids) as [Hnd _].
  generalize dependent (Assets.uniqueIds ids). intros l Hnd.
  assert (G : forall acc,
            (forall id, List.In id l -> ~ List.In id (map fst acc)) ->
            foldl (fun assets id =>
                     match Services.bufferMap e !! id with
                     | Some buffer => Assets.assign id (toB64 (toWav buffer)) assets
                     | None => assets
                     end) acc l
            = acc ++ flat_map (Assets_entry toWav toB64 e) l).
  { induction l as [| x l IH]; intros acc Hfresh; simpl; [now rewrite app_nil_r |].
    apply List.NoDup_cons_iff in Hnd as [Hx Hnd].
    unfold Assets_entry at 1.
    destruct (Services.bufferMap e !! x) as [buffer |].
    - unfold Assets.assign. destruct (String.eqb x "__proto__") eqn:Ep.
      + simpl. apply IH; [exact Hnd |]. intros id Hid. apply Hfresh. now right.
      + assert (Ea : existsb (fun kv => String.eqb (fst kv) x) acc = false).
        { destruct (existsb (fun kv => String.eqb (fst kv) x) acc) eqn:E; [| reflexivity].
          exfalso. apply existsb_exists in E as ([k v] & Hin & Heq). simpl in Heq.
          apply String.eqb_eq in Heq. subst k.
          apply (Hfresh x); [now left |]. apply in_map_iff. exists (x, v). tauto. }
        rewrite Ea, IH; [now rewrite <- app_assoc | exact Hnd |].
        intros id Hid. rewrite map_app, in_app_iff. simpl.
        intros [H | [<- | []]]; [| contradiction].
        apply (Hfresh id); [now right | exact H].
    - simpl. apply IH; [exact Hnd |]. intros id Hid. apply Hfresh. now right. }
  apply (G []). intros id _ [].
Qed.

Lemma Assets_entry_cases (toWav : AudioBuffer.t -> list Z) (toB64 : list Z -> string)
    (e : Services.AudioEngine) (x : string) :
  Assets_entry toWav toB64 e x
  = match Services.bufferMap e !! x with
    | Some b => if String.eqb x "__proto__" then [] else [(x, toB64 (toWav b))]
    | None => []
    end.
Proof. reflexivity. Qed.

Lemma Assets_entries_property (toWav : AudioBuffer.t -> list Z)
    (toB64 : list Z -> string) (e : Services.AudioEngine) (l : list string) (id : string) :
  Assets.property id (flat_map (Assets_entry toWav toB64 e) l)
  = if existsb (String.eqb id) l && negb (String.eqb id "__proto__")
    then (fun b => toB64 (toWav b)) <$> Services.bufferMap e !! id
    else None.
Proof.
  induction l as [| x l IH]; [reflexivity |].
  cbn [flat_map existsb]. rewrite Assets_property_app, IH.
  rewrite Assets_entry_cases.
  destruct (String.eqb id x) eqn:E.
  - apply String.eqb_eq in E. subst x. cbn [orb].
    destruct (Services.bufferMap e !! id) as [b |] eqn:Eb;
      destruct (String.eqb id "__proto__") eqn:Ep; cbn [negb andb fmap option_fmap option_map].
    + rewrite andb_false_r. reflexivity.
    + unfold Assets.property at 1. simpl. now rewrite String.eqb_refl.
    + rewrite andb_false_r. reflexivity.
    + rewrite andb_true_r. now destruct (existsb (String.eqb id) l).
  - cbn [orb]. destruct (Services.bufferMap e !! x) as [b |]; [| reflexivity].
    destruct (String.eqb x "__proto__"); [reflexivity |].
    unfold Assets.property at 1. simpl.
    rewrite String.eqb_sym, E. reflexivity.
Qed.

(** The assets of [serializeBuffers] as pairs: their keys are distinct, a
    listed id with a buffer has its pair, unless it is [__proto__], and
    every pair comes from a buffer of the store. *)
Lemma Assets_serializeBuffers_saves_parts (toWav : AudioBuffer.t -> list Z)
    (toB64 : list Z -> string) (ids : list string) (e : Services.AudioEngine) :
  let assets := Assets.serializeBuffers toWav toB64 ids e in
  List.NoDup (map fst assets)
  /\ (forall id b, In id ids -> id <> "__proto__" ->
                   Services.bufferMap e !! id = Some b ->
                   In (id, toB64 (toWav b)) assets)
  /\ (forall id s, In (id, s) assets ->
                   id <> "__proto__" /\ In id ids
                   /\ exists b, Services.bufferMap e !! id = Some b
                                /\ s = toB64 (toWav b)).
Proof.
  cbv zeta. rewrite Assets_serializeBuffers_eq.
  destruct (uniqueIds_spec ids) as [Hnd Hin].
  assert (Hkeys : forall l,
            map fst (flat_map (Assets_entry toWav toB64 e) l)
            = List.filter (fun id => bool_decide (is_Some (Services.bufferMap e !! id))
                                     && negb (String.eqb id "__proto__")) l).
  { induction l as [| x l IH]; [reflexivity |].
    cbn [flat_map List.filter]. rewrite map_app, IH, Assets_entry_cases.
    destruct (Services.bufferMap e !! x) as [b |] eqn:Eb; case_bool_decide as Hd;
      try reflexivity.
    - now destruct (String.eqb x "__proto__").
    - exfalso. apply Hd. eauto.
    - exfalso. destruct Hd as [b Hb]. discriminate Hb. }
  split; [rewrite Hkeys; now apply List.NoDup_filter |].
  split.
  - intros id b Hid Hp Hb. apply in_flat_map. exists id.
    split; [now apply Hin |]. rewrite Assets_entry_cases, Hb.
    apply String.eqb_neq in Hp. rewrite Hp. now left.
  - intros id s H. apply in_flat_map in H as (x & Hx & Hx').
    rewrite Assets_entry_cases in Hx'.
    destruct (Services.bufferMap e !! x) as [b |] eqn:Eb; [| destruct Hx'].
    destruct (String.eqb x "__proto__") eqn:Ep; [destruct Hx' |].
    destruct Hx' as [Hx' | []]. injection Hx' as <- <-.
    apply String.eqb_neq in Ep. split; [exact Ep |]. split; [now apply Hin | eauto].
Qed.

(** X15: [serializeBuffers] makes one asset for every id of the
    list that has a buffer in the sample store, however often the id
    occurs: the Base64 text of the buffer's WAV bytes.  An id without a
    buffer gets no asset and raises nothing, and an id that is not in the
    list has no asset.  The id [__proto__] never gets one: on the object
    literal that collects the assets, assigning a string to that key
    creates no property. *)
Theorem Assets_serializeBuffers_saves_the_present_buffers
    (audioBufferToWav : AudioBuffer.t -> list Z) (arrayBufferToBase64 : list Z -> string)
    (ids : list string) (e : Services.AudioEngine) :
  let assets := Assets.serializeBuffers audioBufferToWav arrayBufferToBase64 ids e in
  List.NoDup (map fst assets)
  /\ (forall id,
        Assets.property id assets
        = if existsb (String.eqb id) ids && negb (String.eqb id "__proto__")
          then (fun b => arrayBufferToBase64 (audioBufferToWav b))
                 <$> Services.bufferMap e !! id
          else None)
  /\ (forall id,
        In id (map fst assets)
        <-> In id ids /\ is_Some (Services.bufferMap e !! id) /\ id <> "__proto__").
Proof.
  cbv zeta.
  pose proof (Assets_serializeBuffers_saves_parts audioBufferToWav arrayBufferToBase64
                ids e) as (Hnd & Hprop & Hval).
  split; [exact Hnd |].
  split.
  - intros id. rewrite Assets_serializeBuffers_eq, Assets_entries_property.
    destruct (uniqueIds_spec ids) as [_ Hin].
    assert (E : existsb (String.eqb id) (Assets.uniqueIds ids)
                = existsb (String.eqb id) ids).
    { apply eq_true_iff_eq. rewrite !existsb_exists.
      split; intros (y & Hy & Heq); exists y; (split; [now apply Hin | exact Heq]). }
    now rewrite E.
  - intros id. split.
    + intros H. apply in_map_iff in H as ([id' s] & <- & Hin).
      destruct (Hval _ _ Hin) as (Hp & Hid & b & Hb & _). cbn [fst].
      split; [exact Hid |]. split; [eauto | exact Hp].
    + intros (Hid & [b Hb] & Hp). apply in_map_iff.
      exists (id, arrayBufferToBase64 (audioBufferToWav b)). split; [reflexivity |].
      now apply Hprop.
Qed.

(** ** App: undo and redo *)

Lemma Services_update_loop_same_sound (now : Q) (ts : list Services.Track)
    (e : Services.AudioEngine) :
  fst (forEach (Services.updateTrackParams now) ts e) = Normal tt
  /\ Services_same_sound e (snd (forEach (Services.updateTrackParams now) ts e)).
Proof.
  apply (forEach_invariant (fun e' => Services_same_sound e e')).
  - intros t e' (H1 & H2 & H3 & H4 & H5 & H6).
    destruct (Services_updateTrackParams_frame now t e') as (F0 & F1 & F2 & F3 & F4 & F5 & F6).
    split; [exact F0 |]. unfold Services_same_sound.
    rewrite F1, F2, F3, F4, F5. repeat split; try assumption.
    + intros H. apply F6. now apply H6.
    + intros H. apply H6. now apply F6.
  - unfold Services_same_sound. tauto.
Qed.

Lemma App_handleUndo_eq (now : Q) (a : App.State) :
  App.handleUndo now a
  = match last (App.history a) with
    | None => (Normal tt, a)
    | Some previous =>
      (Normal tt,
       {| App.tracks := App.snap_tracks previous;
          App.clips := App.snap_clips previous;
          App.isPlaying := App.isPlaying a;
          App.currentTime := App.currentTime a;
          App.zoom := App.zoom a;
          App.selectedClipId := App.selectedClipId a;
          App.snapToGrid := App.snapToGrid a;
          App.history := removelast (App.history a);
          App.future := App.snapshot a :: App.future a;
          App.startTimeRef := App.startTimeRef a;
          App.offsetTimeRef := App.offsetTimeRef a;
          App.audioEngine :=
            snd (forEach (Services.updateTrackParams now) (App.snap_tracks previous)
                   (App.audioEngine a)) |})
    end.
Proof.
  unfold App.handleUndo. rewrite bind_get.
  destruct (last (App.history a)) as [previous |]; [| reflexivity].
  unfold bind, modify, App.onEngine. simpl.
  now rewrite (proj1 (Services_update_loop_same_sound now _ _)).
Qed.

Lemma App_handleRedo_eq (now : Q) (a : App.State) :
  App.handleRedo now a
  = match App.future a with
    | [] => (Normal tt, a)
    | next :: rest =>
      (Normal tt,
       {| App.tracks := App.snap_tracks next;
          App.clips := App.snap_clips next;
          App.isPlaying := App.isPlaying a;
          App.currentTime := App.currentTime a;
          App.zoom := App.zoom a;
          App.selectedClipId := App.selectedClipId a;
          App.snapToGrid := App.snapToGrid a;
          App.history := App.history a ++ [App.snapshot a];
          App.future := rest;
          App.startTimeRef := App.startTimeRef a;
          App.offsetTimeRef := App.offsetTimeRef a;
          App.audioEngine :=
            snd (forEach (Services.updateTrackParams now) (App.snap_tracks next)
                   (App.audioEngine a)) |})
    end.
Proof.
  unfold App.handleRedo. rewrite bind_get.
  destruct (App.future a) as [| next rest]; [reflexivity |].
  unfold bind, modify, App.onEngine. simpl.
  now rewrite (proj1 (Services_update_loop_same_sound now _ _)).
Qed.

Lemma snapshot_eta (p : App.Snapshot) :
  {| App.snap_tracks := App.snap_tracks p; App.snap_clips := App.snap_clips p |} = p.
Proof. now destruct p. Qed.

Lemma Services_same_sound_trans (e1 e2 e3 : Services.AudioEngine) :
  Services_same_sound e1 e2 -> Services_same_sound e2 e3 -> Services_same_sound e1 e3.
Proof.
  intros (A1 & A2 & A3 & A4 & A5 & A6) (B1 & B2 & B3 & B4 & B5 & B6).
  unfold Services_same_sound. repeat split; try congruence.
  - intros H. apply B6. now apply A6.
  - intros H. apply A6. now apply B6.
Qed.

(** X16: [handleUndo] followed by [handleRedo] gives back the
    tracks, the clips and both stacks as they were, and so does [handleRedo]
    followed by [handleUndo]; the other state variables and the refs are not
    touched, and in the engine only the parameters of existing chains are
    driven again: no buffer, source or request changes.  On an empty undo
    stack [handleUndo] does nothing at all, and so does [handleRedo] on an
    empty redo stack. *)
Theorem App_undo_and_redo_are_inverse (now1 now2 : Q) (a : App.State) :
  (App.history a <> [] ->
   let a2 := state_after (App.handleRedo now2) (state_after (App.handleUndo now1) a) in
   fst (App.handleUndo now1 a) = Normal tt
   /\ fst (App.handleRedo now2 (state_after (App.handleUndo now1) a)) = Normal tt
   /\ App_same_view a2 a
   /\ Services_same_sound (App.audioEngine a) (App.audioEngine a2))
  /\ (App.future a <> [] ->
      let a2 := state_after (App.handleUndo now2) (state_after (App.handleRedo now1) a) in
      fst (App.handleRedo now1 a) = Normal tt
      /\ fst (App.handleUndo now2 (state_after (App.handleRedo now1) a)) = Normal tt
      /\ App_same_view a2 a
      /\ Services_same_sound (App.audioEngine a) (App.audioEngine a2))
  /\ (App.history a = [] -> App.handleUndo now1 a = (Normal tt, a))
  /\ (App.future a = [] -> App.handleRedo now1 a = (Normal tt, a)).
Proof.
  split; [| split; [| split]].
  - intros Hh. cbv zeta. unfold state_after.
    destruct (exists_last Hh) as (h & p & Eh).
    rewrite (App_handleUndo_eq now1 a), Eh, last_snoc, removelast_last.
    rewrite App_handleRedo_eq. simpl.
    split; [reflexivity |]. split; [reflexivity |]. split.
    + unfold App_same_view, App.snapshot. simpl. rewrite snapshot_eta, Eh.
      destruct a; simpl. repeat split; reflexivity.
    + eapply Services_same_sound_trans; apply Services_update_loop_same_sound.
  - intros Hf. cbv zeta. unfold state_after.
    destruct (App.future a) as [| next rest] eqn:Ef; [contradiction |].
    rewrite (App_handleRedo_eq now1 a), Ef.
    rewrite App_handleUndo_eq. simpl. rewrite last_snoc, removelast_last.
    split; [reflexivity |]. split; [reflexivity |]. split.
    + unfold App_same_view, App.snapshot. simpl. rewrite snapshot_eta.
      destruct a; simpl in *. subst. repeat split; reflexivity.
    + eapply Services_same_sound_trans; apply Services_update_loop_same_sound.
  - intros Hh. rewrite App_handleUndo_eq, Hh. reflexivity.
  - intros Hf. rewrite App_handleRedo_eq, Hf. reflexivity.
Qed.

(** A project with a track added: undo, then redo. *)
Lemma App_undo_and_redo_witness :
  let a := state_after (App.addTrack false "t2" 0) App_sample in
  App.history a <> []
  /\ App_same_view
       (state_after (App.handleRedo 2) (state_after (App.handleUndo 1) a)) a.
Proof.
  intros a.
  assert (H : App.history a <> []) by discriminate.
  split; [exact H |].
  exact (proj1 (proj2 (proj2 (proj1 (App_undo_and_redo_are_inverse 1 2 a) H)))).
Defined.

(** ** App: the edits that can be undone *)

(** What [handleUndo] gives back after an edit that pushed the state [a]
    onto the undo stack. *)
Lemma App_undo_after_push (now : Q) (a a1 : App.State) :
  App.history a1 = App.history a ++ [App.snapshot a] ->
  let a2 := state_after (App.handleUndo now) a1 in
  fst (App.handleUndo now a1) = Normal tt
  /\ App.tracks a2 = App.tracks a /\ App.clips a2 = App.clips a
  /\ App.history a2 = App.history a
  /\ App.future a2 = App.snapshot a1 :: App.future a1.
Proof.
  intros Hh. cbv zeta. unfold state_after.
  rewrite App_handleUndo_eq, Hh, last_snoc, removelast_last. simpl. tauto.
Qed.

Lemma App_splitClip_eq (newId : string) (a : App.State) (clip : Services.AudioClip) :
  App_splits a clip ->
  let splitPoint := App.currentTime a -! Services.clip_startTime clip in
  let secondHalf :=
    {| Services.clip_id := newId;
       Services.clip_bufferId := Services.clip_bufferId clip;
       Services.clip_startTime := App.currentTime a;
       Services.clip_offset := Services.clip_offset clip +! splitPoint;
       Services.clip_duration := Services.clip_duration clip -! splitPoint;
       Services.clip_trackId := Services.clip_trackId clip |} in
  App.splitClip newId a
  = (Normal tt,
     {| App.tracks := App.tracks a;
        App.clips :=
          map (fun c => if String.eqb (Services.clip_id c) (Services.clip_id clip)
                        then App.with_duration splitPoint clip else c) (App.clips a)
          ++ [secondHalf];
        App.isPlaying := App.isPlaying a; App.currentTime := App.currentTime a;
        App.zoom := App.zoom a; App.selectedClipId := None;
        App.snapToGrid := App.snapToGrid a;
        App.history := App.history a ++ [App.snapshot a]; App.future := [];
        App.startTimeRef := App.startTimeRef a;
        App.offsetTimeRef := App.offsetTimeRef a;
        App.audioEngine := App.audioEngine a |}).
Proof.
  intros (sel & Hsel & Hfind & H1 & H2). cbv zeta.
  unfold App.splitClip. rewrite bind_get, Hsel, Hfind.
  apply Qltb_lt in H1, H2. rewrite H1, H2. reflexivity.
Qed.

Lemma App_deleteClip_eq (a : App.State) :
  App.deleteClip a
  = match App.selected a with
    | None => (Normal tt, a)
    | Some sel =>
      (Normal tt,
       {| App.tracks := App.tracks a;
          App.clips :=
            List.filter (fun c => negb (String.eqb (Services.clip_id c) sel)) (App.clips a);
          App.isPlaying := App.isPlaying a; App.currentTime := App.currentTime a;
          App.zoom := App.zoom a; App.selectedClipId := None;
          App.snapToGrid := App.snapToGrid a;
          App.history := App.history a ++ [App.snapshot a]; App.future := [];
          App.startTimeRef := App.startTimeRef a;
          App.offsetTimeRef := App.offsetTimeRef a;
          App.audioEngine := App.audioEngine a |})
    end.
Proof.
  unfold App.deleteClip. rewrite bind_get.
  now destruct (App.selected a).
Qed.

Lemma App_addTrack_eq (id : string) (now : Q) (a : App.State) :
  App.addTrack false id now a
  = (Normal tt,
     {| App.tracks := App.tracks a ++ [App.newTrack id]; App.clips := App.clips a;
        App.isPlaying := App.isPlaying a; App.currentTime := App.currentTime a;
        App.zoom := App.zoom a; App.selectedClipId := App.selectedClipId a;
        App.snapToGrid := App.snapToGrid a;
        App.history := App.history a ++ [App.snapshot a]; App.future := [];
        App.startTimeRef := App.startTimeRef a;
        App.offsetTimeRef := App.offsetTimeRef a;
        App.audioEngine :=
          Services.with_trackNodes
            (<[id := Services_liveChain now (App.newTrack id)]>
               (Services.trackNodes (App.audioEngine a)))
            (App.audioEngine a) |}).
Proof.
  unfold App.addTrack. unfold bind, modify, App.pushHistory, App.onEngine. simpl.
  now rewrite Services_setupTrack_eq.
Qed.

(** X17: the three edits that call [pushHistory] are undone by one
    [handleUndo]: after [addTrack], after [deleteClip] with a clip selected
    and after a [splitClip] that applies, [handleUndo] gives back the tracks,
    the clips and the undo stack as they were before the edit, and puts the
    edited state on the redo stack, which the edit had emptied.  (The chain
    that [addTrack] made in the engine stays.)  [handleTrackUpdate] and
    [onClipUpdate] change the tracks or the clips without touching either
    stack. *)
Theorem App_edits_are_undone_by_handleUndo (now : Q) (a : App.State) :
  let undone (a1 : App.State) :=
    App.future a1 = []
    /\ fst (App.handleUndo now a1) = Normal tt
    /\ App.tracks (state_after (App.handleUndo now) a1) = App.tracks a
    /\ App.clips (state_after (App.handleUndo now) a1) = App.clips a
    /\ App.history (state_after (App.handleUndo now) a1) = App.history a
    /\ App.future (state_after (App.handleUndo now) a1) = [App.snapshot a1] in
  (forall id now0,
      fst (App.addTrack false id now0 a) = Normal tt
      /\ undone (state_after (App.addTrack false id now0) a))
  /\ (forall sel, App.selected a = Some sel ->
                  fst (App.deleteClip a) = Normal tt
                  /\ undone (state_after App.deleteClip a))
  /\ (forall newId clip, App_splits a clip ->
                         fst (App.splitClip newId a) = Normal tt
                         /\ undone (state_after (App.splitClip newId) a))
  /\ (forall t now0,
        App.history (state_after (App.handleTrackUpdate t now0) a) = App.history a
        /\ App.future (state_after (App.handleTrackUpdate t now0) a) = App.future a)
  /\ (forall c,
        App.history (state_after (App.onClipUpdate c) a) = App.history a
        /\ App.future (state_after (App.onClipUpdate c) a) = App.future a).
Proof.
  cbv zeta.
  assert (G : forall a1, App.history a1 = App.history a ++ [App.snapshot a] ->
                         App.future a1 = [] ->
            App.future a1 = []
            /\ fst (App.handleUndo now a1) = Normal tt
            /\ App.tracks (state_after (App.handleUndo now) a1) = App.tracks a
            /\ App.clips (state_after (App.handleUndo now) a1) = App.clips a
            /\ App.history (state_after (App.handleUndo now) a1) = App.history a
            /\ App.future (state_after (App.handleUndo now) a1) = [App.snapshot a1]).
  { intros a1 Hh Hf. destruct (App_undo_after_push now a a1 Hh) as (U0 & U1 & U2 & U3 & U4).
    cbv zeta in U1, U2, U3, U4. rewrite Hf in U4. tauto. }
  split; [| split; [| split; [| split]]].
  - intros id now0. unfold state_after. rewrite App_addTrack_eq.
    split; [reflexivity |]. apply G; reflexivity.
  - intros sel Hsel. unfold state_after. rewrite App_deleteClip_eq, Hsel.
    split; [reflexivity |]. apply G; reflexivity.
  - intros newId clip Hs. unfold state_after.
    pose proof (App_splitClip_eq newId a clip Hs) as E. cbv zeta in E. rewrite E.
    split; [reflexivity |]. apply G; reflexivity.
  - intros t now0. unfold state_after, App.handleTrackUpdate, bind, modify, App.onEngine.
    simpl. split; reflexivity.
  - intros c. unfold state_after, App.onClipUpdate, modify. simpl. split; reflexivity.
Qed.

(** In [App_sample] the playhead is inside the selected clip: the split is
    undone by [handleUndo]. *)
Lemma App_edits_are_undone_witness :
  App_splits App_sample clip_on_t1
  /\ App.clips (state_after (App.handleUndo 0)
                  (state_after (App.splitClip "n") App_sample))
     = App.clips App_sample.
Proof.
  assert (H : App_splits App_sample clip_on_t1).
  { exists "a". repeat split; reflexivity. }
  split; [exact H |].
  exact (proj1 (proj2 (proj2 (proj2 (proj2
           (proj1 (proj2 (proj2 (App_edits_are_undone_by_handleUndo 0 App_sample)))
              "n" clip_on_t1 H)))))).
Defined.

(** ** App: splitting a clip *)

Lemma find_eqb_id (sel : string) (cs : list Services.AudioClip) (clip : Services.AudioClip) :
  List.find (fun c => String.eqb (Services.clip_id c) sel) cs = Some clip ->
  In clip cs /\ Services.clip_id clip = sel.
Proof.
  intros H. apply find_some in H. destruct H as [Hin He].
  apply String.eqb_eq in He. now split.
Qed.

(** X18: when a clip is selected and the playhead lies strictly inside
    it (after its start and before [startTime + duration] as JavaScript
    computes it), [splitClip] cuts it there: the selected clip keeps its
    start and its offset and gets the duration [playhead - startTime],
    which is not negative; a new clip with the fresh id is appended that
    starts at the playhead, on the same track and buffer, with the offset
    [offset + (playhead - startTime)] and the duration
    [duration - (playhead - startTime)], every operation rounded as
    JavaScript rounds it.  Every clip with another id is kept, the number
    of clips grows by one and the selection is cleared.  With nothing
    selected (null or the empty string), or the playhead on an edge of the
    selected clip or outside it, [splitClip] changes nothing, the undo
    stack included. *)
Theorem App_splitClip_cuts_at_the_playhead (newId : string) (a : App.State) :
  let a1 := state_after (App.splitClip newId) a in
  (forall clip, App_splits a clip ->
     exists first second,
       App.clips a1
       = map (fun c => if String.eqb (Services.clip_id c) (Services.clip_id clip)
                       then first else c) (App.clips a) ++ [second]
       /\ In first (App.clips a1)
       /\ length (App.clips a1) = S (length (App.clips a))
       /\ App.selectedClipId a1 = None
       /\ Services.clip_id first = Services.clip_id clip
       /\ Services.clip_id second = newId
       /\ Services.clip_trackId first = Services.clip_trackId clip
       /\ Services.clip_trackId second = Services.clip_trackId clip
       /\ Services.clip_bufferId first = Services.clip_bufferId clip
       /\ Services.clip_bufferId second = Services.clip_bufferId clip
       /\ Services.clip_startTime first = Services.clip_startTime clip
       /\ Services.clip_offset first = Services.clip_offset clip
       /\ Services.clip_duration first
          = App.currentTime a -! Services.clip_startTime clip
       /\ Services.clip_startTime second = App.currentTime a
       /\ Services.clip_offset second
          = Services.clip_offset clip +! Services.clip_duration first
       /\ Services.clip_duration second
          = Services.clip_duration clip -! Services.clip_duration first
       /\ 0 <= Services.clip_duration first)
  /\ ((forall clip, ~ App_splits a clip) -> App.splitClip newId a = (Normal tt, a)).
Proof.
  cbv zeta. split.
  - intros clip Hs.
    pose proof (App_splitClip_eq newId a clip Hs) as E. cbv zeta in E.
    unfold state_after. rewrite E. simpl.
    destruct Hs as (sel & Hsel & Hfind & H1 & H2).
    destruct (find_eqb_id _ _ _ Hfind) as [Hin Hid].
    eexists; eexists. split; [reflexivity |].
    split.
    { apply in_or_app. left. apply in_map_iff. exists clip.
      rewrite String.eqb_refl. now split. }
    split. { rewrite length_app, length_map. simpl. lia. }
    simpl. repeat split; try reflexivity.
    apply binary64_nonneg. lra.
  - intros Hno. unfold App.splitClip. rewrite bind_get.
    destruct (App.selected a) as [sel |] eqn:Hsel; [| reflexivity].
    destruct (List.find _ (App.clips a)) as [clip |] eqn:Hfind; [| reflexivity].
    destruct (Qltb (Services.clip_startTime clip) (App.currentTime a)) eqn:H1;
      [| reflexivity].
    destruct (Qltb (App.currentTime a) _) eqn:H2; [| reflexivity].
    exfalso. apply (Hno clip). exists sel.
    apply Qltb_lt in H1, H2. tauto.
Qed.

(** The clip of [App_sample], two seconds long, is cut at half a second. *)
Lemma App_splitClip_witness :
  App_splits App_sample clip_on_t1
  /\ length (App.clips (state_after (App.splitClip "n") App_sample)) = 2%nat.
Proof.
  assert (H : App_splits App_sample clip_on_t1).
  { exists "a". repeat split; reflexivity. }
  split; [exact H |].
  destruct (proj1 (App_splitClip_cuts_at_the_playhead "n" App_sample) clip_on_t1 H)
    as (first & second & _ & _ & Hl & _).
  exact Hl.
Defined.

(** ** App: snapping and the time display *)

(** X19: [onClipUpdate] replaces the stored clips that have the id of
    the clip it is given and never adds or removes one, so a clip with an
    unknown id is dropped silently; the tracks and the undo stack are not
    touched.  With snapping off the clip is stored as given.  With snapping
    on only its start changes: to a whole number of seconds, the nearest
    one (a half is rounded upwards), so the start moves by at most half a
    second and a start that is not negative stays so. *)
Theorem App_onClipUpdate_snaps_to_whole_seconds (c : Services.AudioClip) (a : App.State) :
  let a1 := state_after (App.onClipUpdate c) a in
  exists final,
    fst (App.onClipUpdate c a) = Normal tt
    /\ App.clips a1
       = map (fun c' => if String.eqb (Services.clip_id c') (Services.clip_id c)
                        then final else c') (App.clips a)
    /\ map Services.clip_id (App.clips a1) = map Services.clip_id (App.clips a)
    /\ ((forall c', In c' (App.clips a) -> Services.clip_id c' <> Services.clip_id c) ->
        App.clips a1 = App.clips a)
    /\ App.tracks a1 = App.tracks a /\ App.history a1 = App.history a
    /\ App.future a1 = App.future a /\ App.audioEngine a1 = App.audioEngine a
    /\ final = App.with_startTime (Services.clip_startTime final) c
    /\ (App.snapToGrid a = false -> final = c)
    /\ (App.snapToGrid a = true ->
        (exists z : Z, Services.clip_startTime final == inject_Z z)
        /\ Services.clip_startTime c - (1 # 2) < Services.clip_startTime final
        /\ Services.clip_startTime final <= Services.clip_startTime c + (1 # 2)
        /\ (0 <= Services.clip_startTime c -> 0 <= Services.clip_startTime final)).
Proof.
  cbv zeta.
  set (final := if App.snapToGrid a
                then App.with_startTime
                       (App.Math_round (Services.clip_startTime c / 1) * 1) c
                else c).
  assert (Hid : Services.clip_id final = Services.clip_id c).
  { unfold final. now destruct (App.snapToGrid a). }
  assert (E : state_after (App.onClipUpdate c) a
              = {| App.tracks := App.tracks a;
                   App.clips :=
                     map (fun c' => if String.eqb (Services.clip_id c') (Services.clip_id c)
                                    then final else c') (App.clips a);
                   App.isPlaying := App.isPlaying a; App.currentTime := App.currentTime a;
                   App.zoom := App.zoom a; App.selectedClipId := App.selectedClipId a;
                   App.snapToGrid := App.snapToGrid a;
                   App.history := App.history a; App.future := App.future a;
                   App.startTimeRef := App.startTimeRef a;
                   App.offsetTimeRef := App.offsetTimeRef a;
                   App.audioEngine := App.audioEngine a |}).
  { unfold state_after, App.onClipUpdate, modify. cbn [snd]. cbv zeta.
    fold final. rewrite Hid. reflexivity. }
  exists final. rewrite E. cbn [App.clips App.tracks App.history App.future App.audioEngine].
  split; [reflexivity |]. split; [reflexivity |].
  split.
  { rewrite map_map. apply map_ext_in. intros c' _.
    destruct (String.eqb (Services.clip_id c') (Services.clip_id c)) eqn:Ec; [| reflexivity].
    apply String.eqb_eq in Ec. congruence. }
  split.
  { intros Hno. rewrite <- (map_id (App.clips a)) at 2. apply map_ext_in.
    intros c' Hin.
    destruct (String.eqb (Services.clip_id c') (Services.clip_id c)) eqn:Ec; [| reflexivity].
    apply String.eqb_eq in Ec. now destruct (Hno c' Hin). }
  do 4 (split; [reflexivity |]).
  split.
  { unfold final. destruct (App.snapToGrid a); [reflexivity | now destruct c]. }
  split.
  { intros Hs. unfold final. now rewrite Hs. }
  intros Hs. unfold final. rewrite Hs. cbn [App.with_startTime Services.clip_startTime].
  unfold App.Math_round.
  set (x := Services.clip_startTime c).
  destruct (Qfloor_bounds (x / 1 + (1 # 2))) as [F1 F2].
  assert (Ex : x / 1 == x) by (field).
  split; [| split; [| split]].
  - exists (Qfloor (x / 1 + (1 # 2))). ring.
  - lra.
  - lra.
  - intros H0.
    assert (Z0 : (0 <= Qfloor (x / 1 + (1 # 2)))%Z).
    { assert (A : (0 < Qfloor (x / 1 + (1 # 2)) + 1)%Z).
      { rewrite Zlt_Qlt, inject_Z_plus. change (inject_Z 1) with 1.
        change (inject_Z 0) with 0. lra. }
      lia. }
    rewrite Zle_Qle in Z0. change (inject_Z 0) with 0 in Z0. lra.
Qed.

(** With snapping on, a clip dragged to 2.6 s is stored at a whole second,
    not before 2.1 s. *)
Lemma App_onClipUpdate_witness :
  let a := {| App.tracks := [open_track]; App.clips := [clip_on_t1]; App.isPlaying := false;
              App.currentTime := 0; App.zoom := 50; App.selectedClipId := None;
              App.snapToGrid := true; App.history := []; App.future := [];
              App.startTimeRef := 0; App.offsetTimeRef := 0;
              App.audioEngine := engine_with_b1 |} in
  let c := App.with_startTime (26 # 10) clip_on_t1 in
  exists final,
    App.clips (state_after (App.onClipUpdate c) a) = [final]
    /\ (26 # 10) - (1 # 2) < Services.clip_startTime final.
Proof.
  intros a c.
  destruct (App_onClipUpdate_snaps_to_whole_seconds c a)
    as (final & _ & Hc & _ & _ & _ & _ & _ & _ & _ & _ & Hs).
  exists final. split; [exact Hc |].
  exact (proj1 (proj2 (Hs eq_refl))).
Defined.

Lemma padStart2_two_digits (z : Z) :
  (0 <= z < 100)%Z -> App.padStart2 (App.toString z) = two_digits z.
Proof.
  intros Hz.
  assert (H : forallb (fun n => String.eqb (App.padStart2 (App.toString (Z.of_nat n)))
                                            (two_digits (Z.of_nat n)))
                      (seq 0 100) = true) by (vm_compute; reflexivity).
  rewrite forallb_forall in H.
  specialize (H (Z.to_nat z)).
  rewrite Z2Nat.id in H by lia.
  apply String.eqb_eq, H, in_seq. lia.
Qed.

Lemma Qfloor_div_pos (x : Q) (k : Z) :
  (0 < k)%Z -> Qfloor (x / inject_Z k) = (Qfloor x / k)%Z.
Proof.
  intros Hk. destruct (Qfloor_bounds x) as [F1 F2].
  assert (Kq : 0 < inject_Z k) by (rewrite Zlt_Qlt in Hk; exact Hk).
  pose proof (Z.div_mod (Qfloor x) k ltac:(lia)) as Hdm.
  pose proof (Z.mod_pos_bound (Qfloor x) k Hk) as Hm.
  set (q := (Qfloor x / k)%Z) in *. set (r := (Qfloor x mod k)%Z) in *.
  apply Qfloor_unique.
  - apply Qle_shift_div_l; [exact Kq |].
    apply Qle_trans with (inject_Z (Qfloor x)); [| exact F1].
    rewrite <- inject_Z_mult, <- Zle_Qle. lia.
  - apply Qlt_shift_div_r; [exact Kq |].
    apply Qlt_le_trans with (inject_Z (Qfloor x) + 1); [exact F2 |].
    change 1 with (inject_Z 1).
    rewrite <- !inject_Z_plus, <- inject_Z_mult, <- Zle_Qle. lia.
Qed.

Lemma Qtruncate_nonneg (x : Q) : 0 <= x -> Utils.Qtruncate x = Qfloor x.
Proof.
  intros H. unfold Utils.Qtruncate.
  destruct (Qltb x 0) eqn:E; [| reflexivity].
  apply Qltb_lt in E. lra.
Qed.

Lemma Qfloor_sub_Z (x : Q) (z : Z) : Qfloor (x - inject_Z z) = (Qfloor x - z)%Z.
Proof.
  destruct (Qfloor_bounds x) as [F1 F2].
  apply Qfloor_unique; unfold Z.sub; rewrite inject_Z_plus, inject_Z_opp; lra.
Qed.

Lemma Qfloor_rem_pos (x : Q) (k : Z) :
  (0 < k)%Z -> 0 <= x ->
  Qfloor (App.Qrem x (inject_Z k)) = (Qfloor x mod k)%Z.
Proof.
  intros Hk Hx. unfold App.Qrem.
  assert (Kq : 0 < inject_Z k) by (rewrite Zlt_Qlt in Hk; exact Hk).
  rewrite Qtruncate_nonneg.
  2:{ apply Qle_shift_div_l; [exact Kq | lra]. }
  rewrite Qfloor_div_pos by exact Hk.
  rewrite <- inject_Z_mult, Qfloor_sub_Z.
  rewrite Z.mod_eq by lia. reflexivity.
Qed.

Lemma Qrem_1_fraction (x : Q) : 0 <= x -> App.Qrem x 1 == x - inject_Z (Qfloor x).
Proof.
  intros Hx. unfold App.Qrem.
  assert (E1 : x / 1 == x) by field.
  rewrite Qtruncate_nonneg by lra.
  assert (Ef : Qfloor (x / 1) = Qfloor x) by (now rewrite E1).
  rewrite Ef. ring.
Qed.

Lemma Qfloor_nonneg (x : Q) : 0 <= x -> (0 <= Qfloor x)%Z.
Proof. intros H. rewrite <- (Qfloor_Z 0). now apply Qfloor_resp_le. Qed.

(** X20: for a time that is not negative, [formatTime] writes the
    whole minutes, [floor(time / 60)], a colon, the whole seconds within the
    minute as two digits, a dot and the hundredths,
    [floor((time % 1) * 100)]; the quotient and the product are rounded as
    JavaScript rounds them before they are cut, the remainders are exact.
    The minutes are not negative and are not cut ([padStart] only pads);
    the hundredths lie between 0 and 100.  They are cut from the rounded
    product, not from the time: the binary64 number 0.15 is shown as
    [00:00.15], the product being 15, and 0.29 as [00:00.28], the product
    being below 29. *)
Theorem App_formatTime_shows_minutes_seconds_hundredths (time : Q) :
  0 <= time ->
  let minutes := Qfloor (time /! 60) in
  let seconds := (Qfloor time mod 60)%Z in
  let hundredths := Qfloor ((time - inject_Z (Qfloor time)) *! 100) in
  App.formatTime time
  = App.padStart2 (App.toString minutes) +:+ ":" +:+ two_digits seconds
    +:+ "." +:+ App.padStart2 (App.toString hundredths)
  /\ (0 <= minutes)%Z
  /\ (0 <= hundredths <= 100)%Z
  /\ (hundredths < 100 ->
      App.padStart2 (App.toString hundredths) = two_digits hundredths)%Z.
Proof.
  intros H0. cbv zeta.
  destruct (Qfloor_bounds time) as [F1 F2].
  assert (Hh : Qfloor (App.Qrem time 1 *! 100)
               = Qfloor ((time - inject_Z (Qfloor time)) *! 100)).
  { unfold mul64. f_equal. apply binary64_comp.
    now rewrite (Qrem_1_fraction time H0). }
  assert (Hb : (0 <= Qfloor ((time - inject_Z (Qfloor time)) *! 100) <= 100)%Z).
  { assert (B100 : binary64 100 = 100) by (vm_compute; reflexivity).
    split.
    - apply Qfloor_nonneg. unfold mul64. apply binary64_nonneg. lra.
    - rewrite <- (Qfloor_Z 100). apply Qfloor_resp_le.
      change (inject_Z 100) with 100.
      assert (Hm : (time - inject_Z (Qfloor time)) *! 100 <= binary64 100)
        by (unfold mul64; apply binary64_monotone; lra).
      now rewrite B100 in Hm. }
  split.
  { unfold App.formatTime. cbv zeta. rewrite Hh.
    change 60 with (inject_Z 60) at 2.
    rewrite Qfloor_rem_pos by (lia || exact H0).
    rewrite (padStart2_two_digits (Qfloor time mod 60))
      by (pose proof (Z.mod_pos_bound (Qfloor time) 60); lia).
    reflexivity. }
  split.
  { apply Qfloor_nonneg. unfold div64. apply binary64_nonneg.
    apply Qle_shift_div_l; lra. }
  split; [exact Hb |].
  intros Hlt. apply padStart2_two_digits. lia.
Qed.

(** 75.5 s is shown as 01:15.50, the binary64 number 0.15 as 00:00.15 and
    0.29 as 00:00.28. *)
Lemma App_formatTime_witness :
  0 <= (151 # 2) /\ App.formatTime (151 # 2) = "01:15.50"
  /\ 0 <= binary64 (15 # 100) /\ App.formatTime (binary64 (15 # 100)) = "00:00.15"
  /\ 0 <= binary64 (29 # 100) /\ App.formatTime (binary64 (29 # 100)) = "00:00.28".
Proof.
  assert (H1 : 0 <= (151 # 2)) by (apply Qle_bool_iff; reflexivity).
  assert (H2 : 0 <= binary64 (15 # 100)) by (apply Qle_bool_iff; vm_compute; reflexivity).
  assert (H3 : 0 <= binary64 (29 # 100)) by (apply Qle_bool_iff; vm_compute; reflexivity).
  split; [exact H1 |].
  split; [exact (eq_trans (proj1 (App_formatTime_shows_minutes_seconds_hundredths
                                    (151 # 2) H1)) eq_refl) |].
  split; [exact H2 |].
  split; [exact (eq_trans (proj1 (App_formatTime_shows_minutes_seconds_hundredths
                                    (binary64 (15 # 100)) H2)) eq_refl) |].
  split; [exact H3 |].
  exact (eq_trans (proj1 (App_formatTime_shows_minutes_seconds_hundredths
                            (binary64 (29 # 100)) H3)) eq_refl).
Defined.

(** ** App: the transport *)

Lemma App_play_eq (P : Platform) (now : Q) (a : App.State) :
  let sp := Services.schedulePlayback P now (App.clips a) (App.currentTime a)
              (App.tracks a) (App.audioEngine a) in
  App.play P now a
  = (fst sp,
     {| App.tracks := App.tracks a; App.clips := App.clips a;
        App.isPlaying := match fst sp with
                         | Normal _ => true
                         | Throw _ => App.isPlaying a
                         end;
        App.currentTime := App.currentTime a;
        App.zoom := App.zoom a; App.selectedClipId := App.selectedClipId a;
        App.snapToGrid := App.snapToGrid a;
        App.history := App.history a; App.future := App.future a;
        App.startTimeRef := now; App.offsetTimeRef := App.currentTime a;
        App.audioEngine := snd sp |}).
Proof.
  cbv zeta. unfold App.play. rewrite bind_get.
  unfold bind, modify, App.onEngine. cbn [fst snd App.audioEngine].
  destruct (Services.schedulePlayback P now (App.clips a) (App.currentTime a)
              (App.tracks a) (App.audioEngine a)) as [[[] | err] e']; reflexivity.
Qed.

Lemma Services_clipRequests_Start (P : Platform) (now s : Q)
    (buffers : gmap string AudioBuffer.t) (chains : gmap string TrackChain)
    (n : nat) (c : Services.AudioClip) (k : nat) (w o d : Q) :
  List.In (Start k w o d) (Services_clipRequests P now s buffers chains n c) ->
  spec_voice_unscaled now s c = Some (w, o, d).
Proof.
  unfold Services_clipRequests.
  destruct (buffers !! Services.clip_bufferId c) as [b |]; [| intros []].
  destruct (chains !! Services.clip_trackId c) as [ch |]; [| intros []].
  destruct (spec_voice_unscaled now s c) as [[[w' o'] d'] |]; [| intros []].
  intros [H | H]; [discriminate H |].
  destruct (start_throws P w' o' d'); [destruct H |].
  destruct H as [H | []]. now injection H as <- <- <- <-.
Qed.

(** X21: the playhead that the animation loop displays and the
    sound that [play] schedules are tied to the same instant.  When [play]
    completes at context time [now0], the component is playing and a turn
    of the loop at context time [now] displays the position at which [play]
    was pressed plus [now - now0] (both operations rounded as JavaScript
    rounds them), so the display never goes back as the clock advances.
    Every voice that [play] starts is the voice that the scheduling rule
    gives a clip of the project for that instant and that position: for a
    clip that begins later, a start [startTime - position] after [now0].
    When [schedulePlayback] raises, [play] raises too and the component
    does not go to playing, although the refs have been set and the engine
    keeps what was scheduled before the error. *)
Theorem App_playhead_runs_with_the_voices (P : Platform) (now0 : Q) (a : App.State) :
  let a1 := state_after (App.play P now0) a in
  let shown now := App.currentTime (state_after (App.loop now) a1) in
  (fst (App.play P now0 a) = Normal tt ->
   App.isPlaying a1 = true
   /\ (forall now, shown now = App.currentTime a +! (now -! now0))
   /\ (forall now now', now <= now' -> shown now <= shown now')
   /\ exists added,
       Services.calls (App.audioEngine a1)
       = Services.calls (App.audioEngine a) ++ added
       /\ forall n w o d,
           In (Start n w o d) added ->
           exists c, In c (App.clips a)
                     /\ spec_voice_unscaled now0 (App.currentTime a) c = Some (w, o, d))
  /\ (forall err, fst (App.play P now0 a) = Throw err ->
                  App.isPlaying a1 = App.isPlaying a
                  /\ App.startTimeRef a1 = now0
                  /\ App.offsetTimeRef a1 = App.currentTime a
                  /\ App.audioEngine a1
                     = state_after (Services.schedulePlayback P now0 (App.clips a)
                                      (App.currentTime a) (App.tracks a))
                                   (App.audioEngine a)).
Proof.
  cbv zeta. pose proof (App_play_eq P now0 a) as E. cbv zeta in E.
  unfold state_after. rewrite E. cbn [fst snd].
  split.
  - intros Hn. rewrite Hn.
    cbn [App.isPlaying App.audioEngine].
    split; [reflexivity |].
    assert (Hshown : forall e now,
               App.currentTime
                 (snd (App.loop now
                    {| App.tracks := App.tracks a; App.clips := App.clips a;
                       App.isPlaying := true; App.currentTime := App.currentTime a;
                       App.zoom := App.zoom a; App.selectedClipId := App.selectedClipId a;
                       App.snapToGrid := App.snapToGrid a;
                       App.history := App.history a; App.future := App.future a;
                       App.startTimeRef := now0; App.offsetTimeRef := App.currentTime a;
                       App.audioEngine := e |}))
               = App.currentTime a +! (now -! now0)).
    { intros e now. reflexivity. }
    split; [intros now; apply Hshown |].
    split.
    { intros now now' Hle. rewrite !Hshown. unfold add64.
      apply binary64_monotone.
      assert (H : now -! now0 <= now' -! now0)
        by (unfold sub64; apply binary64_monotone; lra).
      lra. }
    pose proof (Services_schedulePlayback_full P now0 (App.clips a) (App.currentTime a)
                  (App.tracks a) (App.audioEngine a)) as F.
    cbv zeta in F. rewrite F. cbn [snd].
    unfold Services_served. cbn [Services.calls Services.with_trackNodes
      Services.with_activeSources Services.with_calls Services.bufferMap].
    eexists. split; [rewrite <- app_assoc; reflexivity |].
    intros n w o d Hin. apply in_app_or in Hin as [Hin | Hin].
    { apply in_map_iff in Hin as (k & Hk & _). discriminate Hk. }
    apply Services_requests_In in Hin as (c & m & Hc & Hx).
    apply Services_clipRequests_Start in Hx.
    exists c. split; [exact Hc | exact Hx].
  - intros err He. rewrite He. cbn [App.isPlaying App.startTimeRef App.offsetTimeRef
      App.audioEngine]. repeat split; reflexivity.
Qed.

(** [App_sample] played from half a second at context time 10: the voice
    of its clip starts at once, the playhead is half a second into the
    clip. *)
Lemma App_playhead_witness :
  fst (App.play webAudio 10 App_sample) = Normal tt
  /\ App.isPlaying (state_after (App.play webAudio 10) App_sample) = true.
Proof.
  assert (H : fst (App.play webAudio 10 App_sample) = Normal tt)
    by (vm_compute; reflexivity).
  split; [exact H |].
  exact (proj1 (proj1 (App_playhead_runs_with_the_voices webAudio 10 App_sample) H)).
Defined.

(** X22: a click on the ruler while the component is playing moves the
    displayed playhead only until the next turn of the animation loop: the
    refs and the engine are left as they are, nothing is rescheduled, and
    the loop then displays what it would have displayed without the click.
    While the component is not playing the click sets the playhead and both
    refs; a [play] that follows schedules the clips from the time
    clicked. *)
Theorem App_seek_while_playing_is_lost (P : Platform) (t now : Q) (a : App.State) :
  let a1 := state_after (App.onTimelineClick t now) a in
  fst (App.onTimelineClick t now a) = Normal tt
  /\ App.currentTime a1 = t
  /\ App.audioEngine a1 = App.audioEngine a
  /\ App.isPlaying a1 = App.isPlaying a
  /\ (App.isPlaying a = true ->
      forall now', App.loop now' a1 = App.loop now' a)
  /\ (App.isPlaying a = false ->
      (forall now', App.loop now' a1 = (Normal tt, a1))
      /\ forall now1,
          App.audioEngine (state_after (App.play P now1) a1)
          = state_after (Services.schedulePlayback P now1 (App.clips a) t (App.tracks a))
                        (App.audioEngine a)).
Proof.
  cbv zeta. unfold state_after.
  unfold App.onTimelineClick, modify. cbn [fst snd].
  split; [reflexivity |].
  destruct (App.isPlaying a) eqn:Ep; cbn [App.currentTime App.audioEngine App.isPlaying].
  - do 3 (split; [reflexivity |]).
    split; [| discriminate].
    intros _ now'. unfold App.loop. rewrite !bind_get.
    cbn [App.isPlaying]. rewrite Ep. reflexivity.
  - do 3 (split; [reflexivity |]).
    split; [discriminate |]. intros _.
    split.
    + intros now'. unfold App.loop. rewrite bind_get. cbn [App.isPlaying].
      reflexivity.
    + intros now1. rewrite App_play_eq. reflexivity.
Qed.

(** A click at second 1 while playing: the next turn of the loop is not
    affected. *)
Lemma App_seek_witness :
  let a := state_after (App.play webAudio 10) App_sample in
  App.isPlaying a = true
  /\ App.loop 11 (state_after (App.onTimelineClick 1 (21 # 2)) a) = App.loop 11 a.
Proof.
  intros a.
  assert (H : App.isPlaying a = true) by (vm_compute; reflexivity).
  split; [exact H |].
  exact (proj1 (proj2 (proj2 (proj2 (proj2
           (App_seek_while_playing_is_lost webAudio 1 (21 # 2) a)))))
           H 11).
Defined.

(** ** App: saving and loading a project *)

Lemma App_with_engine_id (a : App.State) : App_with_engine (App.audioEngine a) a = a.
Proof. now destruct a. Qed.

(** The asset loop of [handleLoadProject], when every asset decodes. *)
Lemma App_asset_loop_eq (decode : string -> option AudioBuffer.t)
    (entries : list (string * string)) :
  (forall x, In x entries -> is_Some (decode (snd x))) ->
  forall (e : Services.AudioEngine) (a : App.State),
    forEach (fun entry : string * string =>
               match decode (snd entry) with
               | Some audioBuf => App.onEngine (Services.addBuffer (fst entry) audioBuf)
               | None => throw "EncodingError"
               end) entries (App_with_engine e a)
    = (Normal tt,
       App_with_engine
         (Services.with_bufferMap (App_loaded decode entries (Services.bufferMap e)) e) a).
Proof.
  induction entries as [| x entries IH]; intros Hd e a.
  - simpl. unfold ret. do 2 f_equal. now destruct e.
  - cbn [forEach]. unfold bind.
    destruct (Hd x (or_introl eq_refl)) as [b Hb].
    unfold App_loaded. cbn [foldl]. rewrite Hb.
    unfold App.onEngine, Services.addBuffer, modify.
    cbn [fst snd App.audioEngine App_with_engine].
    change (forEach ?f entries ?s) with
      (forEach f entries
         (App_with_engine
            (Services.with_bufferMap (<[x.1 := b]> (Services.bufferMap e)) e) a)).
    rewrite IH by (intros y Hy; apply Hd; now right). reflexivity.
Qed.

(** The asset loop up to an asset that does not decode. *)
Lemma App_asset_loop_fails (decode : string -> option AudioBuffer.t)
    (pre post : list (string * string)) (entry : string * string) :
  (forall x, In x pre -> is_Some (decode (snd x))) ->
  decode (snd entry) = None ->
  forall (e : Services.AudioEngine) (a : App.State),
    forEach (fun entry : string * string =>
               match decode (snd entry) with
               | Some audioBuf => App.onEngine (Services.addBuffer (fst entry) audioBuf)
               | None => throw "EncodingError"
               end) (pre ++ entry :: post) (App_with_engine e a)
    = (Throw "EncodingError",
       App_with_engine
         (Services.with_bufferMap (App_loaded decode pre (Services.bufferMap e)) e) a).
Proof.
  induction pre as [| x pre IH]; intros Hd Hn e a.
  - simpl. unfold bind, throw. rewrite Hn. do 2 f_equal. now destruct e.
  - cbn [forEach app]. unfold bind.
    destruct (Hd x (or_introl eq_refl)) as [b Hb].
    unfold App_loaded. cbn [foldl]. rewrite Hb.
    unfold App.onEngine, Services.addBuffer, modify.
    cbn [fst snd App.audioEngine App_with_engine].
    change (forEach ?f (pre ++ entry :: post) ?s) with
      (forEach f (pre ++ entry :: post)
         (App_with_engine
            (Services.with_bufferMap (<[x.1 := b]> (Services.bufferMap e)) e) a)).
    rewrite IH by (try (intros y Hy; apply Hd; now right); exact Hn). reflexivity.
Qed.

Lemma App_loaded_absent (decode : string -> option AudioBuffer.t)
    (entries : list (string * string)) (id : string) :
  ~ In id (map fst entries) ->
  forall m, App_loaded decode entries m !! id = m !! id.
Proof.
  unfold App_loaded. induction entries as [| x entries IH]; intros Hn m; [reflexivity |].
  cbn [foldl]. rewrite IH by (intros H; apply Hn; now right).
  destruct (decode x.2); [| reflexivity].
  apply lookup_insert_ne. intros E. apply Hn. now left.
Qed.

Lemma App_loaded_present (decode : string -> option AudioBuffer.t)
    (entries : list (string * string)) (id s : string) (b : AudioBuffer.t) :
  List.NoDup (map fst entries) -> In (id, s) entries -> decode s = Some b ->
  forall m, App_loaded decode entries m !! id = Some b.
Proof.
  unfold App_loaded. induction entries as [| x entries IH]; intros Hnd Hin Hb m;
    [destruct Hin |].
  cbn [foldl]. cbn [map] in Hnd. apply List.NoDup_cons_iff in Hnd as [Hx Hnd].
  destruct Hin as [-> | Hin].
  - cbn [fst snd]. rewrite Hb.
    pose proof (App_loaded_absent decode entries id Hx) as A. unfold App_loaded in A.
    rewrite A. apply lookup_insert_eq.
  - now apply IH.
Qed.

Lemma App_handleLoadProject_eq (decode : string -> option AudioBuffer.t)
    (P : Platform) (now : Q) (p : App.SavedProject) (a : App.State) :
  App.sp_version p = 1%Z ->
  (forall x, In x (App.sp_assets p) -> is_Some (decode (snd x))) ->
  App.handleLoadProject decode P now p a
  = (Normal tt,
     {| App.tracks := App.sp_tracks p; App.clips := App.sp_clips p;
        App.isPlaying := App.isPlaying a; App.currentTime := App.currentTime a;
        App.zoom := or_default (App.sp_zoom p) 50;
        App.selectedClipId := App.selectedClipId a;
        App.snapToGrid := App.snapToGrid a;
        App.history := []; App.future := [];
        App.startTimeRef := App.startTimeRef a;
        App.offsetTimeRef := App.offsetTimeRef a;
        App.audioEngine :=
          {| Services.bufferMap :=
               App_loaded decode (App.sp_assets p) (Services.bufferMap (App.audioEngine a));
             Services.activeSources := [];
             Services.trackNodes :=
               Services_liveChains now (App.sp_tracks p)
                 (Services.trackNodes (App.audioEngine a));
             Services.nodes := Services.nodes (App.audioEngine a);
             Services.onended := Services.onended (App.audioEngine a);
             Services.calls :=
               Services.calls (App.audioEngine a)
               ++ map Stop (live P (Services.activeSources (App.audioEngine a))) |} |}).
Proof.
  intros Hv Hd. unfold App.handleLoadProject, try_catch.
  rewrite Hv. cbn [Z.eqb Pos.eqb negb].
  unfold bind at 1.
  rewrite <- (App_with_engine_id a) at 1.
  rewrite (App_asset_loop_eq decode (App.sp_assets p) Hd).
  unfold bind, modify, App.onEngine. cbn [fst snd App.audioEngine App_with_engine].
  rewrite Services_stopAll_eq. cbn [fst snd].
  rewrite Services_setup_loop_eq. reflexivity.
Qed.

Lemma App_handleLoadProject_fails_eq (decode : string -> option AudioBuffer.t)
    (P : Platform) (now : Q) (p : App.SavedProject) (a : App.State)
    (pre post : list (string * string)) (entry : string * string) :
  App.sp_version p = 1%Z ->
  App.sp_assets p = pre ++ entry :: post ->
  (forall x, In x pre -> is_Some (decode (snd x))) ->
  decode (snd entry) = None ->
  App.handleLoadProject decode P now p a
  = (Normal tt,
     App_with_engine
       (Services.with_bufferMap
          (App_loaded decode pre (Services.bufferMap (App.audioEngine a)))
          (App.audioEngine a)) a).
Proof.
  intros Hv Ha Hd Hn. unfold App.handleLoadProject, try_catch.
  rewrite Hv. cbn [Z.eqb Pos.eqb negb].
  unfold bind at 1.
  rewrite <- (App_with_engine_id a) at 1.
  rewrite Ha, (App_asset_loop_fails decode pre post entry Hd Hn).
  reflexivity.
Qed.

(** X23: a saved project loads back.  Suppose that decoding the
    Base64 text of a buffer's WAV bytes succeeds and gives the buffer
    [dec b], and that the project of [handleSaveProject] is loaded, its
    assets listed in whatever order, into any state of the component.  Then
    [handleLoadProject] completes; the tracks and the clips are those saved,
    the zoom is the zoom saved, or 50 if that was 0, and both the undo and
    the redo stack are empty.  Every clip whose buffer was in the sample
    store when the project was saved finds in the store the decoded copy of
    that buffer, unless the id of the buffer is [__proto__]: that buffer is
    not saved, and under that id the store holds after the load what it
    held before.  Every track saved has its chain, every source that was
    active has been asked to stop and none is active.  The playhead, the
    selection and the playing flag are those of the state loaded into. *)
Theorem App_saved_project_loads_back
    (audioBufferToWav : AudioBuffer.t -> list Z) (arrayBufferToBase64 : list Z -> string)
    (decode : string -> option AudioBuffer.t) (dec : AudioBuffer.t -> AudioBuffer.t)
    (P : Platform) (now : Q) (a a0 : App.State)
    (saved : App.SavedProject) (assets : Assets.object) :
  (forall b, decode (arrayBufferToBase64 (audioBufferToWav b)) = Some (dec b)) ->
  App.handleSaveProject audioBufferToWav arrayBufferToBase64 a = Some saved ->
  Permutation assets (App.sp_assets saved) ->
  let load := App.handleLoadProject decode P now (App_read_back saved assets) in
  let a' := state_after load a0 in
  fst (load a0) = Normal tt
  /\ App.tracks a' = App.tracks a /\ App.clips a' = App.clips a
  /\ App.zoom a' = or_default (App.zoom a) 50
  /\ App.history a' = [] /\ App.future a' = []
  /\ (forall c b, In c (App.clips a) ->
        Services.clip_bufferId c <> "__proto__" ->
        Services.bufferMap (App.audioEngine a) !! Services.clip_bufferId c = Some b ->
        Services.bufferMap (App.audioEngine a') !! Services.clip_bufferId c
        = Some (dec b))
  /\ Services.bufferMap (App.audioEngine a') !! "__proto__"
     = Services.bufferMap (App.audioEngine a0) !! "__proto__"
  /\ (forall t, In t (App.tracks a) ->
        is_Some (Services.trackNodes (App.audioEngine a') !! Services.track_id t))
  /\ Services.activeSources (App.audioEngine a') = []
  /\ stops (Services.calls (App.audioEngine a'))
     = stops (Services.calls (App.audioEngine a0))
       ++ live P (Services.activeSources (App.audioEngine a0))
  /\ App.isPlaying a' = App.isPlaying a0 /\ App.currentTime a' = App.currentTime a0
  /\ App.selectedClipId a' = App.selectedClipId a0.
Proof.
  intros Hdec Hsave Hperm. cbv zeta.
  unfold App.handleSaveProject in Hsave.
  destruct (App.tracks a) as [| t0 ts] eqn:Ht; [discriminate Hsave |].
  rewrite <- Ht in *. clear Ht t0 ts.
  injection Hsave as <-. cbn [App.sp_assets] in Hperm.
  pose proof (Assets_serializeBuffers_saves_parts audioBufferToWav arrayBufferToBase64
                (map Services.clip_bufferId (App.clips a)) (App.audioEngine a))
    as (Hnd & Hprop & Hval).
  set (saved_assets := Assets.serializeBuffers audioBufferToWav arrayBufferToBase64
                         (map Services.clip_bufferId (App.clips a))
                         (App.audioEngine a)) in *.
  assert (Hall : forall x, In x assets -> is_Some (decode (snd x))).
  { intros [id s] Hin.
    apply (Permutation_in _ Hperm), Hval in Hin as (_ & _ & b & _ & ->).
    cbn [snd]. rewrite Hdec. eauto. }
  unfold state_after.
  rewrite App_handleLoadProject_eq; [| reflexivity | exact Hall].
  cbn [fst snd App.tracks App.clips App.zoom App.history App.future App.audioEngine
       App.isPlaying App.currentTime App.selectedClipId App_read_back
       App.sp_tracks App.sp_clips App.sp_zoom App.sp_assets
       Services.bufferMap Services.trackNodes Services.activeSources Services.calls].
  do 6 (split; [reflexivity |]).
  split.
  { intros c b Hc Hp Hb.
    apply App_loaded_present with (s := arrayBufferToBase64 (audioBufferToWav b)).
    - apply (Permutation_NoDup (Permutation_map fst (Permutation_sym Hperm))), Hnd.
    - apply (Permutation_in _ (Permutation_sym Hperm)), Hprop.
      + apply in_map. exact Hc.
      + exact Hp.
      + exact Hb.
    - apply Hdec. }
  split.
  { apply App_loaded_absent. intros Hin.
    apply in_map_iff in Hin as ([id s] & Hid & Hin). cbn [fst] in Hid. subst id.
    apply (Permutation_in _ Hperm), Hval in Hin as (Hp & _). now apply Hp. }
  split.
  { intros t Hin. rewrite Services_liveChains_lookup.
    destruct (List.find _ (rev (App.tracks a))) as [t' |] eqn:E; [eauto |].
    exfalso. apply in_rev in Hin.
    pose proof (find_none _ _ E t Hin) as Hn. simpl in Hn.
    now rewrite String.eqb_refl in Hn. }
  split; [reflexivity |].
  split; [rewrite stops_app, stops_map_Stop; reflexivity |].
  repeat split; reflexivity.
Qed.

(** [App_sample], saved and loaded into the state of the first render,
    with converters that give every buffer the same text. *)
Lemma App_saved_project_witness :
  exists saved,
    App.handleSaveProject (fun _ => []) (fun _ => "w") App_sample = Some saved
    /\ App.clips
         (state_after (App.handleLoadProject (fun _ => Some silence2s) webAudio 0
                         (App_read_back saved (App.sp_assets saved)))
                      App.initial)
       = App.clips App_sample.
Proof.
  eexists. split; [reflexivity |].
  exact (proj1 (proj2 (proj2
           (App_saved_project_loads_back (fun _ => []) (fun _ => "w")
              (fun _ => Some silence2s) (fun _ => silence2s) webAudio 0
              App_sample App.initial _ _
              (fun _ => eq_refl) eq_refl (Permutation_refl _))))).
Defined.

(** X24: [handleLoadProject] never raises.  A project whose
    version is not 1 changes nothing.  When an asset does not decode, the
    tracks, the clips, the zoom and both stacks stay as they were, no source
    is asked to stop and no chain is made; but the assets listed before the
    one that failed have been decoded and stay in the sample store, where
    they replace the buffers that had their ids. *)
Theorem App_handleLoadProject_keeps_the_project_on_failure
    (decode : string -> option AudioBuffer.t) (P : Platform) (now : Q)
    (p : App.SavedProject) (a : App.State) :
  let a' := state_after (App.handleLoadProject decode P now p) a in
  fst (App.handleLoadProject decode P now p a) = Normal tt
  /\ (App.sp_version p <> 1%Z -> a' = a)
  /\ (forall pre entry post,
        App.sp_version p = 1%Z ->
        App.sp_assets p = pre ++ entry :: post ->
        (forall x, In x pre -> is_Some (decode (snd x))) ->
        decode (snd entry) = None ->
        App_same_view a' a
        /\ Services.calls (App.audioEngine a') = Services.calls (App.audioEngine a)
        /\ Services.trackNodes (App.audioEngine a')
           = Services.trackNodes (App.audioEngine a)
        /\ Services.activeSources (App.audioEngine a')
           = Services.activeSources (App.audioEngine a)
        /\ Services.bufferMap (App.audioEngine a')
           = App_loaded decode pre (Services.bufferMap (App.audioEngine a))
        /\ forall id s b, In (id, s) pre -> List.NoDup (map fst pre) ->
                          decode s = Some b ->
                          Services.bufferMap (App.audioEngine a') !! id = Some b).
Proof.
  cbv zeta. split; [| split].
  - unfold App.handleLoadProject, try_catch.
    destruct (negb (App.sp_version p =? 1)%Z); [reflexivity |].
    match goal with |- fst (match ?m with _ => _ end) = _ => destruct m as [[[] | err] s] end;
      reflexivity.
  - intros Hv. unfold state_after, App.handleLoadProject, try_catch.
    apply Z.eqb_neq in Hv. rewrite Hv. reflexivity.
  - intros pre entry post Hv Ha Hd Hn. unfold state_after.
    rewrite (App_handleLoadProject_fails_eq decode P now p a pre post entry Hv Ha Hd Hn).
    cbn [snd App_with_engine App.audioEngine Services.with_bufferMap Services.calls
         Services.trackNodes Services.activeSources Services.bufferMap].
    split; [unfold App_same_view; cbn; repeat split; reflexivity |].
    do 4 (split; [reflexivity |]).
    intros id s b Hin Hnd Hb. now apply App_loaded_present with (s := s).
Qed.

(** A project with two assets of which the second does not decode: the
    first is in the store afterwards, the project is not. *)
Lemma App_handleLoadProject_failure_witness :
  let p := {| App.sp_version := 1; App.sp_tracks := [open_track];
              App.sp_clips := [clip_on_t1]; App.sp_zoom := 50;
              App.sp_assets := [("b1", "good"); ("b2", "bad")] |} in
  let decode s := if String.eqb s "good" then Some silence2s else None in
  let a' := state_after (App.handleLoadProject decode webAudio 0 p) App.initial in
  App.clips a' = []
  /\ Services.bufferMap (App.audioEngine a') !! "b1" = Some silence2s.
Proof.
  intros p decode a'.
  pose proof (proj2 (proj2 (App_handleLoadProject_keeps_the_project_on_failure
                              decode webAudio 0 p App.initial))
                [("b1", "good")] ("b2", "bad") [] eq_refl eq_refl) as H.
  assert (Hd : forall x, In x [("b1", "good")] -> is_Some (decode (snd x))).
  { intros x [<- | []]. now exists silence2s. }
  destruct (H Hd eq_refl) as (Hv & _ & _ & _ & _ & Hb).
  split.
  - exact (proj1 (proj2 Hv)).
  - apply (Hb "b1" "good" silence2s); [now left | | reflexivity].
    repeat constructor. intros [].
Defined.

(** ** Timeline: the track under the pointer and the drag of a clip *)

Lemma Timeline_idAt_first (tracks : list Services.Track) :
  Timeline.idAt tracks 0 = Services.track_id <$> tracks !! 0%nat.
Proof. reflexivity. Qed.

Lemma Timeline_getTrackIdFromY_eq (tracks : list Services.Track) (y scrollY : Q) :
  let row := Qfloor ((y + scrollY - Timeline.HEADER_HEIGHT) / Timeline.TRACK_HEIGHT) in
  let index := Z.max 0 (Z.min (Z.of_nat (length tracks) - 1) row) in
  Timeline.getTrackIdFromY tracks y scrollY
  = Normal (Services.track_id <$> tracks !! Z.to_nat index).
Proof.
  cbv zeta. unfold Timeline.getTrackIdFromY. cbv zeta.
  set (rel := y + scrollY - Timeline.HEADER_HEIGHT).
  set (row := Qfloor (rel / Timeline.TRACK_HEIGHT)).
  assert (Hrow : rel < 0 -> (row < 0)%Z).
  { intros Hr. unfold row.
    assert (Hq : rel / Timeline.TRACK_HEIGHT < 0).
    { apply Qlt_shift_div_r; [reflexivity | lra]. }
    destruct (Qfloor_bounds (rel / Timeline.TRACK_HEIGHT)) as [F1 _].
    rewrite Zlt_Qlt. change (inject_Z 0) with 0. lra. }
  destruct (Qltb rel 0) eqn:E.
  - apply Qltb_lt in E. specialize (Hrow E).
    rewrite Timeline_idAt_first. do 3 f_equal. lia.
  - destruct (row <? 0)%Z eqn:E1.
    + apply Z.ltb_lt in E1. rewrite Timeline_idAt_first. do 3 f_equal. lia.
    + apply Z.ltb_ge in E1.
      destruct (Z.of_nat (length tracks) <=? row)%Z eqn:E2.
      * apply Z.leb_le in E2. unfold Timeline.idAt.
        destruct (Z.of_nat (length tracks) - 1 <? 0)%Z eqn:E3.
        -- apply Z.ltb_lt in E3.
           assert (Hl : length tracks = 0%nat) by lia.
           destruct tracks; [reflexivity | discriminate Hl].
        -- apply Z.ltb_ge in E3. do 3 f_equal. lia.
      * apply Z.leb_gt in E2.
        replace (Z.max 0 (Z.min (Z.of_nat (length tracks) - 1) row)) with row by lia.
        destruct (tracks !! Z.to_nat row) as [t |] eqn:Et; [reflexivity |].
        apply lookup_ge_None in Et. lia.
Qed.

Lemma Timeline_getTrackIdFromY_cases (tracks : list Services.Track) (y scrollY : Q) :
  exists r,
    Timeline.getTrackIdFromY tracks y scrollY = Normal r
    /\ (tracks = [] -> r = None)
    /\ (tracks <> [] -> exists t, r = Some (Services.track_id t) /\ In t tracks).
Proof.
  pose proof (Timeline_getTrackIdFromY_eq tracks y scrollY) as E. cbv zeta in E.
  eexists. split; [exact E |].
  split; [intros ->; reflexivity |].
  intros Hne.
  assert (Hlen : (0 < length tracks)%nat).
  { destruct tracks; [now destruct Hne | simpl; lia]. }
  match goal with |- context [tracks !! ?i] => destruct (tracks !! i) as [t |] eqn:Et end.
  2:{ apply lookup_ge_None in Et. lia. }
  exists t. split; [reflexivity |].
  apply list_elem_of_In. eapply list_elem_of_lookup_2. exact Et.
Qed.

(** X25: [getTrackIdFromY] never throws, although its
    last access is written without [?.]: the index is in range there.  For
    a project without tracks the result is [undefined].  Otherwise it is the
    id of a track of the project: the track whose row of 120 pixels, below
    the ruler of 32, holds the position, the first track for a position
    above the rows and the last for one below them. *)
Theorem Timeline_getTrackIdFromY_finds_a_track (tracks : list Services.Track)
    (y scrollY : Q) :
  let row := Qfloor ((y + scrollY - 32) / 120) in
  exists r,
    Timeline.getTrackIdFromY tracks y scrollY = Normal r
    /\ (tracks = [] -> r = None)
    /\ (tracks <> [] ->
        exists t, r = Some (Services.track_id t) /\ In t tracks
                  /\ ((row < 0)%Z -> tracks !! 0%nat = Some t)
                  /\ ((0 <= row < Z.of_nat (length tracks))%Z ->
                      tracks !! Z.to_nat row = Some t)
                  /\ ((Z.of_nat (length tracks) <= row)%Z -> last tracks = Some t)).
Proof.
  cbv zeta. pose proof (Timeline_getTrackIdFromY_eq tracks y scrollY) as E.
  cbv zeta in E. change Timeline.HEADER_HEIGHT with 32 in E.
  change Timeline.TRACK_HEIGHT with 120 in E.
  set (row := Qfloor ((y + scrollY - 32) / 120)) in *.
  eexists. split; [exact E |].
  split; [intros ->; reflexivity |].
  intros Hne.
  assert (Hlen : (0 < length tracks)%nat).
  { destruct tracks; [now destruct Hne | simpl; lia]. }
  destruct (tracks !! Z.to_nat (Z.max 0 (Z.min (Z.of_nat (length tracks) - 1) row)))
    as [t |] eqn:Et.
  2:{ apply lookup_ge_None in Et. lia. }
  exists t. split; [reflexivity |].
  split; [apply list_elem_of_In; eapply list_elem_of_lookup_2; exact Et |].
  split; [| split].
  - intros Hr. rewrite <- Et. f_equal. lia.
  - intros Hr. rewrite <- Et. f_equal. lia.
  - intros Hr. rewrite last_lookup, <- Et. f_equal. lia.
Qed.

(** With two tracks, a pointer 200 pixels down is on the second row. *)
Lemma Timeline_getTrackIdFromY_witness :
  let tracks := [App.newTrack "t1"; App.newTrack "t2"] in
  tracks <> []
  /\ Timeline.getTrackIdFromY tracks 200 0 = Normal (Some "t2").
Proof.
  intros tracks.
  assert (H : tracks <> []) by discriminate.
  split; [exact H |].
  destruct (Timeline_getTrackIdFromY_finds_a_track tracks 200 0)
    as (r & E & _ & Hr).
  destruct (Hr H) as (t & -> & _ & _ & Hrow & _).
  rewrite E. do 2 f_equal.
  assert (Ht : tracks !! 1%nat = Some t)
    by (apply Hrow; vm_compute; split; [discriminate | reflexivity]).
  injection Ht as <-. reflexivity.
Defined.



(** ** Studio: edits while the engine plays *)

Lemma Utils_restarted_eq (P : Platform) (now : Q) (clips : list Utils.AudioClip)
    (tracks : list Utils.Track) (s : Q) (e : Utils.AudioEngine) :
  let l := Utils_requests P now s tracks (Utils.nodes e) clips in
  fst (Utils.stop P e) = Normal tt
  /\ fst (Utils.play P now clips tracks s (state_after (Utils.stop P) e)) = Normal tt
  /\ Utils_restarted P now clips tracks s e
     = {| Utils.context := true;
          Utils.trackChains := Utils_liveChains now tracks (Utils.trackChains e);
          Utils.activeSources := foldl (fun a n => set_add n a) [] (started l);
          Utils.startTime := now -! s;
          Utils.pausedAt := s;
          Utils.isPlaying := true;
          Utils.nodes := (Utils.nodes e + List.length (created l))%nat;
          Utils.onended := Utils.onended e ++ started l;
          Utils.calls :=
            (Utils.calls e ++ map Stop (live P (Utils.activeSources e))) ++ l |}.
Proof.
  cbv zeta. unfold Utils_restarted, state_after.
  rewrite Utils_stop_eq. cbn [fst snd].
  split; [reflexivity |].
  rewrite Utils_play_full. cbn [fst snd].
  split; [reflexivity |].
  unfold Utils_prepared, state_after, Utils.init, modify, Utils_served. simpl.
  destruct (Utils.context e) eqn:Ec; simpl; rewrite ?Ec; reflexivity.
Qed.

Lemma Studio_restart_eq (P : Platform) (now : Q) (clips : list Utils.AudioClip)
    (tracks : list Utils.Track) (s : Q) (a : Studio.State) :
  (Studio.onEngine (Utils.stop P) ;;
   Studio.onEngine (Utils.play P now clips tracks s)) a
  = (Normal tt,
     Studio_edited (Studio.clips a) (Studio.selectedClipId a)
       (Utils_restarted P now clips tracks s (Studio.audioEngine a)) a).
Proof.
  destruct (Utils_restarted_eq P now clips tracks s (Studio.audioEngine a))
    as (H1 & H2 & _). cbv zeta in H1, H2.
  unfold bind, Studio.onEngine at 1. cbn [fst snd]. rewrite H1.
  unfold Studio.onEngine. cbn [fst snd Studio.audioEngine].
  unfold state_after in H2. rewrite H2. reflexivity.
Qed.

Lemma Studio_handleSplitClip_eq (newId : string) (P : Platform) (now : Q)
    (a : Studio.State) (clip : Utils.AudioClip) (rate : Q) :
  Studio_splits a clip rate ->
  let newClips :=
    map (fun c => if String.eqb (Utils.clip_id c) (Utils.clip_id clip)
                  then Studio_left (Studio.currentTime a) rate clip else c)
        (Studio.clips a)
    ++ [Studio_right newId (Studio.currentTime a) rate clip] in
  Studio.handleSplitClip newId P now a
  = (Normal tt,
     Studio_edited newClips (Some newId)
       (if Studio.isPlaying a
        then Utils_restarted P now newClips (Studio.tracks a)
               (Utils.getCurrentTime now (Studio.audioEngine a)) (Studio.audioEngine a)
        else Studio.audioEngine a) a).
Proof.
  intros (sel & Hsel & Hfind & -> & H1 & H2). cbv zeta.
  unfold Studio.handleSplitClip. rewrite bind_get, Hsel, Hfind. cbv zeta.
  apply Qltb_lt in H1, H2. rewrite H1, H2. cbn [andb].
  unfold bind at 1, modify.
  destruct (Studio.isPlaying a) eqn:Ep.
  - rewrite Studio_restart_eq. unfold Studio_edited. cbn. rewrite Ep. reflexivity.
  - unfold ret, Studio_edited. rewrite Ep. reflexivity.
Qed.

(** X27: [handleSplitClip] cuts the selected clip at the
    playhead in timeline time and converts to buffer time with the rate of
    the clip's track (1 for a rate of 0 or a missing track).  When the
    playhead lies strictly inside the clip as the timeline shows it (after
    its start and before [startTime + duration / rate] as JavaScript
    computes it), the clip keeps its start and its offset and gets the
    duration [(playhead - startTime) * rate], which is not negative for a
    rate that is not; the new clip starts at the playhead, on the same
    track and buffer, with the offset [offset + (playhead - startTime) *
    rate] and the duration [duration - (playhead - startTime) * rate],
    every operation rounded as JavaScript rounds it.  The new clip is
    appended and becomes the selection.  Otherwise (nothing selected, or
    the playhead on an edge of the clip or outside it) nothing changes, the
    engine included. *)
Theorem Studio_handleSplitClip_cuts_in_timeline_time (newId : string) (P : Platform)
    (now : Q) (a : Studio.State) :
  let a1 := state_after (Studio.handleSplitClip newId P now) a in
  (forall clip rate, Studio_splits a clip rate ->
     exists left right,
       fst (Studio.handleSplitClip newId P now a) = Normal tt
       /\ Studio.clips a1
          = map (fun c => if String.eqb (Utils.clip_id c) (Utils.clip_id clip)
                          then left else c) (Studio.clips a) ++ [right]
       /\ Studio.selectedClipId a1 = Some newId
       /\ Studio.tracks a1 = Studio.tracks a
       /\ left = Studio.with_duration (Utils.clip_duration left) clip
       /\ Utils.clip_id right = newId
       /\ Utils.clip_trackId right = Utils.clip_trackId clip
       /\ Utils.clip_buffer right = Utils.clip_buffer clip
       /\ Utils.clip_startTime right = Studio.currentTime a
       /\ Utils.clip_duration left
          = (Studio.currentTime a -! Utils.clip_startTime clip) *! rate
       /\ Utils.clip_offset right = Utils.clip_offset clip +! Utils.clip_duration left
       /\ Utils.clip_duration right
          = Utils.clip_duration clip -! Utils.clip_duration left
       /\ (0 <= rate -> 0 <= Utils.clip_duration left))
  /\ ((forall clip rate, ~ Studio_splits a clip rate) ->
      Studio.handleSplitClip newId P now a = (Normal tt, a)).
Proof.
  cbv zeta. split.
  - intros clip rate Hs.
    pose proof (Studio_handleSplitClip_eq newId P now a clip rate Hs) as E.
    cbv zeta in E. unfold state_after. rewrite E. clear E.
    destruct Hs as (sel & Hsel & Hfind & Hr & H1 & H2).
    exists (Studio_left (Studio.currentTime a) rate clip),
           (Studio_right newId (Studio.currentTime a) rate clip).
    cbn [fst snd Studio_edited Studio.clips Studio.selectedClipId Studio.tracks
         Studio_left Studio_right Studio.with_duration Utils.clip_id Utils.clip_trackId
         Utils.clip_buffer Utils.clip_startTime Utils.clip_duration Utils.clip_offset].
    do 12 (split; [reflexivity |]).
    intros Hpos. unfold mul64. apply binary64_nonneg.
    apply Qmult_le_0_compat; [| exact Hpos].
    unfold sub64. apply binary64_nonneg. lra.
  - intros Hno. unfold Studio.handleSplitClip. rewrite bind_get.
    destruct (Studio.truthy (Studio.selectedClipId a)) as [sel |] eqn:Hsel; [| reflexivity].
    destruct (List.find _ (Studio.clips a)) as [clip |] eqn:Hfind; [| reflexivity].
    cbv zeta.
    destruct (Qltb (Utils.clip_startTime clip) (Studio.currentTime a)) eqn:H1;
      [| reflexivity].
    destruct (Qltb (Studio.currentTime a) _) eqn:H2; [| reflexivity].
    exfalso. apply (Hno clip (Studio.rateOf (Studio.tracks a) clip)). exists sel.
    apply Qltb_lt in H1, H2. tauto.
Qed.

(** The clip of [Studio_sample], from second 1 to second 3, is cut at the
    playhead, second 2. *)
Lemma Studio_handleSplitClip_witness :
  Studio_splits Studio_sample clip_at_1 1
  /\ Studio.selectedClipId
       (state_after (Studio.handleSplitClip "n" webAudio 0) Studio_sample)
     = Some "n".
Proof.
  assert (H : Studio_splits Studio_sample clip_at_1 1).
  { exists "a". split; [reflexivity |]. split; [reflexivity |]. split; [reflexivity |].
    split; vm_compute; reflexivity. }
  split; [exact H |].
  destruct (proj1 (Studio_handleSplitClip_cuts_in_timeline_time "n" webAudio 0
                     Studio_sample) clip_at_1 1 H)
    as (left & right & _ & _ & Hsel & _).
  exact Hsel.
Defined.

Lemma Utils_getCurrentTime_playing (now : Q) (e : Utils.AudioEngine) :
  Utils.isPlaying e = true -> Utils.context e = true ->
  Utils.getCurrentTime now e = now -! Utils.startTime e.
Proof. intros Hp Hc. unfold Utils.getCurrentTime. now rewrite Hp, Hc. Qed.

(** The clock and the log of an engine that was stopped and set playing
    again from position [s] at context time [now]. *)
Lemma Utils_restarted_clock (P : Platform) (now : Q) (clips : list Utils.AudioClip)
    (tracks : list Utils.Track) (s : Q) (e : Utils.AudioEngine) :
  let e' := Utils_restarted P now clips tracks s e in
  Utils.isPlaying e' = true
  /\ (forall now', Utils.getCurrentTime now' e' = now' -! (now -! s))
  /\ Utils.calls e'
     = Utils.calls e ++ map Stop (live P (Utils.activeSources e))
       ++ Utils_requests P now s tracks (Utils.nodes e) clips.
Proof.
  cbv zeta. destruct (Utils_restarted_eq P now clips tracks s e) as (_ & _ & ->).
  split; [reflexivity |]. split.
  - intros now'. reflexivity.
  - cbn. now rewrite <- app_assoc.
Qed.

Lemma Studio_handleDeleteClip_eq (P : Platform) (now : Q) (a : Studio.State)
    (sel : string) :
  Studio.truthy (Studio.selectedClipId a) = Some sel ->
  let newClips :=
    List.filter (fun c => negb (String.eqb (Utils.clip_id c) sel)) (Studio.clips a) in
  Studio.handleDeleteClip P now a
  = (Normal tt,
     Studio_edited newClips None
       (if Studio.isPlaying a
        then Utils_restarted P now newClips (Studio.tracks a)
               (Utils.getCurrentTime now (Studio.audioEngine a)) (Studio.audioEngine a)
        else Studio.audioEngine a) a).
Proof.
  intros Hsel. cbv zeta.
  unfold Studio.handleDeleteClip. rewrite bind_get, Hsel. cbv zeta.
  unfold bind at 1, modify.
  destruct (Studio.isPlaying a) eqn:Ep.
  - rewrite Studio_restart_eq. unfold Studio_edited. cbn. rewrite Ep. reflexivity.
  - unfold ret, Studio_edited. rewrite Ep. reflexivity.
Qed.



(** ** The length of an export *)

(** A loop keeps what every step keeps, also when a step throws. *)
Lemma forEach_preserves {S X} (I : S -> Prop) (f : X -> Eff S unit) (xs : list X) :
  (forall x s, In x xs -> I s -> I (snd (f x s))) ->
  forall s, I s -> I (snd (forEach f xs s)).
Proof.
  induction xs as [| x xs IH]; intros Hf s Hs; [exact Hs |].
  cbn [forEach]. unfold bind.
  pose proof (Hf x s (or_introl eq_refl) Hs) as Hx.
  destruct (f x s) as [[[] | err] s']; cbn [snd] in *.
  - apply IH; [| exact Hx]. intros y t Hy. apply Hf. now right.
  - exact Hx.
Qed.

Lemma Math_max_fold_ge {X} (f : X -> Q) (xs : list X) :
  forall m, m <= foldl (fun max x => Services.Math_max max (f x)) m xs
            /\ forall x, In x xs ->
                         f x <= foldl (fun max x => Services.Math_max max (f x)) m xs.
Proof.
  induction xs as [| y xs IH]; intros m; cbn [foldl].
  - split; [lra | intros x []].
  - destruct (IH (Services.Math_max m (f y))) as [H1 H2].
    assert (Hm : m <= Services.Math_max m (f y) /\ f y <= Services.Math_max m (f y)).
    { unfold Services.Math_max. destruct (Qltb m (f y)) eqn:E.
      - apply Qltb_lt in E. lra.
      - apply Qltb_ge in E. lra. }
    split; [lra |].
    intros x [<- | Hx]; [lra | now apply H2].
Qed.

Lemma Utils_offlineGraph_sources (P : Platform) (clips : list Utils.AudioClip)
    (tracks : list Utils.Track) (d : Q) (oc : OfflineAudioContext) :
  fst (Utils.offlineGraph P clips tracks d) = Normal oc ->
  oc_length oc = Qceiling (d *! 44100)
  /\ forall s, In s (oc_sources oc) ->
               exists c, In c clips
                         /\ os_when s = Utils.clip_startTime c
                         /\ os_duration s = Utils.clip_duration c
                         /\ os_playbackRate s = Studio.rateOf tracks c.
Proof.
  unfold Utils.offlineGraph. cbv zeta.
  set (b0 := {| Utils.offlineCtx := _; Utils.offlineTrackInputs := _ |}).
  set (I := fun b : Utils.OfflineBuild =>
              oc_length (Utils.offlineCtx b) = Qceiling (d *! 44100)
              /\ forall s, In s (oc_sources (Utils.offlineCtx b)) ->
                           exists c, In c clips
                                     /\ os_when s = Utils.clip_startTime c
                                     /\ os_duration s = Utils.clip_duration c
                                     /\ os_playbackRate s = Studio.rateOf tracks c).
  pose proof (Utils_render_tracks tracks b0) as Ht. cbv zeta in Ht.
  destruct Ht as (Hn & _ & Hlen & _ & _ & Hsrc & _).
  assert (I1 : I (snd (forEach Utils.renderTrack tracks b0))).
  { split; [rewrite Hlen; reflexivity |]. rewrite Hsrc. intros s []. }
  assert (I2 : I (snd (forEach (Utils.renderClip P tracks) clips
                         (snd (forEach Utils.renderTrack tracks b0))))).
  { apply forEach_preserves; [| exact I1].
    intros c b Hc [Hl Hs]. unfold Utils.renderClip, Studio.rateOf in *.
    destruct (List.find _ tracks) as [t |] eqn:Ef; [| split; assumption].
    destruct (Utils.track_muted t); [split; assumption |].
    rewrite bind_get.
    destruct (Utils.offlineTrackInputs b !! Utils.clip_trackId c);
      [| split; assumption].
    destruct (start_throws P _ _ _); [split; assumption |].
    unfold modify. cbn [snd Utils.offlineCtx Utils.add_source oc_length oc_sources].
    split; [exact Hl |].
    intros s Hin. apply in_app_or in Hin as [Hin | [<- | []]]; [now apply Hs |].
    exists c. cbn. rewrite Ef. split; [exact Hc |]. repeat split; reflexivity. }
  unfold bind.
  destruct (forEach Utils.renderTrack tracks b0) as [r b1]. cbn [fst snd] in *. subst r.
  destruct (forEach (Utils.renderClip P tracks) clips b1) as [[[] | err] b2];
    cbn [fst snd] in *; [| discriminate].
  unfold get, ret. cbn [fst]. intros H. injection H as <-. exact I2.
Qed.

Lemma Services_offlineGraph_sources (P : Platform) (e : Services.AudioEngine)
    (clips : list Services.AudioClip) (tracks : list Services.Track) (d : Q)
    (oc : OfflineAudioContext) :
  fst (Services.offlineGraph P e clips tracks d) = Normal oc ->
  oc_length oc = Qceiling (d *! 44100)
  /\ forall s, In s (oc_sources oc) ->
               exists c, In c clips
                         /\ os_when s = Services.clip_startTime c
                         /\ os_duration s = Services.clip_duration c
                         /\ os_playbackRate s = 1.
Proof.
  unfold Services.offlineGraph. cbv zeta.
  set (b0 := {| Services.offlineCtx := _; Services.offlineTrackNodes := _ |}).
  set (I := fun b : Services.OfflineBuild =>
              oc_length (Services.offlineCtx b) = Qceiling (d *! 44100)
              /\ forall s, In s (oc_sources (Services.offlineCtx b)) ->
                           exists c, In c clips
                                     /\ os_when s = Services.clip_startTime c
                                     /\ os_duration s = Services.clip_duration c
                                     /\ os_playbackRate s = 1).
  pose proof (Services_export_tracks tracks b0) as Ht. cbv zeta in Ht.
  destruct Ht as (Hn & _ & Hlen & _ & _ & Hsrc & _).
  assert (I1 : I (snd (forEach Services.exportTrack tracks b0))).
  { split; [rewrite Hlen; reflexivity |]. rewrite Hsrc. intros s []. }
  assert (I2 : I (snd (forEach (Services.exportClip P e) clips
                         (snd (forEach Services.exportTrack tracks b0))))).
  { apply forEach_preserves; [| exact I1].
    intros c b Hc [Hl Hs]. unfold Services.exportClip.
    rewrite bind_get.
    destruct (Services.bufferMap e !! Services.clip_bufferId c); [| split; assumption].
    destruct (Services.offlineTrackNodes b !! Services.clip_trackId c);
      [| split; assumption].
    destruct (start_throws P _ _ _); [split; assumption |].
    unfold modify. cbn [snd Services.offlineCtx Utils.add_source oc_length oc_sources].
    split; [exact Hl |].
    intros s Hin. apply in_app_or in Hin as [Hin | [<- | []]]; [now apply Hs |].
    exists c. cbn. split; [exact Hc |]. repeat split; reflexivity. }
  unfold bind.
  destruct (forEach Services.exportTrack tracks b0) as [r b1]. cbn [fst snd] in *. subst r.
  destruct (forEach (Services.exportClip P e) clips b1) as [[[] | err] b2];
    cbn [fst snd] in *; [| discriminate].
  unfold get, ret. cbn [fst]. intros H. injection H as <-. exact I2.
Qed.

Lemma Math_max_of_spec (xs : list Q) :
  forall x, In (App.Math_max_of x xs) (x :: xs)
            /\ forall y, In y (x :: xs) -> y <= App.Math_max_of x xs.
Proof.
  unfold App.Math_max_of.
  induction xs as [| z xs IH]; intros x; cbn [foldl].
  - split; [now left |]. intros y [<- | []]. lra.
  - destruct (IH (Services.Math_max x z)) as [H1 H2].
    assert (Hm : (Services.Math_max x z = x \/ Services.Math_max x z = z)
                 /\ x <= Services.Math_max x z /\ z <= Services.Math_max x z).
    { unfold Services.Math_max. destruct (Qltb x z) eqn:E.
      - apply Qltb_lt in E. split; [now right | lra].
      - apply Qltb_ge in E. split; [now left | lra]. }
    destruct Hm as (Hc & Hx & Hz).
    split.
    + destruct H1 as [H1 | H1].
      * rewrite <- H1. destruct Hc as [-> | ->]; [now left | now right; left].
      * now right; right.
    + pose proof (H2 _ (or_introl eq_refl)) as Hmax.
      intros y [<- | [<- | Hy]]; [lra | lra |].
      apply H2. now right.
Qed.

Lemma add64_le_compat (x y z : Q) : x <= y -> x +! z <= y +! z.
Proof. intros H. unfold add64. apply binary64_monotone. lra. Qed.

Lemma frames_le_compat (x y : Q) : x <= y -> x *! 44100 <= y *! 44100.
Proof. intros H. unfold mul64. apply binary64_monotone. lra. Qed.

(** X29: both export handlers render one second more than the
    project needs, in the arithmetic of JavaScript numbers.
    [handleExportMp3] renders up to the latest end of a clip on the
    timeline, where a clip on a track of rate r ends at
    [startTime + duration / r] (r being 1 for a rate of 0 or a missing
    track), or up to 0 if that is later, plus one second: the length is at
    least one second, and a project without clips gives one second of
    silence.  [exportProject] of [App] does nothing for a project without
    clips and otherwise renders up to the latest end of a clip,
    [startTime + duration], plus one second.  In both, the offline context
    has [ceil(length * 44100)] frames, which is not less than the product,
    nor than the product that the end of any source of the graph plus one
    second gives. *)
Theorem export_handlers_render_one_second_past_the_last_clip :
  (forall (lamejs : option Mp3.Lamejs) (P : Platform) (now : Q) (a : Studio.State),
     let ending c := Utils.clip_startTime c
                     +! Utils.clip_duration c /! Studio.rateOf (Studio.tracks a) c in
     let duration := Studio.projectEndTime (Studio.tracks a) (Studio.clips a) +! 1 in
     Studio.handleExportMp3 lamejs P now a
     = Mp3.renderMp3 lamejs P now (Studio.audioEngine a) (Studio.clips a)
         (Studio.tracks a) duration
     /\ 1 <= duration
     /\ (Studio.clips a = [] -> duration = 1)
     /\ (forall c, In c (Studio.clips a) ->
           ending c <= Studio.projectEndTime (Studio.tracks a) (Studio.clips a)
           /\ ending c +! 1 <= duration)
     /\ forall oc,
         fst (Utils.offlineGraph P (Studio.clips a) (Studio.tracks a) duration)
         = Normal oc ->
         oc_length oc = Qceiling (duration *! 44100)
         /\ duration *! 44100 <= inject_Z (oc_length oc)
         /\ forall s, In s (oc_sources oc) ->
                      (os_when s +! os_duration s /! os_playbackRate s +! 1) *! 44100
                      <= inject_Z (oc_length oc))
  /\ (forall (audioBufferToWav : AudioBuffer.t -> list Z) (P : Platform) (now : Q)
             (a : App.State),
        (App.clips a = [] ->
         App.exportProject audioBufferToWav P now a = (Normal None, a))
        /\ (App.clips a <> [] ->
            exists duration,
              App.exportProject audioBufferToWav P now a
              = (match Services.exportProject audioBufferToWav P now (App.audioEngine a)
                         (App.clips a) (App.tracks a) duration with
                 | Normal blob => Normal (Some blob)
                 | Throw err => Throw err
                 end, a)
              /\ (forall c, In c (App.clips a) ->
                    Services.clip_startTime c +! Services.clip_duration c +! 1 <= duration)
              /\ (exists c, In c (App.clips a)
                            /\ duration
                               = Services.clip_startTime c +! Services.clip_duration c +! 1)
              /\ forall oc,
                  fst (Services.offlineGraph P (App.audioEngine a) (App.clips a)
                         (App.tracks a) duration) = Normal oc ->
                  oc_length oc = Qceiling (duration *! 44100)
                  /\ duration *! 44100 <= inject_Z (oc_length oc)
                  /\ forall s, In s (oc_sources oc) ->
                               (os_when s +! os_duration s +! 1) *! 44100
                               <= inject_Z (oc_length oc))).
Proof.
  split.
  - intros lamejs P now a. cbv zeta.
    split; [reflexivity |].
    destruct (Math_max_fold_ge
                (fun clip : Utils.AudioClip =>
                   Utils.clip_startTime clip
                   +! Utils.clip_duration clip /! Studio.rateOf (Studio.tracks a) clip)
                (Studio.clips a) 0) as [H0 Hc].
    fold (Studio.projectEndTime (Studio.tracks a) (Studio.clips a)) in H0, Hc.
    split.
    { apply (add64_le_compat _ _ 1) in H0. exact H0. }
    split; [intros Hnil; unfold Studio.projectEndTime; rewrite Hnil; reflexivity |].
    assert (Hclips : forall c, In c (Studio.clips a) ->
              Utils.clip_startTime c
              +! Utils.clip_duration c /! Studio.rateOf (Studio.tracks a) c +! 1
              <= Studio.projectEndTime (Studio.tracks a) (Studio.clips a) +! 1).
    { intros c Hin. apply add64_le_compat. exact (Hc c Hin). }
    split; [intros c Hin; split; [exact (Hc c Hin) | exact (Hclips c Hin)] |].
    intros oc Hoc. apply Utils_offlineGraph_sources in Hoc as [Hl Hs].
    rewrite Hl.
    pose proof (Qle_ceiling
                  ((Studio.projectEndTime (Studio.tracks a) (Studio.clips a) +! 1)
                   *! 44100))
      as Hceil.
    split; [reflexivity |].
    split; [exact Hceil |].
    intros s Hin. destruct (Hs s Hin) as (c & Hcin & -> & -> & ->).
    specialize (Hclips c Hcin).
    eapply Qle_trans; [| exact Hceil].
    now apply frames_le_compat.
  - intros toWav P now a. split.
    + intros Hnil. unfold App.exportProject. rewrite bind_get, Hnil. reflexivity.
    + intros Hne. destruct (App.clips a) as [| c0 cs] eqn:Ecl; [now destruct Hne |].
      rewrite <- Ecl.
      remember (map (fun c => Services.clip_startTime c +! Services.clip_duration c) cs)
        as ends eqn:Eends.
      remember (Services.clip_startTime c0 +! Services.clip_duration c0) as x eqn:Ex.
      exists (App.Math_max_of x ends +! 1).
      destruct (Math_max_of_spec ends x) as [Hin Hmax].
      remember (App.Math_max_of x ends) as M eqn:EM.
      assert (Hclips : forall c, In c (App.clips a) ->
                Services.clip_startTime c +! Services.clip_duration c +! 1
                <= M +! 1).
      { intros c Hc. rewrite Ecl in Hc.
        assert (Hy : In (Services.clip_startTime c +! Services.clip_duration c)
                        (x :: ends)).
        { destruct Hc as [<- | Hc]; [now left |].
          right. rewrite Eends. apply in_map_iff. now exists c. }
        apply add64_le_compat. exact (Hmax _ Hy). }
      split.
      { unfold App.exportProject. rewrite bind_get, Ecl. cbn [map].
        rewrite <- Ex, <- Eends, <- Ecl, <- EM.
        destruct (Services.exportProject toWav P now (App.audioEngine a) (App.clips a)
                    (App.tracks a) (M +! 1)); reflexivity. }
      split; [exact Hclips |].
      split.
      { destruct Hin as [Hin | Hin].
        - exists c0. rewrite Ecl. split; [now left |]. now rewrite <- Hin, Ex.
        - rewrite Eends in Hin. apply in_map_iff in Hin as (c & Hc & Hcin).
          exists c. rewrite Ecl. split; [now right |]. now rewrite <- Hc. }
      intros oc Hoc. apply Services_offlineGraph_sources in Hoc as [Hl Hs].
      rewrite Hl.
      pose proof (Qle_ceiling ((M +! 1) *! 44100)) as Hceil.
      split; [reflexivity |].
      split; [exact Hceil |].
      intros s Hsin. destruct (Hs s Hsin) as (c & Hcin & -> & -> & _).
      specialize (Hclips c Hcin).
      eapply Qle_trans; [| exact Hceil].
      now apply frames_le_compat.
Qed.

(** ** Studio: the drag of a clip *)


